(** * Validation engine and graph utilities of the workforce-allocation backend

    A shallow embedding of

    - [services/enhanced-validation.service.js] ([EnhancedValidationService]),
    - [services/validation.service.js] ([validateRecords] and its helpers),
    - [utils/graphUtils.js] ([GraphUtils]),

    followed by the properties of the validation pipeline and of the
    dependency-graph routines.

    The JavaScript data the services receive is modelled by the tree type
    [JS.value]; engine faults are modelled by the completion monad
    [JS.completion] ([Normal] or [Throw]), and every [try]/[catch] of the
    source is a [try_catch] here. *)

From Stdlib Require Import List String Ascii ZArith Lia Bool Arith.
From Stdlib Require Import Permutation DecimalString Relations.
Import ListNotations.

Local Open Scope string_scope.
Local Open Scope Z_scope.

Set Warnings "-register-all".

(* ================================================================== *)
(** * Part I.  The JavaScript fragment used by the services             *)
(* ================================================================== *)

Module JS.

(** Values.  Numbers are the integer-valued numbers (with [VNaN] for the
    not-a-number value); arrays and plain objects are immutable trees, an
    object being its own properties in insertion order.  Prototype
    properties, non-integer numbers and object identity are not part of the
    model. *)
Inductive value : Type :=
| VUndefined
| VNull
| VBool (b : bool)
| VNum (n : Z)
| VNaN
| VStr (s : string)
| VArr (items : list value)
| VObj (fields : list (string * value)).

(** Thrown errors: constructor name and message. *)
Record exn : Type := mkExn { exn_name : string; exn_message : string }.

Definition TypeError (msg : string) : exn := mkExn "TypeError" msg.
Definition SyntaxError (msg : string) : exn := mkExn "SyntaxError" msg.
Definition Error (msg : string) : exn := mkExn "Error" msg.

(** Outcome of evaluating a piece of code. *)
Inductive completion (A : Type) : Type :=
| Normal (a : A)
| Throw (e : exn).
Arguments Normal {A} a.
Arguments Throw {A} e.

Definition bind {A B} (c : completion A) (k : A -> completion B) : completion B :=
  match c with
  | Normal a => k a
  | Throw e => Throw e
  end.

(** [try { c } catch (e) { h e }] *)
Definition try_catch {A} (c : completion A) (h : exn -> completion A) : completion A :=
  match c with
  | Normal a => Normal a
  | Throw e => h e
  end.

Declare Scope js_scope.
Delimit Scope js_scope with js.
Notation "x <- c ;; k" := (bind c (fun x => k))
  (at level 61, c at next level, right associativity) : js_scope.
Notation "c ;;; k" := (bind c (fun _ => k))
  (at level 61, right associativity) : js_scope.
Local Open Scope js_scope.

(** [arr.push(x)] *)
Definition push {A} (arr : list A) (x : A) : list A := (arr ++ [x])%list.

(** [arr.forEach((x, index) => body)] where the body updates local state
    [S] and may throw. *)
Fixpoint forEach_from {A S} (body : S -> A -> nat -> completion S)
         (l : list A) (index : nat) (s : S) : completion S :=
  match l with
  | [] => Normal s
  | x :: r => s' <- body s x index ;; forEach_from body r (Datatypes.S index) s'
  end.

Definition forEach {A S} (body : S -> A -> nat -> completion S)
           (l : list A) (s : S) : completion S :=
  forEach_from body l 0%nat s.

(** [arr.map(x => f x)] where the callback may throw. *)
Fixpoint array_map {A B} (f : A -> completion B) (l : list A)
  : completion (list B) :=
  match l with
  | [] => Normal []
  | x :: r => y <- f x ;; ys <- array_map f r ;; Normal (y :: ys)
  end.

(** [arr.filter(x => p x)] where the callback may throw. *)
Fixpoint array_filter {A} (p : A -> completion bool) (l : list A)
  : completion (list A) :=
  match l with
  | [] => Normal []
  | x :: r =>
      keep <- p x ;;
      ys <- array_filter p r ;;
      Normal (if keep then x :: ys else ys)
  end.

(** A loop whose body mutates its state in place: a fault leaves the
    state as the completed iterations made it. *)
Fixpoint for_of_partial {A S} (body : S -> A -> completion S)
         (l : list A) (s : S) : S * option exn :=
  match l with
  | [] => (s, None)
  | x :: r =>
      match body s x with
      | Normal s' => for_of_partial body r s'
      | Throw e => (s, Some e)
      end
  end.

(** ** Strings *)

(** Strings are lists of bytes.  The white space that [trim] strips is
    the white space of ASCII; on text with other characters (U+00A0,
    U+FEFF, U+2028, ...) the embedding is not that of the source, and
    the theorems that depend on [trim] are stated for ASCII text. *)
Definition is_white_space (c : ascii) : bool :=
  match nat_of_ascii c with
  | 9%nat | 10%nat | 11%nat | 12%nat | 13%nat | 32%nat => true
  | _ => false
  end.

Fixpoint trimStart (s : string) : string :=
  match s with
  | String c r => if is_white_space c then trimStart r else s
  | EmptyString => EmptyString
  end.

Definition reverse (s : string) : string :=
  string_of_list_ascii (rev (list_ascii_of_string s)).

Definition trimEnd (s : string) : string := reverse (trimStart (reverse s)).

(** [s.trim()] *)
Definition trim (s : string) : string := trimEnd (trimStart s).

(** [s.split(c)] for a one-character separator. *)
Fixpoint split_aux (sep : ascii) (s : string) (cur : list ascii) : list string :=
  match s with
  | EmptyString => [string_of_list_ascii (rev cur)]
  | String c r =>
      if Ascii.eqb c sep
      then string_of_list_ascii (rev cur) :: split_aux sep r []
      else split_aux sep r (c :: cur)
  end.

Definition split (sep : ascii) (s : string) : list string := split_aux sep s [].

(** [s.includes(c)] for a one-character needle. *)
Fixpoint includes_char (c : ascii) (s : string) : bool :=
  match s with
  | EmptyString => false
  | String d r => Ascii.eqb c d || includes_char c r
  end.

(** [s.replace(/[\[\]]/g, '')] *)
Fixpoint remove_brackets (s : string) : string :=
  match s with
  | EmptyString => EmptyString
  | String c r =>
      if Ascii.eqb c "["%char || Ascii.eqb c "]"%char
      then remove_brackets r
      else String c (remove_brackets r)
  end.

Definition lower_char (c : ascii) : ascii :=
  let n := nat_of_ascii c in
  if (65 <=? n)%nat && (n <=? 90)%nat then ascii_of_nat (n + 32) else c.

(** [s.toLowerCase()] on the ASCII range. *)
Fixpoint toLowerCase (s : string) : string :=
  match s with
  | EmptyString => EmptyString
  | String c r => String (lower_char c) (toLowerCase r)
  end.

(** [parts.join(sep)] on strings. *)
Fixpoint join (sep : string) (parts : list string) : string :=
  match parts with
  | [] => ""
  | [x] => x
  | x :: r => x ++ sep ++ join sep r
  end.

(** Decimal rendering of an integer-valued number. *)
Definition string_of_Z (z : Z) : string := NilZero.string_of_int (Z.to_int z).

Definition string_of_nat (n : nat) : string := string_of_Z (Z.of_nat n).

(** ** Conversions *)

(** [String(v)], also the conversion applied by template literals. *)
Fixpoint ToString (v : value) : string :=
  match v with
  | VUndefined => "undefined"
  | VNull => "null"
  | VBool true => "true"
  | VBool false => "false"
  | VNum n => string_of_Z n
  | VNaN => "NaN"
  | VStr s => s
  | VArr items =>
      (fix join_items (l : list value) : string :=
         match l with
         | [] => ""
         | x :: r =>
             let sx := match x with
                       | VUndefined | VNull => ""
                       | _ => ToString x
                       end in
             match r with
             | [] => sx
             | _ :: _ => sx ++ "," ++ join_items r
             end
         end) items
  | VObj _ => "[object Object]"
  end.

(** Truthiness, as tested by [if (v)], [!v], [&&] and [||]. *)
Definition truthy (v : value) : bool :=
  match v with
  | VUndefined | VNull | VNaN => false
  | VBool b => b
  | VNum n => negb (n =? 0)
  | VStr s => negb (String.eqb s "")
  | VArr _ | VObj _ => true
  end.

Definition typeof (v : value) : string :=
  match v with
  | VUndefined => "undefined"
  | VNull => "object"
  | VBool _ => "boolean"
  | VNum _ | VNaN => "number"
  | VStr _ => "string"
  | VArr _ | VObj _ => "object"
  end.

Definition isArray (v : value) : bool :=
  match v with VArr _ => true | _ => false end.

Definition digit_value (c : ascii) : option Z :=
  let n := Z.of_nat (nat_of_ascii c) in
  if (48 <=? n) && (n <=? 57) then Some (n - 48)
  else if (97 <=? n) && (n <=? 102) then Some (n - 87)
  else if (65 <=? n) && (n <=? 70) then Some (n - 55)
  else None.

(** Value of the longest prefix of [s] made of digits of the radix;
    [acc] is [None] until a digit has been read. *)
Fixpoint digits_prefix (radix : Z) (s : string) (acc : option Z) : option Z :=
  match s with
  | EmptyString => acc
  | String c r =>
      match digit_value c with
      | Some d =>
          if d <? radix
          then digits_prefix radix r
                 (Some (radix * match acc with Some a => a | None => 0 end + d))
          else acc
      | None => acc
      end
  end.

Definition strip_hex_prefix (s : string) : option string :=
  match s with
  | String "0"%char (String x r) =>
      if Ascii.eqb x "x"%char || Ascii.eqb x "X"%char then Some r else None
  | _ => None
  end.

(** [parseInt(s)] with the default radix; [None] is [NaN]. *)
Definition parseInt_string (s : string) : option Z :=
  let s1 := trimStart s in
  let '(sign, s2) :=
    match s1 with
    | String "-"%char r => (-1, r)
    | String "+"%char r => (1, r)
    | _ => (1, s1)
    end in
  let digits :=
    match strip_hex_prefix s2 with
    | Some h => digits_prefix 16 h None
    | None => digits_prefix 10 s2 None
    end in
  match digits with
  | Some n => Some (sign * n)
  | None => None
  end.

(** [parseInt(v)] *)
Definition parseInt (v : value) : option Z := parseInt_string (ToString v).

Fixpoint all_digits (radix : Z) (s : string) : bool :=
  match s with
  | EmptyString => true
  | String c r =>
      match digit_value c with
      | Some d => (d <? radix) && all_digits radix r
      | None => false
      end
  end.

(** [Number(s)] on integer literals; [None] is [NaN].  Literals with a
    fraction or an exponent denote numbers outside the model and read as
    [NaN] here. *)
Definition StringToNumber (s : string) : option Z :=
  let t := trim s in
  match t with
  | EmptyString => Some 0
  | _ =>
      match strip_hex_prefix t with
      | Some h =>
          if all_digits 16 h then digits_prefix 16 h None else None
      | None =>
          let '(sign, body) :=
            match t with
            | String "-"%char r => (-1, r)
            | String "+"%char r => (1, r)
            | _ => (1, t)
            end in
          if all_digits 10 body
          then match digits_prefix 10 body None with
               | Some n => Some (sign * n)
               | None => None
               end
          else None
      end
  end.

(** [Number(v)]; [None] is [NaN]. *)
Definition ToNumber (v : value) : option Z :=
  match v with
  | VUndefined => None
  | VNull => Some 0
  | VBool b => Some (if b then 1 else 0)
  | VNum n => Some n
  | VNaN => None
  | VStr s => StringToNumber s
  | VArr _ | VObj _ => StringToNumber (ToString v)
  end.

Definition number_value (n : option Z) : value :=
  match n with Some z => VNum z | None => VNaN end.

(** [isNaN(n)] on the result of a numeric conversion. *)
Definition isNaN (n : option Z) : bool :=
  match n with Some _ => false | None => true end.

(** The primitive an operand is converted to before [<], [>] and [+]. *)
Definition ToPrimitive (v : value) : value :=
  match v with
  | VArr _ | VObj _ => VStr (ToString v)
  | _ => v
  end.

(** [a < b] *)
Definition less_than (a b : value) : bool :=
  match ToPrimitive a, ToPrimitive b with
  | VStr s, VStr t => String.ltb s t
  | pa, pb =>
      match ToNumber pa, ToNumber pb with
      | Some x, Some y => x <? y
      | _, _ => false
      end
  end.

(** [a > b] *)
Definition greater_than (a b : value) : bool := less_than b a.

(** [a <= b] and [a >= b] *)
Definition less_equal (a b : value) : bool :=
  match ToPrimitive a, ToPrimitive b with
  | VStr s, VStr t => String.leb s t
  | pa, pb =>
      match ToNumber pa, ToNumber pb with
      | Some x, Some y => x <=? y
      | _, _ => false
      end
  end.

Definition greater_equal (a b : value) : bool := less_equal b a.

(** [a + b] *)
Definition add (a b : value) : value :=
  match ToPrimitive a, ToPrimitive b with
  | VStr s, pb => VStr (s ++ ToString pb)
  | pa, VStr t => VStr (ToString pa ++ t)
  | pa, pb =>
      match ToNumber pa, ToNumber pb with
      | Some x, Some y => VNum (x + y)
      | _, _ => VNaN
      end
  end.

(** [a || b] *)
Definition or_else (a b : value) : value := if truthy a then a else b.

(** Structural equality of values.  On primitives it is [===] (and the
    equality of [Set] and [Map] keys).  On arrays and objects the source
    compares references, which this does not model: the theorems that
    look a value up in a [Set] or a [Map] are stated for primitive
    keys. *)
Fixpoint value_eqb (a b : value) : bool :=
  match a, b with
  | VUndefined, VUndefined => true
  | VNull, VNull => true
  | VBool x, VBool y => Bool.eqb x y
  | VNum x, VNum y => x =? y
  | VNaN, VNaN => true
  | VStr s, VStr t => String.eqb s t
  | VArr l, VArr m =>
      (fix eq_items (l m : list value) : bool :=
         match l, m with
         | [], [] => true
         | x :: l', y :: m' => value_eqb x y && eq_items l' m'
         | _, _ => false
         end) l m
  | VObj f, VObj g =>
      (fix eq_fields (f g : list (string * value)) : bool :=
         match f, g with
         | [], [] => true
         | (k, x) :: f', (k', y) :: g' =>
             String.eqb k k' && value_eqb x y && eq_fields f' g'
         | _, _ => false
         end) f g
  | _, _ => false
  end.

(** [v === VStr s] *)
Definition is_string (s : string) (v : value) : bool :=
  match v with VStr t => String.eqb t s | _ => false end.

(** The text an array element contributes to [arr.join(sep)]. *)
Definition element_string (v : value) : string :=
  match v with
  | VUndefined | VNull => ""
  | _ => ToString v
  end.

(** [arr.join(sep)] *)
Definition array_join (sep : string) (arr : list value) : string :=
  join sep (map element_string arr).

(** [arr[i]] for a computed integer index. *)
Definition element_at (arr : list value) (i : Z) : value :=
  if i <? 0 then VUndefined else nth (Z.to_nat i) arr VUndefined.

(** ** Property access *)

Fixpoint lookup {A} (k : string) (fields : list (string * A)) : option A :=
  match fields with
  | [] => None
  | (k', v) :: r => if String.eqb k k' then Some v else lookup k r
  end.

(** The array index a property name denotes, if any: a canonical decimal
    numeral below 2^32 - 1. *)
Definition array_index (k : string) : option Z :=
  if all_digits 10 k
  then match digits_prefix 10 k None with
       | Some n =>
           if String.eqb (string_of_Z n) k && (n <? 4294967295)
           then Some n else None
       | None => None
       end
  else None.

Definition string_length (s : string) : Z := Z.of_nat (String.length s).

(** [v[k]] and [v.k]: a fault on [undefined] and [null], own properties
    of objects, [length] and elements of arrays and strings.  The
    properties every object inherits ([ObjectPrototype]) are not
    modelled: a name read through [get] is a fixed field name of the
    source or is assumed not inherited. *)
Definition get (v : value) (k : string) : completion value :=
  match v with
  | VUndefined =>
      Throw (TypeError ("Cannot read properties of undefined (reading '" ++ k ++ "')"))
  | VNull =>
      Throw (TypeError ("Cannot read properties of null (reading '" ++ k ++ "')"))
  | VObj fields =>
      Normal (match lookup k fields with Some x => x | None => VUndefined end)
  | VArr items =>
      if String.eqb k "length" then Normal (VNum (Z.of_nat (List.length items)))
      else match array_index k with
           | Some i => Normal (nth (Z.to_nat i) items VUndefined)
           | None => Normal VUndefined
           end
  | VStr s =>
      if String.eqb k "length" then Normal (VNum (string_length s))
      else match array_index k with
           | Some i =>
               Normal (match String.get (Z.to_nat i) s with
                       | Some c => VStr (String c EmptyString)
                       | None => VUndefined
                       end)
           | None => Normal VUndefined
           end
  | VBool _ | VNum _ | VNaN => Normal VUndefined
  end.

(** [k in v] *)
Definition has_property (k : string) (v : value) : completion bool :=
  match v with
  | VObj fields =>
      Normal (match lookup k fields with Some _ => true | None => false end)
  | VArr items =>
      Normal (String.eqb k "length" ||
              match array_index k with
              | Some i => i <? Z.of_nat (List.length items)
              | None => false
              end)
  | _ =>
      Throw (TypeError ("Cannot use 'in' operator to search for '" ++ k ++ "' in "
                        ++ ToString v))
  end.

(** The receiver of an array method ([forEach], [map], [filter]): the
    call faults unless the receiver is an array. *)
Definition array_method (name : string) (v : value) : completion (list value) :=
  match v with
  | VArr items => Normal items
  | VUndefined | VNull =>
      Throw (TypeError ("Cannot read properties of " ++ ToString v
                        ++ " (reading '" ++ name ++ "')"))
  | _ => Throw (TypeError (name ++ " is not a function"))
  end.

(** ** Sets and maps, in insertion order *)

Definition set_has (x : value) (s : list value) : bool :=
  existsb (value_eqb x) s.

Definition set_add (x : value) (s : list value) : list value :=
  if set_has x s then s else s ++ [x].

(** ** Plain objects used as dictionaries *)

Fixpoint obj_set {A} (k : string) (v : A) (o : list (string * A)) : list (string * A) :=
  match o with
  | [] => [(k, v)]
  | (k', v') :: r =>
      if String.eqb k k' then (k, v) :: r else (k', v') :: obj_set k v r
  end.

Fixpoint insert_by_index {A} (i : Z) (e : string * A)
         (l : list (Z * (string * A))) : list (Z * (string * A)) :=
  match l with
  | [] => [(i, e)]
  | (j, e') :: r =>
      if i <? j then (i, e) :: l else (j, e') :: insert_by_index i e r
  end.

(** [Object.entries(o)] / [Object.keys(o)]: array-index names first, in
    ascending numeric order, then the other names in insertion order. *)
Definition Object_entries {A} (o : list (string * A)) : list (string * A) :=
  let indexed :=
    fold_left (fun acc e =>
                 match array_index (fst e) with
                 | Some i => insert_by_index i e acc
                 | None => acc
                 end) o [] in
  let named :=
    filter (fun e => match array_index (fst e) with
                     | Some _ => false
                     | None => true
                     end) o in
  map snd indexed ++ named.

End JS.

(* ================================================================== *)
(** * Part II.  utils/graphUtils.js                                      *)
(* ================================================================== *)

Module GraphUtils.

Local Open Scope list_scope.

Section Graph.

(** Node identifiers with the key equality of [Map] and [Set]. *)
Variable node : Type.
Variable eqb : node -> node -> bool.

(** A [Map] in insertion order; a graph is a [Map<node, Set<node>>], the
    [Set] of successors being a duplicate-free list in insertion order. *)
Definition jsmap (V : Type) : Type := list (node * V).
Definition graph : Type := jsmap (list node).

Definition set_has (x : node) (s : list node) : bool := existsb (eqb x) s.

Definition set_add (x : node) (s : list node) : list node :=
  if set_has x s then s else s ++ [x].

Definition set_delete (x : node) (s : list node) : list node :=
  filter (fun y => negb (eqb x y)) s.

Fixpoint map_get {V} (k : node) (m : jsmap V) : option V :=
  match m with
  | [] => None
  | (k', v) :: r => if eqb k k' then Some v else map_get k r
  end.

Definition map_has {V} (k : node) (m : jsmap V) : bool :=
  match map_get k m with Some _ => true | None => false end.

Fixpoint map_set {V} (k : node) (v : V) (m : jsmap V) : jsmap V :=
  match m with
  | [] => [(k, v)]
  | (k', v') :: r =>
      if eqb k k' then (k', v) :: r else (k', v') :: map_set k v r
  end.

(** [graph.keys()] and [graph.size] *)
Definition keys {V} (m : jsmap V) : list node := map fst m.
Definition size {V} (m : jsmap V) : nat := List.length m.

(** [graph.get(node) || new Set()] *)
Definition neighbors (g : graph) (n : node) : list node :=
  match map_get n g with
  | Some s => s
  | None => []
  end.

(** [createGraph(nodes)] *)
Definition createGraph (nodes : list node) : graph :=
  fold_left (fun g n => map_set n [] g) nodes [].

(** [addEdge(graph, from, to)] *)
Definition addEdge (g : graph) (from to : node) : graph :=
  let g1 := if map_has from g then g else map_set from [] g in
  let g2 := if map_has to g1 then g1 else map_set to [] g1 in
  map_set from (set_add to (neighbors g2 from)) g2.

(** [addBidirectionalEdge(graph, nodeA, nodeB)] *)
Definition addBidirectionalEdge (g : graph) (nodeA nodeB : node) : graph :=
  addEdge (addEdge g nodeA nodeB) nodeB nodeA.

(** ** Cycle detection *)

(** [path.indexOf(node)]; [None] is [-1]. *)
Fixpoint indexOf (x : node) (l : list node) : option nat :=
  match l with
  | [] => None
  | y :: r =>
      if eqb x y then Some 0%nat
      else match indexOf x r with
           | Some i => Some (S i)
           | None => None
           end
  end.

(** [const cycle = path.slice(path.indexOf(node)); cycle.push(node)];
    [slice(-1)] keeps the last element. *)
Definition cycle_of (x : node) (path : list node) : list node :=
  match indexOf x path with
  | Some i => skipn i path ++ [x]
  | None => skipn (List.length path - 1) path ++ [x]
  end.

(** The sets [visited] and [recursionStack] the closure [dfs] updates. *)
Record dfs_state : Type := mkState {
  visited : list node;
  recursionStack : list node
}.

(** Result of one call of [dfs]: the returned cycle ([None] is [null])
    and the sets as the call leaves them. *)
Definition dfs_result : Type := (option (list node) * dfs_state)%type.

(** [for (const neighbor of neighbors) { const cycle = dfs(neighbor,
    [...path]); if (cycle) return cycle; } recursionStack.delete(node);
    return null;] with [rec] the recursive call. *)
Fixpoint dfs_neighbors (rec : node -> dfs_state -> option dfs_result)
         (x : node) (ns : list node) (st : dfs_state) : option dfs_result :=
  match ns with
  | [] => Some (None, mkState (visited st) (set_delete x (recursionStack st)))
  | n :: r =>
      match rec n st with
      | None => None
      | Some (Some cycle, st') => Some (Some cycle, st')
      | Some (None, st') => dfs_neighbors rec x r st'
      end
  end.

(** The closure [dfs(node, path)] of [detectCycles]; the same closure is
    written out again inside [detectCircularCoRuns] of the enhanced
    validation service.  [fuel] bounds the recursion depth; the outer
    [None] means the bound was reached. *)
Fixpoint dfs (fuel : nat) (g : graph) (x : node) (path : list node)
         (st : dfs_state) : option dfs_result :=
  match fuel with
  | O => None
  | S fuel' =>
      if set_has x (recursionStack st) then Some (Some (cycle_of x path), st)
      else if set_has x (visited st) then Some (None, st)
      else
        let st1 := mkState (set_add x (visited st))
                           (set_add x (recursionStack st)) in
        let path1 := path ++ [x] in
        dfs_neighbors (fun n s => dfs fuel' g n path1 s) x (neighbors g x) st1
  end.

(** Every node a traversal can meet: the keys and their successors. *)
Definition all_nodes (g : graph) : list node :=
  keys g ++ List.concat (map snd g).

(** A recursion depth that no traversal of [g] exceeds. *)
Definition depth_bound (g : graph) : nat := S (List.length (all_nodes g)).

(** [for (const node of graph.keys()) if (!visited.has(node)) { const
    cycle = dfs(node, []); if (cycle) cycles.push(cycle); }] *)
Fixpoint detectCycles_loop (fuel : nat) (g : graph) (roots : list node)
         (st : dfs_state) (cycles : list (list node))
  : option (list (list node)) :=
  match roots with
  | [] => Some cycles
  | x :: r =>
      if set_has x (visited st) then detectCycles_loop fuel g r st cycles
      else
        match dfs fuel g x [] st with
        | None => None
        | Some (Some cycle, st') =>
            detectCycles_loop fuel g r st' (cycles ++ [cycle])
        | Some (None, st') => detectCycles_loop fuel g r st' cycles
        end
  end.

(** [detectCycles(graph)] *)
Definition detectCycles (g : graph) : option (list (list node)) :=
  detectCycles_loop (depth_bound g) g (keys g) (mkState [] []) [].

(** [isAcyclic(graph)] *)
Definition isAcyclic (g : graph) : option bool :=
  match detectCycles g with
  | Some cycles => Some (Nat.eqb (List.length cycles) 0)
  | None => None
  end.

(** ** Topological sort (Kahn) *)

(** State of the [while] loop: the in-degree map, the queue and the
    output. *)
Record kahn_state : Type := mkKahn {
  inDegree : jsmap Z;
  queue : list node;
  result : list node
}.

(** [for (const node of graph.keys()) inDegree.set(node, 0)] *)
Definition init_inDegree (g : graph) : jsmap Z :=
  fold_left (fun m n => map_set n 0 m) (keys g) [].

(** [inDegree.set(neighbor, (inDegree.get(neighbor) || 0) + 1)] *)
Definition bump (m : jsmap Z) (neighbor : node) : jsmap Z :=
  map_set neighbor
    (match map_get neighbor m with
     | Some d => (if d =? 0 then 0 else d) + 1
     | None => 0 + 1
     end) m.

(** [for (const [node, neighbors] of graph.entries()) for (const neighbor
    of neighbors) ...] *)
Definition count_inDegree (g : graph) (m : jsmap Z) : jsmap Z :=
  fold_left (fun m e => fold_left bump (snd e) m) g m.

(** [for (const [node, degree] of inDegree.entries()) if (degree === 0)
    queue.push(node)] *)
Definition zero_nodes (m : jsmap Z) : list node :=
  map fst (filter (fun e => snd e =? 0) m).

(** One neighbour of the dequeued node: [inDegree.set(neighbor,
    inDegree.get(neighbor) - 1); if (inDegree.get(neighbor) === 0)
    queue.push(neighbor)].  A neighbour without an entry would get the
    entry [NaN], which is never [0]; every neighbour has an entry after
    [count_inDegree]. *)
Definition relax (mq : jsmap Z * list node) (neighbor : node)
  : jsmap Z * list node :=
  let '(m, q) := mq in
  match map_get neighbor m with
  | Some d =>
      let m' := map_set neighbor (d - 1) m in
      if d - 1 =? 0 then (m', q ++ [neighbor]) else (m', q)
  | None => (m, q)
  end.

(** [while (queue.length > 0) { const node = queue.shift();
    result.push(node); for (const neighbor of graph.get(node) || new Set())
    ... }]; [None] means [fuel] iterations did not empty the queue. *)
Fixpoint kahn_loop (fuel : nat) (g : graph) (st : kahn_state)
  : option kahn_state :=
  match queue st with
  | [] => Some st
  | x :: q =>
      match fuel with
      | O => None
      | S fuel' =>
          let '(m', q') := fold_left relax (neighbors g x) (inDegree st, q) in
          kahn_loop fuel' g (mkKahn m' q' (result st ++ [x]))
      end
  end.

(** The number of edges of the graph. *)
Definition edge_count (g : graph) : nat := List.length (List.concat (map snd g)).

(** A number of iterations the [while] loop never exceeds. *)
Definition iteration_bound (g : graph) : nat :=
  S (List.length (all_nodes g) + edge_count g).

(** [topologicalSort(graph)]: [Some None] is the result [null]. *)
Definition topologicalSort (g : graph) : option (option (list node)) :=
  let m := count_inDegree g (init_inDegree g) in
  match kahn_loop (iteration_bound g) g (mkKahn m (zero_nodes m) []) with
  | None => None
  | Some st =>
      if Nat.eqb (List.length (result st)) (size g)
      then Some (Some (result st))
      else Some None
  end.

(** ** Reachability *)

(** [if (!reachable.has(neighbor)) stack.push(neighbor)]; the stack is
    kept top first. *)
Definition push_unreached (reachable stack : list node) (neighbor : node)
  : list node :=
  if set_has neighbor reachable then stack else neighbor :: stack.

(** [while (stack.length > 0) { const node = stack.pop(); if
    (reachable.has(node)) continue; reachable.add(node); for (const
    neighbor of graph.get(node) || new Set()) ... }]; [None] means [fuel]
    iterations did not empty the stack. *)
Fixpoint reach_loop (fuel : nat) (g : graph) (reachable stack : list node)
  : option (list node) :=
  match stack with
  | [] => Some reachable
  | x :: rest =>
      match fuel with
      | O => None
      | S fuel' =>
          if set_has x reachable then reach_loop fuel' g reachable rest
          else
            let reachable1 := set_add x reachable in
            reach_loop fuel' g reachable1
              (fold_left (push_unreached reachable1) (neighbors g x) rest)
      end
  end.

(** A number of iterations the loop of [getReachableNodes] never
    exceeds. *)
Definition reach_bound (g : graph) : nat := S (S (edge_count g)).

(** [getReachableNodes(graph, startNode)] *)
Definition getReachableNodes (g : graph) (startNode : node)
  : option (list node) :=
  match reach_loop (reach_bound g) g [] [startNode] with
  | Some reachable => Some (set_delete startNode reachable)
  | None => None
  end.

(** ** Shortest path (breadth first) *)

(** [path[path.length - 1]]; [None] is [undefined], which a path in the
    queue never gives: no path there is empty. *)
Fixpoint last_node (path : list node) : option node :=
  match path with
  | [] => None
  | [x] => Some x
  | _ :: r => last_node r
  end.

(** The [for] loop over the neighbours of the last node of [path]: [inl]
    is the path returned from inside the loop, [inr] the set [visited] and
    the queue as the loop leaves them.  [=== end] is decided by [eqb]: on
    node identifiers other than [NaN] strict equality and the key
    equality of [Map] agree. *)
Fixpoint scan_neighbors (endNode : node) (path ns visited : list node)
         (queue : list (list node))
  : list node + (list node * list (list node)) :=
  match ns with
  | [] => inr (visited, queue)
  | neighbor :: r =>
      if eqb neighbor endNode then inl (path ++ [neighbor])
      else if set_has neighbor visited
           then scan_neighbors endNode path r visited queue
           else scan_neighbors endNode path r (set_add neighbor visited)
                               (queue ++ [path ++ [neighbor]])
  end.

(** [while (queue.length > 0) { const path = queue.shift(); ... }
    return null]; the outer [None] means [fuel] iterations did not empty
    the queue, [Some None] is the result [null]. *)
Fixpoint bfs_loop (fuel : nat) (g : graph) (endNode : node)
         (visited : list node) (queue : list (list node))
  : option (option (list node)) :=
  match queue with
  | [] => Some None
  | path :: rest =>
      match fuel with
      | O => None
      | S fuel' =>
          let ns := match last_node path with
                    | Some x => neighbors g x
                    | None => []
                    end in
          match scan_neighbors endNode path ns visited rest with
          | inl found => Some (Some found)
          | inr (visited1, queue1) => bfs_loop fuel' g endNode visited1 queue1
          end
      end
  end.

(** A number of iterations the loop of [findShortestPath] never
    exceeds. *)
Definition bfs_bound (g : graph) : nat := S (S (List.length (all_nodes g))).

(** [findShortestPath(graph, start, end)] *)
Definition findShortestPath (g : graph) (start endNode : node)
  : option (option (list node)) :=
  if eqb start endNode then Some (Some [start])
  else bfs_loop (bfs_bound g) g endNode [start] [[start]].

(** ** All paths up to a depth *)

(** What the closure [dfs] of [findAllPaths] reads and updates: the
    array [currentPath], the set [visited] and the output [paths]. *)
Definition search_state : Type :=
  (list node * list node * list (list node))%type.

(** [for (const neighbor of neighbors) if (!visited.has(neighbor)) {
    visited.add(neighbor); currentPath.push(neighbor); dfs(currentPath,
    visited); currentPath.pop(); visited.delete(neighbor); }] with [rec]
    the recursive call. *)
Fixpoint explore (rec : search_state -> option search_state)
         (ns : list node) (st : search_state) : option search_state :=
  match ns with
  | [] => Some st
  | neighbor :: r =>
      let '(currentPath, visited, paths) := st in
      if set_has neighbor visited then explore rec r st
      else
        match rec (currentPath ++ [neighbor], set_add neighbor visited, paths) with
        | None => None
        | Some (currentPath1, visited1, paths1) =>
            explore rec r
                    (removelast currentPath1, set_delete neighbor visited1, paths1)
        end
  end.

(** The closure [dfs(currentPath, visited)] of [findAllPaths]; [fuel]
    bounds the recursion depth, [None] means the bound was reached. *)
Fixpoint paths_dfs (fuel : nat) (g : graph) (endNode : node) (maxDepth : Z)
         (st : search_state) : option search_state :=
  match fuel with
  | O => None
  | S fuel' =>
      let '(currentPath, visited, paths) := st in
      match last_node currentPath with
      | None => Some st
      | Some currentNode =>
          if eqb currentNode endNode
          then Some (currentPath, visited, paths ++ [currentPath])
          else if (maxDepth <=? Z.of_nat (List.length currentPath))%Z then Some st
          else explore (paths_dfs fuel' g endNode maxDepth)
                       (neighbors g currentNode) st
      end
  end.

(** [findAllPaths(graph, start, end, maxDepth)]; the recursion is never
    deeper than [maxDepth]. *)
Definition findAllPaths (g : graph) (start endNode : node) (maxDepth : Z)
  : option (list (list node)) :=
  match paths_dfs (S (Z.to_nat maxDepth)) g endNode maxDepth
                  ([start], [start], []) with
  | Some (_, _, paths) => Some paths
  | None => None
  end.

(** ** Node degrees *)

(** The object [{ inDegree, outDegree }] kept for a node. *)
Record degree : Type := mkDegree {
  degree_in : nat;
  degree_out : nat
}.

(** [for (const node of graph.keys()) degrees.set(node, { inDegree: 0,
    outDegree: 0 })] *)
Definition init_degrees (g : graph) : jsmap degree :=
  fold_left (fun m n => map_set n (mkDegree 0 0) m) (keys g) [].

(** [if (degrees.has(neighbor)) degrees.get(neighbor).inDegree++] *)
Definition count_incoming (m : jsmap degree) (neighbor : node) : jsmap degree :=
  match map_get neighbor m with
  | Some d => map_set neighbor (mkDegree (S (degree_in d)) (degree_out d)) m
  | None => m
  end.

(** One entry of [graph.entries()]: [degrees.get(node).outDegree =
    neighbors.size] and the loop over the neighbours.  Every key of the
    graph has its entry in [degrees] after [init_degrees], so
    [degrees.get(node)] is an object. *)
Definition count_entry (m : jsmap degree) (e : node * list node) : jsmap degree :=
  let m1 := match map_get (fst e) m with
            | Some d => map_set (fst e)
                                (mkDegree (degree_in d) (List.length (snd e))) m
            | None => m
            end in
  fold_left count_incoming (snd e) m1.

(** [calculateNodeDegrees(graph)] *)
Definition calculateNodeDegrees (g : graph) : jsmap degree :=
  fold_left count_entry g (init_degrees g).

(** [findSourceNodes(graph)] *)
Definition findSourceNodes (g : graph) : list node :=
  map fst (filter (fun e => Nat.eqb (degree_in (snd e)) 0)
                  (calculateNodeDegrees g)).

(** [findSinkNodes(graph)] *)
Definition findSinkNodes (g : graph) : list node :=
  map fst (filter (fun e => Nat.eqb (degree_out (snd e)) 0)
                  (calculateNodeDegrees g)).

(** The sums [totalInDegree] and [totalOutDegree] of [analyzeGraph]. *)
Definition totalInDegree (g : graph) : nat :=
  fold_left (fun sum e => (sum + degree_in (snd e))%nat) (calculateNodeDegrees g) 0%nat.

Definition totalOutDegree (g : graph) : nat :=
  fold_left (fun sum e => (sum + degree_out (snd e))%nat) (calculateNodeDegrees g) 0%nat.

End Graph.

Arguments mkState {node} _ _.
Arguments visited {node} _.
Arguments recursionStack {node} _.
Arguments mkKahn {node} _ _ _.
Arguments inDegree {node} _.
Arguments queue {node} _.
Arguments result {node} _.

End GraphUtils.

(* ================================================================== *)
(** * Part III.  services/enhanced-validation.service.js                 *)
(* ================================================================== *)

Module EnhancedValidationService.

Import JS.
Local Open Scope js_scope.

(** A validation finding.  Properties a finding does not carry are
    [None]; [f_recordId] keeps the identifier value as read from the
    record (possibly [VUndefined]). *)
Record finding : Type := mkFinding {
  f_id : string;
  f_type : string;
  f_severity : string;
  f_entity : string;
  f_field : option string;
  f_recordId : option value;
  f_row : option Z;
  f_message : string;
  f_suggestedFix : option string;
  f_affectedRecords : option (list value)
}.

Record breakdown : Type := mkBreakdown {
  b_structural : nat;
  b_referential : nat;
  b_business : nat;
  b_operational : nat
}.

Record summary : Type := mkSummary {
  totalErrors : nat;
  totalWarnings : nat;
  validationTypes : list string;
  timestamp : string;
  summary_breakdown : option breakdown
}.

Record ValidationResult : Type := mkResult {
  isValid : bool;
  errors : list finding;
  warnings : list finding;
  result_summary : summary
}.

Definition nonempty (s : string) : bool := negb (String.eqb s "").

(** [filter(Boolean)] on strings *)
Definition filter_Boolean (l : list string) : list string := filter nonempty l.

(** [safeArrayConvert(value)] *)
Definition safeArrayConvert (v : value) : list string :=
  match v with
  | VArr items => filter_Boolean (map (fun item => trim (ToString item)) items)
  | VStr s =>
      if nonempty (trim s)
      then filter_Boolean (map trim (split ","%char s))
      else []
  | _ => []
  end.

(** [for (let i = start; i <= end; i++) phases.push(i)] *)
Definition range (a b : Z) : list Z :=
  map (fun k => a + Z.of_nat k) (seq 0 (Z.to_nat (b - a + 1))).

(** [.filter(p => !isNaN(p))] after a numeric conversion *)
Definition drop_NaN (l : list (option Z)) : list Z :=
  flat_map (fun p => match p with Some z => [z] | None => [] end) l.

(** [safePhaseConvert(value)] *)
Definition safePhaseConvert (v : value) : list Z :=
  match v with
  | VArr items => drop_NaN (map parseInt items)
  | VStr s =>
      if nonempty (trim s) then
        if includes_char "-"%char s then
          match map (fun n => parseInt_string (trim n)) (split "-"%char s) with
          | Some a :: Some b :: _ => range a b
          | _ => []
          end
        else
          drop_NaN (map (fun n => parseInt_string (trim n))
                        (split ","%char (remove_brackets s)))
      else []
  | _ => []
  end.

(** [requiredFields[entityType] || []], for an [entityType] that is not
    a name every object inherits (for those the source reads a function
    or an object, and [forEach] faults). *)
Definition requiredFields (entityType : string) : list string :=
  if String.eqb entityType "clients" then ["ClientID"; "ClientName"; "PriorityLevel"]
  else if String.eqb entityType "workers"
       then ["WorkerID"; "WorkerName"; "Skills"; "AvailableSlots"]
  else if String.eqb entityType "tasks"
       then ["TaskID"; "TaskName"; "Duration"; "RequiredSkills"]
  else [].

(** [index + 1] *)
Definition row_of (index : nat) : Z := Z.of_nat index + 1.

(** [`${record.ID || index}`] *)
Definition id_or_index (ident : value) (index : nat) : string :=
  ToString (or_else ident (VNum (Z.of_nat index))).

Definition missing_column (entityType field : string) : finding :=
  mkFinding ("missing_column_" ++ entityType ++ "_" ++ field)
    "missing_required_column" "error" entityType (Some field) None None
    ("Required column '" ++ field ++ "' is missing from " ++ entityType ++ " data")
    (Some ("Add '" ++ field ++ "' column to your " ++ entityType ++ " CSV file"))
    None.

(** [validateRequiredColumns(data, entityType)] *)
Definition validateRequiredColumns (data : value) (entityType : string)
  : completion (list finding) :=
  len <- get data "length" ;;
  if greater_than len (VNum 0) then
    firstRecord <- get data "0" ;;
    forEach (fun errors field _ =>
               present <- has_property field firstRecord ;;
               if negb present
               then Normal (push errors (missing_column entityType field))
               else Normal errors)
            (requiredFields entityType) []
  else Normal [].

Definition duplicate_id (entityType idField : string) (duplicateId : value)
  : finding :=
  mkFinding ("duplicate_id_" ++ entityType ++ "_" ++ ToString duplicateId)
    "duplicate_id" "error" entityType (Some idField) (Some duplicateId) None
    ("Duplicate " ++ idField ++ ": '" ++ ToString duplicateId ++ "' found in "
       ++ entityType)
    (Some ("Ensure all " ++ idField ++ " values are unique"))
    None.

(** The [data.forEach] of [validateDuplicateIds]; the state is the pair
    of sets ([seenIds], [duplicates]). *)
Definition note_id (idField : string) (sd : list value * list value)
           (record : value) (_ : nat) : completion (list value * list value) :=
  let '(seenIds, duplicates) := sd in
  ident <- get record idField ;;
  if truthy ident then
    if set_has ident seenIds
    then Normal (seenIds, set_add ident duplicates)
    else Normal (set_add ident seenIds, duplicates)
  else Normal (seenIds, duplicates).

(** [validateDuplicateIds(data, entityType, idField)] *)
Definition validateDuplicateIds (data : value) (entityType idField : string)
  : completion (list finding) :=
  records <- array_method "forEach" data ;;
  sd <- forEach (note_id idField) records ([], []) ;;
  Normal (map (duplicate_id entityType idField) (snd sd)).

Definition malformed_priority (client_id priority : value) (index : nat) : finding :=
  mkFinding ("malformed_priority_" ++ id_or_index client_id index)
    "malformed_data" "error" "clients" (Some "PriorityLevel") (Some client_id)
    (Some (row_of index))
    ("PriorityLevel '" ++ ToString priority ++ "' is not a valid number")
    (Some "Use numeric values 1-5 for PriorityLevel") None.

Definition malformed_slots (worker_id slots : value) (index : nat) : finding :=
  mkFinding ("malformed_slots_" ++ id_or_index worker_id index)
    "malformed_data" "error" "workers" (Some "AvailableSlots") (Some worker_id)
    (Some (row_of index))
    ("AvailableSlots '" ++ ToString slots ++ "' is not valid JSON array")
    (Some "Use format like [1,2,3] for AvailableSlots") None.

Definition malformed_duration (task_id duration : value) (index : nat) : finding :=
  mkFinding ("malformed_duration_" ++ id_or_index task_id index)
    "malformed_data" "error" "tasks" (Some "Duration") (Some task_id)
    (Some (row_of index))
    ("Duration '" ++ ToString duration ++ "' must be a number >= 1")
    (Some "Use positive integers for Duration (number of phases)") None.

Definition priority_out_of_range (client_id : value) (priority : Z) (index : nat)
  : finding :=
  mkFinding ("priority_out_of_range_" ++ id_or_index client_id index)
    "out_of_range" "error" "clients" (Some "PriorityLevel") (Some client_id)
    (Some (row_of index))
    ("PriorityLevel " ++ string_of_Z priority ++ " is out of range (must be 1-5)")
    (Some "Use values between 1 and 5 for PriorityLevel") None.

Section Engine.

(** [JSON.parse] on a source text, a primitive of the engine. *)
Variable JSON_parse : string -> completion value.

(** [Array.isArray(x) ? x : JSON.parse(x)] *)
Definition array_or_parse (x : value) : completion value :=
  if isArray x then Normal x else JSON_parse (ToString x).

(** [validateDataTypes(clientsData, workersData, tasksData)] *)
Definition validateDataTypes (clientsData workersData tasksData : value)
  : completion (list finding) :=
  clients <- array_method "forEach" clientsData ;;
  errors <- forEach (fun errors client index =>
      priorityLevel <- get client "PriorityLevel" ;;
      if truthy priorityLevel then
        if isNaN (parseInt priorityLevel) then
          client_id <- get client "ClientID" ;;
          Normal (push errors (malformed_priority client_id priorityLevel index))
        else Normal errors
      else Normal errors) clients [] ;;
  workers <- array_method "forEach" workersData ;;
  errors <- forEach (fun errors worker index =>
      availableSlots <- get worker "AvailableSlots" ;;
      if truthy availableSlots then
        try_catch
          (slots <- array_or_parse availableSlots ;;
           if negb (isArray slots) then Throw (Error "Not an array")
           else Normal errors)
          (fun _ =>
             worker_id <- get worker "WorkerID" ;;
             Normal (push errors (malformed_slots worker_id availableSlots index)))
      else Normal errors) workers errors ;;
  tasks <- array_method "forEach" tasksData ;;
  forEach (fun errors task index =>
      duration <- get task "Duration" ;;
      if truthy duration then
        match parseInt duration with
        | Some d =>
            if d <? 1 then
              task_id <- get task "TaskID" ;;
              Normal (push errors (malformed_duration task_id duration index))
            else Normal errors
        | None =>
            task_id <- get task "TaskID" ;;
            Normal (push errors (malformed_duration task_id duration index))
        end
      else Normal errors) tasks errors.

(** [validateRanges(clientsData, workersData, tasksData)] *)
Definition validateRanges (clientsData workersData tasksData : value)
  : completion (list finding) :=
  clients <- array_method "forEach" clientsData ;;
  forEach (fun errors client index =>
      priorityLevel <- get client "PriorityLevel" ;;
      if truthy priorityLevel then
        match parseInt priorityLevel with
        | Some priority =>
            if (priority <? 1) || (5 <? priority) then
              client_id <- get client "ClientID" ;;
              Normal (push errors (priority_out_of_range client_id priority index))
            else Normal errors
        | None => Normal errors
        end
      else Normal errors) clients [].

(** [new Set(items)] *)
Definition Set_of (items : list value) : list value :=
  fold_left (fun s x => set_add x s) items [].

Definition unknown_task_reference (client_id : value) (taskId : string)
           (index : nat) : finding :=
  mkFinding ("unknown_task_reference_" ++ ToString client_id ++ "_" ++ taskId)
    "unknown_reference" "error" "clients" (Some "RequestedTaskIDs")
    (Some client_id) (Some (row_of index))
    ("Client " ++ ToString client_id ++ " references unknown task: " ++ taskId)
    (Some ("Remove '" ++ taskId ++ "' from RequestedTaskIDs or add task with ID '"
             ++ taskId ++ "'"))
    None.

(** [validateTaskReferences(clientsData, tasksData)] *)
Definition validateTaskReferences (clientsData tasksData : value)
  : completion (list finding) :=
  tasks <- array_method "map" tasksData ;;
  taskIds <- array_map (fun task => get task "TaskID") tasks ;;
  let validTaskIds := Set_of (filter truthy taskIds) in
  clients <- array_method "forEach" clientsData ;;
  forEach (fun errors client index =>
      requested <- get client "RequestedTaskIDs" ;;
      if truthy requested then
        forEach (fun errors taskId _ =>
            if nonempty taskId && negb (set_has (VStr taskId) validTaskIds) then
              client_id <- get client "ClientID" ;;
              Normal (push errors (unknown_task_reference client_id taskId index))
            else Normal errors)
          (safeArrayConvert requested) errors
      else Normal errors) clients [].

Definition string_set_has (x : string) (s : list string) : bool :=
  existsb (String.eqb x) s.

Definition string_set_add (x : string) (s : list string) : list string :=
  if string_set_has x s then s else push s x.

(** The double-quote character. *)
Definition dquote : string := String (ascii_of_nat 34) EmptyString.

Definition skill_gap (task_id : value) (skill : string) (index : nat) : finding :=
  mkFinding ("skill_gap_" ++ ToString task_id ++ "_" ++ trim skill)
    "skill_coverage_gap" "error" "tasks" (Some "RequiredSkills")
    (Some task_id) (Some (row_of index))
    ("Skill " ++ dquote ++ trim skill ++ dquote ++ " required by task "
       ++ ToString task_id ++ " is not available in any worker")
    (Some ("Add " ++ dquote ++ trim skill ++ dquote
             ++ " skill to an available worker or modify task requirements"))
    None.

(** [validateSkillCoverage(tasksData, workersData)] *)
Definition validateSkillCoverage (tasksData workersData : value)
  : completion (list finding) :=
  workers <- array_method "forEach" workersData ;;
  workerSkills <- forEach (fun workerSkills worker _ =>
      skills <- get worker "Skills" ;;
      if truthy skills then
        Normal (fold_left (fun ws skill => string_set_add (toLowerCase skill) ws)
                          (safeArrayConvert skills) workerSkills)
      else Normal workerSkills) workers [] ;;
  tasks <- array_method "forEach" tasksData ;;
  forEach (fun errors task index =>
      required <- get task "RequiredSkills" ;;
      if truthy required then
        forEach (fun errors skill _ =>
            let cleanSkill := toLowerCase (trim skill) in
            if nonempty cleanSkill && negb (string_set_has cleanSkill workerSkills)
            then
              task_id <- get task "TaskID" ;;
              Normal (push errors (skill_gap task_id skill index))
            else Normal errors)
          (safeArrayConvert required) errors
      else Normal errors) tasks [].

Definition worker_overload (worker_id slots_length : value) (maxLoad : Z)
           (index : nat) : finding :=
  mkFinding ("worker_overload_" ++ id_or_index worker_id index)
    "worker_overload" "warning" "workers" (Some "MaxLoadPerPhase")
    (Some worker_id) (Some (row_of index))
    ("Worker " ++ ToString worker_id ++ " has " ++ ToString slots_length
       ++ " available slots but max load is " ++ string_of_Z maxLoad)
    (Some ("Increase MaxLoadPerPhase to " ++ ToString slots_length
             ++ " or reduce AvailableSlots"))
    None.

(** [validateWorkerOverload(workersData)] *)
Definition validateWorkerOverload (workersData : value)
  : completion (list finding) :=
  workers <- array_method "forEach" workersData ;;
  forEach (fun errors worker index =>
      slots <- get worker "AvailableSlots" ;;
      if truthy slots then
        load <- get worker "MaxLoadPerPhase" ;;
        if truthy load then
          try_catch
            (availableSlots <-
               (if isArray slots then Normal slots
                else JSON_parse (ToString (or_else slots (VStr "[]")))) ;;
             match parseInt load with
             | Some maxLoad =>
                 len <- get availableSlots "length" ;;
                 if greater_than len (VNum maxLoad) then
                   worker_id <- get worker "WorkerID" ;;
                   Normal (push errors (worker_overload worker_id len maxLoad index))
                 else Normal errors
             | None => Normal errors
             end)
            (fun _ => Normal errors)
        else Normal errors
      else Normal errors) workers [].

(** [capacity[phase] = (capacity[phase] || 0) + 1] *)
Definition count_slot (capacity : list (string * Z)) (phase : value)
  : list (string * Z) :=
  let key := ToString phase in
  let old := match lookup key capacity with
             | Some c => if c =? 0 then 0 else c
             | None => 0
             end in
  obj_set key (old + 1) capacity.

(** [calculatePhaseCapacity(workersData)] *)
Definition calculatePhaseCapacity (workersData : value)
  : completion (list (string * Z)) :=
  workers <- array_method "forEach" workersData ;;
  forEach (fun capacity worker _ =>
      availableSlots <- get worker "AvailableSlots" ;;
      if truthy availableSlots then
        try_catch
          (slots <- array_or_parse availableSlots ;;
           phases <- array_method "forEach" slots ;;
           Normal (fold_left count_slot phases capacity))
          (fun _ => Normal capacity)
      else Normal capacity) workers [].

(** [demand[phase] = (demand[phase] || 0) + duration]; a demand of [None]
    is [NaN]. *)
Definition add_demand (duration : option Z) (demand : list (string * option Z))
           (phase : Z) : list (string * option Z) :=
  let key := string_of_Z phase in
  let old := match lookup key demand with
             | Some (Some d) => if d =? 0 then 0 else d
             | Some None => 0
             | None => 0
             end in
  obj_set key (match duration with
               | Some d => Some (old + d)
               | None => None
               end) demand.

(** [calculatePhaseDemand(tasksData)] *)
Definition calculatePhaseDemand (tasksData : value)
  : completion (list (string * option Z)) :=
  tasks <- array_method "forEach" tasksData ;;
  forEach (fun demand task _ =>
      taskDuration <- get task "Duration" ;;
      if truthy taskDuration then
        preferred <- get task "PreferredPhases" ;;
        if truthy preferred then
          let duration := parseInt taskDuration in
          let phases := safePhaseConvert preferred in
          Normal (fold_left (add_demand duration) phases demand)
        else Normal demand
      else Normal demand) tasks [].

(** [phases.includes(phase)] *)
Definition includes_number (phase : option Z) (phases : list Z) : bool :=
  match phase with
  | Some p => existsb (Z.eqb p) phases
  | None => false
  end.

(** [taskUsesPhase(task, phase)] *)
Definition taskUsesPhase (task : value) (phase : option Z) : completion bool :=
  preferred <- get task "PreferredPhases" ;;
  if negb (truthy preferred) then Normal false
  else Normal (includes_number phase (safePhaseConvert preferred)).

Definition number_string (n : option Z) : string := ToString (number_value n).

Definition phase_saturation (phase : string) (demand capacity : Z)
           (affected : list value) : finding :=
  mkFinding ("phase_saturation_" ++ phase)
    "phase_slot_saturation" "error" "operational" None None None
    ("Phase " ++ phase ++ " overloaded: " ++ string_of_Z demand
       ++ " task-phases needed, " ++ string_of_Z capacity
       ++ " worker-slots available")
    (Some ("Add " ++ string_of_Z (demand - capacity)
             ++ " more worker slots for phase " ++ phase
             ++ " or reduce task requirements"))
    (Some affected).

Definition phase_calculation_error : finding :=
  mkFinding "phase_calculation_error" "calculation_error" "warning"
    "operational" None None None
    "Unable to calculate phase-slot saturation due to data format issues"
    (Some "Check AvailableSlots and PreferredPhases formatting") None.

(** The body of the [for ... of Object.entries(phaseDemand)] loop. *)
Definition check_phase (tasksData : value) (phaseCapacity : list (string * Z))
           (errors : list finding) (entry : string * option Z)
  : completion (list finding) :=
  let '(phase, demand) := entry in
  let capacity := match lookup phase phaseCapacity with
                  | Some c => if c =? 0 then 0 else c
                  | None => 0
                  end in
  match demand with
  | Some d =>
      if capacity <? d then
        tasks <- array_method "filter" tasksData ;;
        usingPhase <- array_filter
                   (fun t => taskUsesPhase t (parseInt_string phase)) tasks ;;
        affected <- array_map (fun t => get t "TaskID") usingPhase ;;
        Normal (push errors (phase_saturation phase d capacity affected))
      else Normal errors
  | None => Normal errors
  end.

(** [validatePhaseSlotSaturation(tasksData, workersData)] *)
Definition validatePhaseSlotSaturation (tasksData workersData : value)
  : list finding :=
  match (phaseCapacity <- calculatePhaseCapacity workersData ;;
         phaseDemand <- calculatePhaseDemand tasksData ;;
         Normal (phaseCapacity, phaseDemand)) with
  | Throw _ => [phase_calculation_error]
  | Normal (phaseCapacity, phaseDemand) =>
      match for_of_partial (check_phase tasksData phaseCapacity)
                           (Object_entries phaseDemand) [] with
      | (errors, None) => errors
      | (errors, Some _) => push errors phase_calculation_error
      end
  end.

Definition max_concurrency_infeasible (task_id : value) (maxConcurrent : Z)
           (qualified : nat) (index : nat) : finding :=
  mkFinding ("max_concurrency_infeasible_" ++ ToString task_id)
    "max_concurrency_infeasible" "warning" "tasks" (Some "MaxConcurrent")
    (Some task_id) (Some (row_of index))
    ("Task " ++ ToString task_id ++ " requires " ++ string_of_Z maxConcurrent
       ++ " concurrent workers, but only " ++ string_of_nat qualified
       ++ " qualified workers available")
    (Some ("Reduce MaxConcurrent to " ++ string_of_nat qualified
             ++ " or add more workers with required skills"))
    None.

(** The callback of [workersData.filter] in [validateMaxConcurrency]. *)
Definition is_qualified (requiredSkills : list string) (worker : value)
  : completion bool :=
  skills <- get worker "Skills" ;;
  if negb (truthy skills) then Normal false
  else
    let workerSkills := map toLowerCase (safeArrayConvert skills) in
    Normal (forallb (fun skill => string_set_has skill workerSkills)
                    requiredSkills).

(** [validateMaxConcurrency(tasksData, workersData)] *)
Definition validateMaxConcurrency (tasksData workersData : value)
  : completion (list finding) :=
  tasks <- array_method "forEach" tasksData ;;
  forEach (fun errors task index =>
      taskMax <- get task "MaxConcurrent" ;;
      if truthy taskMax then
        required <- get task "RequiredSkills" ;;
        if truthy required then
          try_catch
            (let maxConcurrent := parseInt taskMax in
             let requiredSkills := map toLowerCase (safeArrayConvert required) in
             workers <- array_method "filter" workersData ;;
             qualifiedWorkers <- array_filter (is_qualified requiredSkills) workers ;;
             match maxConcurrent with
             | Some m =>
                 if Z.of_nat (List.length qualifiedWorkers) <? m then
                   task_id <- get task "TaskID" ;;
                   Normal (push errors
                             (max_concurrency_infeasible task_id m
                                (List.length qualifiedWorkers) index))
                 else Normal errors
             | None => Normal errors
             end)
            (fun _ => Normal errors)
        else Normal errors
      else Normal errors) tasks [].

(** The dependency graph of [detectCircularCoRuns]: a [Map] from task
    identifier to the [Set] of its co-run partners. *)
Definition corun_graph : Type := GraphUtils.graph value.

Definition graph_has (k : value) (g : corun_graph) : bool :=
  GraphUtils.map_has value value_eqb k g.

Definition graph_neighbors (g : corun_graph) (k : value) : list value :=
  GraphUtils.neighbors value value_eqb g k.

Definition graph_set (k : value) (s : list value) (g : corun_graph)
  : corun_graph :=
  GraphUtils.map_set value value_eqb k s g.

(** The index pairs [i < j] of the two nested [for] loops, in loop order. *)
Fixpoint pairs {A} (l : list A) : list (A * A) :=
  match l with
  | [] => []
  | x :: r => (map (pair x) r ++ pairs r)%list
  end.

(** [if (graph.has(taskA) && graph.has(taskB)) { graph.get(taskA).add(taskB);
    graph.get(taskB).add(taskA); }] *)
Definition link (g : corun_graph) (ab : value * value) : corun_graph :=
  let '(taskA, taskB) := ab in
  if graph_has taskA g && graph_has taskB g then
    let g1 := graph_set taskA (set_add taskB (graph_neighbors g taskA)) g in
    graph_set taskB (set_add taskA (graph_neighbors g1 taskB)) g1
  else g.

(** The callback of [coRunRules.forEach]. *)
Definition add_rule (g : corun_graph) (rule : value) (_ : nat)
  : completion corun_graph :=
  ruleTasks <- get rule "tasks" ;;
  match ruleTasks with
  | VArr items => Normal (fold_left link (pairs items) g)
  | _ => Normal g
  end.

(** The separator of the cycle in the message, as the source file
    spells it. *)
Definition arrow : string :=
  " " ++ string_of_list_ascii
           (map ascii_of_nat [195; 162; 226; 128; 160; 226; 128; 153]%nat)
      ++ " ".

Definition circular_corun (cycle : list value) : finding :=
  mkFinding ("circular_corun_" ++ array_join "_" cycle)
    "circular_corun" "error" "rules" None None None
    ("Circular co-run dependency detected: " ++ array_join arrow cycle)
    (Some ("Break cycle by removing co-run rule between "
             ++ ToString (element_at cycle 0) ++ " and "
             ++ ToString (element_at cycle (Z.of_nat (List.length cycle) - 2))))
    (Some cycle).

Definition cycle_detection_error : finding :=
  mkFinding "cycle_detection_error" "calculation_error" "warning" "rules"
    None None None
    "Unable to detect circular dependencies due to rule format issues"
    (Some "Check co-run rule formatting") None.

(** The fault raised when the recursion of [dfs] exceeds the depth the
    engine allows. *)
Definition stack_overflow : exn :=
  mkExn "RangeError" "Maximum call stack size exceeded".

(** [for (const node of graph.keys()) if (!visited.has(node)) { const
    cycle = dfs(node, []); if (cycle) { errors.push(...); break; } }] *)
Fixpoint first_cycle (fuel : nat) (g : corun_graph) (roots : list value)
         (st : GraphUtils.dfs_state value) : completion (option (list value)) :=
  match roots with
  | [] => Normal None
  | x :: r =>
      if set_has x (GraphUtils.visited st) then first_cycle fuel g r st
      else
        match GraphUtils.dfs value value_eqb fuel g x [] st with
        | None => Throw stack_overflow
        | Some (Some cycle, _) => Normal (Some cycle)
        | Some (None, st') => first_cycle fuel g r st'
        end
  end.

(** The graph built from the task list and the co-run rules. *)
Definition build_graph (tasks coRunRules : list value)
  : completion corun_graph :=
  g <- forEach (fun g task _ =>
                  task_id <- get task "TaskID" ;;
                  Normal (graph_set task_id [] g)) tasks [] ;;
  forEach add_rule coRunRules g.

(** The callback of [rules.filter]. *)
Definition is_coRun (rule : value) : completion bool :=
  ruleType <- get rule "type" ;;
  Normal (is_string "coRun" ruleType).

(** [detectCircularCoRuns(tasksData, rules)] *)
Definition detectCircularCoRuns (tasksData rules : value) : list finding :=
  match (ruleList <- array_method "filter" rules ;;
         coRunRules <- array_filter is_coRun ruleList ;;
         if Nat.eqb (List.length coRunRules) 0 then Normal []
         else
           tasks <- array_method "forEach" tasksData ;;
           g <- build_graph tasks coRunRules ;;
           found <- first_cycle (GraphUtils.depth_bound value g) g
                      (GraphUtils.keys value g) (GraphUtils.mkState [] []) ;;
           match found with
           | Some cycle => Normal [circular_corun cycle]
           | None => Normal []
           end) with
  | Normal errors => errors
  | Throw _ => [cycle_detection_error]
  end.

(** [validateStructural(clientsData, workersData, tasksData)] *)
Definition validateStructural (clientsData workersData tasksData : value)
  : completion (list finding) :=
  e1 <- validateRequiredColumns clientsData "clients" ;;
  e2 <- validateRequiredColumns workersData "workers" ;;
  e3 <- validateRequiredColumns tasksData "tasks" ;;
  e4 <- validateDuplicateIds clientsData "clients" "ClientID" ;;
  e5 <- validateDuplicateIds workersData "workers" "WorkerID" ;;
  e6 <- validateDuplicateIds tasksData "tasks" "TaskID" ;;
  e7 <- validateDataTypes clientsData workersData tasksData ;;
  e8 <- validateRanges clientsData workersData tasksData ;;
  Normal (e1 ++ e2 ++ e3 ++ e4 ++ e5 ++ e6 ++ e7 ++ e8)%list.

(** [validateReferential(clientsData, workersData, tasksData)] *)
Definition validateReferential (clientsData workersData tasksData : value)
  : completion (list finding) :=
  e1 <- validateTaskReferences clientsData tasksData ;;
  e2 <- validateSkillCoverage tasksData workersData ;;
  Normal (e1 ++ e2)%list.

(** [validateBusinessLogic(clientsData, workersData, tasksData)] *)
Definition validateBusinessLogic (clientsData workersData tasksData : value)
  : completion (list finding) :=
  e1 <- validateWorkerOverload workersData ;;
  Normal (e1 ++ validatePhaseSlotSaturation tasksData workersData)%list.

(** [validateOperational(clientsData, workersData, tasksData, rules)] *)
Definition validateOperational (clientsData workersData tasksData rules : value)
  : completion (list finding) :=
  e1 <- validateMaxConcurrency tasksData workersData ;;
  if truthy rules then
    len <- get rules "length" ;;
    if greater_than len (VNum 0)
    then Normal (e1 ++ detectCircularCoRuns tasksData rules)%list
    else Normal e1
  else Normal e1.

(** The object [results] of [validateAllData], its keys in insertion
    order. *)
Record stage_results : Type := mkStages {
  structural : list finding;
  referential : list finding;
  business : list finding;
  operational : list finding
}.

Definition has_severity (s : string) (f : finding) : bool :=
  String.eqb (f_severity f) s.

(** [aggregateResults(results)]; [now] is [new Date().toISOString()]. *)
Definition aggregateResults (now : string) (results : stage_results)
  : ValidationResult :=
  let all := (structural results ++ referential results ++ business results
                ++ operational results)%list in
  let allErrors := filter (has_severity "error") all in
  let allWarnings := filter (has_severity "warning") all in
  mkResult (Nat.eqb (List.length allErrors) 0) allErrors allWarnings
    (mkSummary (List.length allErrors) (List.length allWarnings)
       ["structural"; "referential"; "business"; "operational"]
       now
       (Some (mkBreakdown (List.length (structural results))
                (List.length (referential results))
                (List.length (business results))
                (List.length (operational results))))).

Definition validation_system_error : finding :=
  mkFinding "validation_system_error" "system" "error" "system" None None None
    "Validation system encountered an error" None None.

(** The result built by the [catch] block of [validateAllData]. *)
Definition system_error_result (now : string) : ValidationResult :=
  mkResult false [validation_system_error] []
    (mkSummary 1 0 [] now None).

(** The [try] block of [validateAllData]. *)
Definition run_stages (clientsData workersData tasksData rules : value)
  : completion stage_results :=
  s <- validateStructural clientsData workersData tasksData ;;
  r <- validateReferential clientsData workersData tasksData ;;
  b <- validateBusinessLogic clientsData workersData tasksData ;;
  o <- validateOperational clientsData workersData tasksData rules ;;
  Normal (mkStages s r b o).

(** [validateAllData(clientsData, workersData, tasksData, rules = [])];
    [now] is the reading of the clock when the result is built. *)
Definition validateAllData (now : string)
           (clientsData workersData tasksData rules : value) : ValidationResult :=
  let rules := match rules with VUndefined => VArr [] | _ => rules end in
  match run_stages clientsData workersData tasksData rules with
  | Normal results => aggregateResults now results
  | Throw _ => system_error_result now
  end.

End Engine.

End EnhancedValidationService.

(* ================================================================== *)
(** * Part IV.  services/validation.service.js                           *)
(* ================================================================== *)

Module ValidationService.

Import JS.
Local Open Scope js_scope.

(** A validation error object [{row, field, message, type, severity}]. *)
Record verror : Type := mkError {
  row : Z;
  field : string;
  message : string;
  type : string;
  severity : string
}.

(** [severityMap] *)
Definition severityMap (errorType : string) : string :=
  if String.eqb errorType "MissingField" then "high"
  else if String.eqb errorType "TypeError" then "medium"
  else if String.eqb errorType "RangeError" then "medium"
  else if String.eqb errorType "UnknownReference" then "high"
  else if String.eqb errorType "LogicalConflict" then "high"
  else if String.eqb errorType "DuplicateID" then "high"
  else if String.eqb errorType "CircularReference" then "high"
  else if String.eqb errorType "WorkerOverload" then "medium"
  else if String.eqb errorType "SkillGap" then "high"
  else if String.eqb errorType "ConcurrencyIssue" then "medium"
  else if String.eqb errorType "RuleConflict" then "medium"
  else "undefined".

(** An error object whose severity is read from [severityMap]. *)
Definition report (rowIndex : Z) (fieldName msg errorType : string) : verror :=
  mkError rowIndex fieldName msg errorType (severityMap errorType).

(** [requiredFields] *)
Definition requiredFields_clients : list string := ["ClientID"; "PriorityLevel"].
Definition requiredFields_workers : list string :=
  ["WorkerID"; "Skills"; "AvailableSlots"; "MaxLoadPerPhase"].
Definition requiredFields_tasks : list string :=
  ["TaskID"; "Duration"; "RequiredSkills"].

Definition missing_field (rowIndex : Z) (fieldName : string) : verror :=
  report rowIndex fieldName ("Required field '" ++ fieldName ++ "' is missing")
         "MissingField".

(** [validateRequiredFields(record, requiredFields, rowIndex)] *)
Definition validateRequiredFields (record : value) (required : list string)
           (rowIndex : Z) : completion (list verror) :=
  forEach (fun errors fieldName _ =>
             x <- get record fieldName ;;
             if negb (truthy x) || is_string "" x
             then Normal (push errors (missing_field rowIndex fieldName))
             else Normal errors) required [].

(** [validateType(value, expectedType)] *)
Definition validateType (v : value) (expectedType : string) : bool :=
  String.eqb (typeof v) expectedType.

(** [validateRange(value, min, max)] *)
Definition validateRange (v : value) (min max : Z) : bool :=
  greater_equal v (VNum min) && less_equal v (VNum max).

(** [arrayifyCommaString(str)] *)
Definition arrayifyCommaString (str : value) : list string :=
  match str with
  | VStr s =>
      if negb (truthy str) then []
      else filter (fun item => negb (String.eqb item ""))
                  (map trim (split ","%char s))
  | _ => []
  end.

(** [for (let i = start; i <= end; i++) result.push(i)] *)
Definition range (a b : Z) : list Z :=
  map (fun k => a + Z.of_nat k) (seq 0 (Z.to_nat (b - a + 1))).

(** [parseRange(rangeStr)]; [None] is [null]. *)
Definition parseRange (rangeStr : value) : option (list Z) :=
  match rangeStr with
  | VStr s =>
      if negb (truthy rangeStr) then None
      else if includes_char "-"%char s then
        match map StringToNumber (split "-"%char s) with
        | Some a :: Some b :: _ => if b <? a then None else Some (range a b)
        | _ => None
        end
      else match StringToNumber s with
           | Some num => Some [num]
           | None => None
           end
  | _ => None
  end.

Section Engine.

(** [JSON.parse] on a source text, a primitive of the engine. *)
Variable JSON_parse : string -> completion value.

(** [isValidJSON(str)] *)
Definition isValidJSON (str : value) : bool :=
  match JSON_parse (ToString str) with
  | Normal _ => true
  | Throw _ => false
  end.

(** [parseSlots(slots)]; [None] is [null]. *)
Definition parseSlots (slots : value) : option (list value) :=
  match slots with
  | VArr items => Some items
  | VStr s =>
      match JSON_parse s with
      | Normal (VArr parsed) => Some parsed
      | Normal _ => None
      | Throw _ =>
          Some (flat_map (fun item => match StringToNumber item with
                                      | Some n => [VNum n]
                                      | None => []
                                      end)
                         (arrayifyCommaString slots))
      end
  | _ => None
  end.

(** [Number.isInteger(v)] *)
Definition isInteger (v : value) : bool :=
  match v with VNum _ => true | _ => false end.

(** The duplicate-identifier check shared by the three entity
    validators: [if (record.ID) { if (ids.has(record.ID)) errors.push(...);
    ids.add(record.ID); }] *)
Definition check_duplicate (idField : string) (rowIndex : Z) (ident : value)
           (ids : list value) (errors : list verror)
  : list value * list verror :=
  if truthy ident then
    (set_add ident ids,
     if set_has ident ids
     then push errors (report rowIndex idField
                         ("Duplicate " ++ idField ++ ": " ++ ToString ident)
                         "DuplicateID")
     else errors)
  else (ids, errors).

(** The body of the [for] loop of [validateClients]; the state is
    ([clientIds], [errors]). *)
Definition validateClient (taskIds : list value)
           (st : list value * list verror) (client : value) (i : nat)
  : completion (list value * list verror) :=
  let '(clientIds, errors) := st in
  let rowIndex := Z.of_nat i + 1 in
  missing <- validateRequiredFields client requiredFields_clients rowIndex ;;
  let errors := (errors ++ missing)%list in
  client_id <- get client "ClientID" ;;
  let '(clientIds, errors) :=
    check_duplicate "ClientID" rowIndex client_id clientIds errors in
  priorityLevel <- get client "PriorityLevel" ;;
  let errors :=
    match priorityLevel with
    | VUndefined => errors
    | _ =>
        if negb (validateType priorityLevel "number") then
          push errors (report rowIndex "PriorityLevel"
                         "PriorityLevel must be a number" "TypeError")
        else if negb (validateRange priorityLevel 1 5) then
          push errors (report rowIndex "PriorityLevel"
                         "PriorityLevel must be between 1 and 5" "RangeError")
        else errors
    end in
  requested <- get client "RequestedTaskIDs" ;;
  let errors :=
    if truthy requested then
      fold_left (fun errors taskId =>
                   if negb (set_has (VStr taskId) taskIds)
                   then push errors (report rowIndex "RequestedTaskIDs"
                                       ("TaskID " ++ taskId ++ " not found in tasks")
                                       "UnknownReference")
                   else errors)
                (arrayifyCommaString requested) errors
    else errors in
  attributes <- get client "AttributesJSON" ;;
  let errors :=
    if truthy attributes && negb (isValidJSON attributes)
    then push errors (report rowIndex "AttributesJSON"
                        "Invalid JSON format in AttributesJSON" "TypeError")
    else errors in
  Normal (clientIds, errors).

(** [new Set(items)] *)
Definition Set_of (items : list value) : list value :=
  fold_left (fun s x => set_add x s) items [].

(** [validateClients(clients, tasks = [])] *)
Definition validateClients (clients : list value) (tasks : value)
  : completion (list verror) :=
  let tasks := match tasks with VUndefined => VArr [] | _ => tasks end in
  taskList <- array_method "map" tasks ;;
  ids <- array_map (fun t => get t "TaskID") taskList ;;
  st <- forEach (validateClient (Set_of ids)) clients ([], []) ;;
  Normal (snd st).

(** The body of the [for] loop of [validateWorkers]; the state is
    ([workerIds], [errors]). *)
Definition validateWorker (st : list value * list verror) (worker : value)
           (i : nat) : completion (list value * list verror) :=
  let '(workerIds, errors) := st in
  let rowIndex := Z.of_nat i + 1 in
  missing <- validateRequiredFields worker requiredFields_workers rowIndex ;;
  let errors := (errors ++ missing)%list in
  worker_id <- get worker "WorkerID" ;;
  let '(workerIds, errors) :=
    check_duplicate "WorkerID" rowIndex worker_id workerIds errors in
  skills <- get worker "Skills" ;;
  let errors :=
    if truthy skills then
      if Nat.eqb (List.length (arrayifyCommaString skills)) 0
      then push errors (report rowIndex "Skills"
                          "Worker must have at least one skill" "LogicalConflict")
      else errors
    else errors in
  availableSlots <- get worker "AvailableSlots" ;;
  let errors :=
    if truthy availableSlots then
      match parseSlots availableSlots with
      | Some slots =>
          if existsb (fun slot => negb (isInteger slot)) slots
          then push errors (report rowIndex "AvailableSlots"
                              "AvailableSlots must be an array of integers"
                              "TypeError")
          else errors
      | None =>
          push errors (report rowIndex "AvailableSlots"
                         "AvailableSlots must be an array of integers" "TypeError")
      end
    else errors in
  maxLoad <- get worker "MaxLoadPerPhase" ;;
  let errors :=
    match maxLoad with
    | VUndefined => errors
    | _ =>
        if negb (validateType maxLoad "number") then
          push errors (report rowIndex "MaxLoadPerPhase"
                         "MaxLoadPerPhase must be a number" "TypeError")
        else if less_than maxLoad (VNum 0) then
          push errors (report rowIndex "MaxLoadPerPhase"
                         "MaxLoadPerPhase must be >= 0" "RangeError")
        else errors
    end in
  let errors :=
    if truthy availableSlots && truthy maxLoad then
      match parseSlots availableSlots with
      | Some slots =>
          if less_than (VNum (Z.of_nat (List.length slots))) maxLoad
          then push errors (report rowIndex "MaxLoadPerPhase"
                              "MaxLoadPerPhase exceeds available slots"
                              "WorkerOverload")
          else errors
      | None => errors
      end
    else errors in
  Normal (workerIds, errors).

(** [validateWorkers(workers)] *)
Definition validateWorkers (workers : list value) : completion (list verror) :=
  st <- forEach validateWorker workers ([], []) ;;
  Normal (snd st).

(** The body of the [for] loop of [validateTasks]; the state is
    ([taskIds], [errors]). *)
Definition validateTask (st : list value * list verror) (task : value)
           (i : nat) : completion (list value * list verror) :=
  let '(taskIds, errors) := st in
  let rowIndex := Z.of_nat i + 1 in
  missing <- validateRequiredFields task requiredFields_tasks rowIndex ;;
  let errors := (errors ++ missing)%list in
  task_id <- get task "TaskID" ;;
  let '(taskIds, errors) :=
    check_duplicate "TaskID" rowIndex task_id taskIds errors in
  duration <- get task "Duration" ;;
  let errors :=
    match duration with
    | VUndefined => errors
    | _ =>
        if negb (validateType duration "number") then
          push errors (report rowIndex "Duration"
                         "Duration must be a number" "TypeError")
        else if less_than duration (VNum 1) then
          push errors (report rowIndex "Duration"
                         "Duration must be >= 1" "RangeError")
        else errors
    end in
  required <- get task "RequiredSkills" ;;
  let errors :=
    if truthy required then
      if Nat.eqb (List.length (arrayifyCommaString required)) 0
      then push errors (report rowIndex "RequiredSkills"
                          "Task must require at least one skill"
                          "LogicalConflict")
      else errors
    else errors in
  maxConcurrent <- get task "MaxConcurrent" ;;
  let errors :=
    match maxConcurrent with
    | VUndefined => errors
    | _ =>
        if negb (validateType maxConcurrent "number")
        then push errors (report rowIndex "MaxConcurrent"
                            "MaxConcurrent must be a number" "TypeError")
        else errors
    end in
  preferred <- get task "PreferredPhases" ;;
  let errors :=
    if truthy preferred then
      match parseRange preferred with
      | Some _ => errors
      | None => push errors (report rowIndex "PreferredPhases"
                               "Invalid PreferredPhases format" "TypeError")
      end
    else errors in
  Normal (taskIds, errors).

(** [validateTasks(tasks)] *)
Definition validateTasks (tasks : list value) : completion (list verror) :=
  st <- forEach validateTask tasks ([], []) ;;
  Normal (snd st).

Definition string_set_has (x : string) (s : list string) : bool :=
  existsb (String.eqb x) s.

Definition string_set_add (x : string) (s : list string) : list string :=
  if string_set_has x s then s else push s x.

Definition string_set_delete (x : string) (s : list string) : list string :=
  filter (fun y => negb (String.eqb x y)) s.

(** [validateSkillCoverage(tasks, workers)] *)
Definition validateSkillCoverage (tasks workers : value)
  : completion (list verror) :=
  workerList <- array_method "forEach" workers ;;
  workerSkills <- forEach (fun workerSkills worker _ =>
      skills <- get worker "Skills" ;;
      if truthy skills then
        Normal (fold_left (fun ws skill => string_set_add skill ws)
                          (arrayifyCommaString skills) workerSkills)
      else Normal workerSkills) workerList [] ;;
  taskList <- array_method "forEach" tasks ;;
  forEach (fun errors task index =>
      required <- get task "RequiredSkills" ;;
      if truthy required then
        let missingSkills :=
          filter (fun skill => negb (string_set_has skill workerSkills))
                 (arrayifyCommaString required) in
        if (0 <? List.length missingSkills)%nat
        then Normal (push errors
                       (report (Z.of_nat index + 1) "RequiredSkills"
                          ("Skills not available in workforce: "
                             ++ join ", " missingSkills)
                          "SkillGap"))
        else Normal errors
      else Normal errors) taskList [].

(** [obj[phase] = (obj[phase] || 0) + amount] *)
Definition accumulate (amount : value) (obj : list (string * value))
           (phase : value) : list (string * value) :=
  let key := ToString phase in
  let old := match lookup key obj with Some x => x | None => VUndefined end in
  obj_set key (add (or_else old (VNum 0)) amount) obj.

(** [validatePhaseSlotSaturation(tasks, workers)] *)
Definition validatePhaseSlotSaturation (tasks workers : value)
  : completion (list verror) :=
  workerList <- array_method "forEach" workers ;;
  phaseCapacity <- forEach (fun phaseCapacity worker _ =>
      availableSlots <- get worker "AvailableSlots" ;;
      if truthy availableSlots then
        maxLoad <- get worker "MaxLoadPerPhase" ;;
        if truthy maxLoad then
          match parseSlots availableSlots with
          | Some slots => Normal (fold_left (accumulate maxLoad) slots phaseCapacity)
          | None => Normal phaseCapacity
          end
        else Normal phaseCapacity
      else Normal phaseCapacity) workerList [] ;;
  taskList <- array_method "forEach" tasks ;;
  phaseDemand <- forEach (fun phaseDemand task _ =>
      preferred <- get task "PreferredPhases" ;;
      if truthy preferred then
        duration <- get task "Duration" ;;
        if truthy duration then
          match parseRange preferred with
          | Some phases =>
              Normal (fold_left (accumulate duration) (map VNum phases) phaseDemand)
          | None => Normal phaseDemand
          end
        else Normal phaseDemand
      else Normal phaseDemand) taskList [] ;;
  Normal (fold_left (fun errors entry =>
            let '(phase, demand) := entry in
            let capacity :=
              or_else (match lookup phase phaseCapacity with
                       | Some c => c
                       | None => VUndefined
                       end) (VNum 0) in
            if greater_than demand capacity
            then push errors
                   (report 0 "PhaseCapacity"
                      ("Phase " ++ phase ++ " oversaturated: demand "
                         ++ ToString demand ++ " exceeds capacity "
                         ++ ToString capacity)
                      "LogicalConflict")
            else errors)
          (Object_entries phaseDemand) []).

(** The sets [visited] and [recStack] of the closure [hasCycle]. *)
Definition cycle_state : Type := (list string * list string)%type.

(** [for (const neighbor of neighbors) if (hasCycle(neighbor)) return true;
    recStack.delete(node); return false;] with [rec] the recursive call. *)
Fixpoint hasCycle_neighbors (rec : string -> cycle_state -> option (bool * cycle_state))
         (x : string) (ns : list string) (st : cycle_state)
  : option (bool * cycle_state) :=
  match ns with
  | [] => Some (false, (fst st, string_set_delete x (snd st)))
  | n :: r =>
      match rec n st with
      | None => None
      | Some (true, st') => Some (true, st')
      | Some (false, st') => hasCycle_neighbors rec x r st'
      end
  end.

(** [graph[node] || []] *)
Definition corun_neighbors (graph : list (string * list string)) (x : string)
  : list string :=
  match lookup x graph with
  | Some ns => ns
  | None => []
  end.

(** The closure [hasCycle(node)]; [fuel] bounds the recursion depth and
    the outer [None] means the bound was reached. *)
Fixpoint hasCycle (fuel : nat) (graph : list (string * list string))
         (x : string) (st : cycle_state) : option (bool * cycle_state) :=
  match fuel with
  | O => None
  | S fuel' =>
      if string_set_has x (snd st) then Some (true, st)
      else if string_set_has x (fst st) then Some (false, st)
      else hasCycle_neighbors (hasCycle fuel' graph) x (corun_neighbors graph x)
             (string_set_add x (fst st), string_set_add x (snd st))
  end.

(** [tasks.findIndex(t => t.TaskID === taskId)]; the result [-1] when no
    task matches. *)
Fixpoint findIndex_TaskID (taskId : string) (tasks : list value) (i : Z)
  : completion Z :=
  match tasks with
  | [] => Normal (-1)
  | t :: r =>
      task_id <- get t "TaskID" ;;
      if is_string taskId task_id then Normal i
      else findIndex_TaskID taskId r (i + 1)
  end.

(** A recursion depth no traversal of the co-run graph exceeds. *)
Definition corun_depth_bound (graph : list (string * list string)) : nat :=
  S (List.length (map fst graph ++ List.concat (map snd graph))%list).

Definition stack_overflow : exn :=
  mkExn "RangeError" "Maximum call stack size exceeded".

(** [detectCircularCoRuns(tasks)] *)
Definition detectCircularCoRuns (tasks : value) : completion (list verror) :=
  taskList <- array_method "forEach" tasks ;;
  graph <- forEach (fun graph task _ =>
      coRunWith <- get task "CoRunWith" ;;
      if truthy coRunWith then
        task_id <- get task "TaskID" ;;
        Normal (obj_set (ToString task_id) (arrayifyCommaString coRunWith) graph)
      else Normal graph) taskList [] ;;
  r <- forEach (fun (acc : cycle_state * list verror) entry _ =>
      let '(st, errors) := acc in
      let taskId := fst entry in
      match hasCycle (corun_depth_bound graph) graph taskId st with
      | None => Throw stack_overflow
      | Some (true, st') =>
          taskIndex <- findIndex_TaskID taskId taskList 0 ;;
          Normal (st', push errors
                         (report (taskIndex + 1) "CoRunWith"
                            ("Circular co-run dependency detected for task "
                               ++ taskId)
                            "CircularReference"))
      | Some (false, st') => Normal (st', errors)
      end) (Object_entries graph) (([], []), []) ;;
  Normal (snd r).

(** [validateMaxConcurrentFeasibility(tasks, workers)] *)
Definition validateMaxConcurrentFeasibility (tasks workers : value)
  : completion (list verror) :=
  taskList <- array_method "forEach" tasks ;;
  forEach (fun errors task index =>
      maxConcurrent <- get task "MaxConcurrent" ;;
      if truthy maxConcurrent then
        required <- get task "RequiredSkills" ;;
        if truthy required then
          let requiredSkills := arrayifyCommaString required in
          workerList <- array_method "filter" workers ;;
          qualifiedWorkers <- array_filter (fun worker =>
              skills <- get worker "Skills" ;;
              if negb (truthy skills) then Normal false
              else
                let workerSkills := arrayifyCommaString skills in
                Normal (forallb (fun skill => string_set_has skill workerSkills)
                                requiredSkills)) workerList ;;
          let qualified := Z.of_nat (List.length qualifiedWorkers) in
          if greater_than maxConcurrent (VNum qualified)
          then Normal (push errors
                         (report (Z.of_nat index + 1) "MaxConcurrent"
                            ("MaxConcurrent (" ++ ToString maxConcurrent
                               ++ ") exceeds qualified workers ("
                               ++ string_of_Z qualified ++ ")")
                            "ConcurrencyIssue"))
          else Normal errors
        else Normal errors
      else Normal errors) taskList [].

(** [validateCoRunRules], [validatePhaseWindowRules], [validateLoadLimits]:
    each returns an empty array. *)
Definition validateCoRunRules (tasks rules : value) : list verror := [].
Definition validatePhaseWindowRules (tasks rules : value) : list verror := [].
Definition validateLoadLimits (workers rules : value) : list verror := [].

(** [validateCrossEntityRules(clients, workers, tasks, rules = [])] *)
Definition validateCrossEntityRules (clients workers tasks rules : value)
  : completion (list verror) :=
  e1 <- validateSkillCoverage tasks workers ;;
  e2 <- validatePhaseSlotSaturation tasks workers ;;
  e3 <- detectCircularCoRuns tasks ;;
  e4 <- validateMaxConcurrentFeasibility tasks workers ;;
  Normal (e1 ++ e2 ++ e3 ++ e4 ++ validateCoRunRules tasks rules
             ++ validatePhaseWindowRules tasks rules
             ++ validateLoadLimits workers rules)%list.

(** What the cache service answers during one call of [validateRecords]:
    [isAvailable()] and the outcome of the awaited
    [getCachedValidationResults(cacheKey)].  The later call of
    [cacheValidationResults] sits in its own [try]/[catch] and its
    outcome is not used. *)
Record cache_reply : Type := mkCache {
  isAvailable : bool;
  getCachedValidationResults : completion value
}.

(** What [validateRecords] resolves to: an array of error objects it
    built, or the value found in the cache. *)
Inductive records_result : Type :=
| Errors (errors : list verror)
| Cached (v : value).

Definition invalid_data_format : verror :=
  report 0 "data" "Invalid data format - expected array" "TypeError".

Definition unknown_entity_type (entityType : value) : verror :=
  report 0 "entityType" ("Unknown entity type: " ++ ToString entityType)
         "TypeError".

Definition system_error (e : exn) : verror :=
  mkError 0 "system" ("Validation system error: " ++ exn_message e)
          "SystemError" "high".

(** The part of [validateRecords] after the cache lookup: the [switch]
    on the entity type (its [default] branch returns at once), then the
    cross-entity checks when the store holds the three collections. *)
Definition validate_entity (data : list value) (entityType fullDataStore : value)
  : completion (list verror) :=
  errors <-
    (if is_string "clients" entityType then
       storeTasks <- get fullDataStore "tasks" ;;
       e <- validateClients data (or_else storeTasks (VArr [])) ;;
       Normal (Some e)
     else if is_string "workers" entityType then
       e <- validateWorkers data ;; Normal (Some e)
     else if is_string "tasks" entityType then
       e <- validateTasks data ;; Normal (Some e)
     else Normal None) ;;
  match errors with
  | None => Normal [unknown_entity_type entityType]
  | Some errors =>
      clients <- get fullDataStore "clients" ;;
      workers <- (if truthy clients then get fullDataStore "workers"
                  else Normal clients) ;;
      tasks <- (if truthy workers then get fullDataStore "tasks"
                else Normal workers) ;;
      if truthy tasks then
        rules <- get fullDataStore "rules" ;;
        cross <- validateCrossEntityRules clients workers tasks
                   (or_else rules (VArr [])) ;;
        Normal (errors ++ cross)%list
      else Normal errors
  end.

(** [validateRecords(data, entityType, fullDataStore = {})] *)
Definition validateRecords (cache : cache_reply)
           (data entityType fullDataStore : value) : records_result :=
  let fullDataStore :=
    match fullDataStore with VUndefined => VObj [] | _ => fullDataStore end in
  match data with
  | VArr records =>
      let hit :=
        if isAvailable cache then
          match getCachedValidationResults cache with
          | Normal cachedValidation =>
              if truthy cachedValidation then Some cachedValidation else None
          | Throw _ => None
          end
        else None in
      match hit with
      | Some cachedValidation => Cached cachedValidation
      | None =>
          match validate_entity records entityType fullDataStore with
          | Normal errors => Errors errors
          | Throw e => Errors [system_error e]
          end
      end
  | _ => Errors [invalid_data_format]
  end.

End Engine.

End ValidationService.

(* ================================================================== *)
(** * Part IV (continued).  utils/graphUtils.js on task identifiers      *)
(* ================================================================== *)

Module RuleGraph.

Import JS.
Local Open Scope js_scope.

(** A graph whose nodes are JavaScript values, compared as the keys of a
    [Map] are. *)
Definition value_graph : Type := GraphUtils.graph value.

(** [for (let i = 0; i < rule.tasks.length; i++) for (let j = i + 1; j <
    rule.tasks.length; j++) this.addBidirectionalEdge(graph, rule.tasks[i],
    rule.tasks[j])] *)
Definition coRun_edges (g : value_graph) (tasks : list value) : value_graph :=
  fold_left (fun g ab =>
               GraphUtils.addBidirectionalEdge value value_eqb g (fst ab) (snd ab))
            (EnhancedValidationService.pairs tasks) g.

(** [for (let i = 0; i < rule.tasks.length - 1; i++) this.addEdge(graph,
    rule.tasks[i], rule.tasks[i + 1])] *)
Fixpoint sequence_edges (g : value_graph) (tasks : list value) : value_graph :=
  match tasks with
  | x :: r =>
      match r with
      | y :: _ => sequence_edges (GraphUtils.addEdge value value_eqb g x y) r
      | [] => g
      end
  | [] => g
  end.

(** The callback of [rules.forEach]: the [switch] on [rule.type]. *)
Definition add_rule_edges (g : value_graph) (rule : value) (_ : nat)
  : completion value_graph :=
  ruleType <- get rule "type" ;;
  if is_string "coRun" ruleType then
    ruleTasks <- get rule "tasks" ;;
    match ruleTasks with
    | VArr items => Normal (coRun_edges g items)
    | _ => Normal g
    end
  else if is_string "sequence" ruleType then
    ruleTasks <- get rule "tasks" ;;
    match ruleTasks with
    | VArr items => Normal (sequence_edges g items)
    | _ => Normal g
    end
  else if is_string "prerequisite" ruleType then
    prerequisite <- get rule "prerequisite" ;;
    if truthy prerequisite then
      dependent <- get rule "dependent" ;;
      if truthy dependent
      then Normal (GraphUtils.addEdge value value_eqb g prerequisite dependent)
      else Normal g
    else Normal g
  else Normal g.

(** [task.TaskID || task.id] *)
Definition task_node (task : value) : completion value :=
  taskId <- get task "TaskID" ;;
  if truthy taskId then Normal taskId else get task "id".

(** [createDependencyGraphFromRules(tasks, rules)] *)
Definition createDependencyGraphFromRules (tasks rules : value)
  : completion value_graph :=
  taskList <- array_method "map" tasks ;;
  nodes <- array_map task_node taskList ;;
  ruleList <- array_method "forEach" rules ;;
  forEach add_rule_edges ruleList (GraphUtils.createGraph value value_eqb nodes).

End RuleGraph.

(** ** Properties every object literal inherits *)

Module ObjectPrototype.

(** The property names an object literal inherits from
    [Object.prototype]: looked up on [{}] they yield a function or an
    object, not [undefined]. *)
Definition Object_prototype_names : list string :=
  ["constructor"; "__defineGetter__"; "__defineSetter__"; "hasOwnProperty";
   "__lookupGetter__"; "__lookupSetter__"; "isPrototypeOf";
   "propertyIsEnumerable"; "toString"; "valueOf"; "__proto__";
   "toLocaleString"]%string.

Definition inherited_name (s : string) : bool :=
  existsb (String.eqb s) Object_prototype_names.

End ObjectPrototype.

(* ================================================================== *)
(** * Part IV (continued).  utils/graphUtils.js: [ValidationUtils]       *)
(* ================================================================== *)

Module ValidationUtils.

Import JS.
Local Open Scope js_scope.

(** The callback of [array.forEach] in [findDuplicates]; the state is
    the pair of sets ([seen], [duplicates]), and [keyExtractor] is [None]
    when no extractor is passed. *)
Definition note_key (keyExtractor : option (value -> nat -> completion value))
           (sd : list value * list value) (item : value) (index : nat)
  : completion (list value * list value) :=
  let '(seen, duplicates) := sd in
  key <- match keyExtractor with
         | Some extract => extract item index
         | None => Normal item
         end ;;
  if set_has key seen
  then Normal (seen, set_add key duplicates)
  else Normal (set_add key seen, duplicates).

(** [findDuplicates(array, keyExtractor = null)] *)
Definition findDuplicates (array : value)
           (keyExtractor : option (value -> nat -> completion value))
  : completion (list value) :=
  items <- array_method "forEach" array ;;
  sd <- forEach (note_key keyExtractor) items ([], []) ;;
  Normal (snd sd).

(** *** [sortErrorsByPriority] *)

(** What a lookup in [severityOrder] yields besides [undefined]: one of
    its three numbers, or the value inherited under that name. *)
Inductive order_entry : Type :=
| Ranked (n : Z)
| Inherited (name : string).

(** [x !== y] on two such values, negated. *)
Definition order_entry_eqb (x y : order_entry) : bool :=
  match x, y with
  | Ranked n, Ranked m => Z.eqb n m
  | Inherited a, Inherited b => String.eqb a b
  | _, _ => false
  end.

(** [severityOrder[severity]] for [{ 'error': 0, 'warning': 1, 'info': 2 }];
    [None] is [undefined]. *)
Definition severityOrder (severity : string) : option order_entry :=
  if String.eqb severity "error" then Some (Ranked 0)
  else if String.eqb severity "warning" then Some (Ranked 1)
  else if String.eqb severity "info" then Some (Ranked 2)
  else if ObjectPrototype.inherited_name severity then Some (Inherited severity)
  else None.

(** [severityOrder[x.severity] || 3]: the number 0 is falsy. *)
Definition severity_rank (x : EnhancedValidationService.finding) : order_entry :=
  match severityOrder (EnhancedValidationService.f_severity x) with
  | Some (Ranked n) => if Z.eqb n 0 then Ranked 3 else Ranked n
  | Some (Inherited name) => Inherited name
  | None => Ranked 3
  end.

Section Sorting.

(** [a.localeCompare(b)]: negative, zero or positive, as the collation
    of the engine orders the two strings. *)
Variable localeCompare : string -> string -> Z.

(** The comparator passed to [errors.sort]; the errors are objects with
    string [severity], [entity] and [type], for which [a.type || ''] is
    [a.type].  A difference that is [NaN] counts as 0 for [sort]. *)
Definition compare_errors (a b : EnhancedValidationService.finding) : Z :=
  let aSeverity := severity_rank a in
  let bSeverity := severity_rank b in
  if negb (order_entry_eqb aSeverity bSeverity) then
    match aSeverity, bSeverity with
    | Ranked x, Ranked y => x - y
    | _, _ => 0
    end
  else if negb (String.eqb (EnhancedValidationService.f_entity a)
                           (EnhancedValidationService.f_entity b))
  then localeCompare (EnhancedValidationService.f_entity a)
                     (EnhancedValidationService.f_entity b)
  else localeCompare (EnhancedValidationService.f_type a)
                     (EnhancedValidationService.f_type b).

(** [sort] is stable: an element goes before the first one the
    comparator puts strictly after it. *)
Fixpoint insert_sorted (x : EnhancedValidationService.finding)
         (l : list EnhancedValidationService.finding)
  : list EnhancedValidationService.finding :=
  match l with
  | [] => [x]
  | y :: r => if compare_errors x y <? 0 then x :: l else y :: insert_sorted x r
  end.

(** [sortErrorsByPriority(errors)]: the order [Array.prototype.sort]
    has to produce when the comparator is consistent; the array passed
    in is the one sorted and returned. *)
Definition sortErrorsByPriority (errors : list EnhancedValidationService.finding)
  : list EnhancedValidationService.finding :=
  fold_left (fun sorted x => insert_sorted x sorted) errors [].

End Sorting.

End ValidationUtils.

(* ================================================================== *)
(** * Part III (continued).  [getValidationSummary] of the enhanced      *)
(** * validation service                                                 *)
(* ================================================================== *)

Module Dashboard.

Import JS EnhancedValidationService.

(** One entry of [entityBreakdown]. *)
Record entity_counts : Type := mkCounts {
  c_records : nat;
  c_errors : nat;
  c_warnings : nat
}.

(** The object [getValidationSummary] returns. *)
Record dashboard : Type := mkDashboard {
  d_isValid : bool;
  d_totalRecords : nat;
  d_totalErrors : nat;
  d_totalWarnings : nat;
  d_clients : entity_counts;
  d_workers : entity_counts;
  d_tasks : entity_counts;
  d_lastValidated : string
}.

(** [e => e.entity === entity] *)
Definition has_entity (entity : string) (f : finding) : bool :=
  String.eqb (f_entity f) entity.

(** [{ records: data.length, errors: validationResult.errors.filter(e =>
    e.entity === entity).length, warnings: ... }] *)
Definition count_entity (r : ValidationResult) (data : list value)
           (entity : string) : entity_counts :=
  mkCounts (List.length data)
           (List.length (filter (has_entity entity) (errors r)))
           (List.length (filter (has_entity entity) (warnings r))).

(** [getValidationSummary(clientsData, workersData, tasksData)] on three
    arrays; [now] and [later] are the readings of the clock inside
    [validateAllData] and when the summary is built. *)
Definition getValidationSummary (JSON_parse : string -> completion value)
           (now later : string) (clientsData workersData tasksData : list value)
  : dashboard :=
  let validationResult :=
    validateAllData JSON_parse now (VArr clientsData) (VArr workersData)
                    (VArr tasksData) VUndefined in
  mkDashboard (isValid validationResult)
    (List.length clientsData + List.length workersData + List.length tasksData)
    (totalErrors (result_summary validationResult))
    (totalWarnings (result_summary validationResult))
    (count_entity validationResult clientsData "clients")
    (count_entity validationResult workersData "workers")
    (count_entity validationResult tasksData "tasks")
    later.

End Dashboard.

(* ================================================================== *)
(** * Part V.  Notions used to state the properties                      *)
(* ================================================================== *)

(** ** Examples of the specification *)

Module SpecExamples.

Import JS.

(** The worker and the task of the phase-slot saturation example; the
    worker's load limit is left open. *)
Definition worker_with_load (maxLoad : Z) : value :=
  VObj [("AvailableSlots", VArr [VNum 1]); ("MaxLoadPerPhase", VNum maxLoad)].

Definition task_3_in_phase_1 : value :=
  VObj [("PreferredPhases", VArr [VNum 1]); ("Duration", VNum 3)].

(** The task set and the three co-run rules of the circular co-run
    example. *)
Definition task (name : string) : value := VObj [("TaskID", VStr name)].

Definition coRun (a b : string) : value :=
  VObj [("type", VStr "coRun"); ("tasks", VArr [VStr a; VStr b])].

(** A co-run rule over a list of task names. *)
Definition coRun_of (names : list string) : value :=
  VObj [("type", VStr "coRun"); ("tasks", VArr (map VStr names))].

Definition three_tasks : value := VArr [task "T1"; task "T2"; task "T3"].

Definition three_rules : value :=
  VArr [coRun "T1" "T2"; coRun "T2" "T3"; coRun "T3" "T1"].

(** Workers with one and with three available slots. *)
Definition worker (name : string) (slots : list Z) (maxLoad : Z) : value :=
  VObj [("WorkerID", VStr name); ("WorkerName", VStr name);
        ("Skills", VStr "js"); ("AvailableSlots", VArr (map VNum slots));
        ("MaxLoadPerPhase", VNum maxLoad)].

(** Client records that share an identifier. *)
Definition client (ident : value) : value :=
  VObj [("ClientID", ident); ("ClientName", VStr "Acme");
        ("PriorityLevel", VNum 3)].

Definition clients_C1_C2_C1_C1 : list value :=
  [client (VStr "C1"); client (VStr "C2"); client (VStr "C1"); client (VStr "C1")].

Definition clients_0_0 : list value := [client (VNum 0); client (VNum 0)].

(** A task that prefers phase 1, the phase written as a string, as
    [parseRange] of the validation service expects it. *)
Definition task_3_in_phase_1_text : value :=
  VObj [("PreferredPhases", VStr "1"); ("Duration", VNum 3)].

(** An engine whose [JSON.parse] rejects every text; the examples hold
    arrays, never texts to parse. *)
Definition no_JSON (text : string) : completion value :=
  Throw (SyntaxError "Unexpected token").

End SpecExamples.

(** ** Records *)

Module Records.

Import JS.

(** [null] and [undefined], the two values whose properties cannot be
    read. *)
Definition nullish (v : value) : bool :=
  match v with
  | VUndefined | VNull => true
  | _ => false
  end.

(** The value of [v[k]] for a [v] whose properties can be read. *)
Definition prop (v : value) (k : string) : value :=
  match get v k with
  | Normal x => x
  | Throw _ => VUndefined
  end.

(** A list of records: an array none of whose elements is [null] or
    [undefined]. *)
Definition records (l : list value) : Prop :=
  Forall (fun v => nullish v = false) l.

(** Strings, numbers and booleans: the values that [Set] and [Map]
    compare by content. *)
Definition primitive (v : value) : bool :=
  match v with
  | VArr _ | VObj _ => false
  | _ => true
  end.

(** A plain object: a record whose properties are its own fields. *)
Definition is_object (v : value) : bool :=
  match v with
  | VObj _ => true
  | _ => false
  end.

(** Text of ASCII characters only: on such text [trim], [split] and the
    comparison of strings work as in the engine, character by
    character. *)
Definition ascii_text (s : string) : bool :=
  forallb (fun c => (nat_of_ascii c <? 128)%nat) (list_ascii_of_string s).

(** A value all of whose strings and property names are ASCII text. *)
Fixpoint ascii_value (v : value) : bool :=
  match v with
  | VStr s => ascii_text s
  | VArr items => forallb ascii_value items
  | VObj fields =>
      (fix ascii_fields (fields : list (string * value)) : bool :=
         match fields with
         | [] => true
         | (k, x) :: r => ascii_text k && ascii_value x && ascii_fields r
         end) fields
  | _ => true
  end.

(** The identifiers of a list of task records. *)
Definition task_ids (tasks : list value) : list value :=
  map (fun t => prop t "TaskID") tasks.

(** What [add_rule] does to the graph for a rule whose properties can be
    read. *)
Definition rule_links (g : EnhancedValidationService.corun_graph) (rule : value)
  : EnhancedValidationService.corun_graph :=
  match prop rule "tasks" with
  | VArr items =>
      fold_left EnhancedValidationService.link
                (EnhancedValidationService.pairs items) g
  | _ => g
  end.

(** The identifiers that the [tasks] arrays of a list of rules list. *)
Definition rule_ids (rules : list value) : list value :=
  flat_map (fun rule => match prop rule "tasks" with
                        | VArr items => items
                        | _ => []
                        end) rules.

(** The values of the field [idField] in a list of records. *)
Definition record_ids (idField : string) (data : list value) : list value :=
  map (fun r => prop r idField) data.

(** The node of a task in the dependency graph: [task.TaskID || task.id]. *)
Definition node_of (task : value) : value :=
  or_else (prop task "TaskID") (prop task "id").

(** [x] is immediately followed by [y] in [l]. *)
Definition adjacent {A} (x y : A) (l : list A) : Prop :=
  exists l1 l2, l = (l1 ++ x :: y :: l2)%list.

(** A finding that [aggregateResults] keeps: its severity is ['error']
    or ['warning']. *)
Definition counted (f : EnhancedValidationService.finding) : bool :=
  EnhancedValidationService.has_severity "error" f
  || EnhancedValidationService.has_severity "warning" f.

(** The sum of the four counts of [summary.breakdown]. *)
Definition breakdown_total (b : EnhancedValidationService.breakdown) : nat :=
  (EnhancedValidationService.b_structural b
   + EnhancedValidationService.b_referential b
   + EnhancedValidationService.b_business b
   + EnhancedValidationService.b_operational b)%nat.

(** The required columns that the record with the own properties
    [fields] lacks. *)
Definition missing_columns (entityType : string) (fields : list (string * value))
  : list string :=
  filter (fun field => match lookup field fields with
                       | Some _ => false
                       | None => true
                       end)
         (EnhancedValidationService.requiredFields entityType).

(** A validation result with the time stamp of its summary blanked. *)
Definition without_timestamp (r : EnhancedValidationService.ValidationResult)
  : EnhancedValidationService.ValidationResult :=
  let s := EnhancedValidationService.result_summary r in
  EnhancedValidationService.mkResult
    (EnhancedValidationService.isValid r)
    (EnhancedValidationService.errors r)
    (EnhancedValidationService.warnings r)
    (EnhancedValidationService.mkSummary
       (EnhancedValidationService.totalErrors s)
       (EnhancedValidationService.totalWarnings s)
       (EnhancedValidationService.validationTypes s)
       ""
       (EnhancedValidationService.summary_breakdown s)).

End Records.

(** ** Duplicate identifiers *)

Module Duplicates.

Import JS Records ValidationService.

(** The identifiers of a list of client records. *)
Definition client_ids (clients : list value) : list value :=
  map (fun c => prop c "ClientID") clients.

Definition is_duplicate_error (e : verror) : bool :=
  String.eqb (type e) "DuplicateID".

(** The [DuplicateID] error reported at a row for an identifier. *)
Definition duplicate_error (idField : string) (rowIndex : Z) (ident : value)
  : verror :=
  report rowIndex idField ("Duplicate " ++ idField ++ ": " ++ ToString ident)
         "DuplicateID".

(** The [DuplicateID] errors expected for the identifiers [ids], read
    from row [i + 1] on, when the identifiers in [seen] came before: one
    error for every truthy identifier already seen. *)
Fixpoint expected_duplicates (idField : string) (seen ids : list value) (i : nat)
  : list verror :=
  match ids with
  | [] => []
  | x :: r =>
      if truthy x then
        ((if set_has x seen
          then [duplicate_error idField (Z.of_nat i + 1) x]
          else [])
           ++ expected_duplicates idField (set_add x seen) r (S i))%list
      else expected_duplicates idField seen r (S i)
  end.

(** The identifier held by the row an error points to. *)
Definition id_at_row (ids : list value) (e : verror) : value :=
  nth (Z.to_nat (row e - 1)) ids VUndefined.

(** The [DuplicateID] errors that refer to the identifier [ident]. *)
Definition duplicates_of (ident : value) (ids : list value) (errs : list verror)
  : list verror :=
  filter (fun e => is_duplicate_error e && value_eqb (id_at_row ids e) ident) errs.

(** The [DuplicateID] errors reported at the row of the record with
    index [j]. *)
Definition duplicate_errors_at (j : nat) (errs : list verror) : list verror :=
  filter (fun e => is_duplicate_error e && (row e =? Z.of_nat j + 1)) errs.

(** The number of records that hold the identifier [ident]. *)
Definition occurrences (ident : value) (ids : list value) : nat :=
  List.length (filter (value_eqb ident) ids).

(** The list [l'] is [l] with further elements pushed. *)
Definition grows {A} (l l' : list A) : Prop := exists s, l' = (l ++ s)%list.

(** The answer of the cache that [validateRecords] acts upon: the
    cached value when the service is available and holds a truthy one. *)
Definition cache_hit (cache : cache_reply) : option value :=
  if isAvailable cache then
    match getCachedValidationResults cache with
    | Normal cachedValidation =>
        if truthy cachedValidation then Some cachedValidation else None
    | Throw _ => None
    end
  else None.

(** A cache service that is not connected. *)
Definition no_cache : cache_reply := mkCache false (Normal VNull).

End Duplicates.

(** ** Directed graphs *)

Module GraphSpec.

Local Open Scope list_scope.

Section Graph.

Variable node : Type.
Variable eqb : node -> node -> bool.

(** [v] is a direct successor of [u]. *)
Definition edge (g : GraphUtils.graph node) (u v : node) : Prop :=
  In v (GraphUtils.neighbors node eqb g u).

(** A path of at least one edge. *)
Definition reaches (g : GraphUtils.graph node) : node -> node -> Prop :=
  clos_trans node (edge g).

(** The graph contains a cycle. *)
Definition has_cycle (g : GraphUtils.graph node) : Prop := exists x, reaches g x x.

(** What a [Map<node, Set<node>>] guarantees by construction: distinct
    keys and duplicate-free successor sets. *)
Definition map_ok (g : GraphUtils.graph node) : Prop :=
  NoDup (GraphUtils.keys node g) /\ forall k s, In (k, s) g -> NoDup s.

(** Every successor is itself a key of the map (a leaf is mapped to the
    empty set), as [createGraph] and [addEdge] build it. *)
Definition closed (g : GraphUtils.graph node) : Prop :=
  forall u v, edge g u v -> In v (GraphUtils.keys node g).

(** The nodes of the list [l] not in the set [V], with multiplicity:
    the measure that bounds the depth of a traversal. *)
Definition unvisited (l V : list node) : list node :=
  filter (fun y => negb (GraphUtils.set_has node eqb y V)) l.

(** A node whose traversal is over: visited and no longer on the
    recursion stack. *)
Definition finished (st : GraphUtils.dfs_state node) (v : node) : Prop :=
  In v (GraphUtils.visited st) /\ ~ In v (GraphUtils.recursionStack st).

(** The invariant of a traversal that has met no cycle so far: the
    finished nodes are closed under the edges and lie on no cycle. *)
Definition no_cycle_so_far (g : GraphUtils.graph node)
           (st : GraphUtils.dfs_state node) : Prop :=
  forall v, finished st v ->
            (forall w, edge g v w -> finished st w) /\ ~ reaches g v v.

(** The number of predecessors of [v] that the sort has not output yet,
    [R] being the output so far. *)
Definition pending (g : GraphUtils.graph node) (R : list node) (v : node) : nat :=
  List.length
    (filter (fun e => GraphUtils.set_has node eqb v (snd e)
                      && negb (GraphUtils.set_has node eqb (fst e) R)) g).

(** The invariant of the [while] loop of [topologicalSort]; [rest] is
    what remains of the neighbours of the node being output (empty
    between two iterations). *)
Record kahn_inv (g : GraphUtils.graph node) (rest : list node)
       (st : GraphUtils.kahn_state node) : Prop := mkKahnInv {
  inv_keys : GraphUtils.keys node (GraphUtils.inDegree st) = GraphUtils.keys node g;
  inv_nodup : NoDup (GraphUtils.result st ++ GraphUtils.queue st);
  inv_incl : incl (GraphUtils.result st ++ GraphUtils.queue st)
                  (GraphUtils.keys node g);
  inv_deg : forall v, In v (GraphUtils.keys node g) ->
      GraphUtils.map_get node eqb v (GraphUtils.inDegree st)
      = Some (Z.of_nat (pending g (GraphUtils.result st) v)
              + (if GraphUtils.set_has node eqb v rest then 1 else 0))%Z;
  inv_zero : forall v, In v (GraphUtils.keys node g) ->
      (GraphUtils.map_get node eqb v (GraphUtils.inDegree st) = Some 0%Z
       <-> In v (GraphUtils.result st ++ GraphUtils.queue st));
  inv_order : forall l1 v l2,
      GraphUtils.result st ++ GraphUtils.queue st = l1 ++ v :: l2 ->
      forall u, edge g u v -> In u l1
}.

(** The decrements the in-degree map can still absorb before every
    entry is at most [0]: with the length of the queue, the measure
    that bounds the iterations of the [while] loop on every map. *)
Definition outstanding (m : GraphUtils.jsmap node Z) : nat :=
  list_sum (map (fun e => Z.to_nat (snd e)) m).

(** [u] occurs before [v] in the sequence [l]. *)
Definition precedes (l : list node) (u v : node) : Prop :=
  exists l1 l2 l3, l = l1 ++ u :: l2 ++ v :: l3.

(** The graph [createGraph(nodes)] after one [addEdge] call per pair of
    [es], in order. *)
Definition graph_of_edges (nodes : list node) (es : list (node * node))
  : GraphUtils.graph node :=
  fold_left (fun g e => GraphUtils.addEdge node eqb g (fst e) (snd e)) es
            (GraphUtils.createGraph node eqb nodes).

(** The sequence [p] follows the edges of [g]. *)
Fixpoint walk (g : GraphUtils.graph node) (p : list node) : Prop :=
  match p with
  | [] => True
  | x :: r =>
      match r with
      | [] => True
      | y :: _ => edge g x y /\ walk g r
      end
  end.

(** [p] is a path of [g] from [a] to [b]: it starts at [a], ends at [b]
    and follows the edges; the one-node sequence is the path from a node
    to itself. *)
Definition path_between (g : GraphUtils.graph node) (a b : node)
           (p : list node) : Prop :=
  hd_error p = Some a /\ GraphUtils.last_node node p = Some b /\ walk g p.

(** The paths of [g] that start at [a], built edge by edge: [path_to g a
    v p] says that [p] is one of them and ends at [v]. *)
Inductive path_to (g : GraphUtils.graph node) (a : node)
  : node -> list node -> Prop :=
| path_start : path_to g a a [a]
| path_step : forall v w p,
    path_to g a v p -> edge g v w -> path_to g a w (p ++ [w]).

(** The nodes that a path from [a] of at most [n] nodes reaches without
    meeting [t]. *)
Definition within (g : GraphUtils.graph node) (a t : node) (n : nat)
           (v : node) : Prop :=
  exists p, path_to g a v p /\ ~ In t p /\ (List.length p <= n)%nat.

(** The invariant of the loop of [findShortestPath] from [a] to [t]:
    [P] holds the nodes whose paths have left the queue, [d] is the
    length of the shortest path in the queue, and [todo] the edges out of
    the node being expanded that the [for] loop has still to look at
    (empty between two iterations). *)
Record bfs_inv (g : GraphUtils.graph node) (a t : node) (d : nat)
       (P V : list node) (Q : list (list node)) (todo : list (node * node))
  : Prop := mkBfsInv {
  bfs_level : (1 <= d)%nat;
  bfs_paths : forall q, In q Q -> exists v, path_to g a v q /\ ~ In t q;
  bfs_sorted : exists Q1 Q2,
      Q = Q1 ++ Q2
      /\ Forall (fun q => List.length q = d) Q1
      /\ Forall (fun q => List.length q = S d) Q2;
  bfs_visited : forall v, In v V <->
      In v P \/ exists q, In q Q /\ GraphUtils.last_node node q = Some v;
  bfs_done : forall u, In u P -> forall w, edge g u w ->
      (w <> t /\ In w V) \/ In (u, w) todo;
  bfs_below : forall v n, (n < d)%nat -> within g a t n v -> In v P;
  bfs_level_seen : forall v, within g a t d v -> In v V;
  bfs_shortest : forall q v, In q Q -> GraphUtils.last_node node q = Some v ->
      forall n, within g a t n v -> (List.length q <= n)%nat
}.

(** [c] is a simple cycle of [g]: it follows the edges, ends where it
    starts, and visits no other node twice. *)
Definition simple_cycle (g : GraphUtils.graph node) (c : list node) : Prop :=
  exists x mid, c = x :: mid ++ [x] /\ NoDup (x :: mid) /\ walk g c.

(** [v] is [a] or can be reached from [a]. *)
Definition reaches_or_is (g : GraphUtils.graph node) (a v : node) : Prop :=
  v = a \/ reaches g a v.

(** The successors still to be pushed by [getReachableNodes]: those of
    the keys not yet in the set [R].  With the height of the stack, the
    measure that bounds the iterations of its loop. *)
Definition unexpanded (g : GraphUtils.graph node) (R : list node) : nat :=
  list_sum (map (fun e => if GraphUtils.set_has node eqb (fst e) R
                          then 0%nat else List.length (snd e)) g).

(** Executable checks of [map_ok] and [closed]. *)
Fixpoint nodupb (l : list node) : bool :=
  match l with
  | [] => true
  | x :: r => negb (GraphUtils.set_has node eqb x r) && nodupb r
  end.

Definition map_okb (g : GraphUtils.graph node) : bool :=
  nodupb (GraphUtils.keys node g) && forallb (fun e => nodupb (snd e)) g.

Definition closedb (g : GraphUtils.graph node) : bool :=
  forallb (fun e => forallb (fun v => GraphUtils.set_has node eqb v
                                        (GraphUtils.keys node g)) (snd e)) g.

End Graph.

(** Two small graphs over numbered nodes: a chain 1 -> 2 -> 3, a
    triangle 1 -> 2 -> 3 -> 1, and a map whose only successor, 2, has
    no entry of its own. *)
Definition chain3 : GraphUtils.graph nat := [(1, [2]); (2, [3]); (3, [])]%nat.
Definition triangle : GraphUtils.graph nat := [(1, [2]); (2, [3]); (3, [1])]%nat.
Definition dangling : GraphUtils.graph nat := [(1, [2])]%nat.

(** A diamond 1 -> 2 -> 4, 1 -> 3 -> 4 with a longer way 1 -> 5 -> 6 -> 4. *)
Definition diamond : GraphUtils.graph nat :=
  [(1, [5; 2; 3]); (2, [4]); (3, [4]); (4, []); (5, [6]); (6, [4])]%nat.

End GraphSpec.

(** * Notions for the co-run cycle check of the validation service *)

Module CoRunSpec.

Import JS Records ValidationService ObjectPrototype.
Local Open Scope list_scope.

(** The object [graph] that [detectCircularCoRuns] fills: one entry per
    task with a truthy [CoRunWith], a later task with the same
    identifier replacing the list of an earlier one. *)
Definition corun_graph_of (tasks : list value) : list (string * list string) :=
  fold_left (fun graph task =>
               if truthy (prop task "CoRunWith")
               then obj_set (ToString (prop task "TaskID"))
                            (arrayifyCommaString (prop task "CoRunWith")) graph
               else graph) tasks [].

(** [v] is listed in the [CoRunWith] of [u]. *)
Definition corun_edge (graph : list (string * list string)) (u v : string) : Prop :=
  In v (corun_neighbors graph u).

(** [k] lies on a cycle of the relation [E] or has a path to one. *)
Definition leads_to_cycle {A : Type} (E : A -> A -> Prop) (k : A) : Prop :=
  exists c, (k = c \/ clos_trans A E k c) /\ clos_trans A E c c.

(** [r] lists the elements of [l] that satisfy [P], in the order of [l]
    and as often as they occur there. *)
Inductive selects {A : Type} (P : A -> Prop) : list A -> list A -> Prop :=
| selects_nil : selects P [] []
| selects_keep : forall x l r, P x -> selects P l r -> selects P (x :: l) (x :: r)
| selects_skip : forall x l r, ~ P x -> selects P l r -> selects P (x :: l) r.

(** [tasks.findIndex(t => t.TaskID === taskId)] on records, counting
    from [i]. *)
Fixpoint task_index (taskId : string) (tasks : list value) (i : Z) : Z :=
  match tasks with
  | [] => (-1)%Z
  | t :: r =>
      if is_string taskId (prop t "TaskID") then i
      else task_index taskId r (i + 1)%Z
  end.

(** The error pushed for the key [taskId] of the graph. *)
Definition circular_error (tasks : list value) (taskId : string) : verror :=
  report (task_index taskId tasks 0 + 1)%Z "CoRunWith"
         ("Circular co-run dependency detected for task " ++ taskId)
         "CircularReference".

(** No task identifier and no name listed in a [CoRunWith] is an
    inherited property name. *)
Definition plain_coRun_names (tasks : list value) : bool :=
  forallb (fun task =>
             negb (truthy (prop task "CoRunWith"))
             || (negb (inherited_name (ToString (prop task "TaskID")))
                 && forallb (fun n => negb (inherited_name n))
                            (arrayifyCommaString (prop task "CoRunWith"))))
          tasks.

(** Four tasks: T1 and T2 name each other, T3 names T1, and T4 names a
    task that does not exist. *)
Definition corun_tasks : list value :=
  [VObj [("TaskID", VStr "T1"); ("CoRunWith", VStr "T2")];
   VObj [("TaskID", VStr "T2"); ("CoRunWith", VStr "T1")];
   VObj [("TaskID", VStr "T3"); ("CoRunWith", VStr "T1")];
   VObj [("TaskID", VStr "T4"); ("CoRunWith", VStr "T5")]]%string.

End CoRunSpec.

(** * Notions for the task references of clients *)

Module ReferenceSpec.

Import JS Records ValidationService.
Local Open Scope list_scope.

Definition is_unknown_reference (e : verror) : bool :=
  String.eqb (type e) "UnknownReference".

(** The error pushed at a row for a requested task that is not found. *)
Definition unknown_task (rowIndex : Z) (taskId : string) : verror :=
  report rowIndex "RequestedTaskIDs" ("TaskID " ++ taskId ++ " not found in tasks")
         "UnknownReference".

(** The task identifiers a client requests. *)
Definition requested (client : value) : list string :=
  arrayifyCommaString (prop client "RequestedTaskIDs").

(** One error per requested identifier that is not among [taskIds], row
    by row from the row after [i]. *)
Fixpoint unknown_requests (taskIds : list value) (clients : list value) (i : nat)
  : list verror :=
  match clients with
  | [] => []
  | c :: r =>
      map (unknown_task (Z.of_nat i + 1))
          (filter (fun taskId => negb (set_has (VStr taskId) taskIds)) (requested c))
      ++ unknown_requests taskIds r (S i)
  end.

(** The requested identifiers that are not among [taskIds], each with
    the index and the record of the client that requests it. *)
Fixpoint unknown_pairs (taskIds : list value) (clients : list value) (i : nat)
  : list (nat * value * string) :=
  match clients with
  | [] => []
  | c :: r =>
      map (fun taskId => (i, c, taskId))
          (filter (fun taskId => negb (set_has (VStr taskId) taskIds)) (requested c))
      ++ unknown_pairs taskIds r (S i)
  end.

(** The error of the validation service and the finding of the enhanced
    validation service for one such identifier. *)
Definition legacy_error (p : nat * value * string) : verror :=
  unknown_task (Z.of_nat (fst (fst p)) + 1) (snd p).

Definition enhanced_finding (p : nat * value * string)
  : EnhancedValidationService.finding :=
  EnhancedValidationService.unknown_task_reference
    (prop (snd (fst p)) "ClientID") (snd p) (fst (fst p)).

(** Two clients, the first requesting the tasks T1 and T2, and the one
    task T1. *)
Definition two_clients : list value :=
  [VObj [("ClientID", VStr "C1"); ("PriorityLevel", VNum 3);
         ("RequestedTaskIDs", VStr "T1, T2")];
   VObj [("ClientID", VStr "C2"); ("PriorityLevel", VNum 2)]]%string.

Definition one_task : list value := [VObj [("TaskID", VStr "T1")]]%string.

End ReferenceSpec.

(** * Notions for the dashboard summary *)

Module DashboardSpec.

Import JS EnhancedValidationService Dashboard.
Local Open Scope list_scope.

(** The findings that no entry of [entityBreakdown] counts: those of the
    phase-slot check, filed under ['operational'], and the system error. *)
Definition outside (f : finding) : bool :=
  has_entity "operational" f || has_entity "system" f.

(** The entity names a finding of [validateAllData] called without rules
    can bear. *)
Definition named (entity : string) : bool :=
  existsb (String.eqb entity) ["clients"; "workers"; "tasks"; "operational"; "system"]%string.

Definition sited (f : finding) : bool := named (f_entity f).

(** The sum of the three error counts and of the three warning counts
    of [entityBreakdown]. *)
Definition breakdown_errors (d : dashboard) : nat :=
  (c_errors (d_clients d) + c_errors (d_workers d) + c_errors (d_tasks d))%nat.

Definition breakdown_warnings (d : dashboard) : nat :=
  (c_warnings (d_clients d) + c_warnings (d_workers d) + c_warnings (d_tasks d))%nat.

(** A complete worker available in phase 1 and a complete task of
    duration 3 that prefers phase 1. *)
Definition phase_worker : value :=
  VObj [("WorkerID", VStr "W1"); ("WorkerName", VStr "Ann"); ("Skills", VStr "a");
        ("AvailableSlots", VArr [VNum 1]); ("MaxLoadPerPhase", VNum 1)]%string.

Definition phase_task : value :=
  VObj [("TaskID", VStr "T1"); ("TaskName", VStr "x"); ("Duration", VNum 3);
        ("RequiredSkills", VStr "a"); ("PreferredPhases", VArr [VNum 1])]%string.

End DashboardSpec.

(** * Notions for the order of [sortErrorsByPriority] *)

Module SortSpec.

Import JS EnhancedValidationService ValidationUtils ObjectPrototype.
Local Open Scope list_scope.

(** What [localeCompare] has to satisfy for the comparator to be
    consistent: it is a total order on strings, up to the sign. *)
Definition collation (localeCompare : string -> string -> Z) : Prop :=
  (forall a b, localeCompare a b < 0 <-> 0 < localeCompare b a)
  /\ (forall a b c, localeCompare a b <= 0 -> localeCompare b c <= 0 ->
                    localeCompare a c <= 0)
  /\ (forall a b, localeCompare a b = 0 -> a = b).

(** No severity is the name of an inherited property. *)
Definition plain_severities (errors : list finding) : bool :=
  forallb (fun e => negb (inherited_name (f_severity e))) errors.

(** The number the comparator works with for a severity that is not an
    inherited name: 1 for a warning, 2 for an info, 3 for anything else,
    the errors included. *)
Definition priority (x : finding) : Z :=
  if String.eqb (f_severity x) "warning" then 1
  else if String.eqb (f_severity x) "info" then 2
  else 3.

(** The comparison of strings by character codes, as a collation. *)
Definition ordinal_compare (a b : string) : Z :=
  match String.compare a b with
  | Lt => -1
  | Eq => 0
  | Gt => 1
  end.

Definition issue (severity entity type : string) : finding :=
  mkFinding "" type severity entity None None None "" None None.

(** Four findings, the error first. *)
Definition four_issues : list finding :=
  [issue "error" "tasks" "a"; issue "info" "tasks" "a";
   issue "warning" "workers" "b"; issue "warning" "clients" "c"]%string.

End SortSpec.

(* ================================================================== *)
(** * Part VI.  Properties of the graph utilities                        *)
(* ================================================================== *)

Module GraphFacts.

Import GraphUtils GraphSpec.
Local Open Scope list_scope.
Local Open Scope nat_scope.

Section Graph.

Variable node : Type.
Variable eqb : node -> node -> bool.
Hypothesis eqb_spec : forall a b, eqb a b = true <-> a = b.

Local Abbreviation set_has := (GraphUtils.set_has node eqb).
Local Abbreviation set_add := (GraphUtils.set_add node eqb).
Local Abbreviation set_delete := (GraphUtils.set_delete node eqb).
Local Abbreviation map_get := (GraphUtils.map_get node eqb).
Local Abbreviation map_set := (GraphUtils.map_set node eqb).
Local Abbreviation neighbors := (GraphUtils.neighbors node eqb).
Local Abbreviation keys := (GraphUtils.keys node).
Local Abbreviation dfs := (GraphUtils.dfs node eqb).
Local Abbreviation dfs_neighbors := (GraphUtils.dfs_neighbors node eqb).
Local Abbreviation edge := (GraphSpec.edge node eqb).
Local Abbreviation reaches := (GraphSpec.reaches node eqb).
Local Abbreviation has_cycle := (GraphSpec.has_cycle node eqb).
Local Abbreviation unvisited := (GraphSpec.unvisited node eqb).
Local Abbreviation finished := (GraphSpec.finished node).
Local Abbreviation no_cycle_so_far := (GraphSpec.no_cycle_so_far node eqb).
Local Abbreviation pending := (GraphSpec.pending node eqb).
Local Abbreviation kahn_inv := (GraphSpec.kahn_inv node eqb).
Local Abbreviation relax := (GraphUtils.relax node eqb).
Local Abbreviation bump := (GraphUtils.bump node eqb).
Local Abbreviation map_ok := (GraphSpec.map_ok node).
Local Abbreviation closed := (GraphSpec.closed node eqb).
Local Abbreviation precedes := (GraphSpec.precedes node).
Local Abbreviation outstanding := (GraphSpec.outstanding node).

(** *** Sets and maps *)

Lemma eqb_refl : forall a, eqb a a = true.
Proof. intros a. apply eqb_spec. reflexivity. Qed.

Lemma eqb_neq : forall a b, eqb a b = false <-> a <> b.
Proof.
  intros a b. split.
  - intros H E. apply eqb_spec in E. congruence.
  - intros H. destruct (eqb a b) eqn:E; [apply eqb_spec in E; contradiction | reflexivity].
Qed.

Lemma node_eq_dec : forall a b : node, {a = b} + {a <> b}.
Proof.
  intros a b. destruct (eqb a b) eqn:E.
  - left. apply eqb_spec. exact E.
  - right. apply eqb_neq. exact E.
Qed.

Lemma set_has_In : forall x s, set_has x s = true <-> In x s.
Proof.
  intros x s. unfold GraphUtils.set_has. rewrite existsb_exists. split.
  - intros [y [Hy E]]. apply eqb_spec in E. subst. exact Hy.
  - intros H. exists x. split; [exact H | apply eqb_refl].
Qed.

Lemma set_has_not_In : forall x s, set_has x s = false <-> ~ In x s.
Proof.
  intros x s. rewrite <- set_has_In. destruct (set_has x s); split; congruence.
Qed.

Lemma set_add_In : forall x y s, In y (set_add x s) <-> y = x \/ In y s.
Proof.
  intros x y s. unfold GraphUtils.set_add.
  destruct (set_has x s) eqn:E.
  - apply set_has_In in E. split; [auto | intros [-> | H]; assumption].
  - rewrite in_app_iff. simpl. intuition.
Qed.

Lemma set_delete_In : forall x y s, In y (set_delete x s) <-> In y s /\ y <> x.
Proof.
  intros x y s. unfold GraphUtils.set_delete. rewrite filter_In.
  rewrite negb_true_iff, eqb_neq. intuition.
Qed.

Lemma set_delete_absent : forall x s, ~ In x s -> set_delete x s = s.
Proof.
  intros x s. unfold GraphUtils.set_delete. induction s as [|y s IH]; simpl; intros H.
  - reflexivity.
  - destruct (eqb x y) eqn:E.
    + apply eqb_spec in E. subst. exfalso. apply H. left. reflexivity.
    + simpl. rewrite IH; [reflexivity | intros Hin; apply H; right; exact Hin].
Qed.

Lemma set_delete_add : forall x s, ~ In x s -> set_delete x (set_add x s) = s.
Proof.
  intros x s H. unfold GraphUtils.set_add.
  destruct (set_has x s) eqn:E; [apply set_has_In in E; contradiction|].
  unfold GraphUtils.set_delete. rewrite filter_app. simpl.
  rewrite eqb_refl. simpl. rewrite app_nil_r.
  apply set_delete_absent. exact H.
Qed.

Lemma map_get_In : forall (V : Type) k (m : jsmap node V) v,
    map_get k m = Some v -> In (k, v) m.
Proof.
  intros V k m. induction m as [|[k' v'] m IH]; simpl; intros v H.
  - discriminate.
  - destruct (eqb k k') eqn:E.
    + apply eqb_spec in E. inversion H. subst. left. reflexivity.
    + right. apply IH. exact H.
Qed.

Lemma map_get_None : forall (V : Type) k (m : jsmap node V),
    map_get k m = None <-> ~ In k (keys m).
Proof.
  intros V k m. induction m as [|[k' v'] m IH]; simpl.
  - split; [intros _ [] | reflexivity].
  - destruct (eqb k k') eqn:E.
    + apply eqb_spec in E. subst. split; [discriminate | intros H; exfalso; apply H; left; reflexivity].
    + apply eqb_neq in E. rewrite IH. split.
      * intros H [H1 | H1]; [congruence | contradiction].
      * intros H H1. apply H. right. exact H1.
Qed.

Lemma In_map_get : forall (V : Type) k (m : jsmap node V) v,
    NoDup (keys m) -> In (k, v) m -> map_get k m = Some v.
Proof.
  intros V k m. induction m as [|[k' v'] m IH]; simpl; intros v Hnd Hin.
  - contradiction.
  - inversion Hnd as [|? ? Hnot Hnd']. subst.
    destruct Hin as [Heq | Hin].
    + inversion Heq. subst. rewrite eqb_refl. reflexivity.
    + destruct (eqb k k') eqn:E.
      * apply eqb_spec in E. subst. exfalso. apply Hnot.
        change k' with (fst (k', v)). apply in_map. exact Hin.
      * apply IH; assumption.
Qed.

Lemma edge_source_is_key : forall g u v, edge g u v -> In u (keys g).
Proof.
  intros g u v H. unfold GraphSpec.edge, GraphUtils.neighbors in H.
  destruct (map_get u g) as [s|] eqn:E; [|contradiction].
  apply map_get_In in E. change u with (fst (u, s)). apply in_map. exact E.
Qed.

Lemma edge_in_all_nodes : forall g u v, edge g u v -> In v (all_nodes node g).
Proof.
  intros g u v H. unfold GraphSpec.edge, GraphUtils.neighbors in H.
  destruct (map_get u g) as [s|] eqn:E; [|contradiction].
  apply map_get_In in E. unfold all_nodes. apply in_or_app. right.
  apply in_concat. exists s. split; [|exact H].
  change s with (snd (u, s)). apply in_map. exact E.
Qed.

Lemma reaches_source_is_key : forall g x y, reaches g x y -> In x (keys g).
Proof.
  intros g x y H. induction H as [x y H | x y z _ IH _ _].
  - eapply edge_source_is_key. exact H.
  - exact IH.
Qed.

(** *** Termination of [dfs] *)

Lemma unvisited_mono : forall l V V',
    incl V V' -> List.length (unvisited l V') <= List.length (unvisited l V).
Proof.
  intros l V V' Hincl. unfold GraphSpec.unvisited.
  induction l as [|y l IH]; simpl; [lia|].
  destruct (set_has y V') eqn:E'; destruct (set_has y V) eqn:E; simpl; try lia.
  apply set_has_In in E. apply Hincl in E. apply set_has_In in E. congruence.
Qed.

Lemma unvisited_add : forall l V x,
    In x l -> ~ In x V ->
    List.length (unvisited l (set_add x V)) < List.length (unvisited l V).
Proof.
  intros l V x Hin Hnot.
  induction l as [|y l IH]; [contradiction|].
  assert (Hle : List.length (unvisited l (set_add x V)) <= List.length (unvisited l V)).
  { apply unvisited_mono. intros z Hz. apply set_add_In. right. exact Hz. }
  unfold GraphSpec.unvisited in *. simpl.
  destruct Hin as [-> | Hin].
  - assert (E1 : set_has x (set_add x V) = true)
      by (apply set_has_In, set_add_In; left; reflexivity).
    assert (E2 : set_has x V = false) by (apply set_has_not_In; exact Hnot).
    rewrite E1, E2. simpl. lia.
  - specialize (IH Hin).
    destruct (set_has y (set_add x V)) eqn:E1; destruct (set_has y V) eqn:E2;
      simpl; try lia.
    apply set_has_In in E2. apply set_has_not_In in E1. exfalso. apply E1.
    apply set_add_In. right. exact E2.
Qed.

Lemma dfs_neighbors_terminates :
  forall (rec : node -> dfs_state node -> option (dfs_result node))
         (x : node) (universe : list node) (bound : nat),
    (forall n st, In n universe ->
                  List.length (unvisited universe (visited st)) < bound ->
                  exists r st', rec n st = Some (r, st')
                                /\ incl (visited st) (visited st')) ->
    forall ns st,
      incl ns universe ->
      List.length (unvisited universe (visited st)) < bound ->
      exists r st', dfs_neighbors rec x ns st = Some (r, st')
                    /\ incl (visited st) (visited st').
Proof.
  intros rec x universe bound Hrec ns.
  induction ns as [|n ns IH]; intros st Hincl Hm; simpl.
  - eexists. eexists. split; [reflexivity|]. simpl. apply incl_refl.
  - destruct (Hrec n st) as [r [st1 [E Hv]]]; [apply Hincl; left; reflexivity | exact Hm |].
    rewrite E. destruct r as [c|].
    + eexists. eexists. split; [reflexivity | exact Hv].
    + destruct (IH st1) as [r' [st2 [E2 Hv2]]].
      * intros z Hz. apply Hincl. right. exact Hz.
      * pose proof (unvisited_mono universe _ _ Hv). lia.
      * rewrite E2. eexists. eexists. split; [reflexivity|].
        eapply incl_tran; eassumption.
Qed.

(** With fuel above the number of unvisited nodes, [dfs] returns. *)
Lemma dfs_terminates :
  forall fuel g x path st,
    In x (all_nodes node g) ->
    List.length (unvisited (all_nodes node g) (visited st)) < fuel ->
    exists r st', dfs fuel g x path st = Some (r, st')
                  /\ incl (visited st) (visited st').
Proof.
  induction fuel as [|fuel IH]; intros g x path st Hx Hm; [lia|].
  simpl.
  destruct (set_has x (recursionStack st)) eqn:Es.
  { eexists. eexists. split; [reflexivity | apply incl_refl]. }
  destruct (set_has x (visited st)) eqn:Ev.
  { eexists. eexists. split; [reflexivity | apply incl_refl]. }
  apply set_has_not_In in Ev.
  pose proof (unvisited_add (all_nodes node g) (visited st) x Hx Ev) as Hlt.
  destruct (dfs_neighbors_terminates
              (fun n s => dfs fuel g n (path ++ [x]) s) x (all_nodes node g) fuel)
    with (ns := neighbors g x)
         (st := mkState (set_add x (visited st)) (set_add x (recursionStack st)))
    as [r [st' [E Hv]]].
  - intros n s Hn Hs. apply IH; assumption.
  - intros v Hv. eapply edge_in_all_nodes. exact Hv.
  - simpl. lia.
  - rewrite E. eexists. eexists. split; [reflexivity|].
    simpl in Hv. intros z Hz. apply Hv. apply set_add_In. right. exact Hz.
Qed.

(** *** What a call of [dfs] that returns [null] leaves behind *)

Lemma dfs_neighbors_frame :
  forall (rec : node -> dfs_state node -> option (dfs_result node)) (x : node),
    (forall n st st', rec n st = Some (None, st') ->
                      recursionStack st' = recursionStack st
                      /\ incl (visited st) (visited st')) ->
    forall ns st st',
      dfs_neighbors rec x ns st = Some (None, st') ->
      recursionStack st' = set_delete x (recursionStack st)
      /\ incl (visited st) (visited st').
Proof.
  intros rec x Hrec ns. induction ns as [|n ns IH]; intros st st' H; simpl in H.
  - inversion H. subst. simpl. split; [reflexivity | apply incl_refl].
  - destruct (rec n st) as [[[c|] st1]|] eqn:E; try discriminate.
    destruct (Hrec _ _ _ E) as [Hs Hv].
    destruct (IH _ _ H) as [Hs' Hv'].
    split; [rewrite Hs', Hs; reflexivity | eapply incl_tran; eassumption].
Qed.

Lemma dfs_frame :
  forall fuel g x path st st',
    dfs fuel g x path st = Some (None, st') ->
    recursionStack st' = recursionStack st
    /\ incl (visited st) (visited st')
    /\ In x (visited st')
    /\ ~ In x (recursionStack st).
Proof.
  induction fuel as [|fuel IH]; intros g x path st st' H; simpl in H; [discriminate|].
  destruct (set_has x (recursionStack st)) eqn:Es; [discriminate|].
  apply set_has_not_In in Es.
  destruct (set_has x (visited st)) eqn:Ev.
  { inversion H. subst. apply set_has_In in Ev.
    repeat split; [apply incl_refl | exact Ev | exact Es]. }
  apply dfs_neighbors_frame in H.
  - destruct H as [Hs Hv]. simpl in Hs, Hv.
    rewrite set_delete_add in Hs by exact Es.
    repeat split; try assumption.
    + intros z Hz. apply Hv. apply set_add_In. right. exact Hz.
    + apply Hv. apply set_add_In. left. reflexivity.
  - intros n s s' E. destruct (IH _ _ _ _ _ E) as [H1 [H2 _]]. split; assumption.
Qed.

(** *** Soundness: a returned cycle is a cycle of the graph *)

Lemma dfs_sound :
  forall fuel g x path st c st',
    dfs fuel g x path st = Some (Some c, st') ->
    (forall y, In y (recursionStack st) -> reaches g y x) ->
    has_cycle g.
Proof.
  induction fuel as [|fuel IH]; intros g x path st c st' H Hstack; simpl in H;
    [discriminate|].
  destruct (set_has x (recursionStack st)) eqn:Es.
  { apply set_has_In in Es. exists x. apply Hstack. exact Es. }
  destruct (set_has x (visited st)) eqn:Ev; [discriminate|].
  apply set_has_not_In in Es.
  assert (Hloop : forall ns st1,
             incl ns (neighbors g x) ->
             recursionStack st1 = set_add x (recursionStack st) ->
             dfs_neighbors (fun n s => dfs fuel g n (path ++ [x]) s) x ns st1
               = Some (Some c, st') ->
             has_cycle g).
  { induction ns as [|n ns IHns]; intros st1 Hns Hs1 H1; simpl in H1; [discriminate|].
    destruct (dfs fuel g n (path ++ [x]) st1) as [[[c1|] st2]|] eqn:E; try discriminate.
    - eapply IH; [exact E|].
      intros y Hy. rewrite Hs1 in Hy. apply set_add_In in Hy.
      assert (Hxn : edge g x n) by (apply Hns; left; reflexivity).
      destruct Hy as [-> | Hy].
      + apply t_step. exact Hxn.
      + eapply t_trans; [apply Hstack; exact Hy | apply t_step; exact Hxn].
    - apply (IHns st2); [intros z Hz; apply Hns; right; exact Hz | | exact H1].
      destruct (dfs_frame _ _ _ _ _ _ E) as [Hs2 _]. rewrite Hs2. exact Hs1. }
  eapply Hloop; [apply incl_refl | | exact H]. reflexivity.
Qed.

(** *** Completeness: a traversal that returns [null] met no cycle *)

Lemma finished_closed_reaches :
  forall g st,
    (forall v, finished st v -> forall w, edge g v w -> finished st w) ->
    forall a b, reaches g a b -> finished st a -> finished st b.
Proof.
  intros g st Hclosed a b H. induction H as [a b H | a b c _ IH1 _ IH2]; intros Ha.
  - eapply Hclosed; eassumption.
  - apply IH2. apply IH1. exact Ha.
Qed.

Lemma reaches_first_step :
  forall g a b, reaches g a b -> exists w, edge g a w /\ (w = b \/ reaches g w b).
Proof.
  intros g a b H. apply clos_trans_t1n in H.
  destruct H as [b H | w b H Hrest].
  - exists b. split; [exact H | left; reflexivity].
  - exists w. split; [exact H | right]. apply clos_t1n_trans. exact Hrest.
Qed.

Lemma dfs_neighbors_complete :
  forall g (rec : node -> dfs_state node -> option (dfs_result node)) (x : node),
    (forall n st st', rec n st = Some (None, st') ->
                      recursionStack st' = recursionStack st
                      /\ incl (visited st) (visited st')
                      /\ In n (visited st')
                      /\ ~ In n (recursionStack st)) ->
    (forall n st st', rec n st = Some (None, st') ->
                      no_cycle_so_far g st -> no_cycle_so_far g st') ->
    forall ns st st',
      dfs_neighbors rec x ns st = Some (None, st') ->
      no_cycle_so_far g st ->
      exists st2,
        no_cycle_so_far g st2
        /\ recursionStack st2 = recursionStack st
        /\ incl (visited st) (visited st2)
        /\ (forall n, In n ns -> finished st2 n)
        /\ st' = mkState (visited st2) (set_delete x (recursionStack st2)).
Proof.
  intros g rec x Hframe Hrec ns.
  induction ns as [|n ns IH]; intros st st' H Hinv; simpl in H.
  - inversion H. subst. exists st.
    split; [exact Hinv|]. split; [reflexivity|]. split; [apply incl_refl|].
    split; [intros n []|]. destruct st; reflexivity.
  - destruct (rec n st) as [[[c|] st1]|] eqn:E; try discriminate.
    destruct (Hframe _ _ _ E) as [Hs [Hv [Hn Hns]]].
    destruct (IH _ _ H (Hrec _ _ _ E Hinv)) as [st2 [Hinv2 [Hs2 [Hv2 [Hfin Hst']]]]].
    exists st2.
    split; [exact Hinv2|]. split; [congruence|].
    split; [eapply incl_tran; eassumption|].
    split; [|exact Hst'].
    intros m [<- | Hm]; [|apply Hfin; exact Hm].
    split; [apply Hv2; exact Hn | rewrite Hs2, Hs; exact Hns].
Qed.

Lemma dfs_complete :
  forall fuel g x path st st',
    dfs fuel g x path st = Some (None, st') ->
    no_cycle_so_far g st -> no_cycle_so_far g st'.
Proof.
  induction fuel as [|fuel IH]; intros g x path st st' H Hinv; simpl in H;
    [discriminate|].
  destruct (set_has x (recursionStack st)) eqn:Es; [discriminate|].
  apply set_has_not_In in Es.
  destruct (set_has x (visited st)) eqn:Ev.
  { inversion H. subst. exact Hinv. }
  apply set_has_not_In in Ev.
  apply dfs_neighbors_complete with (g := g) in H.
  - destruct H as [st2 [Hinv2 [Hs2 [Hv2 [Hfin Hst']]]]]. simpl in Hs2, Hv2.
    assert (Hx2 : In x (recursionStack st2))
      by (rewrite Hs2; apply set_add_In; left; reflexivity).
    assert (Hstack' : recursionStack st' = recursionStack st).
    { subst st'. simpl. rewrite Hs2. apply set_delete_add. exact Es. }
    assert (Hvis' : visited st' = visited st2) by (subst st'; reflexivity).
    assert (Hlift : forall w, finished st2 w -> finished st' w).
    { intros w [Hw1 Hw2]. split; [rewrite Hvis'; exact Hw1|].
      rewrite Hstack'. intros Hw. apply Hw2. rewrite Hs2.
      apply set_add_In. right. exact Hw. }
    intros v [Hv1 Hv3]. rewrite Hvis' in Hv1. rewrite Hstack' in Hv3.
    destruct (node_eq_dec v x) as [-> | Hneq].
    + split.
      * intros w Hw. apply Hlift. apply Hfin. exact Hw.
      * intros Hcyc. apply reaches_first_step in Hcyc.
        destruct Hcyc as [w [Hw Hrest]].
        assert (Hfw : finished st2 w) by (apply Hfin; exact Hw).
        assert (Hfx : finished st2 x).
        { destruct Hrest as [-> | Hrest]; [exact Hfw|].
          eapply finished_closed_reaches; [|exact Hrest | exact Hfw].
          intros v0 Hv0. apply (Hinv2 v0 Hv0). }
        destruct Hfx as [_ Hfx]. contradiction.
    + assert (Hf2 : finished st2 v).
      { split; [exact Hv1|]. rewrite Hs2. intros Hin. apply set_add_In in Hin.
        destruct Hin as [Hin | Hin]; [contradiction | contradiction]. }
      destruct (Hinv2 v Hf2) as [Hsucc Hacyc]. split; [|exact Hacyc].
      intros w Hw. apply Hlift. apply Hsucc. exact Hw.
  - intros n s s' E. apply dfs_frame in E. exact E.
  - intros n s s' E Hi. eapply IH; eassumption.
  - intros v [Hv1 Hv2]. simpl in Hv1, Hv2.
    assert (Hvx : v <> x).
    { intros ->. apply Hv2. apply set_add_In. left. reflexivity. }
    assert (Hf : finished st v).
    { split.
      - apply set_add_In in Hv1. destruct Hv1 as [Hv1 | Hv1]; [contradiction | exact Hv1].
      - intros Hin. apply Hv2. apply set_add_In. right. exact Hin. }
    destruct (Hinv v Hf) as [Hsucc Hacyc]. split; [|exact Hacyc].
    intros w Hw. destruct (Hsucc w Hw) as [Hw1 Hw2]. split; simpl.
    + apply set_add_In. right. exact Hw1.
    + intros Hin. apply set_add_In in Hin. destruct Hin as [-> | Hin];
        [contradiction | contradiction].
Qed.

(** *** The loop of [detectCycles] over the keys *)

Lemma detectCycles_loop_extends :
  forall fuel g roots st acc cycles,
    detectCycles_loop node eqb fuel g roots st acc = Some cycles ->
    exists rest, cycles = acc ++ rest.
Proof.
  intros fuel g roots. induction roots as [|x roots IH]; intros st acc cycles H;
    simpl in H.
  - inversion H. exists []. rewrite app_nil_r. reflexivity.
  - destruct (set_has x (visited st)); [eapply IH; exact H|].
    destruct (dfs fuel g x [] st) as [[[c|] st1]|]; try discriminate.
    + apply IH in H. destruct H as [rest ->]. exists (c :: rest).
      rewrite <- app_assoc. reflexivity.
    + eapply IH; exact H.
Qed.

Lemma detectCycles_loop_terminates :
  forall fuel g roots st acc,
    incl roots (all_nodes node g) ->
    List.length (unvisited (all_nodes node g) (visited st)) < fuel ->
    exists cycles, detectCycles_loop node eqb fuel g roots st acc = Some cycles.
Proof.
  intros fuel g roots. induction roots as [|x roots IH]; intros st acc Hincl Hm;
    simpl.
  - eexists. reflexivity.
  - assert (Hincl' : incl roots (all_nodes node g))
      by (intros z Hz; apply Hincl; right; exact Hz).
    destruct (set_has x (visited st)); [apply IH; assumption|].
    destruct (dfs_terminates fuel g x [] st) as [r [st1 [E Hv]]];
      [apply Hincl; left; reflexivity | exact Hm |].
    rewrite E.
    pose proof (unvisited_mono (all_nodes node g) _ _ Hv).
    destruct r; apply IH; try assumption; lia.
Qed.

Lemma detectCycles_loop_sound :
  forall fuel g roots st acc cycles,
    detectCycles_loop node eqb fuel g roots st acc = Some cycles ->
    recursionStack st = [] ->
    cycles <> acc ->
    has_cycle g.
Proof.
  intros fuel g roots. induction roots as [|x roots IH];
    intros st acc cycles H Hs Hne; simpl in H.
  - inversion H. congruence.
  - destruct (set_has x (visited st)); [eapply IH; eassumption|].
    destruct (dfs fuel g x [] st) as [[[c|] st1]|] eqn:E; try discriminate.
    + eapply dfs_sound; [exact E|]. rewrite Hs. intros y [].
    + destruct (dfs_frame _ _ _ _ _ _ E) as [Hs1 _].
      eapply IH; [exact H | congruence | exact Hne].
Qed.

Lemma detectCycles_loop_complete :
  forall fuel g roots st acc,
    detectCycles_loop node eqb fuel g roots st acc = Some acc ->
    recursionStack st = [] ->
    no_cycle_so_far g st ->
    exists st',
      no_cycle_so_far g st'
      /\ recursionStack st' = []
      /\ incl (visited st) (visited st')
      /\ (forall r, In r roots -> In r (visited st')).
Proof.
  intros fuel g roots. induction roots as [|x roots IH];
    intros st acc H Hs Hinv; simpl in H.
  - exists st. split; [exact Hinv|]. split; [exact Hs|].
    split; [apply incl_refl | intros r []].
  - destruct (set_has x (visited st)) eqn:Ev.
    + apply set_has_In in Ev.
      destruct (IH _ _ H Hs Hinv) as [st' [H1 [H2 [H3 H4]]]].
      exists st'. split; [exact H1|]. split; [exact H2|]. split; [exact H3|].
      intros r [<- | Hr]; [apply H3; exact Ev | apply H4; exact Hr].
    + destruct (dfs fuel g x [] st) as [[[c|] st1]|] eqn:E; try discriminate.
      * apply detectCycles_loop_extends in H. destruct H as [rest H].
        apply (f_equal (@List.length _)) in H.
        rewrite !length_app in H. simpl in H. lia.
      * destruct (dfs_frame _ _ _ _ _ _ E) as [Hs1 [Hv1 [Hx1 _]]].
        destruct (IH _ _ H) as [st' [H1 [H2 [H3 H4]]]];
          [congruence | eapply dfs_complete; eassumption |].
        exists st'. split; [exact H1|]. split; [exact H2|].
        split; [eapply incl_tran; eassumption|].
        intros r [<- | Hr]; [apply H3; exact Hx1 | apply H4; exact Hr].
Qed.

Lemma no_cycle_so_far_init : forall g, no_cycle_so_far g (mkState [] []).
Proof. intros g v [[] _]. Qed.

Lemma depth_bound_enough :
  forall g, List.length (unvisited (all_nodes node g) []) < depth_bound node g.
Proof.
  intros g. unfold depth_bound, GraphSpec.unvisited.
  pose proof (filter_length_le (fun y => negb (set_has y [])) (all_nodes node g)).
  lia.
Qed.

(** [detectCycles] returns, and its result is non-empty exactly when
    the graph has a cycle. *)
Lemma detectCycles_spec :
  forall g, exists cycles,
    detectCycles node eqb g = Some cycles /\ (cycles <> [] <-> has_cycle g).
Proof.
  intros g. unfold detectCycles.
  destruct (detectCycles_loop_terminates (depth_bound node g) g (keys g)
              (mkState [] []) []) as [cycles E].
  - intros z Hz. unfold all_nodes. apply in_or_app. left. exact Hz.
  - apply depth_bound_enough.
  - exists cycles. split; [exact E|]. split.
    + intros Hne. eapply detectCycles_loop_sound; [exact E | reflexivity | exact Hne].
    + intros [x Hx] ->.
      destruct (detectCycles_loop_complete _ _ _ _ _ E eq_refl (no_cycle_so_far_init g))
        as [st' [Hinv [Hs [_ Hall]]]].
      assert (Hf : finished st' x).
      { split; [apply Hall; eapply reaches_source_is_key; exact Hx|].
        rewrite Hs. intros []. }
      destruct (Hinv x Hf) as [_ Hacyc]. contradiction.
Qed.

(** *** Maps *)

Lemma map_get_set_same : forall (V : Type) k (v : V) (m : jsmap node V),
    map_get k (map_set k v m) = Some v.
Proof.
  intros V k v m. induction m as [|[k' v'] m IH]; simpl.
  - rewrite eqb_refl. reflexivity.
  - destruct (eqb k k') eqn:E; simpl; rewrite E; [reflexivity | exact IH].
Qed.

Lemma map_get_set_other : forall (V : Type) k k' (v : V) (m : jsmap node V),
    k <> k' -> map_get k' (map_set k v m) = map_get k' m.
Proof.
  intros V k k' v m Hne. induction m as [|[k1 v1] m IH]; simpl.
  - destruct (eqb k' k) eqn:E; [apply eqb_spec in E; congruence | reflexivity].
  - destruct (eqb k k1) eqn:E; simpl.
    + apply eqb_spec in E. subst k1.
      destruct (eqb k' k) eqn:E'; [apply eqb_spec in E'; congruence | reflexivity].
    + destruct (eqb k' k1); [reflexivity | exact IH].
Qed.

Lemma keys_map_set_present : forall (V : Type) k (v : V) (m : jsmap node V),
    In k (keys m) -> keys (map_set k v m) = keys m.
Proof.
  intros V k v m. induction m as [|[k' v'] m IH]; simpl; intros H.
  - contradiction.
  - destruct (eqb k k') eqn:E; simpl; [reflexivity|].
    f_equal. apply IH. destruct H as [H | H]; [|exact H].
    apply eqb_neq in E. congruence.
Qed.

Lemma map_set_fresh : forall (V : Type) k (v : V) (m : jsmap node V),
    ~ In k (keys m) -> map_set k v m = m ++ [(k, v)].
Proof.
  intros V k v m. induction m as [|[k' v'] m IH]; simpl; intros H.
  - reflexivity.
  - destruct (eqb k k') eqn:E.
    + apply eqb_spec in E. subst. exfalso. apply H. left. reflexivity.
    + f_equal. apply IH. intros Hin. apply H. right. exact Hin.
Qed.

Lemma map_get_Some_key : forall (V : Type) k (m : jsmap node V) v,
    map_get k m = Some v -> In k (keys m).
Proof.
  intros V k m v H. apply map_get_In in H.
  change k with (fst (k, v)). apply in_map. exact H.
Qed.

Lemma In_key_map_get : forall (V : Type) k (m : jsmap node V),
    In k (keys m) -> exists v, map_get k m = Some v.
Proof.
  intros V k m H. destruct (map_get k m) as [v|] eqn:E.
  - exists v. reflexivity.
  - apply map_get_None in E. contradiction.
Qed.

(** *** The in-degree map before the loop *)

Lemma init_inDegree_fold : forall ks (m : jsmap node Z),
    NoDup (keys m ++ ks) ->
    fold_left (fun m n => map_set n 0%Z m) ks m
    = m ++ map (fun k => (k, 0%Z)) ks.
Proof.
  induction ks as [|k ks IH]; intros m Hnd; simpl.
  - rewrite app_nil_r. reflexivity.
  - assert (Hk : ~ In k (keys m)).
    { apply NoDup_remove_2 in Hnd. intros Hin. apply Hnd.
      apply in_or_app. left. exact Hin. }
    rewrite map_set_fresh by exact Hk. rewrite IH.
    + rewrite <- app_assoc. reflexivity.
    + unfold GraphUtils.keys. rewrite map_app. simpl.
      rewrite <- app_assoc. simpl. exact Hnd.
Qed.

Lemma init_inDegree_spec : forall g,
    NoDup (keys g) ->
    init_inDegree node eqb g = map (fun k => (k, 0%Z)) (keys g).
Proof.
  intros g Hnd. unfold init_inDegree. rewrite init_inDegree_fold; [reflexivity|].
  simpl. exact Hnd.
Qed.

Lemma bump_spec : forall (m : jsmap node Z) w d,
    map_get w m = Some d ->
    keys (bump m w) = keys m
    /\ map_get w (bump m w) = Some (d + 1)%Z
    /\ forall v, v <> w -> map_get v (bump m w) = map_get v m.
Proof.
  intros m w d H. unfold GraphUtils.bump. rewrite H.
  assert (Hd : ((if (d =? 0)%Z then 0 else d) + 1 = d + 1)%Z).
  { destruct (d =? 0)%Z eqn:E; [apply Z.eqb_eq in E; lia | reflexivity]. }
  rewrite Hd. split; [|split].
  - apply keys_map_set_present. eapply map_get_Some_key. exact H.
  - apply map_get_set_same.
  - intros v Hne. apply map_get_set_other. congruence.
Qed.

Lemma bump_fold_spec : forall s (m : jsmap node Z),
    NoDup s -> incl s (keys m) ->
    keys (fold_left bump s m) = keys m
    /\ forall v d, map_get v m = Some d ->
                   map_get v (fold_left bump s m)
                   = Some (d + (if set_has v s then 1 else 0))%Z.
Proof.
  induction s as [|w s IH]; intros m Hnd Hincl; simpl.
  - split; [reflexivity|]. intros v d H. rewrite H. f_equal. lia.
  - inversion Hnd as [|? ? Hw Hnd']. subst.
    destruct (In_key_map_get Z w m) as [dw Hdw]; [apply Hincl; left; reflexivity|].
    destruct (bump_spec m w dw Hdw) as [Hk [Hsame Hother]].
    destruct (IH (bump m w) Hnd') as [Hk' Hget].
    { rewrite Hk. intros z Hz. apply Hincl. right. exact Hz. }
    split; [congruence|].
    intros v d Hv. destruct (eqb v w) eqn:E.
    + apply eqb_spec in E. subst v. rewrite Hdw in Hv. inversion Hv. subst d.
      rewrite (Hget w (dw + 1)%Z Hsame).
      assert (Hs : set_has w s = false) by (apply set_has_not_In; exact Hw).
      rewrite Hs. simpl. f_equal. lia.
    + apply eqb_neq in E. rewrite (Hget v d); [reflexivity|].
      rewrite Hother by exact E. exact Hv.
Qed.

Lemma count_inDegree_spec : forall (es : GraphUtils.graph node) (m : jsmap node Z),
    (forall k s, In (k, s) es -> NoDup s /\ incl s (keys m)) ->
    keys (fold_left (fun m e => fold_left bump (snd e) m) es m) = keys m
    /\ forall v d, map_get v m = Some d ->
          map_get v (fold_left (fun m e => fold_left bump (snd e) m) es m)
          = Some (d + Z.of_nat (List.length
                                  (filter (fun e => set_has v (snd e)) es)))%Z.
Proof.
  induction es as [|[k s] es IH]; intros m Hes; simpl.
  - split; [reflexivity|]. intros v d H. rewrite H. f_equal. lia.
  - destruct (Hes k s (or_introl eq_refl)) as [Hnd Hincl].
    destruct (bump_fold_spec s m Hnd Hincl) as [Hk Hget].
    destruct (IH (fold_left bump s m)) as [Hk' Hget'].
    { intros k' s' Hin. destruct (Hes k' s' (or_intror Hin)) as [H1 H2].
      split; [exact H1 | rewrite Hk; exact H2]. }
    split; [congruence|].
    intros v d Hv. rewrite (Hget' v _ (Hget v d Hv)).
    destruct (set_has v s); simpl; f_equal; lia.
Qed.

Lemma edge_entry : forall g u v,
    edge g u v <-> exists s, map_get u g = Some s /\ In v s.
Proof.
  intros g u v. unfold GraphSpec.edge, GraphUtils.neighbors.
  destruct (map_get u g) as [s|].
  - split; [intros H; exists s; auto | intros [s' [E H]]; inversion E; subst; exact H].
  - split; [intros [] | intros [s' [E _]]; discriminate].
Qed.

Lemma closed_entries : forall g,
    map_ok g -> closed g ->
    forall k s, In (k, s) g -> NoDup s /\ incl s (keys g).
Proof.
  intros g [Hnd Hsets] Hclosed k s Hin. split; [eapply Hsets; exact Hin|].
  intros v Hv. apply (Hclosed k v). apply edge_entry. exists s.
  split; [apply In_map_get; assumption | exact Hv].
Qed.

Lemma pending_zero : forall g R v u,
    pending g R v = 0 -> edge g u v -> In u R.
Proof.
  intros g R v u Hp He. apply edge_entry in He. destruct He as [s [E Hv]].
  apply map_get_In in E. unfold GraphSpec.pending in Hp.
  apply length_zero_iff_nil in Hp.
  assert (Hf : ~ In (u, s) (filter (fun e => set_has v (snd e)
                                            && negb (set_has (fst e) R)) g))
    by (rewrite Hp; intros []).
  rewrite filter_In in Hf. simpl in Hf.
  destruct (set_has u R) eqn:Eu; [apply set_has_In; exact Eu|].
  exfalso. apply Hf. split; [exact E|].
  apply set_has_In in Hv. rewrite Hv. reflexivity.
Qed.

Lemma pending_positive : forall g R v,
    NoDup (keys g) ->
    pending g R v <> 0 -> exists u, edge g u v /\ ~ In u R.
Proof.
  intros g R v Hnd Hp. unfold GraphSpec.pending in Hp.
  destruct (filter (fun e => set_has v (snd e) && negb (set_has (fst e) R)) g)
    as [|[u s] l] eqn:E; [contradiction|].
  assert (Hin : In (u, s) (filter (fun e => set_has v (snd e)
                                            && negb (set_has (fst e) R)) g))
    by (rewrite E; left; reflexivity).
  apply filter_In in Hin. destruct Hin as [Hin Htest]. simpl in Htest.
  apply andb_true_iff in Htest. destruct Htest as [H1 H2].
  exists u. split.
  - apply edge_entry. exists s. split; [apply In_map_get; assumption|].
    apply set_has_In. exact H1.
  - apply negb_true_iff in H2. apply set_has_not_In. exact H2.
Qed.

Lemma pending_step : forall (es : GraphUtils.graph node) R x v,
    NoDup (keys es) -> ~ In x R ->
    List.length (filter (fun e => set_has v (snd e)
                                  && negb (set_has (fst e) R)) es)
    = List.length (filter (fun e => set_has v (snd e)
                                    && negb (set_has (fst e) (R ++ [x]))) es)
      + match map_get x es with
        | Some s => if set_has v s then 1 else 0
        | None => 0
        end.
Proof.
  induction es as [|[k s] es IH]; intros R x v Hnd Hx; simpl; [reflexivity|].
  inversion Hnd as [|? ? Hk Hnd']. subst.
  assert (Hxx : set_has x (R ++ [x]) = true)
    by (apply set_has_In, in_or_app; right; left; reflexivity).
  assert (HxR : set_has x R = false) by (apply set_has_not_In; exact Hx).
  destruct (eqb x k) eqn:E.
  - apply eqb_spec in E. subst k. rewrite Hxx, HxR.
    specialize (IH R x v Hnd' Hx).
    assert (Hnone : map_get x es = None) by (apply map_get_None; exact Hk).
    rewrite Hnone in IH. rewrite Nat.add_0_r in IH.
    destruct (set_has v s); simpl; lia.
  - apply eqb_neq in E.
    assert (Hk1 : set_has k (R ++ [x]) = set_has k R).
    { destruct (set_has k R) eqn:E1.
      - apply set_has_In. apply in_or_app. left. apply set_has_In. exact E1.
      - apply set_has_not_In. intros Hin. apply in_app_or in Hin.
        destruct Hin as [Hin | [Hin | []]]; [|congruence].
        apply set_has_In in Hin. congruence. }
    rewrite Hk1. specialize (IH R x v Hnd' Hx).
    destruct (set_has v s && negb (set_has k R)); simpl; lia.
Qed.

(** *** The loop of [topologicalSort] *)

Lemma list_last_cases : forall l : list node,
    l = [] \/ exists l' a, l = l' ++ [a].
Proof.
  intros l. destruct l as [|x l] using rev_ind.
  - left. reflexivity.
  - right. exists l, x. reflexivity.
Qed.

Lemma NoDup_snoc : forall (l : list node) w,
    NoDup l -> ~ In w l -> NoDup (l ++ [w]).
Proof.
  intros l w Hnd Hw. induction Hnd as [|x l Hx Hnd IH]; simpl.
  - constructor; [intros [] | constructor].
  - constructor.
    + intros Hin. apply in_app_or in Hin. destruct Hin as [Hin | [Hin | []]].
      * contradiction.
      * subst. apply Hw. left. reflexivity.
    + apply IH. intros Hin. apply Hw. right. exact Hin.
Qed.

Lemma app_last_split : forall (L : list node) w l1 v l2,
    L ++ [w] = l1 ++ v :: l2 ->
    (l2 = [] /\ v = w /\ l1 = L)
    \/ (exists l2', l2 = l2' ++ [w] /\ L = l1 ++ v :: l2').
Proof.
  intros L w l1 v l2 H. destruct (list_last_cases l2) as [-> | [l2' [a ->]]].
  - left. apply app_inj_tail in H. destruct H as [H1 H2]. auto.
  - right. exists l2'.
    change (l1 ++ v :: l2' ++ [a]) with (l1 ++ (v :: l2') ++ [a]) in H.
    rewrite app_assoc in H. apply app_inj_tail in H. destruct H as [H1 H2].
    subst. auto.
Qed.

Lemma relax_step : forall g w rest m q R,
    kahn_inv g (w :: rest) (mkKahn m q R) ->
    ~ In w rest -> In w (keys g) ->
    kahn_inv g rest (mkKahn (fst (relax (m, q) w)) (snd (relax (m, q) w)) R).
Proof.
  intros g w rest m q R [Hkeys Hnd Hincl Hdeg Hzero Horder] Hw Hwk.
  cbn [inDegree queue result] in *.
  assert (Hww : set_has w (w :: rest) = true)
    by (apply set_has_In; left; reflexivity).
  pose proof (Hdeg w Hwk) as Hdw. rewrite Hww in Hdw.
  assert (HwL : ~ In w (R ++ q)).
  { intros Hin. apply (Hzero w Hwk) in Hin. rewrite Hdw in Hin.
    inversion Hin. lia. }
  assert (Hwrest : set_has w rest = false) by (apply set_has_not_In; exact Hw).
  assert (Hother : forall v, v <> w -> set_has v (w :: rest) = set_has v rest).
  { intros v Hne. unfold GraphUtils.set_has. simpl.
    destruct (eqb v w) eqn:E; [apply eqb_spec in E; contradiction | reflexivity]. }
  unfold GraphUtils.relax. rewrite Hdw.
  replace (Z.of_nat (pending g R w) + 1 - 1)%Z with (Z.of_nat (pending g R w)) by lia.
  destruct (Z.of_nat (pending g R w) =? 0)%Z eqn:Ez; cbn [fst snd].
  - apply Z.eqb_eq in Ez.
    assert (Hp : pending g R w = 0) by lia.
    constructor; cbn [inDegree queue result].
    + rewrite keys_map_set_present; [exact Hkeys | rewrite Hkeys; exact Hwk].
    + rewrite app_assoc. apply NoDup_snoc; assumption.
    + rewrite app_assoc. intros z Hz. apply in_app_or in Hz.
      destruct Hz as [Hz | [<- | []]]; [apply Hincl; exact Hz | exact Hwk].
    + intros v Hv. destruct (node_eq_dec v w) as [-> | Hne].
      * rewrite map_get_set_same, Hwrest. f_equal. lia.
      * rewrite map_get_set_other by congruence.
        rewrite (Hdeg v Hv), (Hother v Hne). reflexivity.
    + intros v Hv. rewrite app_assoc. destruct (node_eq_dec v w) as [-> | Hne].
      * rewrite map_get_set_same, Ez. split; [|reflexivity].
        intros _. apply in_or_app. right. left. reflexivity.
      * rewrite map_get_set_other by congruence. rewrite (Hzero v Hv).
        split; [intros H; apply in_or_app; left; exact H|].
        intros H. apply in_app_or in H. destruct H as [H | [H | []]];
          [exact H | congruence].
    + intros l1 v l2 Hsplit u Hu. rewrite app_assoc in Hsplit.
      apply app_last_split in Hsplit.
      destruct Hsplit as [[_ [-> ->]] | [l2' [_ HL]]].
      * apply in_or_app. left. eapply pending_zero; eassumption.
      * eapply Horder; eassumption.
  - apply Z.eqb_neq in Ez.
    constructor; cbn [inDegree queue result].
    + rewrite keys_map_set_present; [exact Hkeys | rewrite Hkeys; exact Hwk].
    + exact Hnd.
    + exact Hincl.
    + intros v Hv. destruct (node_eq_dec v w) as [-> | Hne].
      * rewrite map_get_set_same, Hwrest. f_equal. lia.
      * rewrite map_get_set_other by congruence.
        rewrite (Hdeg v Hv), (Hother v Hne). reflexivity.
    + intros v Hv. destruct (node_eq_dec v w) as [-> | Hne].
      * rewrite map_get_set_same. split; [intros H; inversion H; lia|].
        intros H. contradiction.
      * rewrite map_get_set_other by congruence. apply Hzero. exact Hv.
    + exact Horder.
Qed.

Lemma relax_fold : forall g rest m q R,
    NoDup rest -> incl rest (keys g) ->
    kahn_inv g rest (mkKahn m q R) ->
    kahn_inv g [] (mkKahn (fst (fold_left relax rest (m, q)))
                          (snd (fold_left relax rest (m, q))) R).
Proof.
  intros g rest. induction rest as [|w rest IH]; intros m q R Hnd Hincl Hinv;
    cbn [fold_left fst snd].
  - exact Hinv.
  - inversion Hnd as [|? ? Hw Hnd']. subst.
    pose proof (relax_step g w rest m q R Hinv Hw (Hincl w (or_introl eq_refl))) as H.
    destruct (relax (m, q) w) as [m1 q1]. cbn [fst snd] in H.
    apply IH; [exact Hnd' | intros z Hz; apply Hincl; right; exact Hz | exact H].
Qed.

Lemma neighbors_NoDup : forall g x, map_ok g -> NoDup (neighbors g x).
Proof.
  intros g x [_ Hsets]. unfold GraphUtils.neighbors.
  destruct (map_get x g) as [s|] eqn:E; [|constructor].
  apply map_get_In in E. eapply Hsets. exact E.
Qed.

Lemma kahn_dequeue : forall g x q m R,
    map_ok g ->
    kahn_inv g [] (mkKahn m (x :: q) R) ->
    kahn_inv g (neighbors g x) (mkKahn m q (R ++ [x])).
Proof.
  intros g x q m R Hok [Hkeys Hnd Hincl Hdeg Hzero Horder].
  cbn [inDegree queue result] in *.
  assert (HL : (R ++ [x]) ++ q = R ++ x :: q)
    by (rewrite <- app_assoc; reflexivity).
  assert (Hxk : In x (keys g))
    by (apply Hincl; apply in_or_app; right; left; reflexivity).
  assert (HxR : ~ In x R).
  { apply NoDup_remove_2 in Hnd. intros Hin. apply Hnd.
    apply in_or_app. left. exact Hin. }
  constructor; cbn [inDegree queue result]; rewrite ?HL; try assumption.
  intros v Hv. rewrite (Hdeg v Hv). f_equal.
  unfold GraphSpec.pending.
  rewrite (pending_step g R x v (proj1 Hok) HxR).
  unfold GraphUtils.neighbors. destruct (map_get x g) as [s|].
  - destruct (set_has v s); simpl; lia.
  - simpl. lia.
Qed.

Lemma kahn_loop_spec : forall fuel g st,
    map_ok g -> closed g ->
    kahn_inv g [] st ->
    List.length (keys g) < fuel + List.length (result st) ->
    exists st',
      kahn_loop node eqb fuel g st = Some st'
      /\ kahn_inv g [] st' /\ queue st' = [].
Proof.
  induction fuel as [|fuel IH]; intros g st Hok Hclosed Hinv Hfuel.
  - destruct st as [m q R]. destruct q as [|x q].
    + exists (mkKahn m [] R). simpl. auto.
    + exfalso. destruct Hinv as [_ Hnd Hincl _ _ _]. simpl in *.
      pose proof (NoDup_incl_length Hnd Hincl) as Hlen.
      rewrite length_app in Hlen. simpl in Hlen. lia.
  - destruct st as [m q R]. destruct q as [|x q].
    + exists (mkKahn m [] R). simpl. auto.
    + cbn [kahn_loop queue inDegree result].
      pose proof (kahn_dequeue g x q m R Hok Hinv) as Hinv1.
      apply relax_fold in Hinv1.
      * destruct (fold_left relax (neighbors g x) (m, q)) as [m' q'] eqn:E.
        cbn [fst snd] in Hinv1. apply IH; try assumption.
        cbn [result] in *. rewrite length_app. simpl. lia.
      * apply neighbors_NoDup. exact Hok.
      * intros v Hv. apply (Hclosed x v). exact Hv.
Qed.

(** *** The state before the loop *)

Lemma zero_nodes_In : forall (m : jsmap node Z) v,
    NoDup (keys m) ->
    (In v (zero_nodes node m) <-> map_get v m = Some 0%Z).
Proof.
  intros m v Hnd. unfold zero_nodes. split.
  - intros H. apply in_map_iff in H. destruct H as [[k d] [Hk Hin]].
    simpl in Hk. subst k. apply filter_In in Hin. destruct Hin as [Hin Hd].
    simpl in Hd. apply Z.eqb_eq in Hd. subst d. apply In_map_get; assumption.
  - intros H. apply map_get_In in H. apply in_map_iff. exists (v, 0%Z).
    split; [reflexivity|]. apply filter_In. split; [exact H | reflexivity].
Qed.

Lemma zero_nodes_NoDup : forall (m : jsmap node Z),
    NoDup (keys m) -> NoDup (zero_nodes node m).
Proof.
  intros m. unfold zero_nodes, GraphUtils.keys.
  induction m as [|[k d] m IH]; simpl; intros Hnd; [constructor|].
  inversion Hnd as [|? ? Hk Hnd']. subst.
  destruct (d =? 0)%Z; simpl; [|apply IH; exact Hnd'].
  constructor; [|apply IH; exact Hnd'].
  intros Hin. apply Hk. apply in_map_iff in Hin. destruct Hin as [e [He Hin]].
  apply filter_In in Hin. destruct Hin as [Hin _].
  apply in_map_iff. exists e. split; assumption.
Qed.

Lemma keys_zero_map : forall ks : list node,
    keys (map (fun k => (k, 0%Z)) ks) = ks.
Proof.
  intros ks. unfold GraphUtils.keys. rewrite map_map. simpl. apply map_id.
Qed.

Lemma kahn_inv_init : forall g,
    map_ok g -> closed g ->
    let m := count_inDegree node eqb g (init_inDegree node eqb g) in
    kahn_inv g [] (mkKahn m (zero_nodes node m) []).
Proof.
  intros g Hok Hclosed m.
  destruct Hok as [Hnd Hsets].
  pose proof (init_inDegree_spec g Hnd) as Hinit.
  assert (Hk0 : keys (init_inDegree node eqb g) = keys g)
    by (rewrite Hinit; apply keys_zero_map).
  destruct (count_inDegree_spec g (init_inDegree node eqb g)) as [Hkeys Hget].
  { intros k s Hin. rewrite Hk0.
    exact (closed_entries g (conj Hnd Hsets) Hclosed k s Hin). }
  fold (count_inDegree node eqb g (init_inDegree node eqb g)) in Hkeys, Hget.
  fold m in Hkeys, Hget.
  assert (Hkm : keys m = keys g) by congruence.
  assert (Hdeg : forall v, In v (keys g) ->
                           map_get v m = Some (Z.of_nat (pending g [] v))).
  { intros v Hv.
    assert (H0 : map_get v (init_inDegree node eqb g) = Some 0%Z).
    { apply In_map_get; [rewrite Hk0; exact Hnd|].
      rewrite Hinit. apply in_map_iff. exists v. split; [reflexivity | exact Hv]. }
    rewrite (Hget v 0%Z H0). f_equal. unfold GraphSpec.pending.
    rewrite Z.add_0_l. f_equal. f_equal. apply filter_ext.
    intros e. simpl. rewrite andb_true_r. reflexivity. }
  constructor; cbn [inDegree queue result app].
  - exact Hkm.
  - apply zero_nodes_NoDup. rewrite Hkm. exact Hnd.
  - intros v Hv. apply zero_nodes_In in Hv; [|rewrite Hkm; exact Hnd].
    rewrite <- Hkm. eapply map_get_Some_key. exact Hv.
  - intros v Hv. rewrite (Hdeg v Hv). f_equal. simpl. lia.
  - intros v Hv. symmetry. apply zero_nodes_In. rewrite Hkm. exact Hnd.
  - intros l1 v l2 Hsplit u Hu. exfalso.
    assert (Hvz : In v (zero_nodes node m))
      by (rewrite Hsplit; apply in_or_app; right; left; reflexivity).
    apply zero_nodes_In in Hvz; [|rewrite Hkm; exact Hnd].
    assert (Hvk : In v (keys g))
      by (rewrite <- Hkm; eapply map_get_Some_key; exact Hvz).
    rewrite (Hdeg v Hvk) in Hvz. inversion Hvz as [Hp].
    assert (Hp0 : pending g [] v = 0) by lia.
    apply (pending_zero g [] v u Hp0 Hu).
Qed.

(** *** A finite set closed under predecessors holds a cycle *)

Lemma backward_chain : forall g (A : node -> Prop),
    (forall v, A v -> exists u, A u /\ edge g u v) ->
    forall n v, A v ->
    exists l, List.length l = S n /\ Forall A l /\ ForallOrdPairs (reaches g) l.
Proof.
  intros g A Hpred n. induction n as [|n IH]; intros v Hv.
  - exists [v]. split; [reflexivity|]. split; [constructor; [exact Hv | constructor]|].
    constructor; constructor.
  - destruct (IH v Hv) as [l [Hlen [HA Hord]]].
    destruct l as [|h t]; [discriminate|].
    inversion HA as [|? ? Hh Ht]. subst.
    destruct (Hpred h Hh) as [u [Hu Hedge]].
    exists (u :: h :: t). split; [simpl in *; lia|].
    split; [constructor; assumption|].
    constructor; [|exact Hord].
    constructor; [apply t_step; exact Hedge|].
    inversion Hord as [|? ? Hht _]. subst.
    eapply Forall_impl; [|exact Hht].
    intros y Hy. eapply t_trans; [apply t_step; exact Hedge | exact Hy].
Qed.

Lemma repeated_element_cycle : forall g (l : list node),
    ForallOrdPairs (reaches g) l -> ~ NoDup l -> has_cycle g.
Proof.
  intros g l Hord. induction Hord as [|a l Ha Hord IH]; intros Hdup.
  - exfalso. apply Hdup. constructor.
  - destruct (in_dec node_eq_dec a l) as [Hin | Hnot].
    + exists a. rewrite Forall_forall in Ha. apply Ha. exact Hin.
    + apply IH. intros Hnd. apply Hdup. constructor; assumption.
Qed.

Lemma predecessor_closed_has_cycle : forall g (K : list node) (A : node -> Prop),
    (forall v, A v -> In v K) ->
    (forall v, A v -> exists u, A u /\ edge g u v) ->
    (exists v, A v) ->
    has_cycle g.
Proof.
  intros g K A HK Hpred [v Hv].
  destruct (backward_chain g A Hpred (List.length K) v Hv) as [l [Hlen [HA Hord]]].
  apply (repeated_element_cycle g l Hord).
  intros Hnd.
  assert (Hincl : incl l K).
  { intros z Hz. apply HK. rewrite Forall_forall in HA. apply HA. exact Hz. }
  pose proof (NoDup_incl_length Hnd Hincl). lia.
Qed.

Lemma missing_element : forall (K l : list node),
    NoDup K -> NoDup l -> incl l K ->
    List.length l <> List.length K ->
    exists v, In v K /\ ~ In v l.
Proof.
  intros K l HK Hl Hincl Hlen.
  assert (Hcases : incl K l \/ exists v, In v K /\ ~ In v l).
  { clear HK Hincl Hlen. induction K as [|k K IH].
    - left. intros z [].
    - destruct IH as [IH | [v [Hv1 Hv2]]].
      + destruct (in_dec node_eq_dec k l) as [Hin | Hnot].
        * left. intros z [<- | Hz]; [exact Hin | apply IH; exact Hz].
        * right. exists k. split; [left; reflexivity | exact Hnot].
      + right. exists v. split; [right; exact Hv1 | exact Hv2]. }
  destruct Hcases as [Hall | Hex]; [|exact Hex].
  exfalso. pose proof (NoDup_incl_length HK Hall).
  pose proof (NoDup_incl_length Hl Hincl). lia.
Qed.

(** *** The output respects the edges *)

Lemma order_reaches : forall g (L : list node),
    (forall l1 v l2, L = l1 ++ v :: l2 -> forall u, edge g u v -> In u l1) ->
    forall u v, reaches g u v ->
    forall l1 l2, L = l1 ++ v :: l2 -> In u l1.
Proof.
  intros g L Horder u v H.
  induction H as [u v H | u w v _ IH1 _ IH2]; intros l1 l2 HL.
  - eapply Horder; eassumption.
  - pose proof (IH2 l1 l2 HL) as Hw.
    apply in_split in Hw. destruct Hw as [a [b ->]].
    rewrite <- app_assoc in HL. simpl in HL.
    apply in_or_app. left. eapply IH1. exact HL.
Qed.

(** [topologicalSort] returns; its result is [null] exactly when the
    graph has a cycle, and otherwise a permutation of the keys in which
    every edge points forward. *)
Lemma topologicalSort_spec : forall g,
    map_ok g -> closed g ->
    exists order,
      topologicalSort node eqb g = Some order
      /\ (order = None <-> has_cycle g)
      /\ forall l, order = Some l ->
                   Permutation l (keys g)
                   /\ forall u v, edge g u v -> precedes l u v.
Proof.
  intros g Hok Hclosed. unfold topologicalSort.
  pose proof (kahn_inv_init g Hok Hclosed) as Hinit. cbv zeta in Hinit.
  destruct (kahn_loop_spec (iteration_bound node g) g _ Hok Hclosed Hinit)
    as [st [E [Hinv Hq]]].
  { cbn [result]. unfold iteration_bound, all_nodes.
    rewrite length_app. simpl. lia. }
  rewrite E. destruct Hinv as [Hkeys Hnd Hincl Hdeg Hzero Horder].
  rewrite Hq, app_nil_r in *.
  assert (Hsize : size node g = List.length (keys g))
    by (unfold size, GraphUtils.keys; rewrite length_map; reflexivity).
  destruct (Nat.eqb (List.length (result st)) (size node g)) eqn:El.
  - apply Nat.eqb_eq in El. exists (Some (result st)).
    assert (Hperm : Permutation (result st) (keys g)).
    { apply NoDup_Permutation_bis; [exact Hnd | lia | exact Hincl]. }
    split; [reflexivity|]. split.
    + split; [discriminate|]. intros [x Hx]. exfalso.
      assert (Hxr : In x (result st)).
      { eapply Permutation_in; [apply Permutation_sym; exact Hperm|].
        eapply reaches_source_is_key. exact Hx. }
      apply in_split in Hxr. destruct Hxr as [l1 [l2 HL]].
      pose proof (order_reaches g (result st) Horder x x Hx l1 l2 HL) as Hin.
      rewrite HL in Hnd. apply NoDup_remove_2 in Hnd. apply Hnd.
      apply in_or_app. left. exact Hin.
    + intros l Hl. inversion Hl. subst l. split; [exact Hperm|].
      intros u v Huv.
      assert (Hvr : In v (result st)).
      { eapply Permutation_in; [apply Permutation_sym; exact Hperm|].
        apply (Hclosed u v Huv). }
      apply in_split in Hvr. destruct Hvr as [l1 [l2 HL]].
      pose proof (Horder l1 v l2 HL u Huv) as Hu.
      apply in_split in Hu. destruct Hu as [a [b ->]].
      exists a, b, l2. rewrite HL. rewrite <- app_assoc. reflexivity.
  - apply Nat.eqb_neq in El. exists None.
    split; [reflexivity|]. split; [|intros l Hl; discriminate].
    split; [|reflexivity]. intros _.
    apply (predecessor_closed_has_cycle g (keys g)
             (fun v => In v (keys g) /\ ~ In v (result st))).
    + intros v [Hv _]. exact Hv.
    + intros v [Hv Hnot].
      assert (Hp : pending g (result st) v <> 0).
      { intros Hp. apply Hnot. apply (Hzero v Hv). rewrite (Hdeg v Hv), Hp.
        reflexivity. }
      destruct (pending_positive g (result st) v (proj1 Hok) Hp) as [u [Hu Hur]].
      exists u. split; [|exact Hu]. split; [|exact Hur].
      eapply edge_source_is_key. exact Hu.
    + apply missing_element; [exact (proj1 Hok) | exact Hnd | exact Hincl | lia].
Qed.

(** *** [topologicalSort] returns on every map *)

Lemma outstanding_set_present : forall (m : jsmap node Z) k d v,
    map_get k m = Some d ->
    outstanding (map_set k v m) + Z.to_nat d = outstanding m + Z.to_nat v.
Proof.
  intros m k d v. unfold GraphSpec.outstanding.
  induction m as [|[k' d'] m IH]; simpl; intros H; [discriminate|].
  destruct (eqb k k').
  - inversion H. subst d'. simpl. lia.
  - simpl. specialize (IH H). lia.
Qed.

Lemma outstanding_set_absent : forall (m : jsmap node Z) k v,
    map_get k m = None ->
    outstanding (map_set k v m) = outstanding m + Z.to_nat v.
Proof.
  intros m k v. unfold GraphSpec.outstanding.
  induction m as [|[k' d'] m IH]; simpl; intros H; [lia|].
  destruct (eqb k k'); [discriminate|].
  simpl. rewrite (IH H). lia.
Qed.

Lemma length_map_set : forall (V : Type) k (v : V) (m : jsmap node V),
    List.length (map_set k v m) <= S (List.length m).
Proof.
  intros V k v m. induction m as [|[k' v'] m IH]; simpl; [lia|].
  destruct (eqb k k'); simpl; lia.
Qed.

Lemma relax_measure : forall (m : jsmap node Z) q w,
    List.length (snd (relax (m, q) w)) + outstanding (fst (relax (m, q) w))
    <= List.length q + outstanding m.
Proof.
  intros m q w. unfold GraphUtils.relax.
  destruct (map_get w m) as [d|] eqn:E; [|simpl; lia].
  pose proof (outstanding_set_present m w d (d - 1)%Z E) as H.
  destruct (d - 1 =? 0)%Z eqn:Ez; cbn [fst snd].
  - apply Z.eqb_eq in Ez. rewrite length_app. simpl.
    replace (Z.to_nat d) with 1 in H by lia.
    replace (Z.to_nat (d - 1)) with 0 in H by lia. lia.
  - assert (Z.to_nat (d - 1) <= Z.to_nat d) by lia. lia.
Qed.

Lemma relax_fold_measure : forall ns (m : jsmap node Z) q,
    List.length (snd (fold_left relax ns (m, q)))
    + outstanding (fst (fold_left relax ns (m, q)))
    <= List.length q + outstanding m.
Proof.
  induction ns as [|w ns IH]; intros m q; cbn [fold_left]; [simpl; lia|].
  pose proof (relax_measure m q w) as H.
  destruct (relax (m, q) w) as [m1 q1]. cbn [fst snd] in H.
  specialize (IH m1 q1). lia.
Qed.

Lemma kahn_loop_returns : forall fuel g st,
    List.length (queue st) + outstanding (inDegree st) < fuel ->
    exists st', kahn_loop node eqb fuel g st = Some st'.
Proof.
  induction fuel as [|fuel IH]; intros g st Hm; [lia|].
  destruct st as [m q R]. cbn [queue inDegree] in Hm.
  destruct q as [|x q]; cbn [kahn_loop queue inDegree result].
  - eexists. reflexivity.
  - pose proof (relax_fold_measure (neighbors g x) m q) as H.
    destruct (fold_left relax (neighbors g x) (m, q)) as [m1 q1].
    cbn [fst snd] in H. apply IH. cbn [queue inDegree]. simpl in Hm. lia.
Qed.

Lemma init_inDegree_measure : forall ks (m : jsmap node Z),
    List.length (fold_left (fun m n => map_set n 0%Z m) ks m)
    <= List.length m + List.length ks
    /\ outstanding (fold_left (fun m n => map_set n 0%Z m) ks m)
       <= outstanding m.
Proof.
  induction ks as [|k ks IH]; intros m; simpl; [lia|].
  destruct (IH (map_set k 0%Z m)) as [H1 H2].
  pose proof (length_map_set Z k 0%Z m) as Hl.
  assert (Ho : outstanding (map_set k 0%Z m) <= outstanding m).
  { destruct (map_get k m) as [d|] eqn:E.
    - pose proof (outstanding_set_present m k d 0%Z E). simpl in *. lia.
    - rewrite (outstanding_set_absent m k 0%Z E). simpl. lia. }
  lia.
Qed.

Lemma bump_measure : forall (m : jsmap node Z) w,
    List.length (bump m w) <= S (List.length m)
    /\ outstanding (bump m w) <= S (outstanding m).
Proof.
  intros m w. unfold GraphUtils.bump. split; [apply length_map_set|].
  destruct (map_get w m) as [d|] eqn:E.
  - pose proof (outstanding_set_present m w d
                  ((if (d =? 0)%Z then 0 else d) + 1)%Z E) as H.
    destruct (d =? 0)%Z eqn:Ez; [apply Z.eqb_eq in Ez; subst d; simpl in *; lia|].
    assert (Z.to_nat (d + 1) <= S (Z.to_nat d)) by lia. lia.
  - rewrite (outstanding_set_absent m w _ E). simpl. lia.
Qed.

Lemma bump_fold_measure : forall s (m : jsmap node Z),
    List.length (fold_left bump s m) <= List.length m + List.length s
    /\ outstanding (fold_left bump s m) <= outstanding m + List.length s.
Proof.
  induction s as [|w s IH]; intros m; simpl; [lia|].
  destruct (IH (bump m w)) as [H1 H2].
  destruct (bump_measure m w) as [H3 H4]. lia.
Qed.

Lemma count_inDegree_measure : forall (g : GraphUtils.graph node) (m : jsmap node Z),
    List.length (count_inDegree node eqb g m) <= List.length m + edge_count node g
    /\ outstanding (count_inDegree node eqb g m) <= outstanding m + edge_count node g.
Proof.
  unfold count_inDegree, edge_count.
  induction g as [|[k s] g IH]; intros m; simpl; [lia|].
  destruct (IH (fold_left bump s m)) as [H1 H2].
  destruct (bump_fold_measure s m) as [H3 H4].
  rewrite length_app. lia.
Qed.

(** Whatever the map holds, the [while] loop of [topologicalSort] ends
    within [iteration_bound] iterations and the function returns. *)
Lemma topologicalSort_returns : forall g,
    exists order, topologicalSort node eqb g = Some order.
Proof.
  intros g. unfold topologicalSort.
  destruct (kahn_loop_returns (iteration_bound node g) g
              (mkKahn (count_inDegree node eqb g (init_inDegree node eqb g))
                      (zero_nodes node
                         (count_inDegree node eqb g (init_inDegree node eqb g)))
                      [])) as [st E].
  - cbn [queue inDegree].
    destruct (count_inDegree_measure g (init_inDegree node eqb g)) as [H1 H2].
    destruct (init_inDegree_measure (keys g) []) as [H3 H4].
    fold (init_inDegree node eqb g) in H3, H4.
    assert (Hz : List.length
                   (zero_nodes node
                      (count_inDegree node eqb g (init_inDegree node eqb g)))
                 <= List.length
                      (count_inDegree node eqb g (init_inDegree node eqb g))).
    { unfold zero_nodes. rewrite length_map. apply filter_length_le. }
    unfold iteration_bound, all_nodes. rewrite length_app.
    unfold GraphUtils.keys in *. rewrite length_map in *.
    unfold edge_count in *. change (outstanding []) with 0 in H4. simpl in H3.
    lia.
  - rewrite E. destruct (Nat.eqb _ _); eexists; reflexivity.
Qed.

(** *** Graphs built by [createGraph] and [addEdge] *)

Lemma map_set_In : forall (V : Type) k (v : V) (m : jsmap node V) k' v',
    In (k', v') (map_set k v m) -> (k' = k /\ v' = v) \/ In (k', v') m.
Proof.
  intros V k v m k' v'. induction m as [|[k1 v1] m IH]; simpl; intros H.
  - destruct H as [H | []]. inversion H. left. auto.
  - destruct (eqb k k1) eqn:E; simpl in H.
    + apply eqb_spec in E. subst k1.
      destruct H as [H | H]; [inversion H; left; auto | right; right; exact H].
    + destruct H as [H | H]; [right; left; exact H|].
      destruct (IH H) as [H' | H']; [left; exact H' | right; right; exact H'].
Qed.

Lemma keys_map_set_In : forall (V : Type) k (v : V) (m : jsmap node V) x,
    In x (keys (map_set k v m)) <-> x = k \/ In x (keys m).
Proof.
  intros V k v m x. destruct (in_dec node_eq_dec k (keys m)) as [Hin | Hnot].
  - rewrite keys_map_set_present by exact Hin. split; [auto|].
    intros [-> | H]; assumption.
  - rewrite map_set_fresh by exact Hnot. unfold GraphUtils.keys.
    rewrite map_app, in_app_iff. simpl. split.
    + intros [H | [H | []]]; [right; exact H | left; symmetry; exact H].
    + intros [-> | H]; [right; left; reflexivity | left; exact H].
Qed.

Lemma NoDup_keys_map_set : forall (V : Type) k (v : V) (m : jsmap node V),
    NoDup (keys m) -> NoDup (keys (map_set k v m)).
Proof.
  intros V k v m Hnd. destruct (in_dec node_eq_dec k (keys m)) as [Hin | Hnot].
  - rewrite keys_map_set_present by exact Hin. exact Hnd.
  - rewrite map_set_fresh by exact Hnot. unfold GraphUtils.keys.
    rewrite map_app. simpl. apply NoDup_snoc; assumption.
Qed.

Lemma set_add_NoDup : forall x s, NoDup s -> NoDup (set_add x s).
Proof.
  intros x s Hnd. unfold GraphUtils.set_add.
  destruct (set_has x s) eqn:E; [exact Hnd|].
  apply NoDup_snoc; [exact Hnd | apply set_has_not_In; exact E].
Qed.

Lemma map_set_well_formed : forall g k s,
    map_ok g -> closed g -> NoDup s ->
    (forall v, In v s -> v = k \/ In v (keys g)) ->
    map_ok (map_set k s g) /\ closed (map_set k s g).
Proof.
  intros g k s [Hnd Hsets] Hclosed Hs Hincl. split; [split|].
  - apply NoDup_keys_map_set. exact Hnd.
  - intros k' s' Hin. apply map_set_In in Hin.
    destruct Hin as [[_ ->] | Hin]; [exact Hs | eapply Hsets; exact Hin].
  - intros u v Huv. apply edge_entry in Huv. destruct Huv as [s' [E Hv]].
    apply keys_map_set_In. destruct (node_eq_dec u k) as [-> | Hne].
    + rewrite map_get_set_same in E. inversion E. subst s'. apply Hincl. exact Hv.
    + rewrite map_get_set_other in E by congruence. right.
      apply (Hclosed u v). apply edge_entry. exists s'. auto.
Qed.

Lemma createGraph_well_formed : forall nodes,
    map_ok (createGraph node eqb nodes) /\ closed (createGraph node eqb nodes).
Proof.
  intros nodes. unfold createGraph.
  assert (H : forall l g, map_ok g -> closed g ->
                map_ok (fold_left (fun g n => map_set n [] g) l g)
                /\ closed (fold_left (fun g n => map_set n [] g) l g)).
  { induction l as [|n l IH]; intros g Hok Hc; simpl; [auto|].
    destruct (map_set_well_formed g n [] Hok Hc) as [Hok' Hc'];
      [constructor | intros v [] |].
    apply IH; assumption. }
  apply H.
  - split; [constructor | intros k s []].
  - intros u v [].
Qed.

(** [addEdge] keeps the map well formed, and the edge is in the graph
    afterwards. *)
Lemma addEdge_well_formed : forall g a b,
    map_ok g -> closed g ->
    map_ok (addEdge node eqb g a b) /\ closed (addEdge node eqb g a b)
    /\ edge (addEdge node eqb g a b) a b.
Proof.
  intros g a b Hok Hc. unfold addEdge. cbv zeta.
  set (g1 := if map_has node eqb a g then g else map_set a [] g).
  assert (H1 : map_ok g1 /\ closed g1).
  { unfold g1. destruct (map_has node eqb a g); [auto|].
    apply map_set_well_formed; [assumption | assumption | constructor | intros v []]. }
  destruct H1 as [Hok1 Hc1].
  set (g2 := if map_has node eqb b g1 then g1 else map_set b [] g1).
  assert (H2 : map_ok g2 /\ closed g2 /\ In b (keys g2)).
  { unfold g2. unfold map_has. destruct (map_get b g1) as [s|] eqn:E.
    - split; [exact Hok1|]. split; [exact Hc1|]. eapply map_get_Some_key. exact E.
    - destruct (map_set_well_formed g1 b [] Hok1 Hc1) as [Hok2 Hc2];
        [constructor | intros v [] |].
      split; [exact Hok2|]. split; [exact Hc2|].
      apply keys_map_set_In. left. reflexivity. }
  destruct H2 as [Hok2 [Hc2 Hb]].
  destruct (map_set_well_formed g2 a (set_add b (neighbors g2 a)) Hok2 Hc2)
    as [Hok3 Hc3].
  - apply set_add_NoDup. apply neighbors_NoDup. exact Hok2.
  - intros v Hv. apply set_add_In in Hv. right.
    destruct Hv as [-> | Hv]; [exact Hb | apply (Hc2 a v); exact Hv].
  - split; [exact Hok3|]. split; [exact Hc3|].
    apply edge_entry. exists (set_add b (neighbors g2 a)).
    split; [apply map_get_set_same|]. apply set_add_In. left. reflexivity.
Qed.

(** *** The executable checks are sound *)

Lemma nodupb_NoDup : forall l, GraphSpec.nodupb node eqb l = true -> NoDup l.
Proof.
  induction l as [|x l IH]; simpl; intros H; [constructor|].
  apply andb_true_iff in H. destruct H as [H1 H2].
  constructor; [|apply IH; exact H2].
  apply negb_true_iff in H1. apply set_has_not_In. exact H1.
Qed.

Lemma map_okb_sound : forall g, GraphSpec.map_okb node eqb g = true -> map_ok g.
Proof.
  intros g H. unfold GraphSpec.map_okb in H. apply andb_true_iff in H.
  destruct H as [H1 H2]. split; [apply nodupb_NoDup; exact H1|].
  intros k s Hin. rewrite forallb_forall in H2.
  apply nodupb_NoDup. apply (H2 (k, s) Hin).
Qed.

Lemma closedb_sound : forall g, GraphSpec.closedb node eqb g = true -> closed g.
Proof.
  intros g H u v Huv. apply edge_entry in Huv. destruct Huv as [s [E Hv]].
  apply map_get_In in E. unfold GraphSpec.closedb in H.
  rewrite forallb_forall in H. specialize (H (u, s) E). simpl in H.
  rewrite forallb_forall in H. apply set_has_In. apply H. exact Hv.
Qed.

End Graph.

(** C8.  On every directed graph, represented as the specification and
    the library have it (a [Map] from each node to the set of its
    successors, the empty set for a leaf, so that every successor is a
    key, as [createGraph] and [addEdge] build it), [topologicalSort]
    returns [null] when the graph contains a cycle, and otherwise returns
    a permutation of the graph's nodes in which, for every edge (u, v),
    u precedes v. *)
Theorem C8_topologicalSort_closed_graph :
  forall (node : Type) (eqb : node -> node -> bool),
    (forall a b, eqb a b = true <-> a = b) ->
    forall g : GraphUtils.graph node,
      GraphSpec.map_ok node g -> GraphSpec.closed node eqb g ->
      (GraphSpec.has_cycle node eqb g ->
       topologicalSort node eqb g = Some None)
      /\ (~ GraphSpec.has_cycle node eqb g ->
          exists l,
            topologicalSort node eqb g = Some (Some l)
            /\ Permutation l (GraphUtils.keys node g)
            /\ forall u v, GraphSpec.edge node eqb g u v ->
                           GraphSpec.precedes node l u v).
Proof.
  intros node eqb eqb_spec g Hok Hclosed.
  destruct (topologicalSort_spec node eqb eqb_spec g Hok Hclosed)
    as [order [E [Hnull Hsorted]]].
  split.
  - intros Hcyc. apply Hnull in Hcyc. rewrite E, Hcyc. reflexivity.
  - intros Hacyc. destruct order as [l|].
    + exists l. destruct (Hsorted l eq_refl) as [Hperm Hord]. auto.
    + exfalso. apply Hacyc. apply Hnull. reflexivity.
Qed.

Lemma C8_topologicalSort_closed_graph_witness :
  (GraphSpec.has_cycle nat Nat.eqb chain3 ->
   topologicalSort nat Nat.eqb chain3 = Some None)
  /\ (~ GraphSpec.has_cycle nat Nat.eqb chain3 ->
      exists l,
        topologicalSort nat Nat.eqb chain3 = Some (Some l)
        /\ Permutation l (GraphUtils.keys nat chain3)
        /\ forall u v, GraphSpec.edge nat Nat.eqb chain3 u v ->
                       GraphSpec.precedes nat l u v).
Proof.
  apply (C8_topologicalSort_closed_graph nat Nat.eqb Nat.eqb_eq chain3).
  - apply (map_okb_sound nat Nat.eqb Nat.eqb_eq). reflexivity.
  - apply (closedb_sound nat Nat.eqb Nat.eqb_eq). reflexivity.
Defined.

(** Outside that representation the result means something else: the
    map [{1 -> {2}}], in which the successor 2 has no entry, contains no
    cycle, yet [topologicalSort] returns [null] (the output [1, 2] is
    longer than [graph.size]). *)
Remark topologicalSort_dangling_successor :
  ~ GraphSpec.has_cycle nat Nat.eqb dangling
  /\ topologicalSort nat Nat.eqb dangling = Some None.
Proof.
  split; [|reflexivity].
  destruct (detectCycles_spec nat Nat.eqb Nat.eqb_eq dangling) as [cycles [E H]].
  vm_compute in E. inversion E. subst cycles.
  intros Hcyc. apply H in Hcyc. apply Hcyc. reflexivity.
Qed.

(** C9.  On every directed graph, represented as the specification and
    the library have it (every successor is a key of the map),
    [topologicalSort] returns [null] if and only if [detectCycles]
    returns a non-empty collection, and [isAcyclic] is true exactly when
    [topologicalSort] is not [null]; both routines return. *)
Theorem C9_kahn_agrees_with_dfs_closed_graph :
  forall (node : Type) (eqb : node -> node -> bool),
    (forall a b, eqb a b = true <-> a = b) ->
    forall g : GraphUtils.graph node,
      GraphSpec.map_ok node g -> GraphSpec.closed node eqb g ->
      exists order cycles,
        topologicalSort node eqb g = Some order
        /\ detectCycles node eqb g = Some cycles
        /\ (order = None <-> cycles <> [])
        /\ (isAcyclic node eqb g = Some true <-> order <> None).
Proof.
  intros node eqb eqb_spec g Hok Hclosed.
  destruct (topologicalSort_spec node eqb eqb_spec g Hok Hclosed)
    as [order [E [Hnull _]]].
  destruct (detectCycles_spec node eqb eqb_spec g) as [cycles [Ec Hc]].
  exists order, cycles. split; [exact E|]. split; [exact Ec|].
  assert (Hagree : order = None <-> cycles <> []).
  { rewrite Hnull, Hc. reflexivity. }
  split; [exact Hagree|].
  unfold isAcyclic. rewrite Ec. destruct cycles as [|c cycles]; simpl.
  - split; [|reflexivity]. intros _ Hn. apply Hagree in Hn. apply Hn. reflexivity.
  - split; [discriminate|]. intros Hn. exfalso. apply Hn. apply Hagree. discriminate.
Qed.

Lemma C9_kahn_agrees_with_dfs_witness :
  exists order cycles,
    topologicalSort nat Nat.eqb triangle = Some order
    /\ detectCycles nat Nat.eqb triangle = Some cycles
    /\ (order = None <-> cycles <> [])
    /\ (isAcyclic nat Nat.eqb triangle = Some true <-> order <> None).
Proof.
  apply (C9_kahn_agrees_with_dfs_closed_graph nat Nat.eqb Nat.eqb_eq triangle).
  - apply (map_okb_sound nat Nat.eqb Nat.eqb_eq). reflexivity.
  - apply (closedb_sound nat Nat.eqb Nat.eqb_eq). reflexivity.
Defined.

(** Outside that representation the two routines differ: on the map
    [{1 -> {2}}], in which the successor 2 has no entry,
    [topologicalSort] returns [null] while [detectCycles] returns the
    empty collection and [isAcyclic] is true. *)
Remark kahn_and_dfs_differ_on_dangling_successor :
  topologicalSort nat Nat.eqb dangling = Some None
  /\ detectCycles nat Nat.eqb dangling = Some []
  /\ isAcyclic nat Nat.eqb dangling = Some true.
Proof.
  repeat split; reflexivity.
Qed.

End GraphFacts.

(* ================================================================== *)
(** * Part VII.  Properties of the JavaScript fragment                   *)
(* ================================================================== *)

Module JSFacts.

Import JS Records.
Local Open Scope js_scope.

Lemma value_eqb_refl : forall a, value_eqb a a = true.
Proof.
  fix IH 1. intros a. destruct a as [| |b|n| |s|items|fields]; simpl.
  - reflexivity.
  - reflexivity.
  - destruct b; reflexivity.
  - apply Z.eqb_refl.
  - reflexivity.
  - apply String.eqb_refl.
  - induction items as [|x l IHl]; [reflexivity|].
    rewrite (IH x). exact IHl.
  - induction fields as [|[k x] l IHl]; [reflexivity|].
    rewrite String.eqb_refl, (IH x). exact IHl.
Qed.

Lemma value_eqb_eq : forall a b, value_eqb a b = true -> a = b.
Proof.
  fix IH 1. intros a b.
  destruct a as [| |x|n| |s|items|fields];
    destruct b as [| |y|m| |t|items'|fields']; simpl; try discriminate; intros H.
  - reflexivity.
  - reflexivity.
  - apply Bool.eqb_prop in H. congruence.
  - apply Z.eqb_eq in H. congruence.
  - reflexivity.
  - apply String.eqb_eq in H. congruence.
  - f_equal. revert items' H.
    induction items as [|x l IHl]; intros [|y m] H; try discriminate.
    + reflexivity.
    + apply andb_true_iff in H. destruct H as [H1 H2].
      f_equal; [apply IH; exact H1 | apply IHl; exact H2].
  - f_equal. revert fields' H.
    induction fields as [|[k x] l IHl]; intros [|[k' y] m] H; try discriminate.
    + reflexivity.
    + apply andb_true_iff in H. destruct H as [H12 H3].
      apply andb_true_iff in H12. destruct H12 as [H1 H2].
      apply String.eqb_eq in H1. subst k'.
      f_equal; [f_equal; apply IH; exact H2 | apply IHl; exact H3].
Qed.

Lemma value_eqb_spec : forall a b, value_eqb a b = true <-> a = b.
Proof.
  intros a b. split; [apply value_eqb_eq | intros ->; apply value_eqb_refl].
Qed.

Lemma get_prop : forall v k, nullish v = false -> get v k = Normal (prop v k).
Proof.
  intros v k H. unfold prop.
  destruct v; try discriminate; simpl;
    repeat match goal with
           | |- context [if ?c then _ else _] => destruct c
           | |- context [match ?c with Some _ => _ | None => _ end] => destruct c
           end; reflexivity.
Qed.

Lemma forEach_from_pure :
  forall (A S : Type) (body : S -> A -> nat -> completion S) (f : S -> A -> S)
         (l : list A),
    (forall s x i, In x l -> body s x i = Normal (f s x)) ->
    forall i s, forEach_from body l i s = Normal (fold_left f l s).
Proof.
  intros A S body f l. induction l as [|x l IH]; intros Hbody i s; simpl.
  - reflexivity.
  - rewrite (Hbody s x i (or_introl eq_refl)). simpl.
    apply IH. intros s' y j Hy. apply Hbody. right. exact Hy.
Qed.

Lemma array_filter_pure :
  forall (A : Type) (p : A -> completion bool) (q : A -> bool) (l : list A),
    (forall x, In x l -> p x = Normal (q x)) ->
    array_filter p l = Normal (filter q l).
Proof.
  intros A p q l. induction l as [|x l IH]; intros Hp; simpl.
  - reflexivity.
  - rewrite (Hp x (or_introl eq_refl)). simpl.
    rewrite IH by (intros y Hy; apply Hp; right; exact Hy). simpl.
    destruct (q x); reflexivity.
Qed.

Lemma array_map_pure :
  forall (A B : Type) (f : A -> completion B) (h : A -> B) (l : list A),
    (forall x, In x l -> f x = Normal (h x)) ->
    array_map f l = Normal (map h l).
Proof.
  intros A B f h l. induction l as [|x l IH]; intros Hf; simpl.
  - reflexivity.
  - rewrite (Hf x (or_introl eq_refl)). simpl.
    rewrite IH by (intros y Hy; apply Hf; right; exact Hy). reflexivity.
Qed.

End JSFacts.

(* ================================================================== *)
(** * Part VIII.  Properties of the enhanced validation service          *)
(* ================================================================== *)

Module CoRunFacts.

Import JS Records EnhancedValidationService JSFacts.
Local Open Scope list_scope.
Local Open Scope nat_scope.

Local Abbreviation edge := (GraphSpec.edge value value_eqb).
Local Abbreviation reaches := (GraphSpec.reaches value value_eqb).
Local Abbreviation has_cycle := (GraphSpec.has_cycle value value_eqb).
Local Abbreviation no_cycle_so_far := (GraphSpec.no_cycle_so_far value value_eqb).
Local Abbreviation unvisited := (GraphSpec.unvisited value value_eqb).
Local Abbreviation keys := (GraphUtils.keys value).
Local Abbreviation all_nodes := (GraphUtils.all_nodes value).

(** *** The first cycle found *)

Lemma first_cycle_spec :
  forall fuel g roots st,
    incl roots (all_nodes g) ->
    List.length (unvisited (all_nodes g) (GraphUtils.visited st)) < fuel ->
    GraphUtils.recursionStack st = [] ->
    no_cycle_so_far g st ->
    (exists c, first_cycle fuel g roots st = Normal (Some c))
    \/ (first_cycle fuel g roots st = Normal None
        /\ exists st',
            no_cycle_so_far g st'
            /\ GraphUtils.recursionStack st' = []
            /\ incl (GraphUtils.visited st) (GraphUtils.visited st')
            /\ forall r, In r roots -> In r (GraphUtils.visited st')).
Proof.
  intros fuel g roots. induction roots as [|x roots IH];
    intros st Hincl Hm Hs Hinv; simpl.
  - right. split; [reflexivity|]. exists st.
    split; [exact Hinv|]. split; [exact Hs|]. split; [apply incl_refl | intros r []].
  - assert (Hincl' : incl roots (all_nodes g))
      by (intros z Hz; apply Hincl; right; exact Hz).
    change (set_has x (GraphUtils.visited st))
      with (GraphUtils.set_has value value_eqb x (GraphUtils.visited st)).
    destruct (GraphUtils.set_has value value_eqb x (GraphUtils.visited st)) eqn:Ev.
    + apply (GraphFacts.set_has_In value value_eqb value_eqb_spec) in Ev.
      destruct (IH st Hincl' Hm Hs Hinv) as [Hc | [Hn [st' [H1 [H2 [H3 H4]]]]]];
        [left; exact Hc | right].
      split; [exact Hn|]. exists st'.
      split; [exact H1|]. split; [exact H2|]. split; [exact H3|].
      intros r [<- | Hr]; [apply H3; exact Ev | apply H4; exact Hr].
    + destruct (GraphFacts.dfs_terminates value value_eqb value_eqb_spec
                  fuel g x [] st) as [r [st1 [E Hv]]];
        [apply Hincl; left; reflexivity | exact Hm |].
      rewrite E. destruct r as [c|]; [left; exists c; reflexivity|].
      destruct (GraphFacts.dfs_frame value value_eqb value_eqb_spec _ _ _ _ _ _ E)
        as [Hs1 [_ [Hx1 _]]].
      pose proof (GraphFacts.dfs_complete value value_eqb value_eqb_spec
                    _ _ _ _ _ _ E Hinv) as Hinv1.
      pose proof (GraphFacts.unvisited_mono value value_eqb value_eqb_spec
                    (all_nodes g) _ _ Hv) as Hmono.
      destruct (IH st1 Hincl') as [Hc | [Hn [st' [H1 [H2 [H3 H4]]]]]];
        [lia | congruence | exact Hinv1 | left; exact Hc | right].
      split; [exact Hn|]. exists st'.
      split; [exact H1|]. split; [exact H2|].
      split; [eapply incl_tran; eassumption|].
      intros r [<- | Hr]; [apply H3; exact Hx1 | apply H4; exact Hr].
Qed.

(** On a graph with a cycle the loop of [detectCircularCoRuns] finds
    one, within the recursion depth it is given. *)
Lemma first_cycle_found :
  forall g,
    has_cycle g ->
    exists c,
      first_cycle (GraphUtils.depth_bound value g) g (keys g)
                  (GraphUtils.mkState [] []) = Normal (Some c).
Proof.
  intros g [x Hx].
  destruct (first_cycle_spec (GraphUtils.depth_bound value g) g (keys g)
              (GraphUtils.mkState [] []))
    as [Hc | [_ [st' [Hinv [Hs [_ Hall]]]]]].
  - intros z Hz. unfold GraphUtils.all_nodes. apply in_or_app. left. exact Hz.
  - apply (GraphFacts.depth_bound_enough value value_eqb).
  - reflexivity.
  - apply GraphFacts.no_cycle_so_far_init.
  - exact Hc.
  - exfalso.
    assert (Hf : GraphSpec.finished value st' x).
    { split.
      - apply Hall.
        eapply (GraphFacts.reaches_source_is_key value value_eqb value_eqb_spec).
        exact Hx.
      - rewrite Hs. intros []. }
    destruct (Hinv x Hf) as [_ Hacyc]. contradiction.
Qed.

(** *** The graph built from the rules *)

Lemma graph_has_In : forall k (g : corun_graph),
    graph_has k g = true <-> In k (keys g).
Proof.
  intros k g. unfold graph_has, GraphUtils.map_has.
  pose proof (GraphFacts.map_get_None value value_eqb value_eqb_spec _ k g) as H.
  destruct (GraphUtils.map_get value value_eqb k g).
  - split; [intros _|reflexivity].
    destruct (in_dec (GraphFacts.node_eq_dec value value_eqb value_eqb_spec)
                     k (keys g)) as [Hin | Hnot]; [exact Hin|].
    apply H in Hnot. discriminate.
  - split; [discriminate|]. intros Hin. exfalso.
    apply (proj1 H eq_refl). exact Hin.
Qed.

Lemma neighbors_graph_set : forall k s (g : corun_graph) u,
    graph_neighbors (graph_set k s g) u
    = if value_eqb k u then s else graph_neighbors g u.
Proof.
  intros k s g u. unfold graph_neighbors, graph_set, GraphUtils.neighbors.
  destruct (value_eqb k u) eqn:E.
  - apply value_eqb_spec in E. subst u.
    rewrite (GraphFacts.map_get_set_same value value_eqb value_eqb_spec).
    reflexivity.
  - rewrite (GraphFacts.map_get_set_other value value_eqb value_eqb_spec);
      [reflexivity|].
    intros ->. rewrite value_eqb_refl in E. discriminate.
Qed.

Lemma keys_graph_set_present : forall k s (g : corun_graph),
    In k (keys g) -> keys (graph_set k s g) = keys g.
Proof.
  intros k s g H.
  apply (GraphFacts.keys_map_set_present value value_eqb value_eqb_spec).
  exact H.
Qed.

Lemma In_set_add : forall x y s, In y (set_add x s) <-> y = x \/ In y s.
Proof.
  intros x y s.
  apply (GraphFacts.set_add_In value value_eqb value_eqb_spec).
Qed.

Lemma link_keys : forall g ab, keys (link g ab) = keys g.
Proof.
  intros g [a b]. unfold link.
  destruct (graph_has a g && graph_has b g) eqn:E; [|reflexivity].
  apply andb_true_iff in E. destruct E as [Ha Hb].
  apply graph_has_In in Ha. apply graph_has_In in Hb.
  rewrite keys_graph_set_present; rewrite keys_graph_set_present; auto.
Qed.

Lemma link_edges : forall g ab u v, edge g u v -> edge (link g ab) u v.
Proof.
  intros g [a b] u v H. unfold link.
  destruct (graph_has a g && graph_has b g); [|exact H].
  unfold GraphSpec.edge in *.
  change (GraphUtils.neighbors value value_eqb) with graph_neighbors in *.
  rewrite !neighbors_graph_set.
  destruct (value_eqb b u) eqn:Eb.
  - apply value_eqb_spec in Eb. subst u.
    apply In_set_add. right.
    destruct (value_eqb a b) eqn:Eab; [|exact H].
    apply value_eqb_spec in Eab. subst b.
    apply In_set_add. right. exact H.
  - destruct (value_eqb a u) eqn:Ea; [|exact H].
    apply value_eqb_spec in Ea. subst u.
    apply In_set_add. right. exact H.
Qed.

Lemma link_connects : forall g a b,
    In a (keys g) -> In b (keys g) ->
    edge (link g (a, b)) a b /\ edge (link g (a, b)) b a.
Proof.
  intros g a b Ha Hb. unfold link.
  apply graph_has_In in Ha. apply graph_has_In in Hb. rewrite Ha, Hb. simpl.
  unfold GraphSpec.edge.
  change (GraphUtils.neighbors value value_eqb) with graph_neighbors.
  rewrite !neighbors_graph_set, !value_eqb_refl. split.
  - destruct (value_eqb b a) eqn:E.
    + apply value_eqb_spec in E. subst b. apply In_set_add. left. reflexivity.
    + apply In_set_add. left. reflexivity.
  - apply In_set_add. left. reflexivity.
Qed.

Lemma links_keys : forall ps g, keys (fold_left link ps g) = keys g.
Proof.
  induction ps as [|p ps IH]; intros g; simpl; [reflexivity|].
  rewrite IH. apply link_keys.
Qed.

Lemma links_edges : forall ps g u v,
    edge g u v -> edge (fold_left link ps g) u v.
Proof.
  induction ps as [|p ps IH]; intros g u v H; simpl; [exact H|].
  apply IH. apply link_edges. exact H.
Qed.

Lemma links_connect : forall ps g a b,
    In (a, b) ps -> In a (keys g) -> In b (keys g) ->
    edge (fold_left link ps g) a b /\ edge (fold_left link ps g) b a.
Proof.
  induction ps as [|p ps IH]; intros g a b Hin Ha Hb; simpl; [contradiction|].
  destruct Hin as [-> | Hin].
  - destruct (link_connects g a b Ha Hb) as [H1 H2].
    split; apply links_edges; assumption.
  - apply IH; [exact Hin | rewrite link_keys; exact Ha | rewrite link_keys; exact Hb].
Qed.

Lemma In_pairs : forall (l : list value) a b,
    In a l -> In b l -> a <> b -> In (a, b) (pairs l) \/ In (b, a) (pairs l).
Proof.
  induction l as [|x l IH]; intros a b Ha Hb Hne; [contradiction|].
  simpl. destruct Ha as [-> | Ha]; destruct Hb as [-> | Hb].
  - contradiction.
  - left. apply in_or_app. left. apply in_map. exact Hb.
  - right. apply in_or_app. left. apply in_map. exact Ha.
  - destruct (IH a b Ha Hb Hne) as [H | H]; [left | right];
      apply in_or_app; right; exact H.
Qed.

Lemma rule_links_keys : forall g rule, keys (rule_links g rule) = keys g.
Proof.
  intros g rule. unfold rule_links.
  destruct (prop rule "tasks"); try reflexivity. apply links_keys.
Qed.

Lemma rule_links_edges : forall g rule u v,
    edge g u v -> edge (rule_links g rule) u v.
Proof.
  intros g rule u v H. unfold rule_links.
  destruct (prop rule "tasks"); try exact H. apply links_edges. exact H.
Qed.

Lemma rules_keys : forall rules g, keys (fold_left rule_links rules g) = keys g.
Proof.
  induction rules as [|r rules IH]; intros g; simpl; [reflexivity|].
  rewrite IH. apply rule_links_keys.
Qed.

Lemma rules_edges : forall rules g u v,
    edge g u v -> edge (fold_left rule_links rules g) u v.
Proof.
  induction rules as [|r rules IH]; intros g u v H; simpl; [exact H|].
  apply IH. apply rule_links_edges. exact H.
Qed.

Lemma rules_connect : forall rules g rule items a b,
    In rule rules -> prop rule "tasks" = VArr items ->
    In a items -> In b items -> a <> b ->
    In a (keys g) -> In b (keys g) ->
    edge (fold_left rule_links rules g) a b
    /\ edge (fold_left rule_links rules g) b a.
Proof.
  induction rules as [|r rules IH]; intros g rule items a b Hin Htasks Ha Hb Hne Hka Hkb;
    simpl; [contradiction|].
  destruct Hin as [-> | Hin].
  - assert (H : edge (rule_links g rule) a b /\ edge (rule_links g rule) b a).
    { unfold rule_links. rewrite Htasks.
      destruct (In_pairs items a b Ha Hb Hne) as [Hp | Hp].
      - apply links_connect; assumption.
      - destruct (links_connect (pairs items) g b a Hp Hkb Hka) as [H1 H2]. auto. }
    destruct H as [H1 H2]. split; apply rules_edges; assumption.
  - eapply IH; try eassumption; rewrite rule_links_keys; assumption.
Qed.

Lemma task_graph_keys : forall tasks (g : corun_graph) k,
    In k (keys (fold_left (fun g t => graph_set (prop t "TaskID") [] g) tasks g))
    <-> In k (keys g) \/ In k (task_ids tasks).
Proof.
  induction tasks as [|t tasks IH]; intros g k; simpl.
  - tauto.
  - rewrite IH.
    assert (Hset : In k (keys (graph_set (prop t "TaskID") [] g))
                   <-> In k (keys g) \/ k = prop t "TaskID").
    { destruct (in_dec (GraphFacts.node_eq_dec value value_eqb value_eqb_spec)
                       (prop t "TaskID") (keys g)) as [Hin | Hnot].
      - rewrite keys_graph_set_present by exact Hin.
        split; [auto | intros [H | ->]; assumption].
      - unfold graph_set.
        rewrite (GraphFacts.map_set_fresh value value_eqb value_eqb_spec)
          by exact Hnot.
        unfold GraphUtils.keys. rewrite map_app, in_app_iff. simpl.
        split; [intros [H | [H | []]]; auto | intros [H | ->]; auto]. }
    rewrite Hset. split; [intros [[H | H] | H] | intros [H | [H | H]]]; auto.
Qed.

Lemma build_graph_records : forall tasks coRunRules,
    records tasks -> records coRunRules ->
    build_graph tasks coRunRules
    = Normal (fold_left rule_links coRunRules
                (fold_left (fun g t => graph_set (prop t "TaskID") [] g) tasks [])).
Proof.
  intros tasks coRunRules Ht Hr. unfold build_graph, forEach.
  rewrite (forEach_from_pure _ _ _ (fun g t => graph_set (prop t "TaskID") [] g)).
  - simpl. apply forEach_from_pure. intros g rule i Hin. unfold add_rule, rule_links.
    unfold records in Hr. rewrite Forall_forall in Hr.
    rewrite (get_prop rule "tasks" (Hr rule Hin)). simpl.
    destruct (prop rule "tasks"); reflexivity.
  - intros g t i Hin. unfold records in Ht. rewrite Forall_forall in Ht.
    rewrite (get_prop t "TaskID" (Ht t Hin)). reflexivity.
Qed.


End CoRunFacts.

Module EnhancedFacts.

Import JS Records EnhancedValidationService SpecExamples JSFacts.

(** C1.  On the example of the specification (one worker available in
    phase 1 with [MaxLoadPerPhase] 2, one task of duration 3 preferring
    phase 1) the check emits exactly one [phase_slot_saturation] finding
    for phase 1 with demand 3, but the capacity it computes and reports
    is 1, not 2: [calculatePhaseCapacity] adds 1 per worker and slot and
    never reads [MaxLoadPerPhase].  Whatever the load limit of the worker
    (5, say, which covers the demand of 3), the same finding with
    capacity 1 is produced. *)
Theorem C1_phase_capacity_ignores_MaxLoadPerPhase :
  forall (JSON_parse : string -> completion value) (maxLoad : Z),
    calculatePhaseCapacity JSON_parse (VArr [worker_with_load maxLoad])
      = Normal [("1", 1)]
    /\ calculatePhaseDemand (VArr [task_3_in_phase_1]) = Normal [("1", Some 3)]
    /\ validatePhaseSlotSaturation JSON_parse (VArr [task_3_in_phase_1])
         (VArr [worker_with_load maxLoad])
       = [phase_saturation "1" 3 1 [VUndefined]].
Proof.
  intros JSON_parse maxLoad.
  repeat split; reflexivity.
Qed.

Lemma detectCircularCoRuns_at_most_one :
  forall tasksData rules : value,
    (List.length (detectCircularCoRuns tasksData rules) <= 1)%nat.
Proof.
  intros tasksData rules. unfold detectCircularCoRuns.
  match goal with |- context [match ?c with Normal _ => _ | Throw _ => _ end] =>
    assert (H : forall errs, c = Normal errs -> (List.length errs <= 1)%nat);
    [|destruct c as [errs|e]; [apply H; reflexivity | simpl; lia]]
  end.
  intros errs.
  destruct (array_method "filter" rules) as [ruleList|]; simpl; [|discriminate].
  destruct (array_filter is_coRun ruleList) as [coRunRules|]; simpl; [|discriminate].
  destruct (Nat.eqb (List.length coRunRules) 0).
  { intros H. inversion H. simpl. lia. }
  destruct (array_method "forEach" tasksData) as [tasks|]; simpl; [|discriminate].
  destruct (build_graph tasks coRunRules) as [g|]; simpl; [|discriminate].
  destruct (first_cycle _ g _ _) as [[c|]|]; simpl; intros H; inversion H; simpl; lia.
Qed.

(** C2, as amended.  On the three co-run rules [T1,T2], [T2,T3], [T3,T1]
    over the tasks T1, T2, T3, [detectCircularCoRuns] reports exactly one
    [circular_corun] error, whose cycle is T1, T2, T1: the two opposite
    edges of the first rule.  It never reports more than one finding,
    whatever the tasks and rules. *)
Theorem C2_three_rules_report_the_first_pair :
  detectCircularCoRuns three_tasks three_rules
    = [circular_corun [VStr "T1"; VStr "T2"; VStr "T1"]]
  /\ forall tasksData rules : value,
       (List.length (detectCircularCoRuns tasksData rules) <= 1)%nat.
Proof.
  split; [vm_compute; reflexivity | apply detectCircularCoRuns_at_most_one].
Qed.

(** C2 fails as stated: the cycle reported on the three rules does not
    contain T3. *)
Lemma C2_reported_cycle_misses_T3 :
  ~ (exists cycle,
        detectCircularCoRuns three_tasks three_rules = [circular_corun cycle]
        /\ In (VStr "T1") cycle /\ In (VStr "T2") cycle /\ In (VStr "T3") cycle).
Proof.
  intros [cycle [H [_ [_ H3]]]].
  assert (E : detectCircularCoRuns three_tasks three_rules
              = [circular_corun [VStr "T1"; VStr "T2"; VStr "T1"]])
    by (vm_compute; reflexivity).
  rewrite E in H.
  apply (f_equal (fun l => match l with
                           | [f] => f_affectedRecords f
                           | _ => None
                           end)) in H.
  simpl in H. inversion H. subst cycle.
  destruct H3 as [H3 | [H3 | [H3 | []]]]; discriminate H3.
Qed.



(** C5.  [validateWorkerOverload] emits its [worker_overload] warning when
    the worker has more available slots than [MaxLoadPerPhase], the
    reverse of the documented test (slots < load): a worker with one slot
    and load 3 gets no finding, a worker with three slots and load 1 gets
    the warning. *)
Theorem C5_worker_overload_comparison_is_reversed :
  forall JSON_parse : string -> completion value,
    validateWorkerOverload JSON_parse (VArr [worker "W1" [1] 3]) = Normal []
    /\ validateWorkerOverload JSON_parse (VArr [worker "W2" [1; 2; 3] 1])
       = Normal [worker_overload (VStr "W2") (VNum 3) 1 0].
Proof.
  intros JSON_parse. split; reflexivity.
Qed.



(** *** Entity arguments that are not arrays *)

Lemma validateDuplicateIds_not_array :
  forall data entityType idField,
    isArray data = false ->
    exists e, validateDuplicateIds data entityType idField = Throw e.
Proof.
  intros data entityType idField H. unfold validateDuplicateIds.
  destruct data; try discriminate; simpl; eexists; reflexivity.
Qed.

Lemma validateStructural_not_array :
  forall JSON_parse clientsData workersData tasksData,
    isArray clientsData = false \/ isArray workersData = false
    \/ isArray tasksData = false ->
    exists e, validateStructural JSON_parse clientsData workersData tasksData
              = Throw e.
Proof.
  intros JSON_parse c w t H. unfold validateStructural.
  destruct (validateRequiredColumns c "clients") as [e1|x]; simpl;
    [|eexists; reflexivity].
  destruct (validateRequiredColumns w "workers") as [e2|x]; simpl;
    [|eexists; reflexivity].
  destruct (validateRequiredColumns t "tasks") as [e3|x]; simpl;
    [|eexists; reflexivity].
  destruct (validateDuplicateIds c "clients" "ClientID") as [e4|x] eqn:E4; simpl;
    [|eexists; reflexivity].
  destruct (validateDuplicateIds w "workers" "WorkerID") as [e5|x] eqn:E5; simpl;
    [|eexists; reflexivity].
  destruct (validateDuplicateIds t "tasks" "TaskID") as [e6|x] eqn:E6; simpl;
    [|eexists; reflexivity].
  exfalso. destruct H as [H | [H | H]].
  - destruct (validateDuplicateIds_not_array c "clients" "ClientID" H) as [e He].
    congruence.
  - destruct (validateDuplicateIds_not_array w "workers" "WorkerID" H) as [e He].
    congruence.
  - destruct (validateDuplicateIds_not_array t "tasks" "TaskID" H) as [e He].
    congruence.
Qed.

Lemma validateAllData_not_array :
  forall JSON_parse now clientsData workersData tasksData rules,
    isArray clientsData = false \/ isArray workersData = false
    \/ isArray tasksData = false ->
    validateAllData JSON_parse now clientsData workersData tasksData rules
    = system_error_result now.
Proof.
  intros JSON_parse now c w t r H. unfold validateAllData, run_stages.
  destruct (validateStructural_not_array JSON_parse c w t H) as [e He].
  rewrite He. reflexivity.
Qed.

(** Whatever it is given, [validateAllData] returns either the
    aggregate of the four stages or the system-error result. *)
Lemma validateAllData_cases :
  forall JSON_parse now clientsData workersData tasksData rules,
    (exists results,
        validateAllData JSON_parse now clientsData workersData tasksData rules
        = aggregateResults now results)
    \/ validateAllData JSON_parse now clientsData workersData tasksData rules
       = system_error_result now.
Proof.
  intros JSON_parse now c w t r. unfold validateAllData.
  destruct (run_stages JSON_parse c w t _) as [results|e];
    [left; exists results; reflexivity | right; reflexivity].
Qed.

(** *** Entity arrays that hold [null] or [undefined] *)

Lemma forEach_from_throws :
  forall (A S : Type) (body : S -> A -> nat -> completion S) (x : A) (l : list A),
    (forall s i, exists e, body s x i = Throw e) ->
    In x l ->
    forall i s, exists e, forEach_from body l i s = Throw e.
Proof.
  intros A S body x l Hx. induction l as [|y l IH]; intros Hin i s; [contradiction|].
  cbn [forEach_from].
  destruct (body s y i) as [s'|e] eqn:E; cbn [bind]; [|eexists; reflexivity].
  destruct Hin as [-> | Hin].
  - destruct (Hx s i) as [e He]. congruence.
  - apply IH. exact Hin.
Qed.

Lemma get_nullish : forall v k, nullish v = true -> exists e, get v k = Throw e.
Proof.
  intros v k H. destruct v; try discriminate; eexists; reflexivity.
Qed.

Lemma validateDuplicateIds_nullish :
  forall items v entityType idField,
    In v items -> nullish v = true ->
    exists e, validateDuplicateIds (VArr items) entityType idField = Throw e.
Proof.
  intros items v entityType idField Hin Hv. unfold validateDuplicateIds.
  cbn [array_method bind]. unfold forEach.
  destruct (forEach_from_throws _ _ (note_id idField) v items) with (i := 0%nat)
    (s := (@nil value, @nil value)) as [e He].
  - intros [seen dups] i. unfold note_id.
    destruct (get_nullish v idField Hv) as [e He]. rewrite He.
    eexists. reflexivity.
  - exact Hin.
  - rewrite He. eexists. reflexivity.
Qed.

Lemma validateStructural_nullish :
  forall JSON_parse clientsData workersData tasksData items v,
    clientsData = VArr items \/ workersData = VArr items \/ tasksData = VArr items ->
    In v items -> nullish v = true ->
    exists e, validateStructural JSON_parse clientsData workersData tasksData
              = Throw e.
Proof.
  intros JSON_parse c w t items v H Hin Hv. unfold validateStructural.
  destruct (validateRequiredColumns c "clients") as [e1|x]; simpl;
    [|eexists; reflexivity].
  destruct (validateRequiredColumns w "workers") as [e2|x]; simpl;
    [|eexists; reflexivity].
  destruct (validateRequiredColumns t "tasks") as [e3|x]; simpl;
    [|eexists; reflexivity].
  destruct (validateDuplicateIds c "clients" "ClientID") as [e4|x] eqn:E4; simpl;
    [|eexists; reflexivity].
  destruct (validateDuplicateIds w "workers" "WorkerID") as [e5|x] eqn:E5; simpl;
    [|eexists; reflexivity].
  destruct (validateDuplicateIds t "tasks" "TaskID") as [e6|x] eqn:E6; simpl;
    [|eexists; reflexivity].
  exfalso. destruct H as [-> | [-> | ->]].
  - destruct (validateDuplicateIds_nullish items v "clients" "ClientID" Hin Hv)
      as [e He]. congruence.
  - destruct (validateDuplicateIds_nullish items v "workers" "WorkerID" Hin Hv)
      as [e He]. congruence.
  - destruct (validateDuplicateIds_nullish items v "tasks" "TaskID" Hin Hv)
      as [e He]. congruence.
Qed.

Lemma validateAllData_nullish :
  forall JSON_parse now clientsData workersData tasksData rules items v,
    clientsData = VArr items \/ workersData = VArr items \/ tasksData = VArr items ->
    In v items -> nullish v = true ->
    validateAllData JSON_parse now clientsData workersData tasksData rules
    = system_error_result now.
Proof.
  intros JSON_parse now c w t r items v H Hin Hv. unfold validateAllData, run_stages.
  destruct (validateStructural_nullish JSON_parse c w t items v H Hin Hv) as [e He].
  rewrite He. reflexivity.
Qed.

(** *** Faults raised by the rules *)

Lemma aggregateResults_not_system_error :
  forall now results, aggregateResults now results <> system_error_result now.
Proof.
  intros now results H.
  apply (f_equal (fun r => validationTypes (result_summary r))) in H.
  discriminate H.
Qed.

(** Whether [validateOperational] faults does not depend on the rules:
    what goes wrong inside [detectCircularCoRuns] stays there. *)
Lemma validateOperational_rules :
  forall c w t rules,
    (exists e, validateOperational c w t rules = Throw e)
    <-> (exists e, validateMaxConcurrency t w = Throw e).
Proof.
  intros c w t rules. unfold validateOperational.
  destruct (validateMaxConcurrency t w) as [e1|x]; cbn [bind].
  - split; intros [e He]; [|discriminate He]. exfalso.
    destruct (truthy rules) eqn:Et; [|discriminate He].
    assert (Hn : nullish rules = false) by (destruct rules; try reflexivity; discriminate).
    rewrite (JSFacts.get_prop rules "length" Hn) in He. cbn [bind] in He.
    destruct (greater_than (prop rules "length") (VNum 0)); discriminate He.
  - split; intros _; eexists; reflexivity.
Qed.

Lemma run_stages_rules :
  forall JSON_parse c w t rules rules',
    (exists e, run_stages JSON_parse c w t rules = Throw e) ->
    exists e, run_stages JSON_parse c w t rules' = Throw e.
Proof.
  intros JSON_parse c w t rules rules' [e He]. unfold run_stages in *.
  destruct (validateStructural JSON_parse c w t) as [s|x]; cbn [bind] in *;
    [|eexists; reflexivity].
  destruct (validateReferential c w t) as [r|x]; cbn [bind] in *;
    [|eexists; reflexivity].
  destruct (validateBusinessLogic JSON_parse c w t) as [b|x]; cbn [bind] in *;
    [|eexists; reflexivity].
  assert (Ho : exists e', validateOperational c w t rules = Throw e').
  { destruct (validateOperational c w t rules) as [o|x]; cbn [bind] in He;
      [discriminate He | eexists; reflexivity]. }
  apply validateOperational_rules in Ho.
  apply (validateOperational_rules c w t rules') in Ho. destruct Ho as [e' Ho].
  rewrite Ho. eexists. reflexivity.
Qed.

Lemma validateAllData_rules :
  forall JSON_parse now c w t rules rules',
    validateAllData JSON_parse now c w t rules = system_error_result now ->
    validateAllData JSON_parse now c w t rules' = system_error_result now.
Proof.
  intros JSON_parse now c w t rules rules' H. unfold validateAllData in *.
  cbv zeta in *.
  match type of H with
  | match run_stages _ _ _ _ ?r with _ => _ end = _ =>
      destruct (run_stages JSON_parse c w t r) as [results|e] eqn:E
  end.
  - exfalso. exact (aggregateResults_not_system_error now results H).
  - match goal with
    | |- match run_stages _ _ _ _ ?r' with _ => _ end = _ =>
        destruct (run_stages_rules JSON_parse c w t _ r'
                    (ex_intro _ e E)) as [e' He']
    end.
    rewrite He'. reflexivity.
Qed.

End EnhancedFacts.

(* ================================================================== *)
(** * Part IX.  Properties of the validation service                     *)
(* ================================================================== *)

Module ValidationFacts.

Import JS Records Duplicates ValidationService SpecExamples JSFacts.
Local Open Scope js_scope.

(** *** Lists of errors that only grow *)

Lemma grows_refl : forall (A : Type) (l : list A), grows l l.
Proof. intros A l. exists []. rewrite app_nil_r. reflexivity. Qed.

Lemma grows_trans : forall (A : Type) (l1 l2 l3 : list A),
    grows l1 l2 -> grows l2 l3 -> grows l1 l3.
Proof.
  intros A l1 l2 l3 [s1 ->] [s2 ->]. exists (s1 ++ s2)%list.
  rewrite app_assoc. reflexivity.
Qed.

Lemma grows_push : forall (A : Type) (l l' : list A) x,
    grows l l' -> grows l (push l' x).
Proof.
  intros A l l' x H. eapply grows_trans; [exact H|]. exists [x]. reflexivity.
Qed.

Lemma grows_if_push : forall (A : Type) (l l' : list A) (c : bool) x,
    grows l l' -> grows l (if c then push l' x else l').
Proof.
  intros A l l' c x H. destruct c; [apply grows_push; exact H | exact H].
Qed.

Lemma grows_app : forall (A : Type) (l l' s : list A),
    grows l l' -> grows l (l' ++ s)%list.
Proof.
  intros A l l' s H. eapply grows_trans; [exact H|]. exists s. reflexivity.
Qed.

Lemma grows_In : forall (A : Type) (l l' : list A) x,
    grows l l' -> In x l -> In x l'.
Proof.
  intros A l l' x [s ->] H. apply in_or_app. left. exact H.
Qed.

Lemma grows_fold_if_push :
  forall (A B : Type) (c : B -> bool) (x : B -> A) (items : list B) (l l' : list A),
    grows l l' ->
    grows l (fold_left (fun errors t => if c t then push errors (x t) else errors)
                       items l').
Proof.
  intros A B c x items. induction items as [|t items IH]; intros l l' H; simpl.
  - exact H.
  - apply IH. apply grows_if_push. exact H.
Qed.

(** *** Required fields *)

Lemma validateRequiredFields_record :
  forall record required rowIndex,
    nullish record = false ->
    validateRequiredFields record required rowIndex
    = Normal (fold_left
                (fun errors fieldName =>
                   if negb (truthy (prop record fieldName))
                      || is_string "" (prop record fieldName)
                   then push errors (missing_field rowIndex fieldName)
                   else errors) required []).
Proof.
  intros record required rowIndex H. unfold validateRequiredFields, forEach.
  apply forEach_from_pure. intros errors fieldName i _.
  rewrite (get_prop record fieldName H). cbn [bind].
  destruct (negb (truthy (prop record fieldName))
            || is_string "" (prop record fieldName)); reflexivity.
Qed.

Lemma missing_field_reported :
  forall record rowIndex fieldName required acc,
    In fieldName required ->
    truthy (prop record fieldName) = false ->
    In (missing_field rowIndex fieldName)
       (fold_left
          (fun errors fieldName =>
             if negb (truthy (prop record fieldName))
                || is_string "" (prop record fieldName)
             then push errors (missing_field rowIndex fieldName)
             else errors) required acc).
Proof.
  intros record rowIndex fieldName required.
  induction required as [|f required IH]; intros acc Hin Hfalsy; [contradiction|].
  simpl. destruct Hin as [-> | Hin].
  - rewrite Hfalsy. simpl.
    eapply grows_In.
    + apply (grows_fold_if_push verror string
               (fun f => negb (truthy (prop record f)) || is_string "" (prop record f))
               (fun f => missing_field rowIndex f)).
      apply grows_refl.
    + unfold push. apply in_or_app. right. left. reflexivity.
  - apply IH; assumption.
Qed.

(** *** One worker record *)

Lemma check_duplicate_grows :
  forall idField rowIndex ident ids errors,
    grows errors (snd (check_duplicate idField rowIndex ident ids errors)).
Proof.
  intros idField rowIndex ident ids errors. unfold check_duplicate.
  destruct (truthy ident); simpl; [|apply grows_refl].
  apply grows_if_push. apply grows_refl.
Qed.

Ltac grow :=
  repeat first
    [ apply grows_refl
    | apply grows_if_push
    | apply grows_push
    | match goal with
      | |- grows _ (match ?c with _ => _ end) => destruct c
      end ].

Lemma validateWorker_record :
  forall JSON_parse ids errors worker i,
    nullish worker = false ->
    exists st',
      validateWorker JSON_parse (ids, errors) worker i = Normal st'
      /\ forall e,
           In e errors
           \/ (exists fieldName,
                  e = missing_field (Z.of_nat i + 1) fieldName
                  /\ In fieldName requiredFields_workers
                  /\ truthy (prop worker fieldName) = false) ->
           In e (snd st').
Proof.
  intros JSON_parse ids errors worker i H. unfold validateWorker.
  rewrite (validateRequiredFields_record worker _ _ H). cbn [bind].
  rewrite !(get_prop worker _ H). cbn [bind].
  match goal with
  | |- context [check_duplicate ?f ?r ?x ?s ?e] =>
      pose proof (check_duplicate_grows f r x s e) as Hdup;
      destruct (check_duplicate f r x s e) as [ids1 errs1]
  end.
  cbn [snd] in Hdup.
  eexists. split; [reflexivity|]. cbn [snd].
  intros e He.
  match goal with
  | |- In e ?E => assert (Hg : grows errs1 E) by grow
  end.
  eapply grows_In; [exact Hg|]. eapply grows_In; [exact Hdup|].
  apply in_or_app.
  destruct He as [He | [f [-> [Hin Hf]]]];
    [left; exact He | right; apply missing_field_reported; assumption].
Qed.

Lemma validateWorkers_loop :
  forall JSON_parse workers i st,
    records workers ->
    exists st',
      forEach_from (validateWorker JSON_parse) workers i st = Normal st'
      /\ forall e,
           In e (snd st)
           \/ (exists k worker fieldName,
                  nth_error workers k = Some worker
                  /\ e = missing_field (Z.of_nat (i + k) + 1) fieldName
                  /\ In fieldName requiredFields_workers
                  /\ truthy (prop worker fieldName) = false) ->
           In e (snd st').
Proof.
  intros JSON_parse workers. induction workers as [|w workers IH];
    intros i st Hrec; simpl.
  - exists st. split; [reflexivity|]. intros e [He | [k [x [f [Hk _]]]]];
      [exact He | destruct k; discriminate].
  - inversion Hrec as [|? ? Hw Hrec']. subst.
    destruct st as [ids errors].
    destruct (validateWorker_record JSON_parse ids errors w i Hw) as [st1 [E1 H1]].
    rewrite E1. cbn [bind].
    destruct (IH (S i) st1 Hrec') as [st2 [E2 H2]].
    exists st2. split; [exact E2|].
    intros e [He | [k [x [f [Hk [-> [Hin Hf]]]]]]].
    + apply H2. left. apply H1. left. exact He.
    + destruct k as [|k]; simpl in Hk.
      * inversion Hk. subst x. apply H2. left. apply H1. right.
        exists f. rewrite Nat.add_0_r. auto.
      * apply H2. right. exists k, x, f.
        replace (S i + k)%nat with (i + S k)%nat by lia. auto.
Qed.

(** Every required field of a worker record that holds a falsy value is
    reported as missing by [validateWorkers]. *)
Lemma validateWorkers_missing :
  forall JSON_parse workers k worker fieldName,
    records workers ->
    nth_error workers k = Some worker ->
    In fieldName requiredFields_workers ->
    truthy (prop worker fieldName) = false ->
    exists errs,
      validateWorkers JSON_parse workers = Normal errs
      /\ In (missing_field (Z.of_nat k + 1) fieldName) errs.
Proof.
  intros JSON_parse workers k worker fieldName Hrec Hk Hin Hf.
  unfold validateWorkers, forEach.
  destruct (validateWorkers_loop JSON_parse workers 0 ([], []) Hrec) as [st [E H]].
  rewrite E. cbn [bind]. exists (snd st). split; [reflexivity|].
  apply H. right. exists k, worker, fieldName. auto.
Qed.

(** C10.  A worker record whose [MaxLoadPerPhase] is the number 0 is
    reported with a [MissingField] error for [MaxLoadPerPhase], at its
    row: by [validateWorkers] on any list of worker records, and by
    [validateRecords] called on the workers without a data store when
    the cache holds no result.  The required-field check takes every
    falsy value for an absent one. *)
Theorem C10_zero_MaxLoadPerPhase_reported_missing :
  forall (JSON_parse : string -> completion value) (workers : list value)
         (k : nat) (worker : value),
    records workers ->
    nth_error workers k = Some worker ->
    prop worker "MaxLoadPerPhase" = VNum 0 ->
    (exists errs,
        validateWorkers JSON_parse workers = Normal errs
        /\ In (missing_field (Z.of_nat k + 1) "MaxLoadPerPhase") errs)
    /\ (forall cache,
          cache_hit cache = None ->
          exists errs,
            validateRecords JSON_parse cache (VArr workers) (VStr "workers")
                            VUndefined = Errors errs
            /\ In (missing_field (Z.of_nat k + 1) "MaxLoadPerPhase") errs).
Proof.
  intros JSON_parse workers k worker Hrec Hk Hzero.
  destruct (validateWorkers_missing JSON_parse workers k worker "MaxLoadPerPhase"
              Hrec Hk) as [errs [E Hin]].
  - simpl. tauto.
  - rewrite Hzero. reflexivity.
  - split; [exists errs; split; assumption|].
    intros cache Hmiss. exists errs. split; [|exact Hin].
    unfold validateRecords. fold (cache_hit cache). rewrite Hmiss.
    unfold validate_entity. cbn [is_string String.eqb Ascii.eqb Bool.eqb].
    rewrite E. reflexivity.
Qed.

Lemma C10_zero_MaxLoadPerPhase_witness :
  (exists errs,
      validateWorkers no_JSON [worker "W1" [1; 2] 0] = Normal errs
      /\ In (missing_field (Z.of_nat 0 + 1) "MaxLoadPerPhase") errs)
  /\ (forall cache,
        cache_hit cache = None ->
        exists errs,
          validateRecords no_JSON cache (VArr [worker "W1" [1; 2] 0])
                          (VStr "workers") VUndefined = Errors errs
          /\ In (missing_field (Z.of_nat 0 + 1) "MaxLoadPerPhase") errs).
Proof.
  apply (C10_zero_MaxLoadPerPhase_reported_missing no_JSON
           [worker "W1" [1; 2] 0] 0 (worker "W1" [1; 2] 0)).
  - repeat constructor.
  - reflexivity.
  - reflexivity.
Defined.

(** *** Errors that are not [DuplicateID] errors *)

Lemma filter_push_other :
  forall (P : verror -> bool) errors x,
    P x = false -> filter P (push errors x) = filter P errors.
Proof.
  intros P errors x H. unfold push. rewrite filter_app. simpl. rewrite H.
  apply app_nil_r.
Qed.

Lemma filter_if_push_other :
  forall (P : verror -> bool) errors (c : bool) x,
    P x = false ->
    filter P (if c then push errors x else errors) = filter P errors.
Proof.
  intros P errors c x H. destruct c; [apply filter_push_other; exact H | reflexivity].
Qed.

Lemma filter_fold_other :
  forall (B : Type) (P : verror -> bool) (c : B -> bool) (x : B -> verror)
         (items : list B) errors,
    (forall t, P (x t) = false) ->
    filter P (fold_left (fun errors t => if c t then push errors (x t) else errors)
                        items errors)
    = filter P errors.
Proof.
  intros B P c x items. induction items as [|t items IH]; intros errors H; simpl.
  - reflexivity.
  - rewrite IH by exact H. apply filter_if_push_other. apply H.
Qed.

Lemma filter_push :
  forall (P : verror -> bool) errors x,
    filter P (push errors x) = (filter P errors ++ (if P x then [x] else []))%list.
Proof.
  intros P errors x. unfold push. rewrite filter_app. simpl.
  destruct (P x); reflexivity.
Qed.

Ltac drop_other_errors :=
  repeat first
    [ rewrite filter_if_push_other by reflexivity
    | rewrite filter_push_other by reflexivity
    | rewrite filter_fold_other by (intros; reflexivity)
    | match goal with
      | |- context [filter _ (match ?c with _ => _ end)] => destruct c
      end ].

(** *** One client record *)

Lemma validateClient_record :
  forall JSON_parse taskIds ids errors client i,
    nullish client = false ->
    exists st',
      validateClient JSON_parse taskIds (ids, errors) client i = Normal st'
      /\ fst st' = (if truthy (prop client "ClientID")
                    then set_add (prop client "ClientID") ids else ids)
      /\ filter is_duplicate_error (snd st')
         = (filter is_duplicate_error errors
              ++ (if truthy (prop client "ClientID")
                     && set_has (prop client "ClientID") ids
                  then [duplicate_error "ClientID" (Z.of_nat i + 1)
                                        (prop client "ClientID")]
                  else []))%list.
Proof.
  intros JSON_parse taskIds ids errors client i H. unfold validateClient.
  rewrite (validateRequiredFields_record client _ _ H). cbn [bind].
  rewrite !(get_prop client _ H). cbn [bind].
  unfold check_duplicate.
  destruct (truthy (prop client "ClientID")) eqn:Et;
    (eexists; split; [reflexivity|]; cbn [fst snd]; split; [reflexivity|]).
  - drop_other_errors;
      rewrite ?filter_push, ?filter_app;
      rewrite ?filter_fold_other by (intros; reflexivity);
      simpl; rewrite ?app_nil_r; reflexivity.
  - drop_other_errors;
      rewrite ?filter_push, ?filter_app;
      rewrite ?filter_fold_other by (intros; reflexivity);
      simpl; rewrite ?app_nil_r; reflexivity.
Qed.

Lemma validateClients_loop :
  forall JSON_parse taskIds clients i ids errors,
    records clients ->
    exists st',
      forEach_from (validateClient JSON_parse taskIds) clients i (ids, errors)
      = Normal st'
      /\ filter is_duplicate_error (snd st')
         = (filter is_duplicate_error errors
              ++ expected_duplicates "ClientID" ids (client_ids clients) i)%list.
Proof.
  intros JSON_parse taskIds clients.
  induction clients as [|c clients IH]; intros i ids errors Hrec;
    cbn [forEach_from].
  - eexists. split; [reflexivity|]. simpl. rewrite app_nil_r. reflexivity.
  - inversion Hrec as [|? ? Hc Hrec']. subst.
    destruct (validateClient_record JSON_parse taskIds ids errors c i Hc)
      as [[ids1 errs1] [E1 [Hids Herrs]]].
    rewrite E1. cbn [bind]. cbn [fst snd] in Hids, Herrs.
    destruct (IH (S i) ids1 errs1 Hrec') as [st2 [E2 H2]].
    exists st2. split; [exact E2|]. rewrite H2, Herrs, Hids.
    cbn [client_ids map expected_duplicates].
    destruct (truthy (prop c "ClientID")); cbn [andb].
    + rewrite <- app_assoc. reflexivity.
    + rewrite app_nil_r. reflexivity.
Qed.

(** The [DuplicateID] errors of [validateClients], in the order they are
    reported. *)
Lemma validateClients_duplicates :
  forall JSON_parse clients tasks,
    records clients -> records tasks ->
    exists errs,
      validateClients JSON_parse clients (VArr tasks) = Normal errs
      /\ filter is_duplicate_error errs
         = expected_duplicates "ClientID" [] (client_ids clients) 0.
Proof.
  intros JSON_parse clients tasks Hc Ht. unfold validateClients.
  cbn [array_method bind].
  rewrite (array_map_pure _ _ _ (fun t => prop t "TaskID")).
  - cbn [bind]. unfold forEach.
    destruct (validateClients_loop JSON_parse
                (ValidationService.Set_of (map (fun t => prop t "TaskID") tasks))
                clients 0 [] [] Hc) as [st [E H]].
    rewrite E. cbn [bind]. exists (snd st). split; [reflexivity | exact H].
  - intros t Hin. unfold records in Ht. rewrite Forall_forall in Ht.
    apply get_prop. apply Ht. exact Hin.
Qed.

(** *** Counting the expected duplicates *)

Lemma value_set_has_In : forall x s, set_has x s = true <-> In x s.
Proof.
  intros x s. apply (GraphFacts.set_has_In value value_eqb value_eqb_spec).
Qed.

Lemma value_set_add_In : forall x y s, In y (set_add x s) <-> y = x \/ In y s.
Proof.
  intros x y s. apply (GraphFacts.set_add_In value value_eqb value_eqb_spec).
Qed.

Lemma set_has_add : forall x y s,
    set_has y (set_add x s) = value_eqb y x || set_has y s.
Proof.
  intros x y s. destruct (set_has y (set_add x s)) eqn:E.
  - apply value_set_has_In, value_set_add_In in E. symmetry.
    apply orb_true_iff. destruct E as [-> | E].
    + left. apply value_eqb_refl.
    + right. apply value_set_has_In. exact E.
  - symmetry. apply orb_false_iff. split.
    + destruct (value_eqb y x) eqn:Eq; [|reflexivity].
      apply value_eqb_spec in Eq. subst y.
      assert (H : set_has x (set_add x s) = true)
        by (apply value_set_has_In, value_set_add_In; left; reflexivity).
      congruence.
    + destruct (set_has y s) eqn:Es; [|reflexivity].
      assert (H : set_has y (set_add x s) = true).
      { apply value_set_has_In, value_set_add_In. right.
        apply value_set_has_In. exact Es. }
      congruence.
Qed.

Lemma value_eqb_sym : forall a b, value_eqb a b = value_eqb b a.
Proof.
  intros a b. destruct (value_eqb a b) eqn:E.
  - apply value_eqb_spec in E. subst. symmetry. apply value_eqb_refl.
  - destruct (value_eqb b a) eqn:E'; [|reflexivity].
    apply value_eqb_spec in E'. subst. rewrite value_eqb_refl in E. discriminate.
Qed.

Lemma id_at_row_duplicate_error :
  forall idField (prefix : list value) x r,
    id_at_row (prefix ++ x :: r)%list
              (duplicate_error idField (Z.of_nat (List.length prefix) + 1) x)
    = x.
Proof.
  intros idField prefix x r. unfold id_at_row, duplicate_error, report. cbn [row].
  replace (Z.to_nat (Z.of_nat (List.length prefix) + 1 - 1))
    with (List.length prefix) by lia.
  rewrite app_nth2 by lia. rewrite Nat.sub_diag. reflexivity.
Qed.

Lemma expected_duplicates_count :
  forall idField ident all,
    truthy ident = true ->
    forall ids seen prefix,
      all = (prefix ++ ids)%list ->
      List.length (duplicates_of ident all
                     (expected_duplicates idField seen ids (List.length prefix)))
      = (occurrences ident ids - (if set_has ident seen then 0 else 1))%nat.
Proof.
  intros idField ident all Ht ids.
  induction ids as [|x r IH]; intros seen prefix Hall.
  - simpl. destruct (set_has ident seen); reflexivity.
  - assert (Hall' : all = ((prefix ++ [x]) ++ r)%list)
      by (rewrite <- app_assoc; exact Hall).
    assert (Hlen : List.length (prefix ++ [x])%list = S (List.length prefix))
      by (rewrite length_app; simpl; lia).
    cbn [expected_duplicates]. unfold occurrences. cbn [filter].
    fold (occurrences ident r).
    destruct (truthy x) eqn:Etx.
    + unfold duplicates_of. rewrite filter_app, length_app.
      fold (duplicates_of ident all
              (expected_duplicates idField (set_add x seen) r (S (List.length prefix)))).
      rewrite <- Hlen. rewrite (IH (set_add x seen) (prefix ++ [x])%list Hall').
      rewrite set_has_add.
      destruct (value_eqb ident x) eqn:Eix.
      * apply value_eqb_spec in Eix. subst x. cbn [orb List.length].
        destruct (set_has ident seen) eqn:Es.
        -- cbn [filter]. rewrite Hall, id_at_row_duplicate_error, value_eqb_refl.
           unfold occurrences; simpl; lia.
        -- unfold occurrences; simpl; lia.
      * cbn [orb].
        destruct (set_has x seen).
        -- cbn [filter]. rewrite Hall, id_at_row_duplicate_error.
           rewrite value_eqb_sym, Eix. unfold occurrences; simpl; lia.
        -- unfold occurrences; simpl; lia.
    + assert (Eix : value_eqb ident x = false).
      { destruct (value_eqb ident x) eqn:E; [|reflexivity].
        apply value_eqb_spec in E. subst x. congruence. }
      rewrite Eix. rewrite <- Hlen.
      apply (IH seen (prefix ++ [x])%list Hall').
Qed.

Lemma expected_duplicates_rows :
  forall idField ids seen i e,
    In e (expected_duplicates idField seen ids i) ->
    exists j x,
      nth_error ids j = Some x
      /\ row e = Z.of_nat (i + j) + 1
      /\ (In x seen \/ exists j', (j' < j)%nat /\ nth_error ids j' = Some x).
Proof.
  intros idField ids. induction ids as [|x r IH]; intros seen i e Hin;
    cbn [expected_duplicates] in Hin; [contradiction|].
  assert (Hrest : forall seen',
             (forall y, In y seen' -> y = x \/ In y seen) ->
             In e (expected_duplicates idField seen' r (S i)) ->
             exists j y,
               nth_error (x :: r) j = Some y
               /\ row e = Z.of_nat (i + j) + 1
               /\ (In y seen \/ exists j', (j' < j)%nat
                                          /\ nth_error (x :: r) j' = Some y)).
  { intros seen' Hseen' H. destruct (IH seen' (S i) e H) as [j [y [Hj [Hrow Hy]]]].
    exists (S j), y. split; [exact Hj|].
    split; [rewrite Hrow; f_equal; lia|].
    destruct Hy as [Hy | [j' [Hlt Hj']]].
    - destruct (Hseen' y Hy) as [-> | Hy'].
      + right. exists 0%nat. split; [lia | reflexivity].
      + left. exact Hy'.
    - right. exists (S j'). split; [lia | exact Hj']. }
  destruct (truthy x).
  - apply in_app_or in Hin. destruct Hin as [Hin | Hin].
    + destruct (set_has x seen) eqn:Es; [|contradiction].
      destruct Hin as [<- | []].
      exists 0%nat, x. split; [reflexivity|].
      split; [cbn [row duplicate_error report]; f_equal; lia|].
      left. apply value_set_has_In. exact Es.
    + apply (Hrest (set_add x seen)); [|exact Hin].
      intros y Hy. apply value_set_add_In in Hy. exact Hy.
  - apply (Hrest seen); [|exact Hin]. intros y Hy. right. exact Hy.
Qed.

Lemma duplicates_of_filter :
  forall ident ids errs,
    duplicates_of ident ids errs
    = duplicates_of ident ids (filter is_duplicate_error errs).
Proof.
  intros ident ids errs. unfold duplicates_of.
  induction errs as [|e errs IH]; simpl; [reflexivity|].
  destruct (is_duplicate_error e) eqn:E; simpl; rewrite ?E; simpl;
    [destruct (value_eqb (id_at_row ids e) ident); simpl; rewrite IH; reflexivity
    | exact IH].
Qed.

(** *** The rows of the duplicate errors *)

Lemma filter_and_filter :
  forall (A : Type) (p q : A -> bool) (l : list A),
    filter (fun e => p e && q e) l = filter (fun e => p e && q e) (filter p l).
Proof.
  intros A p q l. induction l as [|e l IH]; simpl; [reflexivity|].
  destruct (p e) eqn:E; simpl; rewrite ?E; simpl;
    [destruct (q e); rewrite IH; reflexivity | exact IH].
Qed.

Lemma expected_duplicates_later :
  forall idField ids seen i k,
    (k <= i)%nat ->
    filter (fun e => is_duplicate_error e && (row e =? Z.of_nat k))
           (expected_duplicates idField seen ids i) = [].
Proof.
  intros idField ids seen i k Hk.
  destruct (filter _ (expected_duplicates idField seen ids i)) as [|e l] eqn:E;
    [reflexivity|]. exfalso.
  assert (He : In e (filter (fun e => is_duplicate_error e && (row e =? Z.of_nat k))
                            (expected_duplicates idField seen ids i)))
    by (rewrite E; left; reflexivity).
  apply filter_In in He. destruct He as [He Hrow].
  apply andb_true_iff in Hrow. destruct Hrow as [_ Hrow]. apply Z.eqb_eq in Hrow.
  destruct (expected_duplicates_rows _ _ _ _ _ He) as [j [x [_ [Hr _]]]]. lia.
Qed.

Lemma set_has_app : forall x s t, set_has x (s ++ t)%list = set_has x s || set_has x t.
Proof. intros x s t. unfold set_has. apply existsb_app. Qed.

Lemma expected_duplicates_at :
  forall idField ids seen i j x,
    nth_error ids j = Some x ->
    filter (fun e => is_duplicate_error e && (row e =? Z.of_nat (i + j) + 1))
           (expected_duplicates idField seen ids i)
    = if truthy x && set_has x (seen ++ firstn j ids)%list
      then [duplicate_error idField (Z.of_nat (i + j) + 1) x]
      else [].
Proof.
  intros idField ids. induction ids as [|y r IH]; intros seen i j x Hj.
  - destruct j; discriminate Hj.
  - cbn [expected_duplicates]. destruct j as [|j].
    + inversion Hj. subst y. cbn [firstn]. rewrite app_nil_r, Nat.add_0_r.
      assert (Hrest : forall seen',
                 filter (fun e => is_duplicate_error e
                                  && (row e =? Z.of_nat i + 1))
                        (expected_duplicates idField seen' r (S i)) = []).
      { intros seen'.
        replace (Z.of_nat i + 1) with (Z.of_nat (S i)) by lia.
        apply expected_duplicates_later. lia. }
      destruct (truthy x); cbn [andb]; [|apply Hrest].
      rewrite filter_app, Hrest, app_nil_r.
      destruct (set_has x seen); [|reflexivity].
      cbn [filter duplicate_error report row is_duplicate_error type].
      rewrite Z.eqb_refl. reflexivity.
    + cbn [nth_error] in Hj. cbn [firstn].
      replace (Z.of_nat (i + S j) + 1) with (Z.of_nat (S i + j) + 1) by lia.
      assert (Hhead : forall d : bool,
                 filter (fun e => is_duplicate_error e
                                  && (row e =? Z.of_nat (S i + j) + 1))
                        (if d then [duplicate_error idField (Z.of_nat i + 1) y]
                         else []) = []).
      { intros [|]; [|reflexivity].
        cbn [filter duplicate_error report row is_duplicate_error type].
        replace (Z.of_nat i + 1 =? Z.of_nat (S i + j) + 1) with false
          by (symmetry; apply Z.eqb_neq; lia).
        rewrite andb_false_r. reflexivity. }
      destruct (truthy y) eqn:Ety.
      * rewrite filter_app, Hhead, app_nil_l.
        rewrite (IH (set_add y seen) (S i) j x Hj).
        rewrite !set_has_app, set_has_add. cbn [set_has existsb].
        fold (set_has x (firstn j r)).
        destruct (truthy x), (value_eqb x y), (set_has x seen),
          (set_has x (firstn j r)); reflexivity.
      * rewrite (IH seen (S i) j x Hj).
        rewrite !set_has_app. cbn [set_has existsb].
        fold (set_has x (firstn j r)).
        destruct (truthy x) eqn:Etx; [|reflexivity].
        assert (Exy : value_eqb x y = false).
        { destruct (value_eqb x y) eqn:Exy; [|reflexivity].
          apply value_eqb_spec in Exy. subst y. congruence. }
        rewrite Exy. reflexivity.
Qed.

(** *** Falsy identifiers are reported as missing *)

Lemma validateClient_keeps :
  forall JSON_parse taskIds ids errors client i,
    nullish client = false ->
    exists st',
      validateClient JSON_parse taskIds (ids, errors) client i = Normal st'
      /\ forall e,
           In e errors
           \/ (exists fieldName,
                  e = missing_field (Z.of_nat i + 1) fieldName
                  /\ In fieldName requiredFields_clients
                  /\ truthy (prop client fieldName) = false) ->
           In e (snd st').
Proof.
  intros JSON_parse taskIds ids errors client i H. unfold validateClient.
  rewrite (validateRequiredFields_record client _ _ H). cbn [bind].
  rewrite !(get_prop client _ H). cbn [bind].
  match goal with
  | |- context [check_duplicate ?f ?r ?x ?s ?e] =>
      pose proof (check_duplicate_grows f r x s e) as Hdup;
      destruct (check_duplicate f r x s e) as [ids1 errs1]
  end.
  cbn [snd] in Hdup.
  eexists. split; [reflexivity|]. cbn [snd].
  intros e He.
  match goal with
  | |- In e ?E => assert (Hg : grows errs1 E)
  end.
  { repeat first
      [ apply grows_refl
      | apply grows_if_push
      | apply grows_push
      | apply (grows_fold_if_push verror string
                 (fun taskId => negb (set_has (VStr taskId) taskIds)))
      | match goal with
        | |- grows _ (match ?c with _ => _ end) => destruct c
        end ]. }
  eapply grows_In; [exact Hg|]. eapply grows_In; [exact Hdup|].
  apply in_or_app.
  destruct He as [He | [f [-> [Hin Hf]]]];
    [left; exact He | right; apply missing_field_reported; assumption].
Qed.

Lemma validateClients_keeps_loop :
  forall JSON_parse taskIds clients i st,
    records clients ->
    exists st',
      forEach_from (validateClient JSON_parse taskIds) clients i st = Normal st'
      /\ forall e,
           In e (snd st)
           \/ (exists k client fieldName,
                  nth_error clients k = Some client
                  /\ e = missing_field (Z.of_nat (i + k) + 1) fieldName
                  /\ In fieldName requiredFields_clients
                  /\ truthy (prop client fieldName) = false) ->
           In e (snd st').
Proof.
  intros JSON_parse taskIds clients. induction clients as [|c clients IH];
    intros i st Hrec; simpl.
  - exists st. split; [reflexivity|]. intros e [He | [k [x [f [Hk _]]]]];
      [exact He | destruct k; discriminate].
  - inversion Hrec as [|? ? Hc Hrec']. subst.
    destruct st as [ids errors].
    destruct (validateClient_keeps JSON_parse taskIds ids errors c i Hc)
      as [st1 [E1 H1]].
    rewrite E1. cbn [bind].
    destruct (IH (S i) st1 Hrec') as [st2 [E2 H2]].
    exists st2. split; [exact E2|].
    intros e [He | [k [x [f [Hk [-> [Hin Hf]]]]]]].
    + apply H2. left. apply H1. left. exact He.
    + destruct k as [|k]; simpl in Hk.
      * inversion Hk. subst x. apply H2. left. apply H1. right.
        exists f. rewrite Nat.add_0_r. auto.
      * apply H2. right. exists k, x, f.
        replace (S i + k)%nat with (i + S k)%nat by lia. auto.
Qed.




(** *** The sibling checks of the validation service *)

(** [validateWorkers] reports [WorkerOverload] when the worker has fewer
    slots than [MaxLoadPerPhase], and not when it has more. *)
Remark validateWorkers_overload_when_fewer_slots :
  validateWorkers no_JSON [worker "W1" [1] 3]
    = Normal [report 1 "MaxLoadPerPhase"
                "MaxLoadPerPhase exceeds available slots" "WorkerOverload"]
  /\ validateWorkers no_JSON [worker "W2" [1; 2; 3] 1] = Normal [].
Proof. split; reflexivity. Qed.

(** [validatePhaseSlotSaturation] of the validation service adds up
    [MaxLoadPerPhase]: with load 2 the demand of 3 exceeds the capacity
    2, with load 5 it is covered. *)
Remark validatePhaseSlotSaturation_sums_MaxLoadPerPhase :
  ValidationService.validatePhaseSlotSaturation no_JSON
      (VArr [task_3_in_phase_1_text]) (VArr [worker_with_load 2])
    = Normal [report 0 "PhaseCapacity"
                "Phase 1 oversaturated: demand 3 exceeds capacity 2"
                "LogicalConflict"]
  /\ ValidationService.validatePhaseSlotSaturation no_JSON
        (VArr [task_3_in_phase_1_text]) (VArr [worker_with_load 5])
      = Normal [].
Proof. split; reflexivity. Qed.

(** *** The entry points *)

Lemma validateRecords_not_array :
  forall JSON_parse cache data entityType fullDataStore,
    isArray data = false ->
    validateRecords JSON_parse cache data entityType fullDataStore
    = Errors [invalid_data_format].
Proof.
  intros JSON_parse cache data entityType fullDataStore H.
  destruct data; try discriminate; reflexivity.
Qed.

Lemma validateRecords_fault :
  forall JSON_parse cache records entityType fullDataStore e,
    cache_hit cache = None ->
    validate_entity JSON_parse records entityType
      (match fullDataStore with VUndefined => VObj [] | _ => fullDataStore end)
    = Throw e ->
    validateRecords JSON_parse cache (VArr records) entityType fullDataStore
    = Errors [system_error e].
Proof.
  intros JSON_parse cache records entityType fullDataStore e Hmiss Hthrow.
  unfold validateRecords. fold (cache_hit cache). rewrite Hmiss, Hthrow.
  reflexivity.
Qed.

(** *** Client lists that hold [null] or [undefined] *)

Lemma validateClient_nullish :
  forall JSON_parse taskIds st client i,
    nullish client = true ->
    exists e, validateClient JSON_parse taskIds st client i = Throw e.
Proof.
  intros JSON_parse taskIds [ids errors] client i H.
  destruct client; try discriminate; eexists; reflexivity.
Qed.

Lemma validateClients_nullish :
  forall JSON_parse clients tasks v,
    In v clients -> nullish v = true ->
    exists e, validateClients JSON_parse clients tasks = Throw e.
Proof.
  intros JSON_parse clients tasks v Hin Hv. unfold validateClients.
  destruct (array_method "map" _) as [taskList|x]; cbn [bind];
    [|eexists; reflexivity].
  destruct (array_map _ taskList) as [ids|x]; cbn [bind]; [|eexists; reflexivity].
  unfold forEach.
  destruct (EnhancedFacts.forEach_from_throws _ _
              (validateClient JSON_parse (ValidationService.Set_of ids)) v clients)
    with (i := 0%nat) (s := (@nil value, @nil verror)) as [e He].
  - intros st i. apply validateClient_nullish. exact Hv.
  - exact Hin.
  - rewrite He. eexists. reflexivity.
Qed.

Lemma validateRecords_clients_nullish :
  forall JSON_parse cache records fullDataStore v,
    cache_hit cache = None ->
    In v records -> nullish v = true ->
    exists e,
      validateRecords JSON_parse cache (VArr records) (VStr "clients") fullDataStore
      = Errors [system_error e].
Proof.
  intros JSON_parse cache records store v Hmiss Hin Hv.
  unfold validateRecords. fold (cache_hit cache). rewrite Hmiss.
  unfold validate_entity.
  change (is_string "clients" (VStr "clients")) with true. cbv iota.
  destruct (get _ "tasks") as [storeTasks|x]; cbn [bind];
    [|eexists; reflexivity].
  destruct (validateClients_nullish JSON_parse records
              (or_else storeTasks (VArr [])) v Hin Hv) as [e He].
  rewrite He. cbn [bind]. eexists. reflexivity.
Qed.

(** C7, as amended.  Both entry points answer a malformed input with a
    result, not a fault.  [validateAllData] returns the system-error
    result (in which [isValid] is false and the only finding is the
    system error) when an entity argument is not an array and when an
    entity array holds [null] or [undefined]; but a fault raised by the
    rules never reaches its [catch]: whether the system-error result is
    returned does not depend on the rules.  [validateRecords] answers a
    [data] argument that is not an array with the single [TypeError]
    error, and, when the cache has no answer, a fault of its validators
    with the single [SystemError] error that carries the message of the
    fault, as for a client list that holds [null] or [undefined]. *)
Theorem C7_entry_points_return_findings :
  forall (JSON_parse : string -> completion value) (now : string)
         (cache : cache_reply)
         (clientsData workersData tasksData rules rules' : value)
         (data entityType fullDataStore : value),
    (isArray clientsData = false \/ isArray workersData = false
     \/ isArray tasksData = false ->
     EnhancedValidationService.validateAllData
       JSON_parse now clientsData workersData tasksData rules
     = EnhancedValidationService.system_error_result now)
    /\ (forall items v,
          clientsData = VArr items \/ workersData = VArr items
          \/ tasksData = VArr items ->
          In v items -> nullish v = true ->
          EnhancedValidationService.validateAllData
            JSON_parse now clientsData workersData tasksData rules
          = EnhancedValidationService.system_error_result now)
    /\ (EnhancedValidationService.validateAllData
          JSON_parse now clientsData workersData tasksData rules
        = EnhancedValidationService.system_error_result now
        <-> EnhancedValidationService.validateAllData
              JSON_parse now clientsData workersData tasksData rules'
            = EnhancedValidationService.system_error_result now)
    /\ (isArray data = false ->
        validateRecords JSON_parse cache data entityType fullDataStore
        = Errors [invalid_data_format])
    /\ (forall records e,
          data = VArr records ->
          cache_hit cache = None ->
          validate_entity JSON_parse records entityType
            (match fullDataStore with VUndefined => VObj [] | _ => fullDataStore end)
          = Throw e ->
          validateRecords JSON_parse cache data entityType fullDataStore
          = Errors [system_error e])
    /\ (forall records v,
          data = VArr records ->
          cache_hit cache = None ->
          In v records -> nullish v = true ->
          exists e,
            validateRecords JSON_parse cache data (VStr "clients") fullDataStore
            = Errors [system_error e]).
Proof.
  intros JSON_parse now cache c w t r r' data entityType store.
  split; [apply EnhancedFacts.validateAllData_not_array|].
  split; [intros items v; apply EnhancedFacts.validateAllData_nullish|].
  split; [split; apply EnhancedFacts.validateAllData_rules|].
  split; [apply validateRecords_not_array|].
  split.
  - intros records e -> Hmiss Hthrow. apply validateRecords_fault; assumption.
  - intros records v -> Hmiss Hin Hv.
    eapply validateRecords_clients_nullish; eassumption.
Qed.

Lemma C7_entry_points_witness :
  EnhancedValidationService.validateAllData
    no_JSON "2026-11-02T10:00:00.000Z" (VArr []) (VStr "workers") (VArr []) (VArr [])
  = EnhancedValidationService.system_error_result "2026-11-02T10:00:00.000Z"
  /\ EnhancedValidationService.validateAllData
       no_JSON "2026-11-02T10:00:00.000Z" (VArr []) (VArr []) (VArr [VNull]) (VArr [])
     = EnhancedValidationService.system_error_result "2026-11-02T10:00:00.000Z"
  /\ validateRecords no_JSON no_cache (VStr "clients") (VStr "clients") VUndefined
     = Errors [invalid_data_format]
  /\ validateRecords no_JSON no_cache (VArr [VNull]) (VStr "clients") VUndefined
     = Errors [system_error
                 (TypeError "Cannot read properties of null (reading 'ClientID')")].
Proof.
  destruct (C7_entry_points_return_findings
              no_JSON "2026-11-02T10:00:00.000Z" no_cache
              (VArr []) (VStr "workers") (VArr []) (VArr []) (VArr [])
              (VStr "clients") (VStr "clients") VUndefined)
    as [Hshape [_ [_ [Hdata _]]]].
  destruct (C7_entry_points_return_findings
              no_JSON "2026-11-02T10:00:00.000Z" no_cache
              (VArr []) (VArr []) (VArr [VNull]) (VArr []) (VArr [])
              (VArr [VNull]) (VStr "clients") VUndefined)
    as [_ [Hnull [_ [_ [Hfault _]]]]].
  split; [apply Hshape; right; left; reflexivity|].
  split; [apply (Hnull [VNull] VNull);
          [right; right; reflexivity | left; reflexivity | reflexivity]|].
  split; [apply Hdata; reflexivity|].
  apply (Hfault [VNull]); reflexivity.
Defined.

(** C7 fails as stated: not every internal fault ends in the system
    error.  The rule list [[null]] makes the callback of [rules.filter]
    fault inside [detectCircularCoRuns], which catches the fault itself;
    over empty entity arrays the result is valid and holds one warning,
    no system error. *)
Lemma C7_rule_fault_is_reported_as_warning :
  EnhancedValidationService.is_coRun VNull
  = Throw (TypeError "Cannot read properties of null (reading 'type')")
  /\ let r := EnhancedValidationService.validateAllData
                no_JSON "2026-11-02T10:00:00.000Z"
                (VArr []) (VArr []) (VArr []) (VArr [VNull]) in
     EnhancedValidationService.isValid r = true
     /\ EnhancedValidationService.errors r = []
     /\ EnhancedValidationService.warnings r
        = [EnhancedValidationService.cycle_detection_error].
Proof.
  split; [reflexivity|]. vm_compute. repeat split.
Qed.

(** *** The recursion of [hasCycle] stays within its depth bound *)

Lemma lookup_In : forall (A : Type) k (o : list (string * A)) v,
    lookup k o = Some v -> In (k, v) o.
Proof.
  intros A k o. induction o as [|[k' v'] o IH]; simpl; intros v H; [discriminate|].
  destruct (String.eqb k k') eqn:E.
  - apply String.eqb_eq in E. inversion H. subst. left. reflexivity.
  - right. apply IH. exact H.
Qed.

Lemma insert_by_index_In : forall (A : Type) i (e : string * A) l p,
    In p (insert_by_index i e l) -> p = (i, e) \/ In p l.
Proof.
  intros A i e l. induction l as [|[j e'] l IH]; simpl; intros p H.
  - destruct H as [<- | []]. left. reflexivity.
  - destruct (i <? j)%Z; simpl in H.
    + destruct H as [<- | H]; [left; reflexivity | right; exact H].
    + destruct H as [<- | H]; [right; left; reflexivity|].
      destruct (IH p H) as [-> | Hin]; [left; reflexivity | right; right; exact Hin].
Qed.

Lemma Object_entries_In : forall (A : Type) (o : list (string * A)) e,
    In e (Object_entries o) -> In e o.
Proof.
  intros A o e H. unfold Object_entries in H. apply in_app_or in H.
  destruct H as [H | H].
  - apply in_map_iff in H. destruct H as [[i e'] [He Hin]]. simpl in He. subst e'.
    assert (Hgen : forall l acc,
               (forall p, In p acc -> In (snd p) o) ->
               (forall x, In x l -> In x o) ->
               forall p,
                 In p (fold_left
                         (fun acc e => match array_index (fst e) with
                                       | Some i => insert_by_index i e acc
                                       | None => acc
                                       end) l acc) ->
                 In (snd p) o).
    { induction l as [|x l IHl]; intros acc Hacc Hl p Hp; simpl in Hp.
      - apply Hacc. exact Hp.
      - apply (IHl _) in Hp; [exact Hp | | intros y Hy; apply Hl; right; exact Hy].
        intros p' Hp'. destruct (array_index (fst x)); [|apply Hacc; exact Hp'].
        apply insert_by_index_In in Hp'. destruct Hp' as [-> | Hp'].
        + simpl. apply Hl. left. reflexivity.
        + apply Hacc. exact Hp'. }
    apply (Hgen o [] (fun p (F : In p []) => match F with end)
                (fun x Hx => Hx) (i, e) Hin).
  - apply filter_In in H. tauto.
Qed.

Lemma hasCycle_neighbors_terminates :
  forall (rec : string -> cycle_state -> option (bool * cycle_state))
         (x : string) (universe : list string) (bound : nat),
    (forall n st, In n universe ->
                  (List.length (GraphSpec.unvisited string String.eqb universe (fst st))
                   < bound)%nat ->
                  exists b st', rec n st = Some (b, st') /\ incl (fst st) (fst st')) ->
    forall ns st,
      incl ns universe ->
      (List.length (GraphSpec.unvisited string String.eqb universe (fst st))
       < bound)%nat ->
      exists b st', hasCycle_neighbors rec x ns st = Some (b, st')
                    /\ incl (fst st) (fst st').
Proof.
  intros rec x universe bound Hrec ns.
  induction ns as [|n ns IH]; intros st Hincl Hm; simpl.
  - eexists. eexists. split; [reflexivity|]. simpl. apply incl_refl.
  - destruct (Hrec n st) as [b [st1 [E Hv]]]; [apply Hincl; left; reflexivity | exact Hm |].
    rewrite E. destruct b.
    + eexists. eexists. split; [reflexivity | exact Hv].
    + destruct (IH st1) as [b' [st2 [E2 Hv2]]].
      * intros z Hz. apply Hincl. right. exact Hz.
      * pose proof (GraphFacts.unvisited_mono string String.eqb String.eqb_eq
                      universe _ _ Hv). lia.
      * rewrite E2. eexists. eexists. split; [reflexivity|].
        eapply incl_tran; eassumption.
Qed.

Lemma hasCycle_terminates :
  forall fuel graph x st,
    In x (map fst graph ++ List.concat (map snd graph))%list ->
    (List.length (GraphSpec.unvisited string String.eqb
                    (map fst graph ++ List.concat (map snd graph))%list (fst st))
     < fuel)%nat ->
    exists b st', hasCycle fuel graph x st = Some (b, st')
                  /\ incl (fst st) (fst st').
Proof.
  induction fuel as [|fuel IH]; intros graph x st Hx Hm; [lia|].
  simpl.
  destruct (string_set_has x (snd st)).
  { eexists. eexists. split; [reflexivity | apply incl_refl]. }
  destruct (string_set_has x (fst st)) eqn:Ev.
  { eexists. eexists. split; [reflexivity | apply incl_refl]. }
  apply (GraphFacts.set_has_not_In string String.eqb String.eqb_eq) in Ev.
  pose proof (GraphFacts.unvisited_add string String.eqb String.eqb_eq
                _ (fst st) x Hx Ev) as Hlt.
  destruct (hasCycle_neighbors_terminates (hasCycle fuel graph) x
              (map fst graph ++ List.concat (map snd graph))%list fuel)
    with (ns := corun_neighbors graph x)
         (st := (string_set_add x (fst st), string_set_add x (snd st)))
    as [b [st' [E Hv]]].
  - intros n s Hn Hs. apply IH; assumption.
  - intros v Hv. unfold corun_neighbors in Hv.
    destruct (lookup x graph) as [ns|] eqn:El; [|contradiction].
    apply lookup_In in El. apply in_or_app. right. apply in_concat.
    exists ns. split; [|exact Hv]. change ns with (snd (x, ns)).
    apply in_map. exact El.
  - simpl. change (string_set_add x (fst st))
      with (GraphUtils.set_add string String.eqb x (fst st)). lia.
  - rewrite E. eexists. eexists. split; [reflexivity|].
    simpl in Hv. intros z Hz. apply Hv.
    apply (GraphFacts.set_add_In string String.eqb String.eqb_eq).
    right. exact Hz.
Qed.

Lemma findIndex_TaskID_records : forall taskId tasks i,
    records tasks -> exists k, findIndex_TaskID taskId tasks i = Normal k.
Proof.
  intros taskId tasks. induction tasks as [|t tasks IH]; intros i Hrec; simpl.
  - eexists. reflexivity.
  - inversion Hrec as [|? ? Ht Hrec']. subst.
    rewrite (get_prop t "TaskID" Ht). cbn [bind].
    destruct (is_string taskId (prop t "TaskID")); [eexists; reflexivity|].
    apply IH. exact Hrec'.
Qed.

(** On a list of task records [detectCircularCoRuns] of the validation
    service returns its errors: the recursion of [hasCycle] never reaches
    the depth it is allowed. *)
Lemma detectCircularCoRuns_returns :
  forall tasks,
    records tasks ->
    exists errs, ValidationService.detectCircularCoRuns (VArr tasks) = Normal errs.
Proof.
  intros tasks Hrec. unfold ValidationService.detectCircularCoRuns.
  cbn [array_method bind]. unfold forEach.
  rewrite (forEach_from_pure _ _ _
             (fun graph task =>
                if truthy (prop task "CoRunWith")
                then obj_set (ToString (prop task "TaskID"))
                             (arrayifyCommaString (prop task "CoRunWith")) graph
                else graph)).
  2:{ intros graph t i Hin. unfold records in Hrec. rewrite Forall_forall in Hrec.
      rewrite (get_prop t "CoRunWith" (Hrec t Hin)). cbn [bind].
      destruct (truthy (prop t "CoRunWith")); [|reflexivity].
      rewrite (get_prop t "TaskID" (Hrec t Hin)). reflexivity. }
  cbn [bind].
  match goal with
  | |- context [forEach_from ?body (Object_entries ?g) _ _] =>
      set (graph := g);
      assert (Hloop : forall l i st errors,
                 (forall e, In e l -> In e graph) ->
                 (List.length (GraphSpec.unvisited string String.eqb
                                 (map fst graph ++ List.concat (map snd graph))%list
                                 (fst st))
                  < corun_depth_bound graph)%nat ->
                 exists r, forEach_from body l i (st, errors) = Normal r)
  end.
  { induction l as [|e l IHl]; intros i st errors Hl Hm; cbn [forEach_from].
    - eexists. reflexivity.
    - cbn [fst].
      destruct (hasCycle_terminates (corun_depth_bound graph) graph (fst e) st)
        as [b [st1 [E Hv]]].
      + apply in_or_app. left. apply in_map. apply Hl. left. reflexivity.
      + exact Hm.
      + fold graph. rewrite E.
        pose proof (GraphFacts.unvisited_mono string String.eqb String.eqb_eq
                      (map fst graph ++ List.concat (map snd graph))%list _ _ Hv).
        destruct b.
        * destruct (findIndex_TaskID_records (fst e) tasks 0 Hrec) as [k Hk].
          rewrite Hk. cbn [bind].
          apply IHl; [intros e' He'; apply Hl; right; exact He' | lia].
        * cbn [bind]. apply IHl; [intros e' He'; apply Hl; right; exact He' | lia]. }
  destruct (Hloop (Object_entries graph) 0%nat ([], []) []) as [r Hr].
  - intros e He. apply Object_entries_In. exact He.
  - unfold corun_depth_bound, GraphSpec.unvisited. cbn [fst].
    pose proof (filter_length_le
                  (fun y => negb (GraphUtils.set_has string String.eqb y []))
                  (map fst graph ++ List.concat (map snd graph))%list).
    lia.
  - subst graph. rewrite Hr. cbn [bind]. eexists. reflexivity.
Qed.

End ValidationFacts.

(* ================================================================== *)
(** * Part X.  Further properties of the graph utilities                 *)
(* ================================================================== *)

Module GraphExtras.

Import GraphUtils GraphSpec.
Local Open Scope list_scope.
Local Open Scope nat_scope.

Section Graph.

Variable node : Type.
Variable eqb : node -> node -> bool.
Hypothesis eqb_spec : forall a b, eqb a b = true <-> a = b.

Local Abbreviation set_has := (GraphUtils.set_has node eqb).
Local Abbreviation set_add := (GraphUtils.set_add node eqb).
Local Abbreviation set_delete := (GraphUtils.set_delete node eqb).
Local Abbreviation map_get := (GraphUtils.map_get node eqb).
Local Abbreviation map_set := (GraphUtils.map_set node eqb).
Local Abbreviation map_has := (GraphUtils.map_has node eqb).
Local Abbreviation neighbors := (GraphUtils.neighbors node eqb).
Local Abbreviation keys := (GraphUtils.keys node).
Local Abbreviation addEdge := (GraphUtils.addEdge node eqb).
Local Abbreviation createGraph := (GraphUtils.createGraph node eqb).
Local Abbreviation edge := (GraphSpec.edge node eqb).
Local Abbreviation reaches := (GraphSpec.reaches node eqb).
Local Abbreviation has_cycle := (GraphSpec.has_cycle node eqb).
Local Abbreviation map_ok := (GraphSpec.map_ok node).
Local Abbreviation closed := (GraphSpec.closed node eqb).
Local Abbreviation walk := (GraphSpec.walk node eqb).
Local Abbreviation graph_of_edges := (GraphSpec.graph_of_edges node eqb).

Local Abbreviation eqb_refl := (GraphFacts.eqb_refl node eqb eqb_spec).
Local Abbreviation eqb_neq := (GraphFacts.eqb_neq node eqb eqb_spec).
Local Abbreviation node_eq_dec := (GraphFacts.node_eq_dec node eqb eqb_spec).
Local Abbreviation set_has_In := (GraphFacts.set_has_In node eqb eqb_spec).
Local Abbreviation set_has_not_In := (GraphFacts.set_has_not_In node eqb eqb_spec).
Local Abbreviation set_add_In := (GraphFacts.set_add_In node eqb eqb_spec).
Local Abbreviation set_delete_In := (GraphFacts.set_delete_In node eqb eqb_spec).
Local Abbreviation map_get_set_same := (GraphFacts.map_get_set_same node eqb eqb_spec).
Local Abbreviation map_get_set_other := (GraphFacts.map_get_set_other node eqb eqb_spec).
Local Abbreviation map_get_None := (GraphFacts.map_get_None node eqb eqb_spec).
Local Abbreviation map_get_Some_key := (GraphFacts.map_get_Some_key node eqb eqb_spec).
Local Abbreviation keys_map_set_In := (GraphFacts.keys_map_set_In node eqb eqb_spec).

(** *** [addEdge] *)

Lemma neighbors_map_set : forall (g : GraphUtils.graph node) k s u,
    neighbors (map_set k s g) u = if eqb u k then s else neighbors g u.
Proof.
  intros g k s u. unfold GraphUtils.neighbors. destruct (eqb u k) eqn:E.
  - apply eqb_spec in E. subst u. rewrite map_get_set_same. reflexivity.
  - apply eqb_neq in E. rewrite map_get_set_other by congruence. reflexivity.
Qed.

Lemma neighbors_ensure : forall (g : GraphUtils.graph node) k u,
    neighbors (if map_has k g then g else map_set k [] g) u = neighbors g u.
Proof.
  intros g k u. unfold GraphUtils.map_has.
  destruct (map_get k g) as [s|] eqn:E; [reflexivity|].
  rewrite neighbors_map_set. destruct (eqb u k) eqn:Eu; [|reflexivity].
  apply eqb_spec in Eu. subst u. unfold GraphUtils.neighbors. rewrite E.
  reflexivity.
Qed.

Lemma keys_ensure : forall (g : GraphUtils.graph node) k x,
    In x (keys (if map_has k g then g else map_set k [] g))
    <-> x = k \/ In x (keys g).
Proof.
  intros g k x. unfold GraphUtils.map_has.
  destruct (map_get k g) as [s|] eqn:E.
  - split; [auto|]. intros [-> | H]; [|exact H].
    eapply map_get_Some_key. exact E.
  - apply keys_map_set_In.
Qed.

Lemma neighbors_addEdge : forall g a b u,
    neighbors (addEdge g a b) u
    = if eqb u a then set_add b (neighbors g a) else neighbors g u.
Proof.
  intros g a b u. unfold GraphUtils.addEdge. cbv zeta.
  rewrite neighbors_map_set. rewrite !neighbors_ensure. reflexivity.
Qed.

Lemma keys_addEdge : forall g a b k,
    In k (keys (addEdge g a b)) <-> In k (keys g) \/ k = a \/ k = b.
Proof.
  intros g a b k. unfold GraphUtils.addEdge. cbv zeta.
  rewrite keys_map_set_In, !keys_ensure. tauto.
Qed.

Lemma edge_addEdge : forall g a b u v,
    edge (addEdge g a b) u v <-> edge g u v \/ (u = a /\ v = b).
Proof.
  intros g a b u v. unfold GraphSpec.edge. rewrite neighbors_addEdge.
  destruct (eqb u a) eqn:E.
  - apply eqb_spec in E. subst u. rewrite set_add_In. split.
    + intros [-> | H]; [right; auto | left; exact H].
    + intros [H | [_ ->]]; [right; exact H | left; reflexivity].
  - apply eqb_neq in E. split; [auto|]. intros [H | [-> _]]; [exact H | congruence].
Qed.

Lemma map_set_same_value : forall (V : Type) k (v : V) (m : jsmap node V),
    map_get k m = Some v -> map_set k v m = m.
Proof.
  intros V k v m. induction m as [|[k' v'] m IH]; simpl; intros H; [discriminate|].
  destruct (eqb k k').
  - inversion H. reflexivity.
  - f_equal. apply IH. exact H.
Qed.

Lemma map_has_key : forall (V : Type) k (m : jsmap node V),
    In k (keys m) -> GraphUtils.map_has node eqb k m = true.
Proof.
  intros V k m H. unfold GraphUtils.map_has.
  destruct (GraphFacts.In_key_map_get node eqb eqb_spec V k m H) as [v ->].
  reflexivity.
Qed.

Lemma set_add_present : forall x s, In x s -> set_add x s = s.
Proof.
  intros x s H. unfold GraphUtils.set_add.
  apply set_has_In in H. rewrite H. reflexivity.
Qed.

Lemma addEdge_idempotent : forall g a b,
    addEdge (addEdge g a b) a b = addEdge g a b.
Proof.
  intros g a b. set (g' := addEdge g a b).
  assert (Ha : map_has a g' = true)
    by (apply map_has_key, keys_addEdge; right; left; reflexivity).
  assert (Hb : map_has b g' = true)
    by (apply map_has_key, keys_addEdge; right; right; reflexivity).
  unfold GraphUtils.addEdge at 1. cbv zeta. rewrite Ha, Hb.
  assert (Hn : In b (neighbors g' a)).
  { unfold g'. rewrite neighbors_addEdge, eqb_refl. apply set_add_In.
    left. reflexivity. }
  rewrite (set_add_present _ _ Hn). apply map_set_same_value.
  unfold GraphUtils.neighbors in *.
  destruct (map_get a g') as [s|] eqn:E; [reflexivity | contradiction].
Qed.

(** *** Graphs built from a list of edges *)

Lemma graph_of_edges_fold : forall es g,
    map_ok g -> closed g ->
    let g' := fold_left (fun g e => addEdge g (fst e) (snd e)) es g in
    map_ok g' /\ closed g'
    /\ (forall k, In k (keys g')
                  <-> In k (keys g)
                      \/ exists e, In e es /\ (k = fst e \/ k = snd e))
    /\ (forall u v, edge g' u v <-> edge g u v \/ In (u, v) es).
Proof.
  induction es as [|[a b] es IH]; intros g Hok Hc; cbn [fold_left fst snd].
  - cbv zeta. split; [exact Hok|]. split; [exact Hc|]. split.
    + intros k. split; [auto|]. intros [H | [e [[] _]]]. exact H.
    + intros u v. split; [auto|]. intros [H | []]. exact H.
  - destruct (GraphFacts.addEdge_well_formed node eqb eqb_spec g a b Hok Hc)
      as [Hok1 [Hc1 _]].
    specialize (IH (addEdge g a b) Hok1 Hc1). cbv zeta in IH |- *.
    destruct IH as [Hok2 [Hc2 [Hk He]]].
    split; [exact Hok2|]. split; [exact Hc2|]. split.
    + intros k. rewrite Hk, keys_addEdge. split.
      * intros [[H | [-> | ->]] | [e [Hin H]]].
        -- left. exact H.
        -- right. exists (a, b). split; [left; reflexivity | left; reflexivity].
        -- right. exists (a, b). split; [left; reflexivity | right; reflexivity].
        -- right. exists e. split; [right; exact Hin | exact H].
      * intros [H | [e [[<- | Hin] H]]].
        -- left. left. exact H.
        -- left. right. simpl in H. destruct H as [-> | ->]; auto.
        -- right. exists e. auto.
    + intros u v. rewrite He, edge_addEdge. split.
      * intros [[H | [-> ->]] | H]; [left; exact H | right; left; reflexivity
                                      | right; right; exact H].
      * intros [H | [H | H]]; [left; left; exact H | | right; exact H].
        inversion H. subst. left. right. auto.
Qed.

Lemma createGraph_keys : forall nodes k,
    In k (keys (createGraph nodes)) <-> In k nodes.
Proof.
  intros nodes k. unfold GraphUtils.createGraph.
  assert (H : forall l (g : GraphUtils.graph node),
             In k (keys (fold_left (fun g n => map_set n [] g) l g))
                          <-> In k (keys g) \/ In k l).
  { induction l as [|n l IH]; intros g; simpl; [tauto|].
    rewrite IH, keys_map_set_In. split.
    - intros [[-> | H] | H]; auto.
    - intros [H | [-> | H]]; auto. }
  rewrite H. simpl. tauto.
Qed.

Lemma createGraph_no_edge : forall nodes u v, ~ edge (createGraph nodes) u v.
Proof.
  intros nodes u v. unfold GraphUtils.createGraph.
  assert (H : forall l (g : GraphUtils.graph node),
             (forall a b, ~ edge g a b) ->
             forall a b, ~ edge (fold_left (fun g n => map_set n [] g) l g) a b).
  { induction l as [|n l IH]; intros g Hg; simpl; [exact Hg|].
    apply IH. intros a b. unfold GraphSpec.edge. rewrite neighbors_map_set.
    destruct (eqb a n); [intros [] | apply Hg]. }
  apply H. intros a b [].
Qed.

Lemma graph_of_edges_spec : forall nodes es,
    map_ok (graph_of_edges nodes es) /\ closed (graph_of_edges nodes es)
    /\ (forall k, In k (keys (graph_of_edges nodes es))
                  <-> In k nodes
                      \/ exists e, In e es /\ (k = fst e \/ k = snd e))
    /\ (forall u v, edge (graph_of_edges nodes es) u v <-> In (u, v) es).
Proof.
  intros nodes es. unfold GraphSpec.graph_of_edges.
  destruct (GraphFacts.createGraph_well_formed node eqb eqb_spec nodes) as [Hok Hc].
  destruct (graph_of_edges_fold es _ Hok Hc) as [H1 [H2 [H3 H4]]].
  split; [exact H1|]. split; [exact H2|]. split.
  - intros k. rewrite H3, createGraph_keys. reflexivity.
  - intros u v. rewrite H4. split; [|auto].
    intros [H | H]; [|exact H]. exfalso. eapply createGraph_no_edge. exact H.
Qed.

(** *** [isAcyclic] *)

Lemma isAcyclic_spec : forall g,
    (has_cycle g -> isAcyclic node eqb g = Some false)
    /\ (~ has_cycle g -> isAcyclic node eqb g = Some true).
Proof.
  intros g. unfold isAcyclic.
  destruct (GraphFacts.detectCycles_spec node eqb eqb_spec g) as [cycles [E H]].
  rewrite E. split.
  - intros Hc. apply H in Hc. destruct cycles; [congruence | reflexivity].
  - intros Hn. destruct cycles as [|c cs]; [reflexivity|].
    exfalso. apply Hn. apply H. discriminate.
Qed.

(** *** Walks *)

Lemma walk_app_r : forall g l1 l2, walk g (l1 ++ l2) -> walk g l2.
Proof.
  intros g l1. induction l1 as [|a l1 IH]; intros l2 H; [exact H|].
  apply IH. simpl in H. destruct (l1 ++ l2) eqn:E; [|tauto].
  destruct l1; destruct l2; try discriminate. exact I.
Qed.

Lemma walk_snoc : forall g p x n,
    walk g (p ++ [x]) -> edge g x n -> walk g ((p ++ [x]) ++ [n]).
Proof.
  intros g p x n. induction p as [|a p IH]; intros H Hxn.
  - simpl. auto.
  - destruct p as [|b p].
    + simpl in *. tauto.
    + change (edge g a b /\ walk g ((b :: p) ++ [x])) in H.
      change (edge g a b /\ walk g (((b :: p) ++ [x]) ++ [n])).
      destruct H as [H1 H2]. split; [exact H1 | apply IH; assumption].
Qed.

Lemma indexOf_split : forall x l,
    In x l ->
    exists pre post, l = pre ++ x :: post
                     /\ indexOf node eqb x l = Some (List.length pre).
Proof.
  intros x l. induction l as [|y l IH]; intros H; [contradiction|].
  simpl. destruct (eqb x y) eqn:E.
  - apply eqb_spec in E. subst y. exists [], l. split; reflexivity.
  - apply eqb_neq in E. destruct H as [H | H]; [congruence|].
    destruct (IH H) as [pre [post [-> Hi]]]. rewrite Hi.
    exists (y :: pre), post. split; reflexivity.
Qed.

Lemma skipn_length_app : forall (pre r : list node),
    skipn (List.length pre) (pre ++ r) = r.
Proof. induction pre as [|a pre IH]; intros r; simpl; [reflexivity | apply IH]. Qed.

(** *** The first cycle that [detectCycles] reports *)

Lemma dfs_cycle_simple :
  forall fuel g x path st c st',
    dfs node eqb fuel g x path st = Some (Some c, st') ->
    recursionStack st = path -> NoDup path -> walk g (path ++ [x]) ->
    GraphSpec.simple_cycle node eqb g c.
Proof.
  induction fuel as [|fuel IH]; intros g x path st c st' H Hs Hnd Hw;
    simpl in H; [discriminate|].
  destruct (set_has x (recursionStack st)) eqn:Es.
  { inversion H. subst c st'. apply set_has_In in Es. rewrite Hs in Es.
    destruct (indexOf_split x path Es) as [pre [post [Hp Hi]]].
    unfold cycle_of. rewrite Hi. rewrite Hp at 1. rewrite skipn_length_app.
    exists x, post. split; [reflexivity|]. split.
    - rewrite Hp in Hnd. clear - Hnd. induction pre as [|a pre IHp]; simpl in Hnd.
      + exact Hnd.
      + inversion Hnd. auto.
    - rewrite Hp in Hw. rewrite <- app_assoc in Hw. apply walk_app_r in Hw.
      exact Hw. }
  destruct (set_has x (visited st)) eqn:Ev; [discriminate|].
  apply set_has_not_In in Es.
  assert (Hadd : set_add x (recursionStack st) = path ++ [x]).
  { unfold GraphUtils.set_add.
    assert (E : set_has x (recursionStack st) = false)
      by (apply set_has_not_In; exact Es).
    rewrite E, Hs. reflexivity. }
  assert (Hloop : forall ns st1,
             incl ns (neighbors g x) ->
             recursionStack st1 = path ++ [x] ->
             dfs_neighbors node eqb
               (fun n s => dfs node eqb fuel g n (path ++ [x]) s) x ns st1
             = Some (Some c, st') ->
             GraphSpec.simple_cycle node eqb g c).
  { induction ns as [|n ns IHns]; intros st1 Hns Hs1 H1; simpl in H1;
      [discriminate|].
    destruct (dfs node eqb fuel g n (path ++ [x]) st1) as [[[c1|] st2]|] eqn:E;
      try discriminate.
    - inversion H1. subst c1 st2.
      apply (IH g n (path ++ [x]) st1 c st' E Hs1).
      + apply (GraphFacts.NoDup_snoc node); [exact Hnd | rewrite <- Hs; exact Es].
      + apply walk_snoc; [exact Hw | apply Hns; left; reflexivity].
    - apply (IHns st2); [intros z Hz; apply Hns; right; exact Hz | | exact H1].
      destruct (GraphFacts.dfs_frame node eqb eqb_spec _ _ _ _ _ _ E) as [Hs2 _].
      rewrite Hs2. exact Hs1. }
  eapply Hloop; [apply incl_refl | | exact H].
  simpl. exact Hadd.
Qed.

Lemma detectCycles_loop_first :
  forall fuel g roots st cycles,
    detectCycles_loop node eqb fuel g roots st [] = Some cycles ->
    recursionStack st = [] ->
    forall c rest, cycles = c :: rest -> GraphSpec.simple_cycle node eqb g c.
Proof.
  intros fuel g roots. induction roots as [|x roots IH];
    intros st cycles H Hs c rest Hc; simpl in H.
  - inversion H. subst. discriminate.
  - destruct (set_has x (visited st)); [eapply IH; eassumption|].
    destruct (dfs node eqb fuel g x [] st) as [[[c1|] st1]|] eqn:E;
      try discriminate.
    + apply (GraphFacts.detectCycles_loop_extends node eqb) in H.
      destruct H as [rest' H]. simpl in H. rewrite Hc in H. inversion H. subst c1.
      apply (dfs_cycle_simple _ _ _ _ _ _ _ E Hs); [constructor | exact I].
    + destruct (GraphFacts.dfs_frame node eqb eqb_spec _ _ _ _ _ _ E) as [Hs1 _].
      eapply IH; [exact H | congruence | exact Hc].
Qed.

(** *** [addBidirectionalEdge] *)

Lemma addBidirectionalEdge_cycle : forall g a b,
    has_cycle (addBidirectionalEdge node eqb g a b).
Proof.
  intros g a b. exists a. unfold addBidirectionalEdge.
  apply t_trans with b; apply t_step.
  - apply edge_addEdge. left. apply edge_addEdge. right. auto.
  - apply edge_addEdge. right. auto.
Qed.

(** *** [getReachableNodes] *)

Lemma unexpanded_mono : forall g R x,
    GraphSpec.unexpanded node eqb g (set_add x R)
    <= GraphSpec.unexpanded node eqb g R.
Proof.
  intros g R x. unfold GraphSpec.unexpanded.
  induction g as [|[k s] g IH]; simpl; [lia|].
  destruct (set_has k (set_add x R)) eqn:E1; destruct (set_has k R) eqn:E2; try lia.
  apply set_has_In in E2. apply set_has_not_In in E1. exfalso. apply E1.
  apply set_add_In. right. exact E2.
Qed.

Lemma unexpanded_add : forall g R x,
    ~ In x R ->
    GraphSpec.unexpanded node eqb g (set_add x R) + List.length (neighbors g x)
    <= GraphSpec.unexpanded node eqb g R.
Proof.
  intros g R x Hx. induction g as [|[k s] g IH].
  - simpl. lia.
  - pose proof (unexpanded_mono g R x) as Hm.
    unfold GraphSpec.unexpanded in *. unfold GraphUtils.neighbors in *. simpl.
    destruct (eqb x k) eqn:E.
    + apply eqb_spec in E. subst k.
      assert (E1 : set_has x (set_add x R) = true)
        by (apply set_has_In, set_add_In; left; reflexivity).
      assert (E2 : set_has x R = false) by (apply set_has_not_In; exact Hx).
      rewrite E1, E2. lia.
    + apply eqb_neq in E.
      destruct (set_has k (set_add x R)) eqn:E1; destruct (set_has k R) eqn:E2;
        try lia.
      apply set_has_In in E2. apply set_has_not_In in E1. exfalso. apply E1.
      apply set_add_In. right. exact E2.
Qed.

Lemma push_unreached_length : forall R ns stk,
    List.length (fold_left (push_unreached node eqb R) ns stk)
    <= List.length stk + List.length ns.
Proof.
  intros R ns. induction ns as [|n ns IH]; intros stk; simpl; [lia|].
  specialize (IH (push_unreached node eqb R stk n)).
  assert (List.length (push_unreached node eqb R stk n) <= S (List.length stk))
    by (unfold push_unreached; destruct (set_has n R); simpl; lia).
  lia.
Qed.

Lemma push_unreached_In : forall R ns stk x,
    In x (fold_left (push_unreached node eqb R) ns stk)
    <-> In x stk \/ (In x ns /\ ~ In x R).
Proof.
  intros R ns. induction ns as [|n ns IH]; intros stk x; simpl; [tauto|].
  rewrite IH. unfold push_unreached. destruct (set_has n R) eqn:E.
  - apply set_has_In in E. split.
    + intros [H | [H1 H2]]; [left; exact H | right; auto].
    + intros [H | [[-> | H1] H2]]; [left; exact H | contradiction | right; auto].
  - apply set_has_not_In in E. simpl. split.
    + intros [[-> | H] | [H1 H2]]; auto.
    + intros [H | [[-> | H1] H2]]; auto.
Qed.

Lemma reach_loop_returns : forall fuel g R stk,
    List.length stk + GraphSpec.unexpanded node eqb g R < fuel ->
    exists r, reach_loop node eqb fuel g R stk = Some r.
Proof.
  induction fuel as [|fuel IH]; intros g R stk Hm; [lia|].
  destruct stk as [|x rest]; simpl; [eexists; reflexivity|].
  simpl in Hm. destruct (set_has x R) eqn:E.
  - apply IH. lia.
  - apply set_has_not_In in E. apply IH.
    pose proof (unexpanded_add g R x E).
    pose proof (push_unreached_length (set_add x R) (neighbors g x) rest). lia.
Qed.

Lemma unexpanded_nil : forall g,
    GraphSpec.unexpanded node eqb g [] = edge_count node g.
Proof.
  intros g. unfold GraphSpec.unexpanded, edge_count.
  induction g as [|[k s] g IH]; simpl in *; [reflexivity|].
  rewrite length_app, IH. reflexivity.
Qed.

Lemma reach_loop_spec : forall a fuel g R stk r,
    reach_loop node eqb fuel g R stk = Some r ->
    NoDup R ->
    (forall v, In v R \/ In v stk -> GraphSpec.reaches_or_is node eqb g a v) ->
    (forall u, In u R -> forall w, edge g u w -> In w R \/ In w stk) ->
    NoDup r
    /\ (forall v, In v R \/ In v stk -> In v r)
    /\ (forall v, In v r -> GraphSpec.reaches_or_is node eqb g a v)
    /\ (forall u, In u r -> forall w, edge g u w -> In w r).
Proof.
  intros a. induction fuel as [|fuel IH]; intros g R stk r H Hnd Hsound Hclosed.
  - destruct stk; simpl in H; [|discriminate]. inversion H. subst r.
    split; [exact Hnd|]. split; [intros v [Hv | []]; exact Hv|].
    split; [intros v Hv; apply Hsound; left; exact Hv|].
    intros u Hu w Hw. destruct (Hclosed u Hu w Hw) as [Hr | []]. exact Hr.
  - destruct stk as [|x rest]; simpl in H.
    + inversion H. subst r.
      split; [exact Hnd|]. split; [intros v [Hv | []]; exact Hv|].
      split; [intros v Hv; apply Hsound; left; exact Hv|].
      intros u Hu w Hw. destruct (Hclosed u Hu w Hw) as [Hr | []]. exact Hr.
    + destruct (set_has x R) eqn:E.
      * apply set_has_In in E.
        destruct (IH g R rest r H Hnd) as [H1 [H2 [H3 H4]]].
        -- intros v [Hv | Hv]; apply Hsound; [left | right; right]; exact Hv.
        -- intros u Hu w Hw. destruct (Hclosed u Hu w Hw) as [Hr | [<- | Hr]];
             [left; exact Hr | left; exact E | right; exact Hr].
        -- split; [exact H1|]. split; [|split; assumption].
           intros v [Hv | [<- | Hv]]; apply H2;
             [left; exact Hv | left; exact E | right; exact Hv].
      * apply set_has_not_In in E.
        assert (Hx : GraphSpec.reaches_or_is node eqb g a x)
          by (apply Hsound; right; left; reflexivity).
        destruct (IH g _ _ r H) as [H1 [H2 [H3 H4]]].
        -- unfold GraphUtils.set_add.
           assert (E' : set_has x R = false) by (apply set_has_not_In; exact E).
           rewrite E'. apply (GraphFacts.NoDup_snoc node); assumption.
        -- intros v [Hv | Hv].
           ++ apply set_add_In in Hv. destruct Hv as [-> | Hv];
                [exact Hx | apply Hsound; left; exact Hv].
           ++ apply push_unreached_In in Hv. destruct Hv as [Hv | [Hv _]].
              ** apply Hsound. right. right. exact Hv.
              ** right. destruct Hx as [-> | Hx].
                 --- apply t_step. exact Hv.
                 --- eapply t_trans; [exact Hx | apply t_step; exact Hv].
        -- intros u Hu w Hw. apply set_add_In in Hu.
           destruct (in_dec node_eq_dec w (set_add x R)) as [Hin | Hnot];
             [left; exact Hin|]. right. apply push_unreached_In.
           destruct Hu as [-> | Hu].
           ++ right. split; [exact Hw | exact Hnot].
           ++ destruct (Hclosed u Hu w Hw) as [Hr | [<- | Hr]].
              ** exfalso. apply Hnot. apply set_add_In. right. exact Hr.
              ** exfalso. apply Hnot. apply set_add_In. left. reflexivity.
              ** left. exact Hr.
        -- split; [exact H1|]. split; [|split; assumption].
           intros v [Hv | [<- | Hv]].
           ++ apply H2. left. apply set_add_In. right. exact Hv.
           ++ apply H2. left. apply set_add_In. left. reflexivity.
           ++ apply H2. right. apply push_unreached_In. left. exact Hv.
Qed.

Lemma getReachableNodes_spec : forall g a,
    exists r,
      getReachableNodes node eqb g a = Some r
      /\ NoDup r
      /\ forall v, In v r <-> v <> a /\ reaches g a v.
Proof.
  intros g a. unfold getReachableNodes.
  destruct (reach_loop_returns (reach_bound node g) g [] [a]) as [r E].
  { rewrite unexpanded_nil. unfold reach_bound. simpl. lia. }
  rewrite E.
  destruct (reach_loop_spec a _ g [] [a] r E) as [H1 [H2 [H3 H4]]].
  - constructor.
  - intros v [[] | [<- | []]]. left. reflexivity.
  - intros u [].
  - exists (set_delete a r). split; [reflexivity|]. split.
    + unfold GraphUtils.set_delete. apply NoDup_filter. exact H1.
    + intros v. rewrite set_delete_In. split.
      * intros [Hv Hne]. split; [exact Hne|].
        destruct (H3 v Hv) as [-> | Hr]; [congruence | exact Hr].
      * intros [Hne Hr]. split; [|exact Hne].
        assert (Ha : In a r) by (apply H2; right; left; reflexivity).
        clear - Hr Ha H4. induction Hr as [x y Hxy | x y z _ IH1 _ IH2].
        -- eapply H4; eassumption.
        -- apply IH2. apply IH1. exact Ha.
Qed.

(** *** Node degrees *)

Local Abbreviation occ := (fun (k : node) (l : list node) =>
                             List.length (filter (fun n => eqb n k) l)).

Lemma count_incoming_keys : forall s (m : jsmap node degree),
    keys (fold_left (count_incoming node eqb) s m) = keys m.
Proof.
  induction s as [|n s IH]; intros m; simpl; [reflexivity|].
  rewrite IH. unfold count_incoming.
  destruct (map_get n m) as [d|] eqn:E; [|reflexivity].
  apply (GraphFacts.keys_map_set_present node eqb eqb_spec).
  eapply map_get_Some_key. exact E.
Qed.

Lemma count_incoming_get : forall s (m : jsmap node degree) k d,
    map_get k m = Some d ->
    map_get k (fold_left (count_incoming node eqb) s m)
    = Some (mkDegree (degree_in d + occ k s) (degree_out d)).
Proof.
  induction s as [|n s IH]; intros m k d H; simpl.
  - rewrite H. destruct d. simpl. rewrite Nat.add_0_r. reflexivity.
  - destruct (eqb n k) eqn:E.
    + apply eqb_spec in E. subst n.
      rewrite (IH _ k (mkDegree (S (degree_in d)) (degree_out d))).
      * simpl. f_equal. f_equal. lia.
      * unfold count_incoming. rewrite H. apply map_get_set_same.
    + apply eqb_neq in E. rewrite (IH _ k d); [reflexivity|].
      unfold count_incoming. destruct (map_get n m) as [dn|]; [|exact H].
      rewrite map_get_set_other by exact E. exact H.
Qed.

Lemma count_entry_keys : forall (m : jsmap node degree) e,
    keys (count_entry node eqb m e) = keys m.
Proof.
  intros m [k s]. unfold count_entry. cbn [fst snd].
  rewrite count_incoming_keys.
  destruct (map_get k m) as [d|] eqn:E; [|reflexivity].
  apply (GraphFacts.keys_map_set_present node eqb eqb_spec).
  eapply map_get_Some_key. exact E.
Qed.

Lemma count_entry_get : forall (m : jsmap node degree) k0 s k d,
    In k0 (keys m) ->
    map_get k m = Some d ->
    map_get k (count_entry node eqb m (k0, s))
    = Some (mkDegree (degree_in d + occ k s)
                     (if eqb k k0 then List.length s else degree_out d)).
Proof.
  intros m k0 s k d Hk0 H. unfold count_entry. cbn [fst snd].
  destruct (GraphFacts.In_key_map_get node eqb eqb_spec _ k0 m Hk0) as [d0 E0].
  rewrite E0. destruct (eqb k k0) eqn:E.
  - apply eqb_spec in E. subst k0. rewrite E0 in H. inversion H. subst d0.
    rewrite (count_incoming_get s _ k (mkDegree (degree_in d) (List.length s)));
      [reflexivity | apply map_get_set_same].
  - apply eqb_neq in E. rewrite (count_incoming_get s _ k d); [reflexivity|].
    rewrite map_get_set_other by congruence. exact H.
Qed.

Lemma count_entries_keys : forall (es : GraphUtils.graph node) (m : jsmap node degree),
    keys (fold_left (count_entry node eqb) es m) = keys m.
Proof.
  induction es as [|e es IH]; intros m; simpl; [reflexivity|].
  rewrite IH. apply count_entry_keys.
Qed.

Lemma count_entries_get : forall (es : GraphUtils.graph node) (m : jsmap node degree) k d,
    NoDup (keys es) -> incl (keys es) (keys m) ->
    map_get k m = Some d ->
    keys (fold_left (count_entry node eqb) es m) = keys m
    /\ map_get k (fold_left (count_entry node eqb) es m)
       = Some (mkDegree (degree_in d + occ k (List.concat (map snd es)))
                        (match map_get k es with
                         | Some s => List.length s
                         | None => degree_out d
                         end)).
Proof.
  induction es as [|[k0 s] es IH]; intros m k d Hnd Hincl H.
  - simpl. split; [reflexivity|]. rewrite H. destruct d. simpl.
    rewrite Nat.add_0_r. reflexivity.
  - cbn [fold_left]. inversion Hnd as [|? ? Hk0 Hnd']. subst.
    assert (Hin0 : In k0 (keys m)) by (apply Hincl; left; reflexivity).
    pose proof (count_entry_get m k0 s k d Hin0 H) as H1.
    assert (Hincl' : incl (keys es) (keys (count_entry node eqb m (k0, s)))).
    { rewrite count_entry_keys. intros z Hz. apply Hincl. right. exact Hz. }
    destruct (IH _ k _ Hnd' Hincl' H1) as [Hkeys Hget].
    split; [rewrite Hkeys; apply count_entry_keys|].
    rewrite Hget. cbn [degree_in degree_out map snd List.concat GraphUtils.map_get].
    rewrite filter_app, length_app. f_equal. f_equal; [lia|].
    destruct (eqb k k0) eqn:E; [|reflexivity].
    apply eqb_spec in E. subst k0.
    assert (En : map_get k es = None) by (apply map_get_None; exact Hk0).
    rewrite En. reflexivity.
Qed.

Lemma init_fold : forall (V : Type) (v : V) ks (m : jsmap node V),
    NoDup (keys m ++ ks) ->
    fold_left (fun m n => map_set n v m) ks m = m ++ map (fun k => (k, v)) ks.
Proof.
  intros V v. induction ks as [|k ks IH]; intros m Hnd; simpl.
  - rewrite app_nil_r. reflexivity.
  - assert (Hk : ~ In k (keys m)).
    { apply NoDup_remove_2 in Hnd. intros Hin. apply Hnd.
      apply in_or_app. left. exact Hin. }
    rewrite (GraphFacts.map_set_fresh node eqb eqb_spec) by exact Hk. rewrite IH.
    + rewrite <- app_assoc. reflexivity.
    + unfold GraphUtils.keys. rewrite map_app. simpl.
      rewrite <- app_assoc. simpl. exact Hnd.
Qed.

Lemma init_degrees_spec : forall g : GraphUtils.graph node,
    NoDup (keys g) ->
    init_degrees node eqb g = map (fun k => (k, mkDegree 0 0)) (keys g).
Proof.
  intros g Hnd. unfold init_degrees. rewrite init_fold; [reflexivity|].
  simpl. exact Hnd.
Qed.

Lemma map_get_const : forall (V : Type) (v : V) ks k,
    In k ks -> map_get k (map (fun k => (k, v)) ks) = Some v.
Proof.
  intros V v ks k. induction ks as [|k' ks IH]; simpl; intros H; [contradiction|].
  destruct (eqb k k') eqn:E; [reflexivity|].
  apply eqb_neq in E. destruct H as [H | H]; [congruence | apply IH; exact H].
Qed.

(** The degrees [calculateNodeDegrees] records for a key. *)
Lemma calculateNodeDegrees_spec : forall g : GraphUtils.graph node,
    NoDup (keys g) ->
    keys (calculateNodeDegrees node eqb g) = keys g
    /\ forall k, In k (keys g) ->
                 map_get k (calculateNodeDegrees node eqb g)
                 = Some (mkDegree (occ k (List.concat (map snd g)))
                                  (List.length (neighbors g k))).
Proof.
  intros g Hnd. unfold calculateNodeDegrees.
  rewrite (init_degrees_spec g Hnd).
  set (m0 := map (fun k => (k, mkDegree 0 0)) (keys g)).
  assert (Hkeys0 : keys m0 = keys g).
  { unfold m0, GraphUtils.keys. rewrite map_map. simpl. apply map_id. }
  assert (Hincl : incl (keys g) (keys m0)) by (rewrite Hkeys0; apply incl_refl).
  split.
  - rewrite count_entries_keys. exact Hkeys0.
  - intros k Hk.
    assert (H0 : map_get k m0 = Some (mkDegree 0 0)).
    { unfold m0. apply map_get_const. exact Hk. }
    destruct (count_entries_get g m0 k (mkDegree 0 0) Hnd Hincl H0) as [_ H].
    rewrite H. simpl. unfold GraphUtils.neighbors.
    destruct (GraphFacts.In_key_map_get node eqb eqb_spec _ k g Hk) as [s ->].
    reflexivity.
Qed.

Lemma entries_of_map : forall (V : Type) (m : jsmap node V) (f : node -> V),
    NoDup (keys m) ->
    (forall k, In k (keys m) -> map_get k m = Some (f k)) ->
    m = map (fun k => (k, f k)) (keys m).
Proof.
  intros V m f. induction m as [|[k v] m IH]; intros Hnd H; [reflexivity|].
  simpl. inversion Hnd as [|? ? Hk Hnd']. subst.
  pose proof (H k (or_introl eq_refl)) as Hk0. simpl in Hk0.
  rewrite eqb_refl in Hk0. inversion Hk0. subst v. f_equal.
  apply IH; [exact Hnd'|]. intros k' Hk'. specialize (H k' (or_intror Hk')).
  simpl in H. destruct (eqb k' k) eqn:E; [|exact H].
  apply eqb_spec in E. subst k'. contradiction.
Qed.

Lemma occ_zero : forall k l, occ k l = 0 <-> ~ In k l.
Proof.
  intros k l. induction l as [|n l IH]; simpl; [tauto|].
  destruct (eqb n k) eqn:E; simpl.
  - apply eqb_spec in E. subst n. split; [discriminate | intros H; exfalso; auto].
  - apply eqb_neq in E. rewrite IH. split.
    + intros H [H1 | H1]; [congruence | contradiction].
    + intros H H1. apply H. right. exact H1.
Qed.

Lemma in_successors : forall (g : GraphUtils.graph node) v,
    NoDup (keys g) ->
    (In v (List.concat (map snd g)) <-> exists u, edge g u v).
Proof.
  intros g v Hnd. rewrite in_concat. split.
  - intros [s [Hs Hv]]. apply in_map_iff in Hs. destruct Hs as [[u s'] [<- Hin]].
    exists u. apply (GraphFacts.edge_entry node eqb). exists s'. split; [|exact Hv].
    apply (GraphFacts.In_map_get node eqb eqb_spec); assumption.
  - intros [u Hu]. apply (GraphFacts.edge_entry node eqb) in Hu.
    destruct Hu as [s [E Hv]]. exists s. split; [|exact Hv].
    apply (GraphFacts.map_get_In node eqb eqb_spec) in E.
    change s with (snd (u, s)). apply in_map. exact E.
Qed.

Lemma findSourceNodes_spec : forall (g : GraphUtils.graph node) v,
    NoDup (keys g) ->
    (In v (findSourceNodes node eqb g)
     <-> In v (keys g) /\ forall u, ~ edge g u v).
Proof.
  intros g v Hnd. destruct (calculateNodeDegrees_spec g Hnd) as [Hk Hget].
  unfold findSourceNodes.
  assert (Hnd' : NoDup (keys (calculateNodeDegrees node eqb g)))
    by (rewrite Hk; exact Hnd).
  rewrite in_map_iff. split.
  - intros [[k d] [<- Hin]]. apply filter_In in Hin. destruct Hin as [Hin Hz].
    cbn [fst snd] in *.
    assert (Hkk : In k (keys g)).
    { rewrite <- Hk. change k with (fst (k, d)). apply in_map. exact Hin. }
    split; [exact Hkk|].
    apply (GraphFacts.In_map_get node eqb eqb_spec _ _ _ _ Hnd') in Hin.
    rewrite (Hget k Hkk) in Hin. inversion Hin. subst d. simpl in Hz.
    apply Nat.eqb_eq in Hz. apply occ_zero in Hz.
    intros u Hu. apply Hz. apply in_successors; [exact Hnd | exists u; exact Hu].
  - intros [Hkk Hno].
    exists (v, mkDegree (occ v (List.concat (map snd g)))
                        (List.length (neighbors g v))).
    split; [reflexivity|]. apply filter_In. split.
    + apply (GraphFacts.map_get_In node eqb eqb_spec). apply Hget. exact Hkk.
    + simpl. apply Nat.eqb_eq. apply occ_zero. intros Hin.
      apply in_successors in Hin; [|exact Hnd]. destruct Hin as [u Hu].
      exact (Hno u Hu).
Qed.

Lemma findSinkNodes_spec : forall (g : GraphUtils.graph node) v,
    NoDup (keys g) ->
    (In v (findSinkNodes node eqb g)
     <-> In v (keys g) /\ forall w, ~ edge g v w).
Proof.
  intros g v Hnd. destruct (calculateNodeDegrees_spec g Hnd) as [Hk Hget].
  unfold findSinkNodes.
  assert (Hnd' : NoDup (keys (calculateNodeDegrees node eqb g)))
    by (rewrite Hk; exact Hnd).
  rewrite in_map_iff. split.
  - intros [[k d] [<- Hin]]. apply filter_In in Hin. destruct Hin as [Hin Hz].
    cbn [fst snd] in *.
    assert (Hkk : In k (keys g)).
    { rewrite <- Hk. change k with (fst (k, d)). apply in_map. exact Hin. }
    split; [exact Hkk|].
    apply (GraphFacts.In_map_get node eqb eqb_spec _ _ _ _ Hnd') in Hin.
    rewrite (Hget k Hkk) in Hin. inversion Hin. subst d. simpl in Hz.
    apply Nat.eqb_eq in Hz. apply length_zero_iff_nil in Hz.
    intros w Hw. unfold GraphSpec.edge in Hw. rewrite Hz in Hw. exact Hw.
  - intros [Hkk Hno].
    exists (v, mkDegree (occ v (List.concat (map snd g)))
                        (List.length (neighbors g v))).
    split; [reflexivity|]. apply filter_In. split.
    + apply (GraphFacts.map_get_In node eqb eqb_spec). apply Hget. exact Hkk.
    + simpl. apply Nat.eqb_eq. destruct (neighbors g v) as [|w l] eqn:E;
        [reflexivity|]. exfalso. apply (Hno w). unfold GraphSpec.edge.
      rewrite E. left. reflexivity.
Qed.

Lemma NoDup_app_disjoint : forall (A B : list node) x,
    NoDup (A ++ B) -> In x A -> In x B -> False.
Proof.
  induction A as [|a A IH]; intros B x Hnd HA HB; [contradiction|].
  simpl in Hnd. inversion Hnd as [|? ? Ha Hnd']. subst.
  destruct HA as [-> | HA].
  - apply Ha. apply in_or_app. right. exact HB.
  - eapply IH; eassumption.
Qed.

Lemma last_in_tail : forall (l' X : list node) z w l3,
    l' ++ [z] = X ++ w :: l3 -> In z (w :: l3).
Proof.
  intros l' X z w l3 H.
  destruct (GraphFacts.list_last_cases node l3) as [-> | [l3' [a ->]]].
  - change (X ++ [w]) with (X ++ [w]) in H. apply app_inj_tail in H.
    destruct H as [_ ->]. left. reflexivity.
  - change (X ++ w :: l3' ++ [a]) with (X ++ (w :: l3') ++ [a]) in H.
    rewrite app_assoc in H. apply app_inj_tail in H. destruct H as [_ ->].
    right. apply in_or_app. right. left. reflexivity.
Qed.

(** A non-empty well-formed graph without a cycle has a node without
    predecessor and a node without successor. *)
Lemma acyclic_has_source_and_sink : forall g,
    map_ok g -> closed g -> keys g <> [] -> ~ has_cycle g ->
    (exists v, In v (keys g) /\ forall u, ~ edge g u v)
    /\ (exists v, In v (keys g) /\ forall w, ~ edge g v w).
Proof.
  intros g Hok Hcl Hne Hacyc.
  destruct (GraphFacts.topologicalSort_spec node eqb eqb_spec g Hok Hcl)
    as [order [_ [Hnull Hsorted]]].
  destruct order as [l|]; [|exfalso; apply Hacyc; apply Hnull; reflexivity].
  destruct (Hsorted l eq_refl) as [Hperm Hord].
  assert (Hnd : NoDup l).
  { eapply Permutation_NoDup; [apply Permutation_sym; exact Hperm | exact (proj1 Hok)]. }
  split.
  - destruct l as [|h t].
    + apply Permutation_nil in Hperm. congruence.
    + exists h. split; [eapply Permutation_in; [exact Hperm | left; reflexivity]|].
      intros u Hu. destruct (Hord u h Hu) as [l1 [l2 [l3 E]]].
      rewrite E in Hnd.
      replace (l1 ++ u :: l2 ++ h :: l3) with ((l1 ++ [u]) ++ (l2 ++ h :: l3)) in Hnd
        by (rewrite <- app_assoc; reflexivity).
      apply (NoDup_app_disjoint _ _ h Hnd).
      * destruct l1 as [|a l1]; simpl in E; inversion E; left; reflexivity.
      * apply in_or_app. right. left. reflexivity.
  - destruct (GraphFacts.list_last_cases node l) as [-> | [l' [z ->]]].
    + apply Permutation_nil in Hperm. congruence.
    + exists z. split.
      * eapply Permutation_in; [exact Hperm|]. apply in_or_app. right. left.
        reflexivity.
      * intros w Hw. destruct (Hord z w Hw) as [l1 [l2 [l3 E]]].
        assert (Hz : In z (w :: l3)).
        { apply (last_in_tail l' (l1 ++ z :: l2)). rewrite E.
          rewrite <- app_assoc. reflexivity. }
        rewrite E in Hnd.
        replace (l1 ++ z :: l2 ++ w :: l3) with ((l1 ++ [z]) ++ (l2 ++ w :: l3)) in Hnd
          by (rewrite <- app_assoc; reflexivity).
        apply (NoDup_app_disjoint _ _ z Hnd).
        -- apply in_or_app. right. left. reflexivity.
        -- apply in_or_app. right. exact Hz.
Qed.

Lemma fold_sum : forall (A : Type) (f : A -> nat) (l : list A) (a : nat),
    fold_left (fun sum e => sum + f e) l a = a + list_sum (map f l).
Proof.
  intros A f l. induction l as [|x l IH]; intros a; simpl; [lia|].
  rewrite IH. lia.
Qed.

Lemma sum_indicator : forall (ks : list node) n,
    NoDup ks ->
    list_sum (map (fun k => if eqb n k then 1 else 0) ks)
    = if set_has n ks then 1 else 0.
Proof.
  intros ks n. induction ks as [|k ks IH]; intros Hnd; simpl; [reflexivity|].
  inversion Hnd as [|? ? Hk Hnd']. subst. rewrite (IH Hnd').
  destruct (eqb n k) eqn:E; simpl; [|reflexivity].
  apply eqb_spec in E. subst k.
  assert (E' : set_has n ks = false) by (apply set_has_not_In; exact Hk).
  rewrite E'. reflexivity.
Qed.

Lemma sum_occ : forall (ks l : list node),
    NoDup ks ->
    list_sum (map (fun k => occ k l) ks)
    = List.length (filter (fun n => set_has n ks) l).
Proof.
  intros ks l Hnd. induction l as [|n l IH].
  - simpl. induction ks as [|k ks IHk]; simpl; [reflexivity|].
    inversion Hnd. auto.
  - assert (Hsplit : forall ks',
               list_sum (map (fun k => occ k (n :: l)) ks')
               = list_sum (map (fun k => if eqb n k then 1 else 0) ks')
                 + list_sum (map (fun k => occ k l) ks')).
    { induction ks' as [|k ks' IHk]; simpl; [reflexivity|].
      simpl in IHk. rewrite IHk. destruct (eqb n k); simpl; lia. }
    rewrite Hsplit, IH, (sum_indicator ks n Hnd). simpl.
    destruct (set_has n ks); simpl; lia.
Qed.

Lemma sum_out_degrees : forall g : GraphUtils.graph node,
    NoDup (keys g) ->
    list_sum (map (fun k => List.length (neighbors g k)) (keys g))
    = edge_count node g.
Proof.
  intros g Hnd. unfold edge_count.
  assert (H : forall es : GraphUtils.graph node,
             incl es g ->
             list_sum (map (fun k => List.length (neighbors g k)) (keys es))
             = List.length (List.concat (map snd es))).
  { induction es as [|[k s] es IH]; intros Hincl; simpl; [reflexivity|].
    rewrite length_app, IH by (intros z Hz; apply Hincl; right; exact Hz).
    f_equal. unfold GraphUtils.neighbors.
    rewrite (GraphFacts.In_map_get node eqb eqb_spec _ k g s Hnd);
      [reflexivity | apply Hincl; left; reflexivity]. }
  apply H. apply incl_refl.
Qed.

Lemma degree_totals : forall g : GraphUtils.graph node,
    NoDup (keys g) ->
    totalOutDegree node eqb g = edge_count node g
    /\ totalInDegree node eqb g
       = List.length (filter (fun n => set_has n (keys g))
                             (List.concat (map snd g))).
Proof.
  intros g Hnd. destruct (calculateNodeDegrees_spec g Hnd) as [Hk Hget].
  assert (Hnd' : NoDup (keys (calculateNodeDegrees node eqb g)))
    by (rewrite Hk; exact Hnd).
  pose proof (entries_of_map _ (calculateNodeDegrees node eqb g)
                (fun k => mkDegree (occ k (List.concat (map snd g)))
                                   (List.length (neighbors g k))) Hnd') as He.
  rewrite Hk in He. specialize (He Hget).
  unfold totalOutDegree, totalInDegree. rewrite !fold_sum. rewrite He.
  rewrite !map_map. cbn [snd degree_in degree_out]. simpl. split.
  - apply sum_out_degrees. exact Hnd.
  - apply sum_occ. exact Hnd.
Qed.

Lemma has_cycle_dec : forall g, has_cycle g \/ ~ has_cycle g.
Proof.
  intros g.
  destruct (GraphFacts.detectCycles_spec node eqb eqb_spec g) as [cycles [_ H]].
  destruct cycles as [|c cs].
  - right. intros Hc. apply H in Hc. congruence.
  - left. apply H. discriminate.
Qed.

Lemma isAcyclic_spec_true : forall g,
    isAcyclic node eqb g = Some true -> ~ has_cycle g.
Proof.
  intros g E Hc. apply (proj1 (isAcyclic_spec g)) in Hc. congruence.
Qed.

End Graph.

(** X1.  [addEdge(graph, from, to)] adds the two endpoints to the keys
    and the one edge to the graph, changes nothing else, and calling it
    again with the same endpoints leaves the graph as it is. *)
Theorem X1_addEdge_adds_exactly_one_edge :
  forall (node : Type) (eqb : node -> node -> bool),
    (forall a b, eqb a b = true <-> a = b) ->
    forall (g : GraphUtils.graph node) (a b : node),
      (forall k, In k (GraphUtils.keys node (addEdge node eqb g a b))
                 <-> In k (GraphUtils.keys node g) \/ k = a \/ k = b)
      /\ (forall u v, GraphSpec.edge node eqb (addEdge node eqb g a b) u v
                      <-> GraphSpec.edge node eqb g u v \/ (u = a /\ v = b))
      /\ addEdge node eqb (addEdge node eqb g a b) a b = addEdge node eqb g a b.
Proof.
  intros node eqb eqb_spec g a b. split; [|split].
  - intros k. apply keys_addEdge. exact eqb_spec.
  - intros u v. apply edge_addEdge. exact eqb_spec.
  - apply addEdge_idempotent. exact eqb_spec.
Qed.

Lemma X1_addEdge_witness :
  (forall k, In k (GraphUtils.keys nat (addEdge nat Nat.eqb dangling 2 3))
             <-> In k (GraphUtils.keys nat dangling) \/ k = 2 \/ k = 3)
  /\ (forall u v, GraphSpec.edge nat Nat.eqb (addEdge nat Nat.eqb dangling 2 3) u v
                  <-> GraphSpec.edge nat Nat.eqb dangling u v \/ (u = 2 /\ v = 3))
  /\ addEdge nat Nat.eqb (addEdge nat Nat.eqb dangling 2 3) 2 3
     = addEdge nat Nat.eqb dangling 2 3.
Proof.
  exact (X1_addEdge_adds_exactly_one_edge nat Nat.eqb Nat.eqb_eq dangling 2 3).
Defined.

(** X2.  The graph that [createGraph(nodes)] and any sequence of
    [addEdge] calls build has distinct keys, duplicate-free successor
    sets and every successor among its keys; its keys are the given
    nodes and the endpoints, and its edges are exactly the added pairs. *)
Theorem X2_createGraph_addEdge_build_well_formed_graph :
  forall (node : Type) (eqb : node -> node -> bool),
    (forall a b, eqb a b = true <-> a = b) ->
    forall (nodes : list node) (es : list (node * node)),
      GraphSpec.map_ok node (graph_of_edges node eqb nodes es)
      /\ GraphSpec.closed node eqb (graph_of_edges node eqb nodes es)
      /\ (forall k, In k (GraphUtils.keys node (graph_of_edges node eqb nodes es))
                    <-> In k nodes
                        \/ exists e, In e es /\ (k = fst e \/ k = snd e))
      /\ (forall u v, GraphSpec.edge node eqb (graph_of_edges node eqb nodes es) u v
                      <-> In (u, v) es).
Proof.
  intros node eqb eqb_spec nodes es. apply graph_of_edges_spec. exact eqb_spec.
Qed.

Lemma X2_createGraph_addEdge_witness :
  GraphSpec.map_ok nat (graph_of_edges nat Nat.eqb [7] [(1, 2); (2, 3); (1, 2)])
  /\ GraphSpec.closed nat Nat.eqb
       (graph_of_edges nat Nat.eqb [7] [(1, 2); (2, 3); (1, 2)])
  /\ (forall k, In k (GraphUtils.keys nat
                        (graph_of_edges nat Nat.eqb [7] [(1, 2); (2, 3); (1, 2)]))
                <-> In k [7]
                    \/ exists e, In e [(1, 2); (2, 3); (1, 2)]
                                 /\ (k = fst e \/ k = snd e))
  /\ (forall u v, GraphSpec.edge nat Nat.eqb
                    (graph_of_edges nat Nat.eqb [7] [(1, 2); (2, 3); (1, 2)]) u v
                  <-> In (u, v) [(1, 2); (2, 3); (1, 2)]).
Proof.
  exact (X2_createGraph_addEdge_build_well_formed_graph nat Nat.eqb Nat.eqb_eq
           [7] [(1, 2); (2, 3); (1, 2)]).
Defined.

(** X3.  On every map, [isAcyclic(graph)] returns, and it is [false]
    exactly when the graph contains a cycle: a path of one or more edges
    from a node back to itself. *)
Theorem X3_isAcyclic_decides_cycles :
  forall (node : Type) (eqb : node -> node -> bool),
    (forall a b, eqb a b = true <-> a = b) ->
    forall g : GraphUtils.graph node,
      (GraphSpec.has_cycle node eqb g <-> isAcyclic node eqb g = Some false)
      /\ (~ GraphSpec.has_cycle node eqb g <-> isAcyclic node eqb g = Some true).
Proof.
  intros node eqb eqb_spec g.
  destruct (isAcyclic_spec node eqb eqb_spec g) as [H1 H2].
  destruct (has_cycle_dec node eqb eqb_spec g) as [Hc | Hn].
  - pose proof (H1 Hc) as E. split; split.
    + intros _. exact E.
    + intros _. exact Hc.
    + intros Hn. contradiction.
    + intros E'. congruence.
  - pose proof (H2 Hn) as E. split; split.
    + intros Hc. contradiction.
    + intros E'. congruence.
    + intros _. exact E.
    + intros _. exact Hn.
Qed.

Lemma X3_isAcyclic_witness :
  (GraphSpec.has_cycle nat Nat.eqb triangle <-> isAcyclic nat Nat.eqb triangle = Some false)
  /\ (~ GraphSpec.has_cycle nat Nat.eqb triangle
      <-> isAcyclic nat Nat.eqb triangle = Some true).
Proof.
  exact (X3_isAcyclic_decides_cycles nat Nat.eqb Nat.eqb_eq triangle).
Defined.

(** X4.  The first cycle in the result of [detectCycles] is a simple
    cycle of the graph: it follows the edges, ends at the node it starts
    from, and repeats no other node. *)
Theorem X4_detectCycles_first_cycle_is_simple :
  forall (node : Type) (eqb : node -> node -> bool),
    (forall a b, eqb a b = true <-> a = b) ->
    forall (g : GraphUtils.graph node) (c : list node) (rest : list (list node)),
      detectCycles node eqb g = Some (c :: rest) ->
      GraphSpec.simple_cycle node eqb g c.
Proof.
  intros node eqb eqb_spec g c rest H. unfold detectCycles in H.
  eapply detectCycles_loop_first; [exact eqb_spec | exact H | reflexivity | reflexivity].
Qed.

Lemma X4_detectCycles_first_cycle_witness :
  detectCycles nat Nat.eqb triangle = Some ([1; 2; 3; 1] :: [])
  /\ GraphSpec.simple_cycle nat Nat.eqb triangle [1; 2; 3; 1].
Proof.
  split; [reflexivity|].
  apply (X4_detectCycles_first_cycle_is_simple nat Nat.eqb Nat.eqb_eq triangle
           [1; 2; 3; 1] []).
  reflexivity.
Defined.

(** X5.  After [addBidirectionalEdge(graph, nodeA, nodeB)] the graph
    always contains a cycle (through the two opposite edges): [isAcyclic]
    is [false], and on a well-formed graph [topologicalSort] is [null]. *)
Theorem X5_addBidirectionalEdge_makes_graph_cyclic :
  forall (node : Type) (eqb : node -> node -> bool),
    (forall a b, eqb a b = true <-> a = b) ->
    forall (g : GraphUtils.graph node) (a b : node),
      GraphSpec.has_cycle node eqb (addBidirectionalEdge node eqb g a b)
      /\ isAcyclic node eqb (addBidirectionalEdge node eqb g a b) = Some false
      /\ (GraphSpec.map_ok node g -> GraphSpec.closed node eqb g ->
          topologicalSort node eqb (addBidirectionalEdge node eqb g a b)
          = Some None).
Proof.
  intros node eqb eqb_spec g a b.
  pose proof (addBidirectionalEdge_cycle node eqb eqb_spec g a b) as Hc.
  split; [exact Hc|]. split.
  - apply (isAcyclic_spec node eqb eqb_spec). exact Hc.
  - intros Hok Hcl. unfold addBidirectionalEdge in *.
    destruct (GraphFacts.addEdge_well_formed node eqb eqb_spec g a b Hok Hcl)
      as [Hok1 [Hcl1 _]].
    destruct (GraphFacts.addEdge_well_formed node eqb eqb_spec _ b a Hok1 Hcl1)
      as [Hok2 [Hcl2 _]].
    destruct (GraphFacts.topologicalSort_spec node eqb eqb_spec _ Hok2 Hcl2)
      as [order [E [Hnull _]]].
    rewrite E. f_equal. apply Hnull. exact Hc.
Qed.

Lemma X5_addBidirectionalEdge_witness :
  GraphSpec.has_cycle nat Nat.eqb (addBidirectionalEdge nat Nat.eqb chain3 1 3)
  /\ isAcyclic nat Nat.eqb (addBidirectionalEdge nat Nat.eqb chain3 1 3) = Some false
  /\ (GraphSpec.map_ok nat chain3 -> GraphSpec.closed nat Nat.eqb chain3 ->
      topologicalSort nat Nat.eqb (addBidirectionalEdge nat Nat.eqb chain3 1 3)
      = Some None).
Proof.
  exact (X5_addBidirectionalEdge_makes_graph_cyclic nat Nat.eqb Nat.eqb_eq chain3 1 3).
Defined.

(** X6.  [getReachableNodes(graph, startNode)] returns, without
    repetition, exactly the nodes other than [startNode] that a path of
    one or more edges reaches from [startNode]. *)
Theorem X6_getReachableNodes_exact :
  forall (node : Type) (eqb : node -> node -> bool),
    (forall a b, eqb a b = true <-> a = b) ->
    forall (g : GraphUtils.graph node) (startNode : node),
      exists r,
        getReachableNodes node eqb g startNode = Some r
        /\ NoDup r
        /\ forall v, In v r <-> v <> startNode /\ GraphSpec.reaches node eqb g startNode v.
Proof.
  intros node eqb eqb_spec g a. apply getReachableNodes_spec. exact eqb_spec.
Qed.

Lemma X6_getReachableNodes_witness :
  exists r,
    getReachableNodes nat Nat.eqb triangle 2 = Some r
    /\ NoDup r
    /\ forall v, In v r <-> v <> 2 /\ GraphSpec.reaches nat Nat.eqb triangle 2 v.
Proof.
  exact (X6_getReachableNodes_exact nat Nat.eqb Nat.eqb_eq triangle 2).
Defined.

(** X7.  On a map with distinct keys, [findSourceNodes(graph)] lists
    exactly the keys that no edge enters, and [findSinkNodes(graph)]
    exactly the keys that no edge leaves. *)
Theorem X7_source_and_sink_nodes :
  forall (node : Type) (eqb : node -> node -> bool),
    (forall a b, eqb a b = true <-> a = b) ->
    forall g : GraphUtils.graph node,
      NoDup (GraphUtils.keys node g) ->
      (forall v, In v (findSourceNodes node eqb g)
                 <-> In v (GraphUtils.keys node g)
                     /\ forall u, ~ GraphSpec.edge node eqb g u v)
      /\ (forall v, In v (findSinkNodes node eqb g)
                    <-> In v (GraphUtils.keys node g)
                        /\ forall w, ~ GraphSpec.edge node eqb g v w).
Proof.
  intros node eqb eqb_spec g Hnd. split; intros v.
  - apply findSourceNodes_spec; assumption.
  - apply findSinkNodes_spec; assumption.
Qed.

Lemma X7_source_and_sink_nodes_witness :
  (forall v, In v (findSourceNodes nat Nat.eqb diamond)
             <-> In v (GraphUtils.keys nat diamond)
                 /\ forall u, ~ GraphSpec.edge nat Nat.eqb diamond u v)
  /\ (forall v, In v (findSinkNodes nat Nat.eqb diamond)
                <-> In v (GraphUtils.keys nat diamond)
                    /\ forall w, ~ GraphSpec.edge nat Nat.eqb diamond v w).
Proof.
  apply (X7_source_and_sink_nodes nat Nat.eqb Nat.eqb_eq diamond).
  apply (GraphFacts.nodupb_NoDup nat Nat.eqb Nat.eqb_eq). reflexivity.
Defined.

(** X8.  On a non-empty well-formed graph without a cycle,
    [findSourceNodes] and [findSinkNodes] both return at least one node. *)
Theorem X8_acyclic_graph_has_source_and_sink :
  forall (node : Type) (eqb : node -> node -> bool),
    (forall a b, eqb a b = true <-> a = b) ->
    forall g : GraphUtils.graph node,
      GraphSpec.map_ok node g -> GraphSpec.closed node eqb g ->
      GraphUtils.keys node g <> [] ->
      ~ GraphSpec.has_cycle node eqb g ->
      findSourceNodes node eqb g <> [] /\ findSinkNodes node eqb g <> [].
Proof.
  intros node eqb eqb_spec g Hok Hcl Hne Hacyc.
  destruct (acyclic_has_source_and_sink node eqb eqb_spec g Hok Hcl Hne Hacyc)
    as [[v [Hv Hsrc]] [w [Hw Hsink]]].
  split.
  - assert (H : In v (findSourceNodes node eqb g))
      by (apply (findSourceNodes_spec node eqb eqb_spec); [exact (proj1 Hok) | auto]).
    intros E. rewrite E in H. exact H.
  - assert (H : In w (findSinkNodes node eqb g))
      by (apply (findSinkNodes_spec node eqb eqb_spec); [exact (proj1 Hok) | auto]).
    intros E. rewrite E in H. exact H.
Qed.

Lemma X8_acyclic_graph_witness :
  findSourceNodes nat Nat.eqb diamond <> [] /\ findSinkNodes nat Nat.eqb diamond <> [].
Proof.
  apply (X8_acyclic_graph_has_source_and_sink nat Nat.eqb Nat.eqb_eq diamond).
  - apply (GraphFacts.map_okb_sound nat Nat.eqb Nat.eqb_eq). reflexivity.
  - apply (GraphFacts.closedb_sound nat Nat.eqb Nat.eqb_eq). reflexivity.
  - discriminate.
  - apply (isAcyclic_spec_true nat Nat.eqb Nat.eqb_eq). reflexivity.
Defined.

(** X9.  On a map with distinct keys the out-degrees that
    [calculateNodeDegrees] records add up to the number of edges, the
    in-degrees to at most that number, and to exactly that number when
    every successor is itself a key. *)
Theorem X9_degree_sums :
  forall (node : Type) (eqb : node -> node -> bool),
    (forall a b, eqb a b = true <-> a = b) ->
    forall g : GraphUtils.graph node,
      NoDup (GraphUtils.keys node g) ->
      totalOutDegree node eqb g = edge_count node g
      /\ totalInDegree node eqb g <= edge_count node g
      /\ (GraphSpec.closed node eqb g ->
          totalInDegree node eqb g = totalOutDegree node eqb g).
Proof.
  intros node eqb eqb_spec g Hnd.
  destruct (degree_totals node eqb eqb_spec g Hnd) as [Hout Hin].
  split; [exact Hout|]. split.
  - rewrite Hin. unfold edge_count. apply filter_length_le.
  - intros Hcl. rewrite Hout, Hin. unfold edge_count. f_equal.
    apply forallb_filter_id. apply forallb_forall. intros v Hv.
    apply (GraphFacts.set_has_In node eqb eqb_spec).
    apply (in_successors node eqb eqb_spec g v Hnd) in Hv.
    destruct Hv as [u Hu]. exact (Hcl u v Hu).
Qed.

Lemma X9_degree_sums_witness :
  totalOutDegree nat Nat.eqb diamond = edge_count nat diamond
  /\ totalInDegree nat Nat.eqb diamond <= edge_count nat diamond
  /\ (GraphSpec.closed nat Nat.eqb diamond ->
      totalInDegree nat Nat.eqb diamond = totalOutDegree nat Nat.eqb diamond).
Proof.
  apply (X9_degree_sums nat Nat.eqb Nat.eqb_eq diamond).
  apply (GraphFacts.nodupb_NoDup nat Nat.eqb Nat.eqb_eq). reflexivity.
Defined.

End GraphExtras.

(* ================================================================== *)
(** * Part XI.  Path search in the graph utilities                       *)
(* ================================================================== *)

Module GraphSearch.

Import GraphUtils GraphSpec.
Local Open Scope list_scope.
Local Open Scope nat_scope.

Section Graph.

Variable node : Type.
Variable eqb : node -> node -> bool.
Hypothesis eqb_spec : forall a b, eqb a b = true <-> a = b.

Local Abbreviation set_has := (GraphUtils.set_has node eqb).
Local Abbreviation set_add := (GraphUtils.set_add node eqb).
Local Abbreviation set_delete := (GraphUtils.set_delete node eqb).
Local Abbreviation neighbors := (GraphUtils.neighbors node eqb).
Local Abbreviation keys := (GraphUtils.keys node).
Local Abbreviation last_node := (GraphUtils.last_node node).
Local Abbreviation edge := (GraphSpec.edge node eqb).
Local Abbreviation reaches := (GraphSpec.reaches node eqb).
Local Abbreviation walk := (GraphSpec.walk node eqb).
Local Abbreviation path_to := (GraphSpec.path_to node eqb).
Local Abbreviation path_between := (GraphSpec.path_between node eqb).
Local Abbreviation within := (GraphSpec.within node eqb).
Local Abbreviation bfs_inv := (GraphSpec.bfs_inv node eqb).
Local Abbreviation unvisited := (GraphSpec.unvisited node eqb).

Local Abbreviation eqb_refl := (GraphFacts.eqb_refl node eqb eqb_spec).
Local Abbreviation eqb_neq := (GraphFacts.eqb_neq node eqb eqb_spec).
Local Abbreviation node_eq_dec := (GraphFacts.node_eq_dec node eqb eqb_spec).
Local Abbreviation set_has_In := (GraphFacts.set_has_In node eqb eqb_spec).
Local Abbreviation set_has_not_In := (GraphFacts.set_has_not_In node eqb eqb_spec).
Local Abbreviation set_add_In := (GraphFacts.set_add_In node eqb eqb_spec).
Local Abbreviation set_delete_In := (GraphFacts.set_delete_In node eqb eqb_spec).

(** *** Paths *)

Lemma last_node_snoc : forall (p : list node) w, last_node (p ++ [w]) = Some w.
Proof.
  induction p as [|x p IH]; intros w; [reflexivity|].
  simpl. destruct (p ++ [w]) eqn:E.
  - destruct p; discriminate.
  - rewrite <- E. apply IH.
Qed.

Lemma last_node_cons : forall x y (r : list node),
    last_node (x :: y :: r) = last_node (y :: r).
Proof. reflexivity. Qed.

Lemma walk_snoc_last : forall g (p : list node) v w,
    walk g p -> last_node p = Some v -> edge g v w -> walk g (p ++ [w]).
Proof.
  intros g p v w. induction p as [|x p IH]; intros Hw Hl He; [discriminate|].
  destruct p as [|y r].
  - simpl in Hl. inversion Hl. subst x. simpl. auto.
  - rewrite last_node_cons in Hl.
    change (edge g x y /\ walk g (y :: r)) in Hw.
    change (edge g x y /\ walk g ((y :: r) ++ [w])).
    destruct Hw as [H1 H2]. split; [exact H1 | apply IH; assumption].
Qed.

Lemma walk_app_l : forall g (l1 l2 : list node), walk g (l1 ++ l2) -> walk g l1.
Proof.
  intros g l1. induction l1 as [|x l1 IH]; intros l2 H; [exact I|].
  destruct l1 as [|y r]; [exact I|].
  change (edge g x y /\ walk g ((y :: r) ++ l2)) in H.
  change (edge g x y /\ walk g (y :: r)).
  destruct H as [H1 H2]. split; [exact H1 | eapply IH; exact H2].
Qed.

Lemma walk_last_edge : forall g (l : list node) u b,
    walk g (l ++ [b]) -> last_node l = Some u -> edge g u b.
Proof.
  intros g l u b. induction l as [|x l IH]; intros Hw Hl; [discriminate|].
  destruct l as [|y r].
  - simpl in Hl. inversion Hl. subst x. simpl in Hw. tauto.
  - rewrite last_node_cons in Hl.
    change (edge g x y /\ walk g ((y :: r) ++ [b])) in Hw.
    apply IH; tauto.
Qed.

Lemma path_to_last : forall g a v p, path_to g a v p -> last_node p = Some v.
Proof.
  intros g a v p H. destruct H; [reflexivity | apply last_node_snoc].
Qed.

Lemma path_to_hd : forall g a v p, path_to g a v p -> hd_error p = Some a.
Proof.
  intros g a v p H. induction H as [|v w p _ IH _]; [reflexivity|].
  destruct p; [discriminate | exact IH].
Qed.

Lemma path_to_walk : forall g a v p, path_to g a v p -> walk g p.
Proof.
  intros g a v p H. induction H as [|v w p Hp IH He]; [exact I|].
  eapply walk_snoc_last; [exact IH | eapply path_to_last; exact Hp | exact He].
Qed.

Lemma path_to_length : forall g a v p, path_to g a v p -> 1 <= List.length p.
Proof.
  intros g a v p H. destruct H; [simpl; lia | rewrite length_app; simpl; lia].
Qed.

Lemma path_to_length_one : forall g a v p,
    path_to g a v p -> List.length p <= 1 -> v = a.
Proof.
  intros g a v p H Hl. destruct H as [|v w p Hp _]; [reflexivity|].
  apply path_to_length in Hp. rewrite length_app in Hl. simpl in Hl. lia.
Qed.

Lemma path_to_between : forall g a v p,
    path_to g a v p -> path_between g a v p.
Proof.
  intros g a v p H. split; [eapply path_to_hd; exact H|].
  split; [eapply path_to_last; exact H | eapply path_to_walk; exact H].
Qed.

Lemma path_between_to : forall g a p b,
    path_between g a b p -> path_to g a b p.
Proof.
  intros g a p. induction p as [|x l IH] using rev_ind; intros b [Hh [Hl Hw]].
  - discriminate.
  - rewrite last_node_snoc in Hl. inversion Hl. subst x.
    destruct l as [|y l'].
    + simpl in Hh. inversion Hh. subst. constructor.
    + destruct (last_node (y :: l')) as [u|] eqn:Eu.
      * apply (path_step node eqb g a u b (y :: l')).
        -- apply IH. split; [exact Hh|]. split; [exact Eu|].
           eapply walk_app_l. exact Hw.
        -- eapply walk_last_edge; eassumption.
      * exfalso. clear - Eu. revert y Eu. induction l' as [|z l' IHl]; intros y Eu.
        -- discriminate.
        -- rewrite last_node_cons in Eu. eapply IHl. exact Eu.
Qed.

Lemma reaches_path : forall g a v,
    reaches g a v -> exists p, path_to g a v p /\ 2 <= List.length p.
Proof.
  intros g a v H. apply clos_trans_tn1 in H.
  induction H as [y Hy | y z Hyz _ [p [Hp Hl]]].
  - exists ([a] ++ [y]). split; [|simpl; lia].
    apply (path_step node eqb g a a y [a]); [constructor | exact Hy].
  - exists (p ++ [z]). split; [|rewrite length_app; simpl; lia].
    eapply path_step; eassumption.
Qed.

Lemma path_reaches : forall g a v p,
    path_to g a v p -> v = a \/ reaches g a v.
Proof.
  intros g a v p H. induction H as [|v w p _ IH He]; [left; reflexivity|].
  right. destruct IH as [-> | IH].
  - apply t_step. exact He.
  - eapply t_trans; [exact IH | apply t_step; exact He].
Qed.

(** The first time a path meets [t]. *)
Lemma first_hit : forall g a t v p,
    path_to g a v p -> In t p -> a <> t ->
    exists u p0, path_to g a u p0 /\ ~ In t p0 /\ edge g u t
                 /\ List.length p0 < List.length p.
Proof.
  intros g a t v p H. induction H as [|v w p Hp IH He]; intros Hin Hne.
  - destruct Hin as [-> | []]. congruence.
  - destruct (in_dec node_eq_dec t p) as [Hp' | Hp'].
    + destruct (IH Hp' Hne) as [u [p0 [H1 [H2 [H3 H4]]]]].
      exists u, p0. rewrite length_app. simpl. repeat split; try assumption. lia.
    + apply in_app_or in Hin. destruct Hin as [Hin | [<- | []]]; [contradiction|].
      exists v, p. rewrite length_app. simpl. repeat split; try assumption. lia.
Qed.

Lemma within_mono : forall g a t n m v,
    n <= m -> within g a t n v -> within g a t m v.
Proof.
  intros g a t n m v Hle [p [H1 [H2 H3]]]. exists p. repeat split; try assumption.
  lia.
Qed.

Lemma within_split : forall g a t n v,
    within g a t (S n) v ->
    within g a t n v \/ (v = a /\ a <> t)
    \/ exists u, within g a t n u /\ edge g u v /\ v <> t.
Proof.
  intros g a t n v [p [Hp [Ht Hl]]]. destruct Hp as [|v w p Hp He].
  - right. left. split; [reflexivity|]. intros ->. apply Ht. left. reflexivity.
  - right. right. exists v. split; [|split; [exact He|]].
    + exists p. split; [exact Hp|]. split.
      * intros Hin. apply Ht. apply in_or_app. left. exact Hin.
      * rewrite length_app in Hl. simpl in Hl. lia.
    + intros ->. apply Ht. apply in_or_app. right. left. reflexivity.
Qed.

(** *** The invariant of the loop of [findShortestPath] *)

Lemma bfs_inv_init : forall g a t,
    a <> t -> bfs_inv g a t 1 [] [a] [[a]] [].
Proof.
  intros g a t Hne. constructor.
  - lia.
  - intros q [<- | []]. exists a. split; [constructor|].
    intros [H | []]. congruence.
  - exists [[a]], []. split; [reflexivity|]. split; repeat constructor.
  - intros v. split.
    + intros [<- | []]. right. exists [a]. split; [left; reflexivity | reflexivity].
    + intros [[] | [q [[<- | []] Hq]]]. simpl in Hq. inversion Hq. left. reflexivity.
  - intros u [].
  - intros v n Hn [p [Hp [_ Hl]]]. apply path_to_length in Hp. lia.
  - intros v [p [Hp [_ Hl]]]. left. symmetry. eapply path_to_length_one; eassumption.
  - intros q v [<- | []] _ n [p [Hp [_ Hl]]]. apply path_to_length in Hp.
    simpl. lia.
Qed.

Lemma bfs_inv_level_up : forall g a t d P V Q,
    bfs_inv g a t d P V Q [] ->
    Forall (fun q => List.length q = S d) Q ->
    bfs_inv g a t (S d) P V Q [].
Proof.
  intros g a t d P V Q [Hd Hpaths Hsorted Hvis Hdone Hbelow Hseen Hshort] Hall.
  assert (Hbelow' : forall v n, n < S d -> within g a t n v -> In v P).
  { intros v n Hn Hw.
    assert (Hv : In v V) by (apply Hseen; eapply within_mono; [|exact Hw]; lia).
    apply Hvis in Hv. destruct Hv as [Hv | [q [Hq Hl]]]; [exact Hv|].
    pose proof (Hshort q v Hq Hl n Hw) as Hle.
    rewrite Forall_forall in Hall. rewrite (Hall q Hq) in Hle. lia. }
  constructor.
  - lia.
  - exact Hpaths.
  - exists Q, []. split; [rewrite app_nil_r; reflexivity|].
    split; [exact Hall | constructor].
  - exact Hvis.
  - exact Hdone.
  - exact Hbelow'.
  - intros v Hw. apply within_split in Hw.
    destruct Hw as [Hw | [[-> Hne] | [u [Hu [He Hvt]]]]].
    + apply Hseen. exact Hw.
    + apply Hseen. exists [a]. split; [constructor|]. split.
      * intros [H | []]. congruence.
      * simpl. lia.
    + assert (Hup : In u P) by (apply (Hbelow' u d); [lia | exact Hu]).
      destruct (Hdone u Hup v He) as [[_ H] | []]. exact H.
  - exact Hshort.
Qed.

Lemma bfs_inv_level_up_empty : forall g a t d P V k,
    bfs_inv g a t d P V [] [] -> bfs_inv g a t (d + k) P V [] [].
Proof.
  intros g a t d P V k H. induction k as [|k IH].
  - rewrite Nat.add_0_r. exact H.
  - rewrite Nat.add_succ_r. apply bfs_inv_level_up; [exact IH | constructor].
Qed.

Lemma bfs_inv_normalize : forall g a t d P V q rest,
    bfs_inv g a t d P V (q :: rest) [] ->
    exists d', bfs_inv g a t d' P V (q :: rest) [] /\ List.length q = d'.
Proof.
  intros g a t d P V q rest H.
  destruct (bfs_sorted _ _ _ _ _ _ _ _ _ _ H) as [Q1 [Q2 [E [H1 H2]]]].
  destruct Q1 as [|q1 Q1].
  - simpl in E. subst Q2. exists (S d). split.
    + apply bfs_inv_level_up; assumption.
    + inversion H2. assumption.
  - exists d. split; [exact H|].
    simpl in E. inversion E. subst q1. inversion H1. assumption.
Qed.

Lemma bfs_inv_dequeue : forall g a t d P V q rest u,
    bfs_inv g a t d P V (q :: rest) [] ->
    List.length q = d -> path_to g a u q ->
    bfs_inv g a t d (P ++ [u]) V rest (map (pair u) (neighbors g u)).
Proof.
  intros g a t d P V q rest u [Hd Hpaths Hsorted Hvis Hdone Hbelow Hseen Hshort]
         Hlen Hq.
  pose proof (path_to_last _ _ _ _ Hq) as Hlast.
  constructor.
  - exact Hd.
  - intros q' Hq'. apply Hpaths. right. exact Hq'.
  - destruct Hsorted as [Q1 [Q2 [E [H1 H2]]]]. destruct Q1 as [|q1 Q1].
    + simpl in E. subst Q2. inversion H2. lia.
    + inversion E. subst. exists Q1, Q2. split; [reflexivity|].
      split; [inversion H1; assumption | exact H2].
  - intros v. rewrite Hvis. split.
    + intros [Hv | [q' [[<- | Hq'] Hl]]].
      * left. apply in_or_app. left. exact Hv.
      * left. apply in_or_app. right. left. congruence.
      * right. exists q'. auto.
    + intros [Hv | [q' [Hq' Hl]]].
      * apply in_app_or in Hv. destruct Hv as [Hv | [<- | []]]; [left; exact Hv|].
        right. exists q. split; [left; reflexivity | exact Hlast].
      * right. exists q'. split; [right; exact Hq' | exact Hl].
  - intros u' Hu' w Hw. apply in_app_or in Hu'. destruct Hu' as [Hu' | [<- | []]].
    + destruct (Hdone u' Hu' w Hw) as [H | []]. left. exact H.
    + right. apply in_map. exact Hw.
  - intros v n Hn Hw. apply in_or_app. left. eapply Hbelow; eassumption.
  - exact Hseen.
  - intros q' v Hq'. apply Hshort. right. exact Hq'.
Qed.

Lemma scan_neighbors_spec : forall g a t d P u q,
    a <> t -> In u P -> path_to g a u q -> ~ In t q -> List.length q = d ->
    (forall n, within g a t n u -> d <= n) ->
    forall ns V Q,
      (forall w, In w ns -> edge g u w) ->
      bfs_inv g a t d P V Q (map (pair u) ns) ->
      match scan_neighbors node eqb t q ns V Q with
      | inl p => path_to g a t p
                 /\ forall p', path_to g a t p' -> List.length p <= List.length p'
      | inr (V', Q') => bfs_inv g a t d P V' Q' []
      end.
Proof.
  intros g a t d P u q Hne HuP Hq Htq Hlen Hmin.
  induction ns as [|n ns IH]; intros V Q Hns Hinv; [exact Hinv|].
  simpl. destruct (eqb n t) eqn:En.
  - apply eqb_spec in En. subst n. split.
    + eapply path_step; [exact Hq | apply Hns; left; reflexivity].
    + intros p' Hp'. rewrite length_app. simpl.
      destruct (le_lt_dec (List.length p') d) as [Hle | Hgt]; [|lia].
      exfalso.
      assert (Hin : In t p').
      { pose proof (path_to_last _ _ _ _ Hp') as Hl. clear - Hl.
        induction p' as [|x p' IHp]; [discriminate|].
        destruct p' as [|y r]; [simpl in Hl; inversion Hl; left; reflexivity|].
        right. apply IHp. exact Hl. }
      destruct (first_hit g a t t p' Hp' Hin Hne) as [u' [p0 [H1 [H2 [H3 H4]]]]].
      assert (Hw : within g a t (List.length p0) u')
        by (exists p0; repeat split; [exact H1 | exact H2 | lia]).
      assert (Hu' : In u' P).
      { apply (bfs_below _ _ _ _ _ _ _ _ _ _ Hinv u' (List.length p0)); [lia | exact Hw]. }
      destruct (bfs_done _ _ _ _ _ _ _ _ _ _ Hinv u' Hu' t H3) as [[Hc _] | Hc];
        [congruence|].
      apply in_map_iff in Hc. destruct Hc as [w [Hc _]]. inversion Hc. subst u'.
      pose proof (Hmin _ Hw). lia.
  - apply eqb_neq in En.
    assert (Hns' : forall w, In w ns -> edge g u w)
      by (intros w Hw; apply Hns; right; exact Hw).
    destruct Hinv as [Hd Hpaths Hsorted Hvis Hdone Hbelow Hseen Hshort].
    destruct (set_has n V) eqn:Ev.
    + apply set_has_In in Ev. apply IH; [exact Hns'|].
      constructor; try assumption.
      intros u' Hu' w Hw.
      destruct (Hdone u' Hu' w Hw) as [H | [H | H]];
        [left; exact H | | right; exact H].
      inversion H. subst. left. split; assumption.
    + apply set_has_not_In in Ev. apply IH; [exact Hns'|].
      constructor.
      * exact Hd.
      * intros q' Hq'. apply in_app_or in Hq'.
        destruct Hq' as [Hq' | [<- | []]]; [apply Hpaths; exact Hq'|].
        exists n. split.
        -- eapply path_step; [exact Hq | apply Hns; left; reflexivity].
        -- intros Hin. apply in_app_or in Hin.
           destruct Hin as [Hin | [Hin | []]]; [contradiction | congruence].
      * destruct Hsorted as [Q1 [Q2 [E [H1 H2]]]].
        exists Q1, (Q2 ++ [q ++ [n]]). split; [rewrite E, app_assoc; reflexivity|].
        split; [exact H1|]. apply Forall_app. split; [exact H2|].
        constructor; [|constructor]. rewrite length_app. simpl. lia.
      * intros v. rewrite set_add_In, Hvis. split.
        -- intros [-> | [Hv | [q' [Hq' Hl]]]].
           ++ right. exists (q ++ [n]). split;
                [apply in_or_app; right; left; reflexivity | apply last_node_snoc].
           ++ left. exact Hv.
           ++ right. exists q'. split; [apply in_or_app; left; exact Hq' | exact Hl].
        -- intros [Hv | [q' [Hq' Hl]]]; [right; left; exact Hv|].
           apply in_app_or in Hq'. destruct Hq' as [Hq' | [<- | []]].
           ++ right. right. exists q'. auto.
           ++ rewrite last_node_snoc in Hl. inversion Hl. left. reflexivity.
      * intros u' Hu' w Hw.
        destruct (Hdone u' Hu' w Hw) as [[H1 H2] | [H | H]].
        -- left. split; [exact H1 | apply set_add_In; right; exact H2].
        -- inversion H. subst. left. split; [exact En|].
           apply set_add_In. left. reflexivity.
        -- right. exact H.
      * exact Hbelow.
      * intros v Hw. apply set_add_In. right. apply Hseen. exact Hw.
      * intros q' v Hq' Hl m Hw. apply in_app_or in Hq'.
        destruct Hq' as [Hq' | [<- | []]]; [eapply Hshort; eassumption|].
        rewrite last_node_snoc in Hl. inversion Hl. subst v.
        rewrite length_app. simpl.
        destruct (le_lt_dec m d) as [Hle | Hgt]; [|lia].
        exfalso. apply Ev. apply Hseen. eapply within_mono; eassumption.
Qed.

Lemma bfs_loop_spec : forall g a t,
    a <> t ->
    forall fuel d P V Q r,
      bfs_inv g a t d P V Q [] ->
      bfs_loop node eqb fuel g t V Q = Some r ->
      match r with
      | None => forall p, ~ path_to g a t p
      | Some p => path_to g a t p
                  /\ forall p', path_to g a t p' -> List.length p <= List.length p'
      end.
Proof.
  intros g a t Hne. induction fuel as [|fuel IH]; intros d P V Q r Hinv H.
  - destruct Q as [|q rest]; [|discriminate]. simpl in H. inversion H. subst r.
    intros p Hp.
    assert (Hin : In t p).
    { pose proof (path_to_last _ _ _ _ Hp) as Hl. clear - Hl.
      induction p as [|x p IHp]; [discriminate|].
      destruct p as [|y r]; [simpl in Hl; inversion Hl; left; reflexivity|].
      right. apply IHp. exact Hl. }
    destruct (first_hit g a t t p Hp Hin Hne) as [u [p0 [H1 [H2 [H3 H4]]]]].
    pose proof (bfs_inv_level_up_empty g a t d P V (S (List.length p0)) Hinv) as Hinv'.
    assert (Hu : In u P).
    { apply (bfs_below _ _ _ _ _ _ _ _ _ _ Hinv' u (List.length p0)); [lia|].
      exists p0. repeat split; [exact H1 | exact H2 | lia]. }
    destruct (bfs_done _ _ _ _ _ _ _ _ _ _ Hinv' u Hu t H3) as [[Hc _] | []].
    congruence.
  - destruct Q as [|q rest].
    + simpl in H. inversion H. subst r. intros p Hp.
      assert (Hin : In t p).
      { pose proof (path_to_last _ _ _ _ Hp) as Hl. clear - Hl.
        induction p as [|x p IHp]; [discriminate|].
        destruct p as [|y r]; [simpl in Hl; inversion Hl; left; reflexivity|].
        right. apply IHp. exact Hl. }
      destruct (first_hit g a t t p Hp Hin Hne) as [u [p0 [H1 [H2 [H3 H4]]]]].
      pose proof (bfs_inv_level_up_empty g a t d P V (S (List.length p0)) Hinv)
        as Hinv'.
      assert (Hu : In u P).
      { apply (bfs_below _ _ _ _ _ _ _ _ _ _ Hinv' u (List.length p0)); [lia|].
        exists p0. repeat split; [exact H1 | exact H2 | lia]. }
      destruct (bfs_done _ _ _ _ _ _ _ _ _ _ Hinv' u Hu t H3) as [[Hc _] | []].
      congruence.
    + destruct (bfs_inv_normalize _ _ _ _ _ _ _ _ Hinv) as [d' [Hinv' Hlen]].
      destruct (bfs_paths _ _ _ _ _ _ _ _ _ _ Hinv' q (or_introl eq_refl))
        as [u [Hq Htq]].
      pose proof (path_to_last _ _ _ _ Hq) as Hlast.
      pose proof (bfs_shortest _ _ _ _ _ _ _ _ _ _ Hinv' q u (or_introl eq_refl) Hlast)
        as Hmin.
      pose proof (bfs_inv_dequeue _ _ _ _ _ _ _ _ _ Hinv' Hlen Hq) as Hinv2.
      cbn [bfs_loop] in H. rewrite Hlast in H.
      assert (HuP : In u (P ++ [u]))
        by (apply in_or_app; right; left; reflexivity).
      pose proof (scan_neighbors_spec g a t d' (P ++ [u]) u q Hne HuP
                    Hq Htq Hlen) as Hscan.
      assert (Hmin' : forall n, within g a t n u -> d' <= n)
        by (intros n Hw; rewrite <- Hlen; apply Hmin; exact Hw).
      specialize (Hscan Hmin' (neighbors g u) V rest (fun w Hw => Hw) Hinv2).
      destruct (scan_neighbors node eqb t q (neighbors g u) V rest)
        as [found | [V1 Q1]].
      * inversion H. subst r. exact Hscan.
      * eapply IH; eassumption.
Qed.

(** *** Termination *)

Lemma scan_neighbors_measure : forall g t q ns V Q,
    incl ns (all_nodes node g) ->
    match scan_neighbors node eqb t q ns V Q with
    | inl _ => True
    | inr (V', Q') =>
        List.length Q' + List.length (unvisited (all_nodes node g) V')
        <= List.length Q + List.length (unvisited (all_nodes node g) V)
    end.
Proof.
  intros g t q ns. induction ns as [|n ns IH]; intros V Q Hincl; simpl; [lia|].
  assert (Hincl' : incl ns (all_nodes node g))
    by (intros z Hz; apply Hincl; right; exact Hz).
  destruct (eqb n t); [exact I|].
  destruct (set_has n V) eqn:Ev; [apply IH; exact Hincl'|].
  apply set_has_not_In in Ev.
  specialize (IH (set_add n V) (Q ++ [q ++ [n]]) Hincl').
  destruct (scan_neighbors node eqb t q ns (set_add n V) (Q ++ [q ++ [n]]))
    as [found | [V1 Q1]]; [exact I|].
  pose proof (GraphFacts.unvisited_add node eqb eqb_spec (all_nodes node g) V n
                (Hincl n (or_introl eq_refl)) Ev).
  rewrite length_app in IH. simpl in IH. lia.
Qed.

Lemma bfs_loop_returns : forall g t fuel V Q,
    List.length Q + List.length (unvisited (all_nodes node g) V) < fuel ->
    exists r, bfs_loop node eqb fuel g t V Q = Some r.
Proof.
  intros g t. induction fuel as [|fuel IH]; intros V Q Hm; [lia|].
  destruct Q as [|q rest]; [eexists; reflexivity|].
  cbn [bfs_loop].
  set (ns := match last_node q with
             | Some x => neighbors g x
             | None => []
             end).
  assert (Hns : incl ns (all_nodes node g)).
  { unfold ns. destruct (last_node q) as [x|]; [|intros z []].
    intros z Hz. eapply (GraphFacts.edge_in_all_nodes node eqb eqb_spec). exact Hz. }
  pose proof (scan_neighbors_measure g t q ns V rest Hns) as Hs.
  destruct (scan_neighbors node eqb t q ns V rest) as [found | [V1 Q1]].
  - eexists. reflexivity.
  - apply IH. simpl in Hm. lia.
Qed.

(** [findShortestPath] returns; the result is [null] exactly when no
    path leads from [start] to [end], and otherwise a path from [start] to
    [end] that no other such path is shorter than. *)
Lemma findShortestPath_spec : forall g a t,
    exists r,
      findShortestPath node eqb g a t = Some r
      /\ (r = None <-> a <> t /\ ~ reaches g a t)
      /\ forall p, r = Some p ->
                   path_between g a t p
                   /\ forall p', path_between g a t p' ->
                                 List.length p <= List.length p'.
Proof.
  intros g a t. unfold findShortestPath. destruct (eqb a t) eqn:E.
  - apply eqb_spec in E. subst t. exists (Some [a]). split; [reflexivity|].
    split; [split; [discriminate | intros [H _]; congruence]|].
    intros p Hp. inversion Hp. subst p. split.
    + apply path_to_between. constructor.
    + intros p' Hp'. apply path_between_to in Hp'. apply path_to_length in Hp'.
      simpl. lia.
  - apply eqb_neq in E.
    destruct (bfs_loop_returns g t (bfs_bound node g) [a] [[a]]) as [r Hr].
    { unfold bfs_bound, GraphSpec.unvisited.
      pose proof (filter_length_le (fun y => negb (set_has y [a])) (all_nodes node g)).
      change (List.length [[a]]) with 1. lia. }
    exists r. split; [exact Hr|].
    pose proof (bfs_loop_spec g a t E _ 1 [] [a] [[a]] r (bfs_inv_init g a t E) Hr)
      as Hspec.
    destruct r as [p|].
    + destruct Hspec as [Hp Hmin]. split.
      * split; [discriminate|]. intros [_ Hno]. exfalso. apply Hno.
        destruct (path_reaches _ _ _ _ Hp) as [Heq | Hreach];
          [congruence | exact Hreach].
      * intros p0 Hp0. inversion Hp0. subst p0.
        split; [apply path_to_between; exact Hp|].
        intros p' Hp'. apply Hmin. apply path_between_to. exact Hp'.
    + split.
      * split; [|reflexivity]. intros _. split; [exact E|].
        intros Hreach. apply reaches_path in Hreach.
        destruct Hreach as [p [Hp _]]. exact (Hspec p Hp).
      * intros p Hp. discriminate.
Qed.

(** *** [findAllPaths] *)

Lemma last_node_In : forall (l : list node) x, last_node l = Some x -> In x l.
Proof.
  induction l as [|y l IH]; intros x H; [discriminate|].
  destruct l as [|z r]; [simpl in H; inversion H; left; reflexivity|].
  right. apply IH. exact H.
Qed.

Lemma last_node_app : forall (l : list node) n r,
    last_node (l ++ n :: r) = last_node (n :: r).
Proof.
  induction l as [|y l IH]; intros n r; [reflexivity|].
  simpl app. rewrite <- (IH n r).
  destruct (l ++ n :: r) eqn:E; [destruct l; discriminate|].
  apply last_node_cons.
Qed.

Lemma walk_app_edge : forall g (l : list node) n r u,
    walk g (l ++ n :: r) -> last_node l = Some u -> edge g u n.
Proof.
  intros g l n r u Hw Hl. apply (walk_last_edge g l u n); [|exact Hl].
  apply (walk_app_l g (l ++ [n]) r). rewrite <- app_assoc. exact Hw.
Qed.

(** The paths that a call of the closure [dfs] of [findAllPaths] with
    the array [c] adds to the output. *)
Local Abbreviation found_from :=
  (fun (g : GraphUtils.graph node) (a t : node) (maxDepth : Z)
       (c p : list node) =>
     (exists ext, p = c ++ ext)
     /\ path_between g a t p /\ NoDup p
     /\ (Z.of_nat (List.length p) <= Z.max maxDepth 1)%Z).

Lemma explore_spec :
  forall g a t maxDepth (rec : search_state node -> option (search_state node))
         cp vis cur,
    last_node cp = Some cur ->
    (forall x, In x vis <-> In x cp) ->
    (forall n paths, edge g cur n -> ~ In n cp ->
        exists new,
          rec (cp ++ [n], set_add n vis, paths)
          = Some (cp ++ [n], set_add n vis, paths ++ new)
          /\ forall p, In p new <-> found_from g a t maxDepth (cp ++ [n]) p) ->
    forall ns paths,
      (forall n, In n ns -> edge g cur n) ->
      exists new,
        explore node eqb rec ns (cp, vis, paths) = Some (cp, vis, paths ++ new)
        /\ forall p, In p new
                     <-> exists n, In n ns /\ ~ In n cp
                                   /\ found_from g a t maxDepth (cp ++ [n]) p.
Proof.
  intros g a t maxDepth rec cp vis cur Hlast Hvis Hrec.
  induction ns as [|n ns IH]; intros paths Hns.
  - exists []. simpl. rewrite app_nil_r. split; [reflexivity|].
    intros p. split; [intros [] | intros [n [[] _]]].
  - assert (Hns' : forall m, In m ns -> edge g cur m)
      by (intros m Hm; apply Hns; right; exact Hm).
    simpl. destruct (set_has n vis) eqn:Ev.
    + apply set_has_In in Ev. apply Hvis in Ev.
      destruct (IH paths Hns') as [new [E Hnew]].
      exists new. split; [exact E|]. intros p. rewrite Hnew. split.
      * intros [m [Hm H]]. exists m. split; [right; exact Hm | exact H].
      * intros [m [[<- | Hm] [Hnot H]]]; [contradiction|].
        exists m. split; [exact Hm | split; assumption].
    + apply set_has_not_In in Ev.
      assert (Hn : ~ In n cp) by (intros Hin; apply Ev; apply Hvis; exact Hin).
      destruct (Hrec n paths (Hns n (or_introl eq_refl)) Hn) as [new1 [E1 Hnew1]].
      rewrite E1. rewrite removelast_last.
      rewrite (GraphFacts.set_delete_add node eqb eqb_spec n vis Ev).
      destruct (IH (paths ++ new1) Hns') as [new2 [E2 Hnew2]].
      exists (new1 ++ new2). rewrite app_assoc. split; [exact E2|].
      intros p. rewrite in_app_iff, Hnew1, Hnew2. split.
      * intros [H | [m [Hm H]]].
        -- exists n. split; [left; reflexivity | split; assumption].
        -- exists m. split; [right; exact Hm | exact H].
      * intros [m [[<- | Hm] [Hnot H]]]; [left; exact H|].
        right. exists m. split; [exact Hm | split; assumption].
Qed.

Lemma paths_dfs_spec :
  forall g a t maxDepth fuel cp vis paths cur,
    path_between g a cur cp -> NoDup cp ->
    (forall x, In x vis <-> In x cp) ->
    (Z.of_nat (List.length cp) <= Z.max maxDepth 1)%Z ->
    1 <= fuel -> Z.to_nat maxDepth < fuel + List.length cp ->
    exists new,
      paths_dfs node eqb fuel g t maxDepth (cp, vis, paths)
      = Some (cp, vis, paths ++ new)
      /\ forall p, In p new <-> found_from g a t maxDepth cp p.
Proof.
  intros g a t maxDepth. induction fuel as [|fuel IH];
    intros cp vis paths cur Hcp Hnd Hvis Hbound Hfuel Hdepth; [lia|].
  destruct Hcp as [Hhd [Hlast Hwalk]].
  cbn [paths_dfs]. rewrite Hlast. destruct (eqb cur t) eqn:Et.
  - apply eqb_spec in Et. subst cur. exists [cp]. split; [reflexivity|].
    intros p. split.
    + intros [<- | []]. split; [exists []; rewrite app_nil_r; reflexivity|].
      split; [split; [exact Hhd | split; assumption]|]. split; assumption.
    + intros [[ext ->] [[_ [Hl _]] [Hnd' _]]]. left.
      destruct ext as [|n r]; [rewrite app_nil_r; reflexivity|].
      exfalso. rewrite last_node_app in Hl. apply last_node_In in Hl.
      apply last_node_In in Hlast. clear - Hnd' Hl Hlast.
      induction cp as [|x cp IHc]; [contradiction|].
      simpl in Hnd'. inversion Hnd' as [|? ? Hx Hnd'']. subst.
      destruct Hlast as [-> | Hlast].
      * apply Hx. apply in_or_app. right. exact Hl.
      * apply IHc; assumption.
  - apply eqb_neq in Et.
    assert (Hext : forall p ext, p = cp ++ ext -> path_between g a t p ->
                                 exists n r, ext = n :: r).
    { intros p ext -> [_ [Hl _]]. destruct ext as [|n r]; [|eauto].
      rewrite app_nil_r in Hl. congruence. }
    destruct (maxDepth <=? Z.of_nat (List.length cp))%Z eqn:Ed.
    + apply Z.leb_le in Ed. exists []. rewrite app_nil_r. split; [reflexivity|].
      intros p. split; [intros []|].
      intros [[ext Hp] [Hpb [_ Hb]]]. destruct (Hext p ext Hp Hpb) as [n [r ->]].
      subst p. rewrite length_app in Hb. simpl in Hb.
      assert (1 <= List.length cp) by (destruct cp; [discriminate | simpl; lia]).
      lia.
    + apply Z.leb_gt in Ed.
      destruct (explore_spec g a t maxDepth
                  (paths_dfs node eqb fuel g t maxDepth) cp vis cur Hlast Hvis)
        with (ns := neighbors g cur) (paths := paths) as [new [E Hnew]].
      * intros n paths' Hn Hnot. apply (IH (cp ++ [n]) _ paths' n).
        -- split; [destruct cp; [discriminate | exact Hhd]|].
           split; [apply last_node_snoc|].
           eapply walk_snoc_last; eassumption.
        -- apply (GraphFacts.NoDup_snoc node); assumption.
        -- intros x. rewrite set_add_In, in_app_iff, Hvis. simpl.
           split; [intros [-> | H]; auto | intros [H | [-> | []]]; auto].
        -- rewrite length_app. simpl. lia.
        -- lia.
        -- rewrite length_app. simpl. lia.
      * intros n Hn. exact Hn.
      * exists new. split; [exact E|]. intros p. rewrite Hnew. split.
        -- intros [n [_ [_ [[ext ->] H]]]]. split; [|exact H].
           exists ([n] ++ ext). rewrite app_assoc. reflexivity.
        -- intros [[ext Hp] [Hpb [Hnd' Hb]]].
           destruct (Hext p ext Hp Hpb) as [n [r ->]]. subst p. exists n.
           assert (He : edge g cur n).
           { destruct Hpb as [_ [_ Hw]]. eapply walk_app_edge; eassumption. }
           split; [exact He|]. split.
           ++ intros Hin. clear - Hnd' Hin.
              induction cp as [|x cp IHc]; [contradiction|].
              simpl in Hnd'. inversion Hnd' as [|? ? Hx Hnd'']. subst.
              destruct Hin as [-> | Hin].
              ** apply Hx. apply in_or_app. right. left. reflexivity.
              ** apply IHc; assumption.
           ++ split; [exists r; rewrite <- app_assoc; reflexivity|].
              split; [exact Hpb | split; assumption].
Qed.

(** [findAllPaths] returns, and its result holds exactly the paths from
    [start] to [end] that repeat no node and have at most [maxDepth]
    nodes (the one-node path when [start] is [end]). *)
Lemma findAllPaths_spec : forall g a t maxDepth,
    exists paths,
      findAllPaths node eqb g a t maxDepth = Some paths
      /\ forall p, In p paths
                   <-> path_between g a t p /\ NoDup p
                       /\ (Z.of_nat (List.length p) <= Z.max maxDepth 1)%Z.
Proof.
  intros g a t maxDepth. unfold findAllPaths.
  destruct (paths_dfs_spec g a t maxDepth (S (Z.to_nat maxDepth)) [a] [a] [] a)
    as [new [E Hnew]].
  - split; [reflexivity | split; [reflexivity | exact I]].
  - constructor; [intros [] | constructor].
  - intros x. reflexivity.
  - simpl. lia.
  - lia.
  - simpl. lia.
  - rewrite E. exists new. split; [reflexivity|]. intros p. rewrite Hnew. split.
    + intros [_ H]. exact H.
    + intros H. split; [|exact H]. destruct H as [[Hh _] _].
      destruct p as [|x r]; [discriminate|]. simpl in Hh. inversion Hh. subst x.
      exists r. reflexivity.
Qed.

End Graph.

(** X10.  [findShortestPath(graph, start, end)] returns [null] exactly
    when [end] differs from [start] and no path leads to it; otherwise it
    returns a path from [start] to [end] along the edges of the graph
    that is as short as any such path. *)
Theorem X10_findShortestPath_is_shortest :
  forall (node : Type) (eqb : node -> node -> bool),
    (forall a b, eqb a b = true <-> a = b) ->
    forall (g : GraphUtils.graph node) (start endNode : node),
      exists r,
        findShortestPath node eqb g start endNode = Some r
        /\ (r = None <-> start <> endNode
                         /\ ~ GraphSpec.reaches node eqb g start endNode)
        /\ forall p, r = Some p ->
             GraphSpec.path_between node eqb g start endNode p
             /\ forall p', GraphSpec.path_between node eqb g start endNode p' ->
                           List.length p <= List.length p'.
Proof.
  intros node eqb eqb_spec g a t. apply findShortestPath_spec. exact eqb_spec.
Qed.

Lemma X10_findShortestPath_witness :
  exists r,
    findShortestPath nat Nat.eqb diamond 1 4 = Some r
    /\ (r = None <-> 1 <> 4 /\ ~ GraphSpec.reaches nat Nat.eqb diamond 1 4)
    /\ forall p, r = Some p ->
         GraphSpec.path_between nat Nat.eqb diamond 1 4 p
         /\ forall p', GraphSpec.path_between nat Nat.eqb diamond 1 4 p' ->
                       List.length p <= List.length p'.
Proof.
  exact (X10_findShortestPath_is_shortest nat Nat.eqb Nat.eqb_eq diamond 1 4).
Defined.

(** X11.  [findAllPaths(graph, start, end, maxDepth)] returns exactly
    the paths from [start] to [end] that repeat no node and have at most
    [maxDepth] nodes; when [start] is [end] it returns the one-node path
    whatever [maxDepth] is. *)
Theorem X11_findAllPaths_exact :
  forall (node : Type) (eqb : node -> node -> bool),
    (forall a b, eqb a b = true <-> a = b) ->
    forall (g : GraphUtils.graph node) (start endNode : node) (maxDepth : Z),
      exists paths,
        findAllPaths node eqb g start endNode maxDepth = Some paths
        /\ forall p, In p paths
             <-> GraphSpec.path_between node eqb g start endNode p /\ NoDup p
                 /\ (Z.of_nat (List.length p) <= Z.max maxDepth 1)%Z.
Proof.
  intros node eqb eqb_spec g a t maxDepth. apply findAllPaths_spec. exact eqb_spec.
Qed.

Lemma X11_findAllPaths_witness :
  exists paths,
    findAllPaths nat Nat.eqb diamond 1 4 3 = Some paths
    /\ forall p, In p paths
         <-> GraphSpec.path_between nat Nat.eqb diamond 1 4 p /\ NoDup p
             /\ (Z.of_nat (List.length p) <= Z.max 3 1)%Z.
Proof.
  exact (X11_findAllPaths_exact nat Nat.eqb Nat.eqb_eq diamond 1 4 3%Z).
Defined.

End GraphSearch.

(* ================================================================== *)
(** * Part XII.  The dependency graph of a rule set                      *)
(* ================================================================== *)

Module RuleGraphFacts.

Import JS JSFacts Records GraphUtils GraphSpec RuleGraph.
Local Open Scope list_scope.
Local Open Scope nat_scope.

Local Abbreviation edge := (GraphSpec.edge value value_eqb).
Local Abbreviation reaches := (GraphSpec.reaches value value_eqb).
Local Abbreviation has_cycle := (GraphSpec.has_cycle value value_eqb).
Local Abbreviation map_ok := (GraphSpec.map_ok value).
Local Abbreviation closed := (GraphSpec.closed value value_eqb).
Local Abbreviation keys := (GraphUtils.keys value).
Local Abbreviation addEdge := (GraphUtils.addEdge value value_eqb).
Local Abbreviation addBidirectionalEdge :=
  (GraphUtils.addBidirectionalEdge value value_eqb).

(** What every step of the construction keeps: the graph stays well
    formed and loses neither a key nor an edge. *)
Local Abbreviation extends :=
  (fun g g' : value_graph =>
     (map_ok g -> closed g -> map_ok g' /\ closed g')
     /\ (forall k, In k (keys g) -> In k (keys g'))
     /\ (forall u v, edge g u v -> edge g' u v)).

Lemma extends_refl : forall g, extends g g.
Proof. intros g. split; [auto|]. split; auto. Qed.

Lemma extends_trans : forall g1 g2 g3,
    extends g1 g2 -> extends g2 g3 -> extends g1 g3.
Proof.
  intros g1 g2 g3 [A1 [A2 A3]] [B1 [B2 B3]]. split; [|split].
  - intros H1 H2. destruct (A1 H1 H2) as [H3 H4]. apply B1; assumption.
  - intros k Hk. apply B2, A2. exact Hk.
  - intros u v H. apply B3, A3. exact H.
Qed.

Lemma addEdge_extends : forall g a b, extends g (addEdge g a b).
Proof.
  intros g a b. split; [|split].
  - intros H1 H2.
    destruct (GraphFacts.addEdge_well_formed value value_eqb value_eqb_spec
                g a b H1 H2) as [H3 [H4 _]]. split; assumption.
  - intros k Hk. apply (GraphExtras.keys_addEdge value value_eqb value_eqb_spec).
    left. exact Hk.
  - intros u v H. apply (GraphExtras.edge_addEdge value value_eqb value_eqb_spec).
    left. exact H.
Qed.

Lemma addBidirectionalEdge_extends : forall g a b,
    extends g (addBidirectionalEdge g a b).
Proof.
  intros g a b. unfold GraphUtils.addBidirectionalEdge.
  eapply extends_trans; apply addEdge_extends.
Qed.

Lemma coRun_fold_extends : forall ps g,
    extends g (fold_left (fun g ab => addBidirectionalEdge g (fst ab) (snd ab))
                         ps g).
Proof.
  induction ps as [|[a b] ps IH]; intros g; simpl; [apply extends_refl|].
  eapply extends_trans; [apply addBidirectionalEdge_extends | apply IH].
Qed.

Lemma coRun_edges_extends : forall g items, extends g (coRun_edges g items).
Proof. intros g items. apply coRun_fold_extends. Qed.

Lemma has_cycle_mono : forall g g' : value_graph,
    (forall u v, edge g u v -> edge g' u v) -> has_cycle g -> has_cycle g'.
Proof.
  intros g g' H [x Hx]. exists x.
  assert (Hm : forall a b, reaches g a b -> reaches g' a b).
  { intros a b Hab. induction Hab as [a b Hab | a b c _ IH1 _ IH2].
    - apply t_step. apply H. exact Hab.
    - eapply t_trans; eassumption. }
  apply Hm. exact Hx.
Qed.

Lemma coRun_edges_cycle : forall g items,
    2 <= List.length items -> has_cycle (coRun_edges g items).
Proof.
  intros g items Hlen. destruct items as [|x [|y r]]; simpl in Hlen; try lia.
  unfold coRun_edges. simpl.
  eapply has_cycle_mono.
  - apply coRun_fold_extends.
  - apply (GraphExtras.addBidirectionalEdge_cycle value value_eqb value_eqb_spec).
Qed.

Lemma sequence_edges_extends : forall items g, extends g (sequence_edges g items).
Proof.
  induction items as [|x r IH]; intros g; [apply extends_refl|].
  destruct r as [|y r']; [apply extends_refl|].
  change (sequence_edges g (x :: y :: r'))
    with (sequence_edges (addEdge g x y) (y :: r')).
  eapply extends_trans; [apply addEdge_extends | apply IH].
Qed.

Lemma sequence_edges_adjacent : forall items g x y,
    adjacent x y items -> edge (sequence_edges g items) x y.
Proof.
  induction items as [|a r IH]; intros g x y [l1 [l2 E]].
  - destruct l1; discriminate.
  - destruct r as [|b r']; [destruct l1 as [|? [|? ?]]; discriminate|].
    change (sequence_edges g (a :: b :: r'))
      with (sequence_edges (addEdge g a b) (b :: r')).
    destruct l1 as [|c l1].
    + simpl in E. inversion E. subst.
      apply (sequence_edges_extends (y :: l2)).
      apply (GraphExtras.edge_addEdge value value_eqb value_eqb_spec).
      right. auto.
    + simpl in E. inversion E. apply IH. exists l1, l2. assumption.
Qed.

(** What [add_rule_edges] does for a rule whose properties can be read. *)
Lemma add_rule_edges_record : forall g rule i,
    nullish rule = false ->
    exists g',
      add_rule_edges g rule i = Normal g'
      /\ extends g g'
      /\ (forall items, prop rule "type" = VStr "coRun" ->
                        prop rule "tasks" = VArr items ->
                        2 <= List.length items -> has_cycle g')
      /\ (forall items x y, prop rule "type" = VStr "sequence" ->
                            prop rule "tasks" = VArr items ->
                            adjacent x y items -> edge g' x y)
      /\ (prop rule "type" = VStr "prerequisite" ->
          truthy (prop rule "prerequisite") = true ->
          truthy (prop rule "dependent") = true ->
          edge g' (prop rule "prerequisite") (prop rule "dependent")).
Proof.
  intros g rule i Hrule. unfold add_rule_edges.
  rewrite (get_prop rule "type" Hrule). cbn [bind].
  destruct (is_string "coRun" (prop rule "type")) eqn:E1.
  { rewrite (get_prop rule "tasks" Hrule). cbn [bind].
    assert (Ht : prop rule "type" = VStr "coRun").
    { destruct (prop rule "type"); try discriminate. simpl in E1.
      apply String.eqb_eq in E1. subst. reflexivity. }
    destruct (prop rule "tasks") as [| | | | | |items|] eqn:Et;
      try (exists g; split; [reflexivity|]; split; [apply extends_refl|];
           split; [intros ? ? H; discriminate|];
           split; [intros ? ? ? H; rewrite Ht in H; discriminate|];
           intros H; rewrite Ht in H; discriminate).
    exists (coRun_edges g items). split; [reflexivity|].
    split; [apply coRun_edges_extends|].
    split; [intros items' _ H Hlen; inversion H; subst;
            apply coRun_edges_cycle; exact Hlen|].
    split; [intros ? ? ? H; rewrite Ht in H; discriminate|].
    intros H; rewrite Ht in H; discriminate. }
  assert (Hn1 : prop rule "type" <> VStr "coRun").
  { intros H. rewrite H in E1. discriminate. }
  destruct (is_string "sequence" (prop rule "type")) eqn:E2.
  { rewrite (get_prop rule "tasks" Hrule). cbn [bind].
    assert (Ht : prop rule "type" = VStr "sequence").
    { destruct (prop rule "type"); try discriminate. simpl in E2.
      apply String.eqb_eq in E2. subst. reflexivity. }
    destruct (prop rule "tasks") as [| | | | | |items|] eqn:Et;
      try (exists g; split; [reflexivity|]; split; [apply extends_refl|];
           split; [intros ? H; contradiction|];
           split; [intros ? ? ? _ H; discriminate|];
           intros H; rewrite Ht in H; discriminate).
    exists (sequence_edges g items). split; [reflexivity|].
    split; [apply sequence_edges_extends|].
    split; [intros ? H; contradiction|].
    split; [intros items' x y _ H Hadj; inversion H; subst;
            apply sequence_edges_adjacent; exact Hadj|].
    intros H; rewrite Ht in H; discriminate. }
  assert (Hn2 : prop rule "type" <> VStr "sequence").
  { intros H. rewrite H in E2. discriminate. }
  destruct (is_string "prerequisite" (prop rule "type")) eqn:E3.
  { rewrite (get_prop rule "prerequisite" Hrule). cbn [bind].
    destruct (truthy (prop rule "prerequisite")) eqn:Tp.
    - rewrite (get_prop rule "dependent" Hrule). cbn [bind].
      destruct (truthy (prop rule "dependent")) eqn:Td.
      + eexists. split; [reflexivity|]. split; [apply addEdge_extends|].
        split; [intros ? H; contradiction|].
        split; [intros ? ? ? H; contradiction|].
        intros _ _ _.
        apply (GraphExtras.edge_addEdge value value_eqb value_eqb_spec).
        right. auto.
      + exists g. split; [reflexivity|]. split; [apply extends_refl|].
        split; [intros ? H; contradiction|].
        split; [intros ? ? ? H; contradiction|].
        intros _ _ H. discriminate.
    - exists g. split; [reflexivity|]. split; [apply extends_refl|].
      split; [intros ? H; contradiction|].
      split; [intros ? ? ? H; contradiction|].
      intros _ H. discriminate. }
  exists g. split; [reflexivity|]. split; [apply extends_refl|].
  split; [intros ? H; contradiction|].
  split; [intros ? ? ? H; contradiction|].
  intros H. rewrite H in E3. discriminate.
Qed.

Lemma rules_loop : forall rules g i,
    records rules ->
    exists g',
      forEach_from add_rule_edges rules i g = Normal g'
      /\ extends g g'
      /\ (forall rule items, In rule rules ->
                             prop rule "type" = VStr "coRun" ->
                             prop rule "tasks" = VArr items ->
                             2 <= List.length items -> has_cycle g')
      /\ (forall rule items x y, In rule rules ->
                                 prop rule "type" = VStr "sequence" ->
                                 prop rule "tasks" = VArr items ->
                                 adjacent x y items -> edge g' x y)
      /\ (forall rule, In rule rules ->
                       prop rule "type" = VStr "prerequisite" ->
                       truthy (prop rule "prerequisite") = true ->
                       truthy (prop rule "dependent") = true ->
                       edge g' (prop rule "prerequisite") (prop rule "dependent")).
Proof.
  induction rules as [|rule rules IH]; intros g i Hrec.
  - exists g. split; [reflexivity|]. split; [apply extends_refl|].
    split; [intros ? ? []|]. split; [intros ? ? ? ? []|]. intros ? [].
  - inversion Hrec as [|? ? Hrule Hrec']. subst.
    destruct (add_rule_edges_record g rule i Hrule)
      as [g1 [E1 [Hext1 [Hco1 [Hseq1 Hpre1]]]]].
    destruct (IH g1 (S i) Hrec') as [g2 [E2 [Hext2 [Hco2 [Hseq2 Hpre2]]]]].
    exists g2. cbn [forEach_from]. rewrite E1. cbn [bind].
    split; [exact E2|]. split; [eapply extends_trans; eassumption|].
    destruct Hext2 as [_ [_ Hedges]].
    split; [|split].
    + intros r items [<- | Hin] Ht Hi Hlen.
      * eapply has_cycle_mono; [exact Hedges | eapply Hco1; eassumption].
      * eapply Hco2; eassumption.
    + intros r items x y [<- | Hin] Ht Hi Hadj.
      * apply Hedges. eapply Hseq1; eassumption.
      * eapply Hseq2; eassumption.
    + intros r [<- | Hin] Ht H1 H2.
      * apply Hedges. apply Hpre1; assumption.
      * apply Hpre2; assumption.
Qed.

Lemma task_node_record : forall task,
    nullish task = false -> task_node task = Normal (node_of task).
Proof.
  intros task H. unfold task_node, node_of, or_else.
  rewrite (get_prop task "TaskID" H). cbn [bind].
  destruct (truthy (prop task "TaskID")); [reflexivity|].
  apply get_prop. exact H.
Qed.

(** X12.  For task and rule records [createDependencyGraphFromRules]
    returns a well-formed graph in which every task is a node, the
    consecutive tasks of every [sequence] rule and the two tasks of every
    [prerequisite] rule are joined by an edge, and which has a cycle (so
    that [topologicalSort] returns [null]) as soon as one [coRun] rule
    lists two tasks. *)
Theorem X12_dependency_graph_of_rules :
  forall tasks rules : list value,
    records tasks -> records rules ->
    exists g,
      createDependencyGraphFromRules (VArr tasks) (VArr rules) = Normal g
      /\ GraphSpec.map_ok value g /\ GraphSpec.closed value value_eqb g
      /\ (forall task, In task tasks -> In (node_of task) (GraphUtils.keys value g))
      /\ (forall rule items x y,
             In rule rules -> prop rule "type" = VStr "sequence" ->
             prop rule "tasks" = VArr items -> adjacent x y items ->
             GraphSpec.edge value value_eqb g x y)
      /\ (forall rule,
             In rule rules -> prop rule "type" = VStr "prerequisite" ->
             truthy (prop rule "prerequisite") = true ->
             truthy (prop rule "dependent") = true ->
             GraphSpec.edge value value_eqb g
                            (prop rule "prerequisite") (prop rule "dependent"))
      /\ (forall rule items,
             In rule rules -> prop rule "type" = VStr "coRun" ->
             prop rule "tasks" = VArr items -> 2 <= List.length items ->
             GraphSpec.has_cycle value value_eqb g
             /\ topologicalSort value value_eqb g = Some None).
Proof.
  intros tasks rules Htasks Hrules. unfold createDependencyGraphFromRules.
  cbn [array_method bind].
  rewrite (array_map_pure _ _ task_node node_of tasks).
  2:{ intros t Ht. apply task_node_record. unfold records in Htasks.
      rewrite Forall_forall in Htasks. apply Htasks. exact Ht. }
  cbn [bind]. unfold forEach.
  destruct (rules_loop rules (createGraph value value_eqb (map node_of tasks)) 0
              Hrules) as [g [E [[Hwf [Hkeys Hedges]] [Hco [Hseq Hpre]]]]].
  destruct (GraphFacts.createGraph_well_formed value value_eqb value_eqb_spec
              (map node_of tasks)) as [Hok0 Hcl0].
  destruct (Hwf Hok0 Hcl0) as [Hok Hcl].
  exists g. split; [exact E|]. split; [exact Hok|]. split; [exact Hcl|].
  split; [|split; [exact Hseq | split; [exact Hpre|]]].
  - intros task Ht. apply Hkeys.
    apply (GraphExtras.createGraph_keys value value_eqb value_eqb_spec).
    apply in_map. exact Ht.
  - intros rule items Hin Ht Hi Hlen.
    pose proof (Hco rule items Hin Ht Hi Hlen) as Hc. split; [exact Hc|].
    destruct (GraphFacts.topologicalSort_spec value value_eqb value_eqb_spec
                g Hok Hcl) as [order [Eo [Hnull _]]].
    rewrite Eo. f_equal. apply Hnull. exact Hc.
Qed.

Lemma X12_dependency_graph_witness :
  exists g,
    createDependencyGraphFromRules
      (VArr [SpecExamples.task "T1"; SpecExamples.task "T2"])
      (VArr [SpecExamples.coRun "T1" "T2"]) = Normal g
    /\ GraphSpec.map_ok value g /\ GraphSpec.closed value value_eqb g
    /\ (forall task, In task [SpecExamples.task "T1"; SpecExamples.task "T2"] ->
                     In (node_of task) (GraphUtils.keys value g))
    /\ (forall rule items x y,
           In rule [SpecExamples.coRun "T1" "T2"] ->
           prop rule "type" = VStr "sequence" ->
           prop rule "tasks" = VArr items -> adjacent x y items ->
           GraphSpec.edge value value_eqb g x y)
    /\ (forall rule,
           In rule [SpecExamples.coRun "T1" "T2"] ->
           prop rule "type" = VStr "prerequisite" ->
           truthy (prop rule "prerequisite") = true ->
           truthy (prop rule "dependent") = true ->
           GraphSpec.edge value value_eqb g
                          (prop rule "prerequisite") (prop rule "dependent"))
    /\ (forall rule items,
           In rule [SpecExamples.coRun "T1" "T2"] ->
           prop rule "type" = VStr "coRun" ->
           prop rule "tasks" = VArr items -> 2 <= List.length items ->
           GraphSpec.has_cycle value value_eqb g
           /\ topologicalSort value value_eqb g = Some None).
Proof.
  apply (X12_dependency_graph_of_rules
           [SpecExamples.task "T1"; SpecExamples.task "T2"]
           [SpecExamples.coRun "T1" "T2"]).
  - repeat constructor.
  - repeat constructor.
Defined.

End RuleGraphFacts.

(* ================================================================== *)
(** * Part XIII.  Duplicate detection                                    *)
(* ================================================================== *)

Module DuplicateFacts.

Import JS JSFacts Records Duplicates ObjectPrototype.
Local Open Scope list_scope.
Local Open Scope nat_scope.

(** One step of the two loops that collect duplicates: a key already
    seen goes to [duplicates], a new one to [seen]. *)
Local Abbreviation step :=
  (fun (sd : list value * list value) (key : value) =>
     if set_has key (fst sd)
     then (fst sd, set_add key (snd sd))
     else (set_add key (fst sd), snd sd)).

Lemma occurrences_cons : forall k x l,
    occurrences k (x :: l) = (if value_eqb k x then 1 else 0) + occurrences k l.
Proof.
  intros k x l. unfold occurrences. simpl. destruct (value_eqb k x); reflexivity.
Qed.

Lemma occurrences_pos : forall k l, 1 <= occurrences k l <-> In k l.
Proof.
  intros k l. induction l as [|x l IH].
  - simpl. unfold occurrences. simpl. split; [lia | intros []].
  - rewrite occurrences_cons. destruct (value_eqb k x) eqn:E.
    + apply value_eqb_spec in E. subst x. split; [left; reflexivity | lia].
    + split.
      * intros H. right. apply IH. simpl in H. exact H.
      * intros [H | H]; [subst; rewrite value_eqb_refl in E; discriminate|].
        apply IH in H. simpl. exact H.
Qed.

Lemma value_set_add_NoDup : forall x s, NoDup s -> NoDup (set_add x s).
Proof.
  intros x s. apply (GraphFacts.set_add_NoDup value value_eqb value_eqb_spec).
Qed.

Lemma collect_spec : forall ks seen dups,
    NoDup dups ->
    NoDup (snd (fold_left step ks (seen, dups)))
    /\ forall k, In k (snd (fold_left step ks (seen, dups)))
                 <-> In k dups \/ (In k seen /\ In k ks) \/ 2 <= occurrences k ks.
Proof.
  induction ks as [|k0 ks IH]; intros seen dups Hnd.
  - simpl. split; [exact Hnd|]. intros k. unfold occurrences. simpl. split.
    + auto.
    + intros [H | [[_ []] | H]]; [exact H | lia].
  - cbn [fold_left fst snd]. destruct (set_has k0 seen) eqn:E.
    + apply ValidationFacts.value_set_has_In in E.
      destruct (IH seen (set_add k0 dups) (value_set_add_NoDup k0 dups Hnd)) as [H1 H2].
      split; [exact H1|]. intros k. rewrite H2, occurrences_cons.
      rewrite ValidationFacts.value_set_add_In. split.
      * intros [[-> | H] | [[Hs Hk] | H]].
        -- right. left. split; [exact E | left; reflexivity].
        -- left. exact H.
        -- right. left. split; [exact Hs | right; exact Hk].
        -- right. right. lia.
      * intros [H | [[Hs [<- | Hk]] | H]].
        -- left. right. exact H.
        -- left. left. reflexivity.
        -- right. left. auto.
        -- destruct (value_eqb k k0) eqn:Ek.
           ++ apply value_eqb_spec in Ek. left. left. exact Ek.
           ++ right. right. simpl in H. exact H.
    + assert (Hn : ~ In k0 seen).
      { intros Hin. apply ValidationFacts.value_set_has_In in Hin. congruence. }
      destruct (IH (set_add k0 seen) dups Hnd) as [H1 H2].
      split; [exact H1|]. intros k. rewrite H2, occurrences_cons.
      rewrite ValidationFacts.value_set_add_In. split.
      * intros [H | [[[-> | Hs] Hk] | H]].
        -- left. exact H.
        -- right. right. rewrite value_eqb_refl.
           apply occurrences_pos in Hk. lia.
        -- right. left. split; [exact Hs | right; exact Hk].
        -- right. right. lia.
      * intros [H | [[Hs [<- | Hk]] | H]].
        -- left. exact H.
        -- contradiction.
        -- right. left. auto.
        -- destruct (value_eqb k k0) eqn:Ek.
           ++ apply value_eqb_spec in Ek. subst k0. right. left.
              split; [left; reflexivity|]. apply occurrences_pos. simpl in H. lia.
           ++ right. right. simpl in H. exact H.
Qed.

Lemma collect_filter : forall (p : value -> bool) ks sd,
    fold_left (fun sd key => if p key then step sd key else sd) ks sd
    = fold_left step (filter p ks) sd.
Proof.
  intros p. induction ks as [|k ks IH]; intros sd; simpl; [reflexivity|].
  destruct (p k); simpl; apply IH.
Qed.

Lemma occurrences_filter : forall (p : value -> bool) k l,
    occurrences k (filter p l) = if p k then occurrences k l else 0.
Proof.
  intros p k l. induction l as [|x l IH]; simpl.
  - unfold occurrences. simpl. destruct (p k); reflexivity.
  - destruct (p x) eqn:Ex.
    + rewrite !occurrences_cons, IH. destruct (value_eqb k x) eqn:E.
      * apply value_eqb_spec in E. subst x. rewrite Ex. reflexivity.
      * destruct (p k); reflexivity.
    + rewrite occurrences_cons, IH. destruct (value_eqb k x) eqn:E.
      * apply value_eqb_spec in E. subst x. rewrite Ex. reflexivity.
      * destruct (p k); reflexivity.
Qed.

(** X13.  [findDuplicates(array, keyExtractor)] returns, each once, the
    keys that two or more elements of the array have (the elements
    themselves when there is no extractor), when the keys are strings,
    numbers, booleans, [null] or [undefined]: the values a [Set]
    compares by content. *)
Theorem X13_findDuplicates_exact :
  forall (items : list value)
         (keyExtractor : option (value -> nat -> completion value))
         (key_of : value -> value),
    match keyExtractor with
    | Some extract => forall item index, extract item index = Normal (key_of item)
    | None => forall item, key_of item = item
    end ->
    forallb primitive (map key_of items) = true ->
    exists dups,
      ValidationUtils.findDuplicates (VArr items) keyExtractor = Normal dups
      /\ NoDup dups
      /\ forall k, In k dups <-> 2 <= occurrences k (map key_of items).
Proof.
  intros items keyExtractor key_of Hkey _. unfold ValidationUtils.findDuplicates.
  cbn [array_method bind]. unfold forEach.
  rewrite (forEach_from_pure _ _ _ (fun sd item => step sd (key_of item))).
  2:{ intros [seen dups] item i _. unfold ValidationUtils.note_key.
      destruct keyExtractor as [extract|].
      - rewrite Hkey. cbn [bind fst snd]. destruct (set_has _ seen); reflexivity.
      - rewrite Hkey. cbn [bind fst snd]. destruct (set_has _ seen); reflexivity. }
  cbn [bind].
  assert (Hfold : forall l sd,
             fold_left (fun sd item => step sd (key_of item)) l sd
             = fold_left step (map key_of l) sd).
  { induction l as [|x l IH]; intros sd; simpl; [reflexivity | apply IH]. }
  rewrite Hfold.
  destruct (collect_spec (map key_of items) [] [] (NoDup_nil _)) as [H1 H2].
  eexists. split; [reflexivity|]. split; [exact H1|].
  intros k. rewrite H2. split.
  - intros [[] | [[[] _] | H]]. exact H.
  - intros H. right. right. exact H.
Qed.

Lemma X13_findDuplicates_witness :
  forallb primitive (map (fun item => item)
                         [VStr "a"; VStr "b"; VStr "a"; VStr "a"]) = true
  /\ exists dups,
    ValidationUtils.findDuplicates
      (VArr [VStr "a"; VStr "b"; VStr "a"; VStr "a"]) None = Normal dups
    /\ NoDup dups
    /\ forall k, In k dups
                 <-> 2 <= occurrences k (map (fun item => item)
                                             [VStr "a"; VStr "b"; VStr "a"; VStr "a"]).
Proof.
  split; [reflexivity|].
  apply (X13_findDuplicates_exact [VStr "a"; VStr "b"; VStr "a"; VStr "a"] None
           (fun item => item)).
  - simpl. reflexivity.
  - reflexivity.
Defined.



End DuplicateFacts.

(* ================================================================== *)
(** * Part XIV.  Further properties of the enhanced validation service   *)
(* ================================================================== *)

Module EnhancedExtras.

Import JS JSFacts Records EnhancedValidationService ObjectPrototype.
Local Open Scope list_scope.
Local Open Scope nat_scope.

(** *** Loops that keep a property of their state *)

Lemma forEach_from_keeps :
  forall (A S : Type) (P : S -> Prop) (body : S -> A -> nat -> completion S),
    (forall s x i s', P s -> body s x i = Normal s' -> P s') ->
    forall l i s s', P s -> forEach_from body l i s = Normal s' -> P s'.
Proof.
  intros A S P body Hbody. induction l as [|x l IH]; intros i s s' Hs H;
    cbn [forEach_from] in H.
  - inversion H. subst. exact Hs.
  - destruct (body s x i) as [s1|e] eqn:E; cbn [bind] in H; [|discriminate].
    eapply IH; [|exact H]. eapply Hbody; eassumption.
Qed.

Lemma forEach_keeps :
  forall (A S : Type) (P : S -> Prop) (body : S -> A -> nat -> completion S),
    (forall s x i s', P s -> body s x i = Normal s' -> P s') ->
    forall l s s', P s -> forEach body l s = Normal s' -> P s'.
Proof.
  intros A S P body Hbody l s s'. unfold forEach.
  apply forEach_from_keeps. exact Hbody.
Qed.

Lemma for_of_partial_keeps :
  forall (A S : Type) (P : S -> Prop) (body : S -> A -> completion S),
    (forall s x s', P s -> body s x = Normal s' -> P s') ->
    forall l s, P s -> P (fst (for_of_partial body l s)).
Proof.
  intros A S P body Hbody. induction l as [|x l IH]; intros s Hs; simpl;
    [exact Hs|].
  destruct (body s x) as [s1|e] eqn:E; [|exact Hs].
  apply IH. eapply Hbody; eassumption.
Qed.

Local Abbreviation all_counted := (Forall (fun f => counted f = true)).

Lemma counted_push : forall errors f,
    all_counted errors -> counted f = true -> all_counted (push errors f).
Proof.
  intros errors f H Hf. unfold push. apply Forall_app. split; [exact H|].
  constructor; [exact Hf | constructor].
Qed.

(** Takes apart a hypothesis saying that a piece of code completed. *)
Ltac completed H :=
  cbv beta in H;
  repeat match type of H with
         | bind ?c _ = Normal _ =>
             let E := fresh "E" in
             destruct c eqn:E; cbn [bind] in H; [|discriminate H]
         | try_catch ?c _ = Normal _ =>
             let E := fresh "E" in
             destruct c eqn:E; cbn [try_catch] in H; [completed E|]
         | (if ?b then _ else _) = Normal _ => destruct b
         | match ?x with _ => _ end = Normal _ => destruct x
         end.

Ltac counted_goal :=
  repeat match goal with
         | H : Normal _ = Normal _ |- _ => inversion H; subst; clear H
         | H : Throw _ = Normal _ |- _ => discriminate H
         end;
  first [assumption | apply counted_push; [assumption | reflexivity]].

Section Engine.

Variable JSON_parse : string -> completion value.

Lemma validateRequiredColumns_counted : forall data entityType errs,
    validateRequiredColumns data entityType = Normal errs -> all_counted errs.
Proof.
  intros data entityType errs H. unfold validateRequiredColumns in H.
  destruct (get data "length") as [len|] eqn:El; cbn [bind] in H; [|discriminate].
  destruct (greater_than len (VNum 0)); [|inversion H; constructor].
  destruct (get data "0") as [firstRecord|]; cbn [bind] in H; [|discriminate].
  eapply forEach_keeps; [| |exact H]; [|constructor].
  intros s x i s' Hs Hb. completed Hb; counted_goal.
Qed.

Lemma validateDuplicateIds_counted : forall data entityType idField errs,
    validateDuplicateIds data entityType idField = Normal errs -> all_counted errs.
Proof.
  intros data entityType idField errs H. unfold validateDuplicateIds in H.
  completed H. inversion H. subst. apply Forall_forall. intros f Hf.
  apply in_map_iff in Hf. destruct Hf as [d [<- _]]. reflexivity.
Qed.

Lemma validateDataTypes_counted : forall c w t errs,
    validateDataTypes JSON_parse c w t = Normal errs -> all_counted errs.
Proof.
  intros c w t errs H. unfold validateDataTypes in H.
  destruct (array_method "forEach" c) as [clients|]; cbn [bind] in H; [|discriminate].
  match type of H with
  | bind (forEach ?body ?l ?s) _ = _ =>
      destruct (forEach body l s) as [e1|] eqn:E1; cbn [bind] in H; [|discriminate];
      assert (H1 : all_counted e1)
  end.
  { eapply forEach_keeps; [| |exact E1]; [|constructor].
    intros s x i s' Hs Hb. completed Hb; counted_goal. }
  destruct (array_method "forEach" w) as [workers|]; cbn [bind] in H; [|discriminate].
  match type of H with
  | bind (forEach ?body ?l ?s) _ = _ =>
      destruct (forEach body l s) as [e2|] eqn:E2; cbn [bind] in H; [|discriminate];
      assert (H2 : all_counted e2)
  end.
  { eapply forEach_keeps; [| |exact E2]; [|exact H1].
    intros s x i s' Hs Hb. completed Hb; counted_goal. }
  destruct (array_method "forEach" t) as [tasks|]; cbn [bind] in H; [|discriminate].
  eapply forEach_keeps; [| |exact H]; [|exact H2].
  intros s x i s' Hs Hb. completed Hb; counted_goal.
Qed.

Lemma validateRanges_counted : forall c w t errs,
    validateRanges c w t = Normal errs -> all_counted errs.
Proof.
  intros c w t errs H. unfold validateRanges in H.
  destruct (array_method "forEach" c) as [clients|]; cbn [bind] in H; [|discriminate].
  eapply forEach_keeps; [| |exact H]; [|constructor].
  intros s x i s' Hs Hb. completed Hb; counted_goal.
Qed.

Lemma validateTaskReferences_counted : forall c t errs,
    validateTaskReferences c t = Normal errs -> all_counted errs.
Proof.
  intros c t errs H. unfold validateTaskReferences in H.
  destruct (array_method "map" t) as [tasks|]; cbn [bind] in H; [|discriminate].
  destruct (array_map _ tasks) as [taskIds|]; cbn [bind] in H; [|discriminate].
  destruct (array_method "forEach" c) as [clients|]; cbn [bind] in H; [|discriminate].
  eapply forEach_keeps; [| |exact H]; [|constructor].
  intros s x i s' Hs Hb. cbv beta in Hb.
  destruct (get x "RequestedTaskIDs") as [requested|]; cbn [bind] in Hb;
    [|discriminate].
  destruct (truthy requested); [|inversion Hb; subst; exact Hs].
  eapply forEach_keeps; [| |exact Hb]; [|exact Hs].
  intros s1 y j s1' Hs1 Hb1. completed Hb1; counted_goal.
Qed.

Lemma validateSkillCoverage_counted : forall t w errs,
    validateSkillCoverage t w = Normal errs -> all_counted errs.
Proof.
  intros t w errs H. unfold validateSkillCoverage in H.
  destruct (array_method "forEach" w) as [workers|]; cbn [bind] in H; [|discriminate].
  match type of H with
  | bind (forEach ?body ?l ?s) _ = _ =>
      destruct (forEach body l s) as [workerSkills|]; cbn [bind] in H;
      [|discriminate]
  end.
  destruct (array_method "forEach" t) as [tasks|]; cbn [bind] in H; [|discriminate].
  eapply forEach_keeps; [| |exact H]; [|constructor].
  intros s x i s' Hs Hb. cbv beta in Hb.
  destruct (get x "RequiredSkills") as [required|]; cbn [bind] in Hb;
    [|discriminate].
  destruct (truthy required); [|inversion Hb; subst; exact Hs].
  eapply forEach_keeps; [| |exact Hb]; [|exact Hs].
  intros s1 y j s1' Hs1 Hb1. completed Hb1; counted_goal.
Qed.

Lemma validateWorkerOverload_counted : forall w errs,
    validateWorkerOverload JSON_parse w = Normal errs -> all_counted errs.
Proof.
  intros w errs H. unfold validateWorkerOverload in H.
  destruct (array_method "forEach" w) as [workers|]; cbn [bind] in H; [|discriminate].
  eapply forEach_keeps; [| |exact H]; [|constructor].
  intros s x i s' Hs Hb. cbv beta in Hb.
  destruct (get x "AvailableSlots") as [slots|]; cbn [bind] in Hb; [|discriminate].
  destruct (truthy slots); [|inversion Hb; subst; exact Hs].
  destruct (get x "MaxLoadPerPhase") as [load|]; cbn [bind] in Hb; [|discriminate].
  destruct (truthy load); [|inversion Hb; subst; exact Hs].
  match type of Hb with
  | try_catch ?c _ = _ => destruct c as [r|e] eqn:Ec; cbn [try_catch] in Hb
  end; [|inversion Hb; subst; exact Hs].
  inversion Hb. subst r. clear Hb. completed Ec; counted_goal.
Qed.

Lemma check_phase_counted : forall t cap s x s',
    all_counted s -> check_phase t cap s x = Normal s' -> all_counted s'.
Proof.
  intros t cap s [phase demand] s' Hs Hb. unfold check_phase in Hb.
  completed Hb; counted_goal.
Qed.

Lemma validatePhaseSlotSaturation_counted : forall t w,
    all_counted (validatePhaseSlotSaturation JSON_parse t w).
Proof.
  intros t w. unfold validatePhaseSlotSaturation.
  match goal with
  | |- all_counted (match ?c with _ => _ end) => destruct c as [[cap dem]|]
  end; [|repeat constructor].
  pose proof (for_of_partial_keeps _ _ all_counted (check_phase t cap)
                (check_phase_counted t cap) (Object_entries dem) []
                (Forall_nil _)) as Hk.
  destruct (for_of_partial (check_phase t cap) (Object_entries dem) [])
    as [errors [e|]]; cbn [fst] in Hk.
  - apply counted_push; [exact Hk | reflexivity].
  - exact Hk.
Qed.

Lemma validateMaxConcurrency_counted : forall t w errs,
    validateMaxConcurrency t w = Normal errs -> all_counted errs.
Proof.
  intros t w errs H. unfold validateMaxConcurrency in H.
  destruct (array_method "forEach" t) as [tasks|]; cbn [bind] in H; [|discriminate].
  eapply forEach_keeps; [| |exact H]; [|constructor].
  intros s x i s' Hs Hb. cbv beta in Hb.
  destruct (get x "MaxConcurrent") as [taskMax|]; cbn [bind] in Hb; [|discriminate].
  destruct (truthy taskMax); [|inversion Hb; subst; exact Hs].
  destruct (get x "RequiredSkills") as [required|]; cbn [bind] in Hb;
    [|discriminate].
  destruct (truthy required); [|inversion Hb; subst; exact Hs].
  match type of Hb with
  | try_catch ?c _ = _ => destruct c as [r|e] eqn:Ec; cbn [try_catch] in Hb
  end; [|inversion Hb; subst; exact Hs].
  inversion Hb. subst r. clear Hb. cbv zeta in Ec. completed Ec; counted_goal.
Qed.

Lemma detectCircularCoRuns_counted : forall t rules,
    all_counted (detectCircularCoRuns t rules).
Proof.
  intros t rules. unfold detectCircularCoRuns.
  match goal with
  | |- all_counted (match ?c with _ => _ end) => destruct c as [errors|] eqn:E
  end; [|repeat constructor].
  completed E; inversion E; subst; repeat constructor.
Qed.

Lemma run_stages_counted : forall c w t rules results,
    run_stages JSON_parse c w t rules = Normal results ->
    all_counted (structural results) /\ all_counted (referential results)
    /\ all_counted (business results) /\ all_counted (operational results).
Proof.
  intros c w t rules results H. unfold run_stages in H.
  destruct (validateStructural JSON_parse c w t) as [s|] eqn:Es; cbn [bind] in H;
    [|discriminate].
  destruct (validateReferential c w t) as [r|] eqn:Er; cbn [bind] in H;
    [|discriminate].
  destruct (validateBusinessLogic JSON_parse c w t) as [b|] eqn:Eb; cbn [bind] in H;
    [|discriminate].
  destruct (validateOperational c w t rules) as [o|] eqn:Eo; cbn [bind] in H;
    [|discriminate].
  inversion H. subst results. cbn [structural referential business operational].
  split; [|split; [|split]].
  - unfold validateStructural in Es.
    repeat match type of Es with
           | bind ?c _ = Normal _ =>
               let E := fresh "E" in
               destruct c eqn:E; cbn [bind] in Es; [|discriminate Es]
           end.
    inversion Es. subst s.
    repeat (apply Forall_app; split);
      first [eapply validateRequiredColumns_counted; eassumption
            | eapply validateDuplicateIds_counted; eassumption
            | eapply validateDataTypes_counted; eassumption
            | eapply validateRanges_counted; eassumption].
  - unfold validateReferential in Er.
    repeat match type of Er with
           | bind ?c _ = Normal _ =>
               let E := fresh "E" in
               destruct c eqn:E; cbn [bind] in Er; [|discriminate Er]
           end.
    inversion Er. subst r.
    apply Forall_app; split;
      [eapply validateTaskReferences_counted; eassumption
      | eapply validateSkillCoverage_counted; eassumption].
  - unfold validateBusinessLogic in Eb.
    destruct (validateWorkerOverload JSON_parse w) as [e1|] eqn:E1;
      cbn [bind] in Eb; [|discriminate].
    inversion Eb. subst b. apply Forall_app. split.
    + eapply validateWorkerOverload_counted. exact E1.
    + apply validatePhaseSlotSaturation_counted.
  - unfold validateOperational in Eo.
    destruct (validateMaxConcurrency t w) as [e1|] eqn:E1; cbn [bind] in Eo;
      [|discriminate].
    pose proof (validateMaxConcurrency_counted _ _ _ E1) as H1.
    destruct (truthy rules); [|inversion Eo; subst; exact H1].
    destruct (get rules "length") as [len|]; cbn [bind] in Eo; [|discriminate].
    destruct (greater_than len (VNum 0)); inversion Eo; subst; [|exact H1].
    apply Forall_app. split; [exact H1 | apply detectCircularCoRuns_counted].
Qed.

End Engine.

(** *** What [aggregateResults] keeps *)

Lemma counted_split : forall l,
    Forall (fun f => counted f = true) l ->
    List.length (filter (has_severity "error") l)
    + List.length (filter (has_severity "warning") l)
    = List.length l.
Proof.
  intros l H. induction H as [|f l Hf _ IH]; [reflexivity|].
  unfold counted in Hf. simpl.
  destruct (has_severity "error" f) eqn:E1; destruct (has_severity "warning" f) eqn:E2;
    simpl in *; try lia; try discriminate.
  unfold has_severity in E1, E2. apply String.eqb_eq in E1, E2. congruence.
Qed.

(** X15.  In every result of [validateAllData] the summary agrees with
    the lists: [isValid] holds exactly when there is no error, the two
    totals are the lengths of [errors] and [warnings], which hold
    findings of severity ['error'] and ['warning'] only, and the four
    counts of the breakdown add up to the two totals: no finding is
    dropped or counted twice. *)
Theorem X15_validateAllData_summary_is_consistent :
  forall (JSON_parse : string -> completion value) (now : string)
         (clientsData workersData tasksData rules : value),
    let r := validateAllData JSON_parse now clientsData workersData tasksData rules in
    (isValid r = true <-> errors r = [])
    /\ totalErrors (result_summary r) = List.length (errors r)
    /\ totalWarnings (result_summary r) = List.length (warnings r)
    /\ Forall (fun f => f_severity f = "error") (errors r)
    /\ Forall (fun f => f_severity f = "warning") (warnings r)
    /\ forall b, summary_breakdown (result_summary r) = Some b ->
                 breakdown_total b
                 = totalErrors (result_summary r) + totalWarnings (result_summary r).
Proof.
  intros JSON_parse now c w t rules. unfold validateAllData. cbv zeta.
  match goal with
  | |- context [run_stages JSON_parse c w t ?rs] =>
      destruct (run_stages JSON_parse c w t rs) as [results|e] eqn:E
  end.
  - apply run_stages_counted in E. destruct E as [Hs [Hr [Hb Ho]]].
    unfold aggregateResults. cbv zeta.
    cbn [isValid errors warnings result_summary totalErrors totalWarnings
         summary_breakdown].
    set (all := structural results ++ referential results ++ business results
                ++ operational results).
    assert (Hall : Forall (fun f => counted f = true) all).
    { unfold all. repeat (apply Forall_app; split); assumption. }
    split; [|split; [reflexivity|split; [reflexivity|split; [|split]]]].
    + rewrite Nat.eqb_eq. apply length_zero_iff_nil.
    + apply Forall_forall. intros f Hf. apply filter_In in Hf.
      destruct Hf as [_ Hf]. apply String.eqb_eq in Hf. exact Hf.
    + apply Forall_forall. intros f Hf. apply filter_In in Hf.
      destruct Hf as [_ Hf]. apply String.eqb_eq in Hf. exact Hf.
    + intros b Hbk. inversion Hbk. subst b. unfold breakdown_total.
      cbn [b_structural b_referential b_business b_operational].
      rewrite (counted_split all Hall). unfold all. rewrite !length_app. lia.
  - unfold system_error_result.
    cbn [isValid errors warnings result_summary totalErrors totalWarnings
         summary_breakdown].
    split; [split; discriminate|]. split; [reflexivity|]. split; [reflexivity|].
    split; [repeat constructor|]. split; [constructor|]. intros b Hb. discriminate.
Qed.

(** *** Required columns *)

Lemma fold_missing : forall entityType (fields : list (string * value))
                           (l : list string) errors,
    fold_left (fun errors field =>
                 if negb (match lookup field fields with
                          | Some _ => true
                          | None => false
                          end)
                 then push errors (missing_column entityType field)
                 else errors) l errors
    = errors ++ map (missing_column entityType)
                    (filter (fun field => match lookup field fields with
                                          | Some _ => false
                                          | None => true
                                          end) l).
Proof.
  intros entityType fields. induction l as [|x l IH]; intros errors; simpl.
  - rewrite app_nil_r. reflexivity.
  - rewrite IH. destruct (lookup x fields); simpl; [reflexivity|].
    unfold push. rewrite <- app_assoc. reflexivity.
Qed.

(** X16.  [validateRequiredColumns(data, entityType)] looks at the first
    record only: it reports the required columns which that record does
    not have, whatever the records after it hold, and reports nothing
    for an empty array.  The entity type is any string but the name of
    an inherited property, for which [requiredFields[entityType]] is not
    a list of columns. *)
Theorem X16_validateRequiredColumns_reads_first_record_only :
  forall (fields : list (string * value)) (rest : list value) (entityType : string),
    inherited_name entityType = false ->
    validateRequiredColumns (VArr (VObj fields :: rest)) entityType
    = Normal (map (missing_column entityType) (missing_columns entityType fields))
    /\ validateRequiredColumns (VArr []) entityType = Normal [].
Proof.
  intros fields rest entityType _. split; [|reflexivity].
  unfold validateRequiredColumns.
  assert (Hlen : get (VArr (VObj fields :: rest)) "length"
                 = Normal (VNum (Z.of_nat (S (List.length rest)))))
    by reflexivity.
  rewrite Hlen. cbn [bind].
  assert (Hgt : greater_than (VNum (Z.of_nat (S (List.length rest)))) (VNum 0) = true).
  { unfold greater_than, less_than. cbn. reflexivity. }
  rewrite Hgt.
  assert (H0 : get (VArr (VObj fields :: rest)) "0" = Normal (VObj fields))
    by reflexivity.
  rewrite H0. cbn [bind]. unfold forEach.
  rewrite (forEach_from_pure _ _ _
             (fun errors field =>
                if negb (match lookup field fields with
                         | Some _ => true
                         | None => false
                         end)
                then push errors (missing_column entityType field)
                else errors)).
  2:{ intros s x i _. cbn [has_property bind].
      destruct (lookup x fields); reflexivity. }
  rewrite fold_missing. reflexivity.
Qed.

Lemma X16_validateRequiredColumns_witness :
  inherited_name "clients" = false
  /\ validateRequiredColumns
       (VArr [VObj [("ClientID", VStr "C1")]; VNull]) "clients"
     = Normal [missing_column "clients" "ClientName";
               missing_column "clients" "PriorityLevel"]
  /\ validateRequiredColumns (VArr []) "clients" = Normal [].
Proof.
  split; [reflexivity|].
  exact (X16_validateRequiredColumns_reads_first_record_only
           [("ClientID", VStr "C1")] [VNull] "clients" eq_refl).
Defined.

End EnhancedExtras.

(* ================================================================== *)
(** * Part XV.  The co-run cycle check of the validation service        *)
(* ================================================================== *)

Module CoRunCycles.

Import JS JSFacts Records ValidationService CoRunSpec.
Local Open Scope list_scope.
Local Open Scope nat_scope.

(** ** A traversal that starts with nodes left on the recursion stack *)

Section Search.

Variable node : Type.
Variable eqb : node -> node -> bool.
Hypothesis eqb_spec : forall a b, eqb a b = true <-> a = b.

Local Abbreviation set_add := (GraphUtils.set_add node eqb).
Local Abbreviation neighbors := (GraphUtils.neighbors node eqb).
Local Abbreviation dfs := (GraphUtils.dfs node eqb).
Local Abbreviation dfs_neighbors := (GraphUtils.dfs_neighbors node eqb).
Local Abbreviation edge := (GraphSpec.edge node eqb).
Local Abbreviation reaches := (GraphSpec.reaches node eqb).
Local Abbreviation finished := (GraphSpec.finished node).
Local Abbreviation no_cycle_so_far := (GraphSpec.no_cycle_so_far node eqb).
Local Abbreviation leads := (fun g => leads_to_cycle (edge g)).

Lemma leads_back : forall g y x, reaches g y x -> leads g x -> leads g y.
Proof.
  intros g y x H [c [[Hxc | Hc] Hcc]]; exists c; (split; [right | exact Hcc]).
  - rewrite <- Hxc. exact H.
  - eapply t_trans; eassumption.
Qed.

Lemma on_cycle_leads : forall g x, reaches g x x -> leads g x.
Proof. intros g x H. exists x. split; [left; reflexivity | exact H]. Qed.

Lemma finished_not_leads :
  forall g st v, no_cycle_so_far g st -> finished st v -> ~ leads g v.
Proof.
  intros g st v Hinv Hf [c [Hvc Hcc]].
  assert (Hfc : finished st c).
  { destruct Hvc as [<- | Hvc]; [exact Hf|].
    eapply (GraphFacts.finished_closed_reaches node eqb); [|exact Hvc | exact Hf].
    intros v0 Hv0. apply (Hinv v0 Hv0). }
  destruct (Hinv c Hfc) as [_ Hn]. exact (Hn Hcc).
Qed.

Lemma no_cycle_so_far_enter :
  forall g st x,
    ~ In x (GraphUtils.visited st) ->
    no_cycle_so_far g st ->
    no_cycle_so_far g (GraphUtils.mkState (set_add x (GraphUtils.visited st))
                         (set_add x (GraphUtils.recursionStack st))).
Proof.
  intros g st x Ev Hinv v [Hv1 Hv2]. simpl in Hv1, Hv2.
  assert (Hvx : v <> x).
  { intros ->. apply Hv2. apply (GraphFacts.set_add_In node eqb eqb_spec).
    left. reflexivity. }
  assert (Hf : finished st v).
  { split.
    - apply (GraphFacts.set_add_In node eqb eqb_spec) in Hv1.
      destruct Hv1 as [Hv1 | Hv1]; [contradiction | exact Hv1].
    - intros Hin. apply Hv2. apply (GraphFacts.set_add_In node eqb eqb_spec).
      right. exact Hin. }
  destruct (Hinv v Hf) as [Hsucc Hacyc]. split; [|exact Hacyc].
  intros w Hw. destruct (Hsucc w Hw) as [Hw1 Hw2]. split; simpl.
  - apply (GraphFacts.set_add_In node eqb eqb_spec). right. exact Hw1.
  - intros Hin. apply (GraphFacts.set_add_In node eqb eqb_spec) in Hin.
    destruct Hin as [-> | Hin]; contradiction.
Qed.

(** What a call of [dfs] that returns a cycle leaves behind, when every
    node on the recursion stack either leads to a cycle or is an ancestor
    of the node the call is made on. *)
Lemma dfs_neighbors_found :
  forall g (rec : node -> GraphUtils.dfs_state node
                  -> option (GraphUtils.dfs_result node)) (x : node),
    (forall n st st', rec n st = Some (None, st') ->
                      GraphUtils.recursionStack st' = GraphUtils.recursionStack st) ->
    (forall n st st', rec n st = Some (None, st') ->
                      no_cycle_so_far g st -> no_cycle_so_far g st') ->
    (forall n st c st',
        rec n st = Some (Some c, st') ->
        no_cycle_so_far g st ->
        (forall y, In y (GraphUtils.recursionStack st) -> leads g y \/ reaches g y n) ->
        leads g n /\ no_cycle_so_far g st'
        /\ (forall y, In y (GraphUtils.recursionStack st') -> leads g y)) ->
    forall ns st c st',
      dfs_neighbors rec x ns st = Some (Some c, st') ->
      no_cycle_so_far g st ->
      (forall n, In n ns -> edge g x n) ->
      (forall y, In y (GraphUtils.recursionStack st) ->
                 leads g y \/ y = x \/ reaches g y x) ->
      leads g x /\ no_cycle_so_far g st'
      /\ (forall y, In y (GraphUtils.recursionStack st') -> leads g y).
Proof.
  intros g rec x Hframe Hcomplete Hfound ns.
  induction ns as [|n ns IH]; intros st c st' H Hinv Hedges Hstack; simpl in H;
    [discriminate|].
  assert (Hxn : edge g x n) by (apply Hedges; left; reflexivity).
  destruct (rec n st) as [[[c1|] st1]|] eqn:E; try discriminate.
  - inversion H. subst c1 st1.
    destruct (Hfound _ _ _ _ E Hinv) as [Hn [Hinv' Hstack']].
    + intros y Hy. destruct (Hstack y Hy) as [Hl | [-> | Hr]].
      * left. exact Hl.
      * right. apply t_step. exact Hxn.
      * right. eapply t_trans; [exact Hr | apply t_step; exact Hxn].
    + split; [|split; assumption].
      eapply leads_back; [apply t_step; exact Hxn | exact Hn].
  - apply (IH st1 c st' H).
    + eapply Hcomplete; eassumption.
    + intros m Hm. apply Hedges. right. exact Hm.
    + rewrite (Hframe _ _ _ E). exact Hstack.
Qed.

Lemma dfs_found :
  forall fuel g x path st c st',
    dfs fuel g x path st = Some (Some c, st') ->
    no_cycle_so_far g st ->
    (forall y, In y (GraphUtils.recursionStack st) -> leads g y \/ reaches g y x) ->
    leads g x /\ no_cycle_so_far g st'
    /\ (forall y, In y (GraphUtils.recursionStack st') -> leads g y).
Proof.
  induction fuel as [|fuel IH]; intros g x path st c st' H Hinv Hstack;
    simpl in H; [discriminate|].
  destruct (GraphUtils.set_has node eqb x (GraphUtils.recursionStack st)) eqn:Es.
  { inversion H. subst st'.
    apply (GraphFacts.set_has_In node eqb eqb_spec) in Es.
    assert (Hx : leads g x).
    { destruct (Hstack x Es) as [Hl | Hr]; [exact Hl | apply on_cycle_leads; exact Hr]. }
    split; [exact Hx|]. split; [exact Hinv|].
    intros y Hy. destruct (Hstack y Hy) as [Hl | Hr]; [exact Hl|].
    eapply leads_back; eassumption. }
  destruct (GraphUtils.set_has node eqb x (GraphUtils.visited st)) eqn:Ev;
    [discriminate|].
  apply (GraphFacts.set_has_not_In node eqb eqb_spec) in Ev.
  apply dfs_neighbors_found with (g := g) in H.
  - exact H.
  - intros n s s' E.
    destruct (GraphFacts.dfs_frame node eqb eqb_spec _ _ _ _ _ _ E) as [Hs _].
    exact Hs.
  - intros n s s' E Hi.
    eapply (GraphFacts.dfs_complete node eqb eqb_spec); eassumption.
  - intros n s c' s' E Hi Hst. eapply IH; eassumption.
  - apply no_cycle_so_far_enter; assumption.
  - intros n Hn. exact Hn.
  - intros y Hy. simpl in Hy.
    apply (GraphFacts.set_add_In node eqb eqb_spec) in Hy.
    destruct Hy as [-> | Hy]; [right; left; reflexivity|].
    destruct (Hstack y Hy) as [Hl | Hr]; [left; exact Hl | right; right; exact Hr].
Qed.

End Search.

(** ** [hasCycle] is the traversal of [detectCycles] without the path *)

Local Abbreviation sdfs := (GraphUtils.dfs string String.eqb).
Local Abbreviation sedge := (GraphSpec.edge string String.eqb).
Local Abbreviation sleads := (fun g => leads_to_cycle (sedge g)).
Local Abbreviation sinv := (GraphSpec.no_cycle_so_far string String.eqb).
Local Abbreviation universe :=
  (fun graph : list (string * list string) =>
     map fst graph ++ List.concat (map snd graph)).

Lemma lookup_map_get : forall (x : string) (graph : list (string * list string)),
    lookup x graph = GraphUtils.map_get string String.eqb x graph.
Proof.
  intros x graph. induction graph as [|[k ns] graph IH]; simpl; [reflexivity|].
  rewrite IH. reflexivity.
Qed.

Lemma corun_neighbors_neighbors : forall graph x,
    corun_neighbors graph x = GraphUtils.neighbors string String.eqb graph x.
Proof.
  intros graph x. unfold corun_neighbors, GraphUtils.neighbors.
  rewrite lookup_map_get. reflexivity.
Qed.

Lemma hasCycle_neighbors_dfs :
  forall (rec1 : string -> cycle_state -> option (bool * cycle_state))
         (rec2 : string -> GraphUtils.dfs_state string
                 -> option (GraphUtils.dfs_result string)) (x : string),
    (forall n V R,
        rec1 n (V, R)
        = match rec2 n (GraphUtils.mkState V R) with
          | None => None
          | Some (c, st) =>
              Some (match c with Some _ => true | None => false end,
                    (GraphUtils.visited st, GraphUtils.recursionStack st))
          end) ->
    forall ns V R,
      hasCycle_neighbors rec1 x ns (V, R)
      = match GraphUtils.dfs_neighbors string String.eqb rec2 x ns
                (GraphUtils.mkState V R) with
        | None => None
        | Some (c, st) =>
            Some (match c with Some _ => true | None => false end,
                  (GraphUtils.visited st, GraphUtils.recursionStack st))
        end.
Proof.
  intros rec1 rec2 x Hrec ns. induction ns as [|n ns IH]; intros V R.
  - reflexivity.
  - cbn [hasCycle_neighbors GraphUtils.dfs_neighbors]. rewrite Hrec.
    destruct (rec2 n (GraphUtils.mkState V R)) as [[[c|] [V1 R1]]|];
      [reflexivity | apply IH | reflexivity].
Qed.

Lemma hasCycle_dfs :
  forall fuel graph x path V R,
    hasCycle fuel graph x (V, R)
    = match sdfs fuel graph x path (GraphUtils.mkState V R) with
      | None => None
      | Some (c, st) =>
          Some (match c with Some _ => true | None => false end,
                (GraphUtils.visited st, GraphUtils.recursionStack st))
      end.
Proof.
  induction fuel as [|fuel IH]; intros graph x path V R; [reflexivity|].
  cbn [hasCycle GraphUtils.dfs fst snd GraphUtils.visited GraphUtils.recursionStack].
  unfold string_set_has, GraphUtils.set_has.
  destruct (existsb (String.eqb x) R); [reflexivity|].
  destruct (existsb (String.eqb x) V); [reflexivity|].
  rewrite corun_neighbors_neighbors.
  apply hasCycle_neighbors_dfs.
  intros n V1 R1. apply IH.
Qed.

(** One call of [hasCycle] from the loop over the keys: it returns,
    keeps the invariant, and answers whether the key leads to a cycle. *)
Lemma hasCycle_root :
  forall graph k V R,
    In k (universe graph) ->
    List.length (GraphSpec.unvisited string String.eqb (universe graph) V)
    < corun_depth_bound graph ->
    sinv graph (GraphUtils.mkState V R) ->
    (forall y, In y R -> sleads graph y) ->
    exists b V' R',
      hasCycle (corun_depth_bound graph) graph k (V, R) = Some (b, (V', R'))
      /\ incl V V'
      /\ sinv graph (GraphUtils.mkState V' R')
      /\ (forall y, In y R' -> sleads graph y)
      /\ (b = true <-> sleads graph k).
Proof.
  intros graph k V R Hk Hm Hinv Hstack.
  rewrite (hasCycle_dfs _ graph k [] V R).
  destruct (GraphFacts.dfs_terminates string String.eqb String.eqb_eq
              (corun_depth_bound graph) graph k [] (GraphUtils.mkState V R) Hk Hm)
    as [r [[V' R'] [E Hv]]].
  rewrite E. simpl in Hv. destruct r as [c|].
  - destruct (dfs_found string String.eqb String.eqb_eq _ _ _ _ _ _ _ E Hinv)
      as [Hl [Hinv' Hstack']].
    { intros y Hy. left. apply Hstack. exact Hy. }
    exists true, V', R'. split; [reflexivity|]. split; [exact Hv|].
    split; [exact Hinv'|]. split; [exact Hstack'|].
    split; [intros _; exact Hl | reflexivity].
  - destruct (GraphFacts.dfs_frame string String.eqb String.eqb_eq _ _ _ _ _ _ E)
      as [Hs [_ [Hin Hout]]].
    pose proof (GraphFacts.dfs_complete string String.eqb String.eqb_eq
                  _ _ _ _ _ _ E Hinv) as Hinv'.
    simpl in Hs, Hin, Hout. subst R'.
    exists false, V', R. split; [reflexivity|]. split; [exact Hv|].
    split; [exact Hinv'|]. split; [exact Hstack|].
    split; [discriminate|]. intros Hl. exfalso.
    apply (finished_not_leads string String.eqb _ _ k Hinv'); [|exact Hl].
    split; assumption.
Qed.

Lemma findIndex_TaskID_pure : forall taskId tasks i,
    records tasks ->
    findIndex_TaskID taskId tasks i = Normal (task_index taskId tasks i).
Proof.
  intros taskId tasks. induction tasks as [|t tasks IH]; intros i Hrec; simpl.
  - reflexivity.
  - inversion Hrec as [|? ? Ht Hrec']. subst.
    rewrite (get_prop t "TaskID" Ht). cbn [bind].
    destruct (is_string taskId (prop t "TaskID")); [reflexivity|].
    apply IH. exact Hrec'.
Qed.

Lemma selects_iff : forall (A : Type) (P Q : A -> Prop) l r,
    (forall x, P x <-> Q x) -> selects P l r -> selects Q l r.
Proof.
  intros A P Q l r HPQ H. induction H as [|x l r Hx _ IH|x l r Hx _ IH].
  - constructor.
  - apply selects_keep; [apply HPQ; exact Hx | exact IH].
  - apply selects_skip; [intros HQ; apply Hx; apply HPQ; exact HQ | exact IH].
Qed.

Lemma clos_trans_iff : forall (A : Type) (E F : A -> A -> Prop),
    (forall a b, E a b -> F a b) ->
    forall a b, clos_trans A E a b -> clos_trans A F a b.
Proof.
  intros A E F HEF a b H. induction H as [a b H | a b c _ IH1 _ IH2].
  - apply t_step. apply HEF. exact H.
  - eapply t_trans; eassumption.
Qed.

Lemma leads_corun : forall graph k,
    sleads graph k <-> leads_to_cycle (corun_edge graph) k.
Proof.
  intros graph k.
  assert (H1 : forall a b, sedge graph a b -> corun_edge graph a b).
  { intros a b H. unfold corun_edge. rewrite corun_neighbors_neighbors. exact H. }
  assert (H2 : forall a b, corun_edge graph a b -> sedge graph a b).
  { intros a b H. unfold corun_edge in H. rewrite corun_neighbors_neighbors in H.
    exact H. }
  split; intros [c [Hkc Hcc]]; exists c.
  - split; [destruct Hkc as [-> | Hkc]; [left; reflexivity | right]|];
      eapply clos_trans_iff; eassumption.
  - split; [destruct Hkc as [-> | Hkc]; [left; reflexivity | right]|];
      eapply clos_trans_iff; eassumption.
Qed.

(** The errors of [detectCircularCoRuns] on task records. *)
Lemma detectCircularCoRuns_spec :
  forall tasks,
    records tasks ->
    exists reported,
      ValidationService.detectCircularCoRuns (VArr tasks)
      = Normal (map (circular_error tasks) reported)
      /\ selects (leads_to_cycle (corun_edge (corun_graph_of tasks)))
                 (map fst (Object_entries (corun_graph_of tasks))) reported.
Proof.
  intros tasks Hrec. unfold ValidationService.detectCircularCoRuns.
  cbn [array_method bind]. unfold forEach.
  rewrite (forEach_from_pure _ _ _
             (fun graph task =>
                if truthy (prop task "CoRunWith")
                then obj_set (ToString (prop task "TaskID"))
                             (arrayifyCommaString (prop task "CoRunWith")) graph
                else graph)).
  2:{ intros graph t i Hin. unfold records in Hrec. rewrite Forall_forall in Hrec.
      rewrite (get_prop t "CoRunWith" (Hrec t Hin)). cbn [bind].
      destruct (truthy (prop t "CoRunWith")); [|reflexivity].
      rewrite (get_prop t "TaskID" (Hrec t Hin)). reflexivity. }
  cbn [bind]. fold (corun_graph_of tasks).
  set (graph := corun_graph_of tasks).
  match goal with
  | |- context [forEach_from ?body (Object_entries graph) _ _] =>
      assert (Hloop : forall l i V R errors,
                 (forall e, In e l -> In e graph) ->
                 List.length (GraphSpec.unvisited string String.eqb
                                (universe graph) V)
                 < corun_depth_bound graph ->
                 sinv graph (GraphUtils.mkState V R) ->
                 (forall y, In y R -> sleads graph y) ->
                 exists st reported,
                   forEach_from body l i ((V, R), errors)
                   = Normal (st, errors ++ map (circular_error tasks) reported)
                   /\ selects (sleads graph) (map fst l) reported)
  end.
  { induction l as [|e l IHl]; intros i V R errors Hl Hm Hinv Hstack;
      cbn [forEach_from].
    - exists (V, R), []. split; [rewrite app_nil_r; reflexivity | constructor].
    - destruct (hasCycle_root graph (fst e) V R) as [b [V' [R' [E [Hv [Hinv' [Hstack' Hb]]]]]]].
      + apply in_or_app. left. apply in_map. apply Hl. left. reflexivity.
      + exact Hm.
      + exact Hinv.
      + exact Hstack.
      + rewrite E.
        pose proof (GraphFacts.unvisited_mono string String.eqb String.eqb_eq
                      (universe graph) _ _ Hv) as Hmono.
        destruct b.
        * rewrite (findIndex_TaskID_pure (fst e) tasks 0 Hrec). cbn [bind].
          destruct (IHl (S i) V' R'
                        (push errors (circular_error tasks (fst e))))
            as [st [reported [Hrun Hsel]]].
          { intros e' He'. apply Hl. right. exact He'. }
          { lia. }
          { exact Hinv'. }
          { exact Hstack'. }
          exists st, (fst e :: reported). split.
          -- etransitivity; [exact Hrun|].
             unfold push. rewrite <- app_assoc. reflexivity.
          -- cbn [map]. apply selects_keep; [apply Hb; reflexivity | exact Hsel].
        * cbn [bind].
          destruct (IHl (S i) V' R' errors) as [st [reported [Hrun Hsel]]].
          { intros e' He'. apply Hl. right. exact He'. }
          { lia. }
          { exact Hinv'. }
          { exact Hstack'. }
          exists st, reported. split; [exact Hrun|].
          cbn [map]. apply selects_skip; [|exact Hsel].
          intros Hl'. apply Hb in Hl'. discriminate. }
  destruct (Hloop (Object_entries graph) 0%nat [] [] []) as [st [reported [Hrun Hsel]]].
  - intros e He. apply ValidationFacts.Object_entries_In. exact He.
  - unfold corun_depth_bound, GraphSpec.unvisited.
    pose proof (filter_length_le
                  (fun y => negb (GraphUtils.set_has string String.eqb y []))
                  (universe graph)).
    lia.
  - apply GraphFacts.no_cycle_so_far_init.
  - intros y [].
  - rewrite Hrun. cbn [bind snd app]. exists reported.
    split; [reflexivity|].
    eapply selects_iff; [|exact Hsel]. intros x. apply leads_corun.
Qed.



End CoRunCycles.

(* ================================================================== *)
(** * Part XVI.  The task references of clients                         *)
(* ================================================================== *)

Module ReferenceFacts.

Import JS JSFacts Records Duplicates ValidationService ReferenceSpec ValidationFacts.
Local Open Scope list_scope.

Lemma filter_fold_keep :
  forall (B : Type) (P : verror -> bool) (c : B -> bool) (x : B -> verror)
         (items : list B) errors,
    (forall t, P (x t) = true) ->
    filter P (fold_left (fun errors t => if c t then push errors (x t) else errors)
                        items errors)
    = filter P errors ++ map x (filter c items).
Proof.
  intros B P c x items. induction items as [|t items IH]; intros errors H; simpl.
  - rewrite app_nil_r. reflexivity.
  - rewrite IH by exact H. destruct (c t); [|reflexivity].
    rewrite filter_push, H, <- app_assoc. reflexivity.
Qed.

Lemma falsy_requests : forall v, truthy v = false -> arrayifyCommaString v = [].
Proof.
  intros v H. unfold arrayifyCommaString. destruct v; try reflexivity.
  rewrite H. reflexivity.
Qed.

Lemma missing_fields_other :
  forall record required rowIndex errors,
    filter is_unknown_reference
      (fold_left (fun errors fieldName =>
                    if negb (truthy (prop record fieldName))
                       || is_string "" (prop record fieldName)
                    then push errors (missing_field rowIndex fieldName)
                    else errors) required errors)
    = filter is_unknown_reference errors.
Proof.
  intros record required rowIndex errors.
  apply (filter_fold_other string is_unknown_reference
           (fun fieldName => negb (truthy (prop record fieldName))
                             || is_string "" (prop record fieldName))
           (missing_field rowIndex)).
  intros t. reflexivity.
Qed.

Lemma validateClient_references :
  forall JSON_parse taskIds ids errors client i,
    nullish client = false ->
    exists st',
      validateClient JSON_parse taskIds (ids, errors) client i = Normal st'
      /\ filter is_unknown_reference (snd st')
         = filter is_unknown_reference errors
           ++ map (unknown_task (Z.of_nat i + 1))
                  (filter (fun taskId => negb (set_has (VStr taskId) taskIds))
                          (requested client)).
Proof.
  intros JSON_parse taskIds ids errors client i H. unfold validateClient.
  rewrite (validateRequiredFields_record client _ _ H). cbn [bind].
  rewrite !(get_prop client _ H). cbn [bind].
  unfold check_duplicate, requested.
  destruct (truthy (prop client "ClientID")) eqn:Et;
    (eexists; split; [reflexivity|]; cbn [snd]);
    (destruct (truthy (prop client "RequestedTaskIDs")) eqn:Er;
     [ drop_other_errors;
       rewrite ?(filter_fold_keep string is_unknown_reference
                   (fun taskId => negb (set_has (VStr taskId) taskIds))
                   (unknown_task (Z.of_nat i + 1))) by (intros; reflexivity);
       drop_other_errors;
       rewrite ?filter_app, ?missing_fields_other; simpl;
       rewrite ?app_nil_r; reflexivity
     | rewrite (falsy_requests _ Er); cbn [filter map]; rewrite app_nil_r;
       drop_other_errors;
       rewrite ?filter_app, ?missing_fields_other; simpl;
       rewrite ?app_nil_r; reflexivity ]).
Qed.

Lemma validateClients_references_loop :
  forall JSON_parse taskIds clients i ids errors,
    records clients ->
    exists st',
      forEach_from (validateClient JSON_parse taskIds) clients i (ids, errors)
      = Normal st'
      /\ filter is_unknown_reference (snd st')
         = filter is_unknown_reference errors ++ unknown_requests taskIds clients i.
Proof.
  intros JSON_parse taskIds clients.
  induction clients as [|c clients IH]; intros i ids errors Hrec;
    cbn [forEach_from].
  - eexists. split; [reflexivity|]. simpl. rewrite app_nil_r. reflexivity.
  - inversion Hrec as [|? ? Hc Hrec']. subst.
    destruct (validateClient_references JSON_parse taskIds ids errors c i Hc)
      as [[ids1 errs1] [E1 Herrs]].
    rewrite E1. cbn [bind]. cbn [snd] in Herrs.
    destruct (IH (S i) ids1 errs1 Hrec') as [st2 [E2 H2]].
    exists st2. split; [exact E2|]. rewrite H2, Herrs.
    cbn [unknown_requests]. rewrite <- app_assoc. reflexivity.
Qed.

Lemma In_Set_of : forall x items s,
    In x (fold_left (fun s y => set_add y s) items s) <-> In x items \/ In x s.
Proof.
  intros x items. induction items as [|y items IH]; intros s; simpl.
  - tauto.
  - rewrite IH, value_set_add_In. intuition (subst; auto).
Qed.

Lemma set_has_Set_of : forall x items,
    set_has x (ValidationService.Set_of items) = set_has x items.
Proof.
  intros x items. unfold ValidationService.Set_of.
  destruct (set_has x items) eqn:E.
  - apply value_set_has_In. apply In_Set_of. left.
    apply value_set_has_In. exact E.
  - destruct (set_has x (fold_left (fun s y => set_add y s) items [])) eqn:E';
      [|reflexivity].
    apply value_set_has_In in E'. apply In_Set_of in E'.
    destruct E' as [E' | []]. apply value_set_has_In in E'. congruence.
Qed.

Lemma unknown_requests_ext : forall S1 S2 clients i,
    (forall x, set_has x S1 = set_has x S2) ->
    unknown_requests S1 clients i = unknown_requests S2 clients i.
Proof.
  intros S1 S2 clients. induction clients as [|c clients IH]; intros i H; simpl.
  - reflexivity.
  - rewrite (IH (S i) H). f_equal. f_equal. apply filter_ext.
    intros a. rewrite H. reflexivity.
Qed.

(** The [UnknownReference] errors of [validateClients], in the order they
    are reported. *)
Lemma validateClients_references :
  forall JSON_parse clients tasks,
    records clients -> records tasks ->
    exists errs,
      validateClients JSON_parse clients (VArr tasks) = Normal errs
      /\ filter is_unknown_reference errs
         = unknown_requests (map (fun t => prop t "TaskID") tasks) clients 0.
Proof.
  intros JSON_parse clients tasks Hc Ht. unfold validateClients.
  cbn [array_method bind].
  rewrite (array_map_pure _ _ _ (fun t => prop t "TaskID")).
  - cbn [bind]. unfold forEach.
    destruct (validateClients_references_loop JSON_parse
                (ValidationService.Set_of (map (fun t => prop t "TaskID") tasks))
                clients 0 [] [] Hc) as [st [E H]].
    rewrite E. cbn [bind]. exists (snd st). split; [reflexivity|].
    rewrite H. simpl. apply unknown_requests_ext.
    intros x. apply set_has_Set_of.
  - intros t Hin. unfold records in Ht. rewrite Forall_forall in Ht.
    apply get_prop. apply Ht. exact Hin.
Qed.

(** [validateRecords(data, 'clients')] without a data store. *)
Lemma validateRecords_clients_alone :
  forall JSON_parse cache clients,
    records clients ->
    cache_hit cache = None ->
    exists errs,
      validateRecords JSON_parse cache (VArr clients) (VStr "clients") VUndefined
      = Errors errs
      /\ validateClients JSON_parse clients (VArr []) = Normal errs.
Proof.
  intros JSON_parse cache clients Hc Hmiss.
  destruct (validateClients_references JSON_parse clients [] Hc (Forall_nil _))
    as [errs [E _]].
  exists errs. split; [|exact E].
  unfold validateRecords. fold (cache_hit cache). rewrite Hmiss.
  unfold validate_entity.
  change (is_string "clients" (VStr "clients")) with true. cbv iota.
  change (get (VObj []) "tasks") with (Normal VUndefined). cbn [bind].
  change (or_else VUndefined (VArr [])) with (VArr []).
  rewrite E. reflexivity.
Qed.

(** X18.  On records of ASCII text the [UnknownReference] errors of
    [validateClients(clients, tasks)] are, row by row and in the order of
    each [RequestedTaskIDs] list, one error for every requested
    identifier that is not the [TaskID] of a task (a numeric [TaskID]
    does not match the requested string).  [validateRecords(data, 'clients')] called without a data
    store, when the cache has no answer, validates against an empty task
    list: it reports every requested identifier of every client as not
    found. *)
Theorem X18_requested_tasks_reported_as_unknown :
  forall (JSON_parse : string -> completion value) (cache : cache_reply)
         (clients tasks : list value),
    records clients -> records tasks ->
    forallb ascii_value clients = true ->
    forallb ascii_value tasks = true ->
    cache_hit cache = None ->
    (exists errs,
        validateClients JSON_parse clients (VArr tasks) = Normal errs
        /\ filter is_unknown_reference errs
           = unknown_requests (map (fun t => prop t "TaskID") tasks) clients 0)
    /\ (exists errs,
           validateRecords JSON_parse cache (VArr clients) (VStr "clients") VUndefined
           = Errors errs
           /\ filter is_unknown_reference errs
              = flat_map (fun p => map (unknown_task (Z.of_nat (fst p) + 1))
                                       (requested (snd p)))
                         (combine (seq 0 (List.length clients)) clients)).
Proof.
  intros JSON_parse cache clients tasks Hc Ht _ _ Hmiss. split.
  - apply validateClients_references; assumption.
  - destruct (validateRecords_clients_alone JSON_parse cache clients Hc Hmiss)
      as [errs [E1 E2]].
    exists errs. split; [exact E1|].
    destruct (validateClients_references JSON_parse clients [] Hc (Forall_nil _))
      as [errs' [E3 H3]].
    rewrite E2 in E3. inversion E3. subst errs'. rewrite H3. simpl.
    generalize 0%nat. clear. induction clients as [|c clients IH]; intros i; simpl.
    + reflexivity.
    + rewrite IH. f_equal. f_equal.
      induction (requested c) as [|a l IHl]; simpl; [reflexivity|].
      rewrite IHl. reflexivity.
Qed.

Lemma X18_requested_tasks_witness :
  records two_clients /\ records one_task
  /\ forallb ascii_value two_clients = true
  /\ forallb ascii_value one_task = true
  /\ cache_hit no_cache = None
  /\ validateRecords SpecExamples.no_JSON no_cache (VArr two_clients)
       (VStr "clients") VUndefined
     = Errors [unknown_task 1 "T1"; unknown_task 1 "T2"]
  /\ validateClients SpecExamples.no_JSON two_clients (VArr one_task)
     = Normal [unknown_task 1 "T2"]
  /\ (exists errs,
         validateClients SpecExamples.no_JSON two_clients (VArr one_task)
         = Normal errs
         /\ filter is_unknown_reference errs
            = unknown_requests (map (fun t => prop t "TaskID") one_task)
                               two_clients 0).
Proof.
  assert (H1 : records two_clients) by (repeat constructor).
  assert (H2 : records one_task) by (repeat constructor).
  split; [exact H1|]. split; [exact H2|]. split; [reflexivity|].
  split; [reflexivity|]. split; [reflexivity|].
  split; [vm_compute; reflexivity|]. split; [vm_compute; reflexivity|].
  destruct (X18_requested_tasks_reported_as_unknown
              SpecExamples.no_JSON no_cache two_clients one_task H1 H2
              eq_refl eq_refl eq_refl)
    as [H _].
  exact H.
Defined.

(** ** The two services on the same clients *)

Lemma trimStart_head : forall s c r,
    trimStart s = String c r -> is_white_space c = false.
Proof.
  induction s as [|d s IH]; intros c r H; simpl in H; [discriminate|].
  destruct (is_white_space d) eqn:E; [eapply IH; exact H|].
  inversion H. subst. exact E.
Qed.

Lemma trimStart_empty : forall s,
    trimStart s = EmptyString ->
    Forall (fun c => is_white_space c = true) (list_ascii_of_string s).
Proof.
  induction s as [|d s IH]; intros H; simpl in *; [constructor|].
  destruct (is_white_space d) eqn:E; [|discriminate].
  constructor; [exact E | apply IH; exact H].
Qed.

Lemma white_trimStart : forall s,
    Forall (fun c => is_white_space c = true) (list_ascii_of_string s) ->
    trimStart s = EmptyString.
Proof.
  induction s as [|d s IH]; intros H; simpl in *; [reflexivity|].
  inversion H as [|? ? Hd Hs]. subst. rewrite Hd. apply IH. exact Hs.
Qed.

Lemma reverse_empty : forall s, reverse s = EmptyString -> s = EmptyString.
Proof.
  intros s H. unfold reverse in H.
  destruct s as [|c s]; [reflexivity|]. exfalso.
  assert (Hl : list_ascii_of_string (string_of_list_ascii
                                      (rev (list_ascii_of_string (String c s))))
               = []) by (rewrite H; reflexivity).
  rewrite list_ascii_of_string_of_list_ascii in Hl.
  apply (f_equal (@List.length ascii)) in Hl. rewrite length_rev in Hl.
  simpl in Hl. discriminate.
Qed.

Lemma trim_empty_white : forall s,
    trim s = EmptyString ->
    Forall (fun c => is_white_space c = true) (list_ascii_of_string s).
Proof.
  intros s H. unfold trim, trimEnd in H.
  apply reverse_empty in H. apply trimStart_empty in H.
  unfold reverse in H. rewrite list_ascii_of_string_of_list_ascii in H.
  assert (Ht : Forall (fun c => is_white_space c = true)
                      (list_ascii_of_string (trimStart s))).
  { rewrite Forall_forall in *. intros c Hc. apply H. apply in_rev in Hc. exact Hc. }
  apply trimStart_empty.
  destruct (trimStart s) as [|c r] eqn:E; [reflexivity|].
  apply trimStart_head in E. simpl in Ht. inversion Ht. congruence.
Qed.

Lemma split_aux_no_separator : forall sep s cur,
    Forall (fun c => Ascii.eqb c sep = false) (list_ascii_of_string s) ->
    split_aux sep s cur
    = [string_of_list_ascii (rev cur ++ list_ascii_of_string s)].
Proof.
  intros sep s. induction s as [|c s IH]; intros cur H; simpl.
  - rewrite app_nil_r. reflexivity.
  - inversion H as [|? ? Hc Hs]. subst. rewrite Hc. rewrite (IH _ Hs).
    simpl. rewrite <- app_assoc. reflexivity.
Qed.

(** On a string the two conversions of a comma-separated list agree. *)
Lemma safeArrayConvert_string : forall s,
    EnhancedValidationService.safeArrayConvert (VStr s)
    = arrayifyCommaString (VStr s).
Proof.
  intros s. unfold EnhancedValidationService.safeArrayConvert, arrayifyCommaString,
              EnhancedValidationService.filter_Boolean,
              EnhancedValidationService.nonempty.
  cbn [truthy]. rewrite negb_involutive.
  destruct (String.eqb (trim s) "") eqn:Et; cbn [negb].
  - apply String.eqb_eq in Et.
    destruct (String.eqb s ""); [reflexivity|].
    pose proof (trim_empty_white s Et) as Hw.
    unfold split. rewrite split_aux_no_separator.
    + simpl. rewrite string_of_list_ascii_of_string, Et. reflexivity.
    + rewrite Forall_forall in *. intros c Hc. specialize (Hw c Hc).
      destruct (Ascii.eqb c ",") eqn:E; [|reflexivity].
      apply Ascii.eqb_eq in E. subst c. discriminate.
  - destruct (String.eqb s "") eqn:Es; [|reflexivity].
    apply String.eqb_eq in Es. subst s. discriminate.
Qed.

Lemma In_fold_set_add : forall x items s,
    In x (fold_left (fun s y => set_add y s) items s) <-> In x items \/ In x s.
Proof. exact In_Set_of. Qed.

Lemma set_has_truthy_ids : forall taskId ids,
    EnhancedValidationService.nonempty taskId = true ->
    set_has (VStr taskId) (EnhancedValidationService.Set_of (filter truthy ids))
    = set_has (VStr taskId) ids.
Proof.
  intros taskId ids Hne. unfold EnhancedValidationService.Set_of.
  assert (Ht : truthy (VStr taskId) = true) by exact Hne.
  destruct (set_has (VStr taskId) ids) eqn:E.
  - apply value_set_has_In. apply In_fold_set_add. left.
    apply filter_In. split; [apply value_set_has_In; exact E | exact Ht].
  - destruct (set_has (VStr taskId)
                (fold_left (fun s y => set_add y s) (filter truthy ids) [])) eqn:E';
      [|reflexivity].
    apply value_set_has_In in E'. apply In_fold_set_add in E'.
    destruct E' as [E' | []]. apply filter_In in E'. destruct E' as [E' _].
    apply value_set_has_In in E'. congruence.
Qed.

Lemma requested_nonempty : forall v taskId,
    In taskId (arrayifyCommaString v) ->
    EnhancedValidationService.nonempty taskId = true.
Proof.
  intros v taskId H. unfold arrayifyCommaString in H.
  destruct v; try contradiction.
  destruct (negb (truthy (VStr s))); [contradiction|].
  apply filter_In in H. exact (proj2 H).
Qed.

Lemma filter_ext_In : forall (A : Type) (f g : A -> bool) (l : list A),
    (forall a, In a l -> f a = g a) -> filter f l = filter g l.
Proof.
  intros A f g l. induction l as [|a l IH]; intros H; simpl; [reflexivity|].
  rewrite (H a (or_introl eq_refl)), IH; [reflexivity|].
  intros b Hb. apply H. right. exact Hb.
Qed.

Lemma fold_push_filter :
  forall (A B : Type) (c : B -> bool) (x : B -> A) (items : list B) (acc : list A),
    fold_left (fun acc t => if c t then push acc (x t) else acc) items acc
    = acc ++ map x (filter c items).
Proof.
  intros A B c x items. induction items as [|t items IH]; intros acc; simpl.
  - rewrite app_nil_r. reflexivity.
  - rewrite IH. destruct (c t); [|reflexivity].
    unfold push. rewrite <- app_assoc. reflexivity.
Qed.

(** The inner loop of [validateTaskReferences] over the requested
    identifiers of one client. *)
Lemma references_inner_loop :
  forall valid client index items j errors,
    nullish client = false ->
    forEach_from
      (fun errors taskId (_ : nat) =>
         if EnhancedValidationService.nonempty taskId
            && negb (set_has (VStr taskId) valid)
         then (client_id <- get client "ClientID" ;;
               Normal (push errors
                         (EnhancedValidationService.unknown_task_reference
                            client_id taskId index)))%js
         else Normal errors) items j errors
    = Normal (errors
                ++ map (fun taskId => enhanced_finding (index, client, taskId))
                       (filter (fun taskId =>
                                  EnhancedValidationService.nonempty taskId
                                  && negb (set_has (VStr taskId) valid)) items)).
Proof.
  intros valid client index items j errors H.
  rewrite (forEach_from_pure _ _ _
             (fun errors taskId =>
                if EnhancedValidationService.nonempty taskId
                   && negb (set_has (VStr taskId) valid)
                then push errors (enhanced_finding (index, client, taskId))
                else errors)).
  - f_equal. apply fold_push_filter.
  - intros s x i _.
    destruct (EnhancedValidationService.nonempty x && negb (set_has (VStr x) valid));
      [|reflexivity].
    rewrite (get_prop client "ClientID" H). reflexivity.
Qed.

Lemma validateTaskReferences_loop :
  forall ids clients i errors,
    records clients ->
    Forall (fun c => isArray (prop c "RequestedTaskIDs") = false) clients ->
    forEach_from
      (fun errors client index =>
         (requested <- get client "RequestedTaskIDs" ;;
          if truthy requested then
            forEach (fun errors taskId (_ : nat) =>
                if EnhancedValidationService.nonempty taskId
                   && negb (set_has (VStr taskId)
                              (EnhancedValidationService.Set_of (filter truthy ids)))
                then (client_id <- get client "ClientID" ;;
                      Normal (push errors
                                (EnhancedValidationService.unknown_task_reference
                                   client_id taskId index)))
                else Normal errors)
              (EnhancedValidationService.safeArrayConvert requested) errors
          else Normal errors)%js) clients i errors
    = Normal (errors ++ map enhanced_finding (unknown_pairs ids clients i)).
Proof.
  intros ids clients. induction clients as [|c clients IH];
    intros i errors Hrec Hstr; cbn [forEach_from unknown_pairs map].
  - rewrite app_nil_r. reflexivity.
  - inversion Hrec as [|? ? Hc Hrec']. inversion Hstr as [|? ? Hs Hstr']. subst.
    rewrite (get_prop c "RequestedTaskIDs" Hc). cbn [bind].
    assert (Hconv : (if truthy (prop c "RequestedTaskIDs")
                     then EnhancedValidationService.safeArrayConvert
                            (prop c "RequestedTaskIDs")
                     else []) = requested c).
    { unfold requested.
      destruct (truthy (prop c "RequestedTaskIDs")) eqn:Et;
        [|symmetry; apply falsy_requests; exact Et].
      destruct (prop c "RequestedTaskIDs"); try reflexivity;
        [apply safeArrayConvert_string | discriminate]. }
    assert (Hfilter :
              filter (fun taskId =>
                        EnhancedValidationService.nonempty taskId
                        && negb (set_has (VStr taskId)
                                   (EnhancedValidationService.Set_of
                                      (filter truthy ids)))) (requested c)
              = filter (fun taskId => negb (set_has (VStr taskId) ids))
                       (requested c)).
    { apply filter_ext_In. intros a Ha.
      pose proof (requested_nonempty _ _ Ha) as Hne.
      rewrite Hne, (set_has_truthy_ids a ids Hne). reflexivity. }
    destruct (truthy (prop c "RequestedTaskIDs")) eqn:Et.
    + unfold forEach. rewrite references_inner_loop by exact Hc. cbn [bind].
      rewrite Hconv, Hfilter. rewrite IH by assumption.
      rewrite map_app, map_map, <- app_assoc. reflexivity.
    + cbn [bind]. rewrite IH by assumption.
      rewrite <- Hconv. cbn [filter map app]. reflexivity.
Qed.

Lemma unknown_requests_pairs : forall ids clients i,
    unknown_requests ids clients i = map legacy_error (unknown_pairs ids clients i).
Proof.
  intros ids clients. induction clients as [|c clients IH]; intros i; simpl.
  - reflexivity.
  - rewrite IH, map_app, map_map. reflexivity.
Qed.



End ReferenceFacts.

(* ================================================================== *)
(** * Part XVII.  The dashboard summary of the enhanced service          *)
(* ================================================================== *)

Module DashboardFacts.

Import JS JSFacts Records EnhancedValidationService Dashboard DashboardSpec.
Import EnhancedExtras.
Local Open Scope list_scope.
Local Open Scope nat_scope.

Local Abbreviation all_sited := (Forall (fun f => sited f = true)).

Lemma sited_push : forall errors f,
    all_sited errors -> sited f = true -> all_sited (push errors f).
Proof.
  intros errors f H Hf. unfold push. apply Forall_app. split; [exact H|].
  constructor; [exact Hf | constructor].
Qed.

Ltac sited_goal :=
  repeat match goal with
         | H : Normal _ = Normal _ |- _ => inversion H; subst; clear H
         | H : Throw _ = Normal _ |- _ => discriminate H
         end;
  first [assumption | apply sited_push; [assumption | first [reflexivity | assumption]]].

Section Engine.

Variable JSON_parse : string -> completion value.

Lemma validateRequiredColumns_sited : forall data entityType errs,
    named entityType = true ->
    validateRequiredColumns data entityType = Normal errs -> all_sited errs.
Proof.
  intros data entityType errs Hn H. unfold validateRequiredColumns in H.
  destruct (get data "length") as [len|] eqn:El; cbn [bind] in H; [|discriminate].
  destruct (greater_than len (VNum 0)); [|inversion H; constructor].
  destruct (get data "0") as [firstRecord|]; cbn [bind] in H; [|discriminate].
  eapply forEach_keeps; [| |exact H]; [|constructor].
  intros s x i s' Hs Hb. completed Hb; sited_goal.
Qed.

Lemma validateDuplicateIds_sited : forall data entityType idField errs,
    named entityType = true ->
    validateDuplicateIds data entityType idField = Normal errs -> all_sited errs.
Proof.
  intros data entityType idField errs Hn H. unfold validateDuplicateIds in H.
  completed H. inversion H. subst. apply Forall_forall. intros f Hf.
  apply in_map_iff in Hf. destruct Hf as [d [<- _]]. exact Hn.
Qed.

Lemma validateDataTypes_sited : forall c w t errs,
    validateDataTypes JSON_parse c w t = Normal errs -> all_sited errs.
Proof.
  intros c w t errs H. unfold validateDataTypes in H.
  destruct (array_method "forEach" c) as [clients|]; cbn [bind] in H; [|discriminate].
  match type of H with
  | bind (forEach ?body ?l ?s) _ = _ =>
      destruct (forEach body l s) as [e1|] eqn:E1; cbn [bind] in H; [|discriminate];
      assert (H1 : all_sited e1)
  end.
  { eapply forEach_keeps; [| |exact E1]; [|constructor].
    intros s x i s' Hs Hb. completed Hb; sited_goal. }
  destruct (array_method "forEach" w) as [workers|]; cbn [bind] in H; [|discriminate].
  match type of H with
  | bind (forEach ?body ?l ?s) _ = _ =>
      destruct (forEach body l s) as [e2|] eqn:E2; cbn [bind] in H; [|discriminate];
      assert (H2 : all_sited e2)
  end.
  { eapply forEach_keeps; [| |exact E2]; [|exact H1].
    intros s x i s' Hs Hb. completed Hb; sited_goal. }
  destruct (array_method "forEach" t) as [tasks|]; cbn [bind] in H; [|discriminate].
  eapply forEach_keeps; [| |exact H]; [|exact H2].
  intros s x i s' Hs Hb. completed Hb; sited_goal.
Qed.

Lemma validateRanges_sited : forall c w t errs,
    validateRanges c w t = Normal errs -> all_sited errs.
Proof.
  intros c w t errs H. unfold validateRanges in H.
  destruct (array_method "forEach" c) as [clients|]; cbn [bind] in H; [|discriminate].
  eapply forEach_keeps; [| |exact H]; [|constructor].
  intros s x i s' Hs Hb. completed Hb; sited_goal.
Qed.

Lemma validateTaskReferences_sited : forall c t errs,
    validateTaskReferences c t = Normal errs -> all_sited errs.
Proof.
  intros c t errs H. unfold validateTaskReferences in H.
  destruct (array_method "map" t) as [tasks|]; cbn [bind] in H; [|discriminate].
  destruct (array_map _ tasks) as [taskIds|]; cbn [bind] in H; [|discriminate].
  destruct (array_method "forEach" c) as [clients|]; cbn [bind] in H; [|discriminate].
  eapply forEach_keeps; [| |exact H]; [|constructor].
  intros s x i s' Hs Hb. cbv beta in Hb.
  destruct (get x "RequestedTaskIDs") as [requested|]; cbn [bind] in Hb;
    [|discriminate].
  destruct (truthy requested); [|inversion Hb; subst; exact Hs].
  eapply forEach_keeps; [| |exact Hb]; [|exact Hs].
  intros s1 y j s1' Hs1 Hb1. completed Hb1; sited_goal.
Qed.

Lemma validateSkillCoverage_sited : forall t w errs,
    validateSkillCoverage t w = Normal errs -> all_sited errs.
Proof.
  intros t w errs H. unfold validateSkillCoverage in H.
  destruct (array_method "forEach" w) as [workers|]; cbn [bind] in H; [|discriminate].
  match type of H with
  | bind (forEach ?body ?l ?s) _ = _ =>
      destruct (forEach body l s) as [workerSkills|]; cbn [bind] in H;
      [|discriminate]
  end.
  destruct (array_method "forEach" t) as [tasks|]; cbn [bind] in H; [|discriminate].
  eapply forEach_keeps; [| |exact H]; [|constructor].
  intros s x i s' Hs Hb. cbv beta in Hb.
  destruct (get x "RequiredSkills") as [required|]; cbn [bind] in Hb;
    [|discriminate].
  destruct (truthy required); [|inversion Hb; subst; exact Hs].
  eapply forEach_keeps; [| |exact Hb]; [|exact Hs].
  intros s1 y j s1' Hs1 Hb1. completed Hb1; sited_goal.
Qed.

Lemma validateWorkerOverload_sited : forall w errs,
    validateWorkerOverload JSON_parse w = Normal errs -> all_sited errs.
Proof.
  intros w errs H. unfold validateWorkerOverload in H.
  destruct (array_method "forEach" w) as [workers|]; cbn [bind] in H; [|discriminate].
  eapply forEach_keeps; [| |exact H]; [|constructor].
  intros s x i s' Hs Hb. cbv beta in Hb.
  destruct (get x "AvailableSlots") as [slots|]; cbn [bind] in Hb; [|discriminate].
  destruct (truthy slots); [|inversion Hb; subst; exact Hs].
  destruct (get x "MaxLoadPerPhase") as [load|]; cbn [bind] in Hb; [|discriminate].
  destruct (truthy load); [|inversion Hb; subst; exact Hs].
  match type of Hb with
  | try_catch ?c _ = _ => destruct c as [r|e] eqn:Ec; cbn [try_catch] in Hb
  end; [|inversion Hb; subst; exact Hs].
  inversion Hb. subst r. clear Hb. completed Ec; sited_goal.
Qed.

Lemma check_phase_sited : forall t cap s x s',
    all_sited s -> check_phase t cap s x = Normal s' -> all_sited s'.
Proof.
  intros t cap s [phase demand] s' Hs Hb. unfold check_phase in Hb.
  completed Hb; sited_goal.
Qed.

Lemma validatePhaseSlotSaturation_sited : forall t w,
    all_sited (validatePhaseSlotSaturation JSON_parse t w).
Proof.
  intros t w. unfold validatePhaseSlotSaturation.
  match goal with
  | |- all_sited (match ?c with _ => _ end) => destruct c as [[cap dem]|]
  end; [|repeat constructor].
  pose proof (for_of_partial_keeps _ _ all_sited (check_phase t cap)
                (check_phase_sited t cap) (Object_entries dem) []
                (Forall_nil _)) as Hk.
  destruct (for_of_partial (check_phase t cap) (Object_entries dem) [])
    as [errors [e|]]; cbn [fst] in Hk.
  - apply sited_push; [exact Hk | reflexivity].
  - exact Hk.
Qed.

Lemma validateMaxConcurrency_sited : forall t w errs,
    validateMaxConcurrency t w = Normal errs -> all_sited errs.
Proof.
  intros t w errs H. unfold validateMaxConcurrency in H.
  destruct (array_method "forEach" t) as [tasks|]; cbn [bind] in H; [|discriminate].
  eapply forEach_keeps; [| |exact H]; [|constructor].
  intros s x i s' Hs Hb. cbv beta in Hb.
  destruct (get x "MaxConcurrent") as [taskMax|]; cbn [bind] in Hb; [|discriminate].
  destruct (truthy taskMax); [|inversion Hb; subst; exact Hs].
  destruct (get x "RequiredSkills") as [required|]; cbn [bind] in Hb;
    [|discriminate].
  destruct (truthy required); [|inversion Hb; subst; exact Hs].
  match type of Hb with
  | try_catch ?c _ = _ => destruct c as [r|e] eqn:Ec; cbn [try_catch] in Hb
  end; [|inversion Hb; subst; exact Hs].
  inversion Hb. subst r. clear Hb. cbv zeta in Ec. completed Ec; sited_goal.
Qed.

(** Without rules no stage files a finding under ['rules']. *)
Lemma run_stages_sited : forall c w t results,
    run_stages JSON_parse c w t (VArr []) = Normal results ->
    all_sited (structural results ++ referential results ++ business results
                 ++ operational results).
Proof.
  intros c w t results H. unfold run_stages in H.
  destruct (validateStructural JSON_parse c w t) as [s|] eqn:Es; cbn [bind] in H;
    [|discriminate].
  destruct (validateReferential c w t) as [r|] eqn:Er; cbn [bind] in H;
    [|discriminate].
  destruct (validateBusinessLogic JSON_parse c w t) as [b|] eqn:Eb; cbn [bind] in H;
    [|discriminate].
  destruct (validateOperational c w t (VArr [])) as [o|] eqn:Eo; cbn [bind] in H;
    [|discriminate].
  inversion H. subst results. cbn [structural referential business operational].
  repeat (apply Forall_app; split).
  - unfold validateStructural in Es.
    repeat match type of Es with
           | bind ?c _ = Normal _ =>
               let E := fresh "E" in
               destruct c eqn:E; cbn [bind] in Es; [|discriminate Es]
           end.
    inversion Es. subst s.
    repeat (apply Forall_app; split);
      first [eapply validateRequiredColumns_sited; [|eassumption]; reflexivity
            | eapply validateDuplicateIds_sited; [|eassumption]; reflexivity
            | eapply validateDataTypes_sited; eassumption
            | eapply validateRanges_sited; eassumption].
  - unfold validateReferential in Er.
    repeat match type of Er with
           | bind ?c _ = Normal _ =>
               let E := fresh "E" in
               destruct c eqn:E; cbn [bind] in Er; [|discriminate Er]
           end.
    inversion Er. subst r.
    apply Forall_app; split;
      [eapply validateTaskReferences_sited; eassumption
      | eapply validateSkillCoverage_sited; eassumption].
  - unfold validateBusinessLogic in Eb.
    destruct (validateWorkerOverload JSON_parse w) as [e1|] eqn:E1;
      cbn [bind] in Eb; [|discriminate].
    inversion Eb. subst b. apply Forall_app. split.
    + eapply validateWorkerOverload_sited. exact E1.
    + apply validatePhaseSlotSaturation_sited.
  - unfold validateOperational in Eo.
    destruct (validateMaxConcurrency t w) as [e1|] eqn:E1; cbn [bind] in Eo;
      [|discriminate].
    pose proof (validateMaxConcurrency_sited _ _ _ E1) as H1.
    cbn in Eo. inversion Eo. subst o. exact H1.
Qed.

End Engine.

Lemma sited_filter : forall (p : finding -> bool) l,
    all_sited l -> all_sited (filter p l).
Proof.
  intros p l H. rewrite Forall_forall in *. intros f Hf.
  apply filter_In in Hf. apply H. exact (proj1 Hf).
Qed.

(** Every sited finding falls under exactly one of the four counts. *)
Lemma sited_split : forall l,
    all_sited l ->
    List.length (filter (has_entity "clients") l)
    + List.length (filter (has_entity "workers") l)
    + List.length (filter (has_entity "tasks") l)
    + List.length (filter outside l)
    = List.length l.
Proof.
  intros l H. induction H as [|f l Hf _ IH]; [reflexivity|].
  unfold sited, named in Hf. unfold outside, has_entity in *. cbn [existsb] in Hf.
  cbn [filter].
  destruct (String.eqb (f_entity f) "clients") eqn:E1;
    [apply String.eqb_eq in E1; rewrite E1; cbn; lia|].
  destruct (String.eqb (f_entity f) "workers") eqn:E2;
    [apply String.eqb_eq in E2; rewrite E2; cbn; lia|].
  destruct (String.eqb (f_entity f) "tasks") eqn:E3;
    [apply String.eqb_eq in E3; rewrite E3; cbn; lia|].
  destruct (String.eqb (f_entity f) "operational") eqn:E4;
    [cbn; lia|].
  destruct (String.eqb (f_entity f) "system") eqn:E5;
    [cbn; lia | discriminate].
Qed.

Lemma validateAllData_sited :
  forall JSON_parse now c w t,
    all_sited (errors (validateAllData JSON_parse now c w t VUndefined))
    /\ all_sited (warnings (validateAllData JSON_parse now c w t VUndefined)).
Proof.
  intros JSON_parse now c w t. unfold validateAllData. cbv zeta.
  destruct (run_stages JSON_parse c w t (VArr [])) as [results|e] eqn:E.
  - apply run_stages_sited in E. unfold aggregateResults. cbv zeta.
    cbn [errors warnings]. split; apply sited_filter; exact E.
  - unfold system_error_result. cbn [errors warnings].
    split; repeat constructor.
Qed.

(** X20.  In the object [getValidationSummary] returns, the errors and
    warnings counted under [clients], [workers] and [tasks] of
    [entityBreakdown] add up to [totalErrors] and [totalWarnings] less the
    findings filed under ['operational'] (those of the phase-slot check)
    and the system error, which no entry of the breakdown counts; called
    as it is, without rules, the validation files no finding anywhere
    else.  [isValid] holds exactly when [totalErrors] is zero. *)
Theorem X20_getValidationSummary_breakdown_leaves_out_operational_findings :
  forall (JSON_parse : string -> completion value) (now later : string)
         (clientsData workersData tasksData : list value),
    let r := validateAllData JSON_parse now (VArr clientsData) (VArr workersData)
                             (VArr tasksData) VUndefined in
    let d := getValidationSummary JSON_parse now later
                                  clientsData workersData tasksData in
    d_totalErrors d = breakdown_errors d + List.length (filter outside (errors r))
    /\ d_totalWarnings d
       = breakdown_warnings d + List.length (filter outside (warnings r))
    /\ (d_isValid d = true <-> d_totalErrors d = 0).
Proof.
  intros JSON_parse now later c w t r d.
  destruct (validateAllData_sited JSON_parse now (VArr c) (VArr w) (VArr t))
    as [He Hw].
  fold r in He, Hw.
  assert (Htot : totalErrors (result_summary r) = List.length (errors r)
                 /\ totalWarnings (result_summary r) = List.length (warnings r)
                 /\ (isValid r = true <-> List.length (errors r) = 0)).
  { unfold r, validateAllData. cbv zeta.
    destruct (run_stages JSON_parse (VArr c) (VArr w) (VArr t) (VArr [])).
    - unfold aggregateResults. cbv zeta.
      cbn [errors warnings result_summary totalErrors totalWarnings isValid].
      split; [reflexivity|]. split; [reflexivity|]. apply Nat.eqb_eq.
    - unfold system_error_result.
      cbn [errors warnings result_summary totalErrors totalWarnings isValid].
      split; [reflexivity|]. split; [reflexivity|]. split; discriminate. }
  destruct Htot as [H1 [H2 H3]].
  unfold d, getValidationSummary, breakdown_errors, breakdown_warnings, count_entity.
  cbv zeta. fold r.
  cbn [d_totalErrors d_totalWarnings d_isValid d_clients d_workers d_tasks
       c_errors c_warnings].
  rewrite H1, H2. split; [|split].
  - symmetry. apply sited_split. exact He.
  - symmetry. apply sited_split. exact Hw.
  - exact H3.
Qed.

(** One worker with one slot in phase 1 and one task that needs three:
    the summary counts one error, and no entity shows it. *)
Example dashboard_misses_phase_saturation :
  let d := getValidationSummary SpecExamples.no_JSON "now" "later"
                                [] [phase_worker] [phase_task] in
  d_totalErrors d = 1 /\ breakdown_errors d = 0 /\ d_isValid d = false.
Proof. vm_compute. repeat split. Qed.

End DashboardFacts.

(* ================================================================== *)
(** * Part XVIII.  The order of [sortErrorsByPriority]                   *)
(* ================================================================== *)

Module SortFacts.

Import JS EnhancedValidationService ValidationUtils ObjectPrototype SortSpec.
Local Open Scope list_scope.

Lemma severity_rank_plain : forall x,
    inherited_name (f_severity x) = false ->
    severity_rank x = Ranked (priority x).
Proof.
  intros x H. unfold severity_rank, severityOrder, priority.
  destruct (String.eqb (f_severity x) "error") eqn:E1.
  { apply String.eqb_eq in E1. rewrite E1. reflexivity. }
  destruct (String.eqb (f_severity x) "warning"); [reflexivity|].
  destruct (String.eqb (f_severity x) "info"); [reflexivity|].
  rewrite H. reflexivity.
Qed.

Lemma priority_range : forall x, 1 <= priority x <= 3.
Proof.
  intros x. unfold priority.
  destruct (String.eqb (f_severity x) "warning"); [lia|].
  destruct (String.eqb (f_severity x) "info"); lia.
Qed.

Section Sorting.

Variable localeCompare : string -> string -> Z.
Hypothesis Hcollation : collation localeCompare.

Local Abbreviation compare_errors := (ValidationUtils.compare_errors localeCompare).
Local Abbreviation insert_sorted := (ValidationUtils.insert_sorted localeCompare).
Local Abbreviation plain := (fun x : finding => inherited_name (f_severity x) = false).
Local Abbreviation before := (fun a b : finding => compare_errors a b <= 0).

Lemma compare_plain : forall a b,
    plain a -> plain b ->
    compare_errors a b
    = if negb (priority a =? priority b) then priority a - priority b
      else if negb (String.eqb (f_entity a) (f_entity b))
           then localeCompare (f_entity a) (f_entity b)
           else localeCompare (f_type a) (f_type b).
Proof.
  intros a b Ha Hb. unfold ValidationUtils.compare_errors. cbv zeta.
  rewrite (severity_rank_plain a Ha), (severity_rank_plain b Hb). reflexivity.
Qed.

Lemma collation_flip : forall a b, 0 <= localeCompare a b -> localeCompare b a <= 0.
Proof.
  intros a b H. destruct Hcollation as [Hanti _].
  destruct (Z_lt_le_dec 0 (localeCompare b a)) as [Hlt|Hle]; [|exact Hle].
  apply Hanti in Hlt. lia.
Qed.

(** The comparator is total ... *)
Lemma before_total : forall a b,
    plain a -> plain b -> ~ compare_errors a b < 0 -> before b a.
Proof.
  intros a b Ha Hb H. cbv beta. rewrite (compare_plain a b Ha Hb) in H.
  rewrite (compare_plain b a Hb Ha).
  rewrite (Z.eqb_sym (priority b) (priority a)).
  destruct (priority a =? priority b) eqn:Ep; cbn [negb] in *; [|lia].
  rewrite (String.eqb_sym (f_entity b) (f_entity a)).
  destruct (String.eqb (f_entity a) (f_entity b)); cbn [negb] in *;
    apply collation_flip; lia.
Qed.

(** ... and transitive. *)
Lemma before_trans : forall a b c,
    plain a -> plain b -> plain c -> before a b -> before b c -> before a c.
Proof.
  intros a b c Ha Hb Hc Hab Hbc. cbv beta in *.
  rewrite (compare_plain a b Ha Hb) in Hab. rewrite (compare_plain b c Hb Hc) in Hbc.
  rewrite (compare_plain a c Ha Hc).
  destruct Hcollation as [Hanti [Htrans Hzero]].
  destruct (priority a =? priority b) eqn:Eab; cbn [negb] in Hab.
  2:{ apply Z.eqb_neq in Eab.
      destruct (priority b =? priority c) eqn:Ebc; cbn [negb] in Hbc.
      - apply Z.eqb_eq in Ebc.
        destruct (priority a =? priority c) eqn:Eac; cbn [negb]; [|lia].
        apply Z.eqb_eq in Eac. lia.
      - destruct (priority a =? priority c) eqn:Eac; cbn [negb]; [|lia].
        apply Z.eqb_eq in Eac. lia. }
  apply Z.eqb_eq in Eab.
  destruct (priority b =? priority c) eqn:Ebc; cbn [negb] in Hbc.
  2:{ apply Z.eqb_neq in Ebc.
      destruct (priority a =? priority c) eqn:Eac; cbn [negb]; [|lia].
      apply Z.eqb_eq in Eac. lia. }
  apply Z.eqb_eq in Ebc.
  assert (Eac : (priority a =? priority c) = true) by (apply Z.eqb_eq; lia).
  rewrite Eac. cbn [negb].
  destruct (String.eqb (f_entity a) (f_entity b)) eqn:Fab; cbn [negb] in Hab.
  - apply String.eqb_eq in Fab.
    destruct (String.eqb (f_entity b) (f_entity c)) eqn:Fbc; cbn [negb] in Hbc.
    + apply String.eqb_eq in Fbc.
      assert (Fac : String.eqb (f_entity a) (f_entity c) = true)
        by (apply String.eqb_eq; congruence).
      rewrite Fac. cbn [negb]. eapply Htrans; eassumption.
    + assert (Fac : String.eqb (f_entity a) (f_entity c) = false)
        by (rewrite Fab; exact Fbc).
      rewrite Fac. cbn [negb]. rewrite Fab. exact Hbc.
  - destruct (String.eqb (f_entity b) (f_entity c)) eqn:Fbc; cbn [negb] in Hbc.
    + apply String.eqb_eq in Fbc.
      assert (Fac : String.eqb (f_entity a) (f_entity c) = false)
        by (rewrite <- Fbc; exact Fab).
      rewrite Fac. cbn [negb]. rewrite <- Fbc. exact Hab.
    + destruct (String.eqb (f_entity a) (f_entity c)) eqn:Fac; cbn [negb].
      * exfalso. apply String.eqb_eq in Fac. rewrite <- Fac in Hbc.
        assert (H0 : localeCompare (f_entity a) (f_entity b) = 0).
        { destruct (Z_lt_le_dec (localeCompare (f_entity a) (f_entity b)) 0)
            as [Hlt|Hge]; [|lia].
          apply Hanti in Hlt. lia. }
        apply Hzero in H0. apply String.eqb_neq in Fab. contradiction.
      * eapply Htrans; eassumption.
Qed.

Lemma insert_sorted_In : forall x l z,
    In z (insert_sorted x l) <-> z = x \/ In z l.
Proof.
  intros x l z. induction l as [|y r IH]; simpl.
  - intuition.
  - destruct (compare_errors x y <? 0); simpl; [intuition|].
    rewrite IH. intuition.
Qed.

Lemma insert_sorted_Permutation : forall x l, Permutation (x :: l) (insert_sorted x l).
Proof.
  intros x l. induction l as [|y r IH]; simpl.
  - apply Permutation_refl.
  - destruct (compare_errors x y <? 0); [apply Permutation_refl|].
    eapply Permutation_trans; [apply perm_swap|]. apply perm_skip. exact IH.
Qed.

Lemma insert_sorted_ordered : forall x l,
    plain x -> Forall plain l ->
    ForallOrdPairs before l -> ForallOrdPairs before (insert_sorted x l).
Proof.
  intros x l Hx. induction l as [|y r IH]; intros Hl Hs; simpl.
  - constructor; constructor.
  - inversion Hl as [|? ? Hy Hr]. subst.
    inversion Hs as [|? ? Hyr Hsr]. subst.
    pose proof (proj1 (Forall_forall _ _) Hr) as Hr'.
    pose proof (proj1 (Forall_forall _ _) Hyr) as Hyr'.
    cbv beta in Hr', Hyr'.
    destruct (compare_errors x y <? 0) eqn:E.
    + apply Z.ltb_lt in E. constructor; [|exact Hs].
      constructor; [cbv beta; lia|]. apply Forall_forall. intros z Hz.
      apply (before_trans x y z).
      * exact Hx.
      * exact Hy.
      * apply Hr'. exact Hz.
      * cbv beta. lia.
      * apply Hyr'. exact Hz.
    + apply Z.ltb_ge in E. constructor; [|apply IH; assumption].
      apply Forall_forall. intros z Hz. apply insert_sorted_In in Hz.
      destruct Hz as [-> | Hz]; [|apply Hyr'; exact Hz].
      apply before_total; [exact Hx | exact Hy | lia].
Qed.

Lemma sort_loop : forall items sorted,
    Forall plain items -> Forall plain sorted ->
    ForallOrdPairs before sorted ->
    let r := fold_left (fun sorted x => insert_sorted x sorted) items sorted in
    Permutation (sorted ++ items) r /\ ForallOrdPairs before r /\ Forall plain r.
Proof.
  induction items as [|x items IH]; cbv zeta; intros sorted He Hp Hs; simpl.
  - rewrite app_nil_r. split; [apply Permutation_refl | split; assumption].
  - inversion He as [|? ? Hx He']. subst.
    assert (Hp' : Forall plain (insert_sorted x sorted)).
    { apply Forall_forall. intros z Hz. apply insert_sorted_In in Hz.
      destruct Hz as [-> | Hz]; [exact Hx|].
      exact (proj1 (Forall_forall _ _) Hp z Hz). }
    destruct (IH (insert_sorted x sorted) He' Hp'
                 (insert_sorted_ordered x sorted Hx Hp Hs)) as [H1 [H2 H3]].
    split; [|split; assumption].
    eapply Permutation_trans; [|exact H1].
    eapply Permutation_trans;
      [apply Permutation_sym; apply Permutation_middle|].
    apply (Permutation_app_tail items (insert_sorted_Permutation x sorted)).
Qed.

End Sorting.

Lemma ForallOrdPairs_weaken :
  forall (A : Type) (R Q : A -> A -> Prop) (l : list A),
    (forall a b, In a l -> In b l -> R a b -> Q a b) ->
    ForallOrdPairs R l -> ForallOrdPairs Q l.
Proof.
  intros A R Q l. induction l as [|x l IH]; intros H Hs; [constructor|].
  inversion Hs as [|? ? Hx Hl]. subst. constructor.
  - apply Forall_forall. intros z Hz.
    apply H; [left; reflexivity | right; exact Hz|].
    exact (proj1 (Forall_forall _ _) Hx z Hz).
  - apply IH; [|exact Hl]. intros a b Ha Hb. apply H; right; assumption.
Qed.

(** The comparison by character codes is a collation. *)
Lemma ascii_compare_refl : forall c, Ascii.compare c c = Eq.
Proof. intros c. unfold Ascii.compare. apply N.compare_refl. Qed.

Lemma string_compare_trans : forall a b c,
    String.compare a b <> Gt -> String.compare b c <> Gt -> String.compare a c <> Gt.
Proof.
  induction a as [|x a IH]; intros [|y b] [|z c] Hab Hbc; simpl in *;
    try congruence.
  unfold Ascii.compare in *.
  destruct (N.compare_spec (N_of_ascii x) (N_of_ascii y)) as [Exy|Lxy|Gxy];
    destruct (N.compare_spec (N_of_ascii y) (N_of_ascii z)) as [Eyz|Lyz|Gyz];
    destruct (N.compare_spec (N_of_ascii x) (N_of_ascii z)) as [Exz|Lxz|Gxz];
    try congruence; try lia.
  eapply IH; eassumption.
Qed.

Lemma ordinal_collation : collation ordinal_compare.
Proof.
  unfold collation, ordinal_compare. split; [|split].
  - intros a b. rewrite (String.compare_antisym b a).
    destruct (String.compare a b); simpl; lia.
  - intros a b c Hab Hbc.
    pose proof (string_compare_trans a b c) as H.
    destruct (String.compare a b); destruct (String.compare b c);
      destruct (String.compare a c); try lia;
      exfalso; apply H; congruence.
  - intros a b H. apply String.compare_eq_iff.
    destruct (String.compare a b); [reflexivity | lia | lia].
Qed.

(** X21.  [sortErrorsByPriority(errors)] returns the same findings in the
    order of its comparator, and that order is not "errors first": since
    [severityOrder['error']] is 0, which [|| 3] replaces by 3, a finding
    of severity ['error'] never comes before a warning or an info.  This
    holds when [localeCompare] is a total order on the entity and type
    names and no severity is the name of an inherited property, the
    cases in which the comparator is consistent. *)
Theorem X21_sortErrorsByPriority_puts_errors_last :
  forall (localeCompare : string -> string -> Z) (errors : list finding),
    collation localeCompare ->
    plain_severities errors = true ->
    let sorted := sortErrorsByPriority localeCompare errors in
    Permutation errors sorted
    /\ ForallOrdPairs (fun a b => compare_errors localeCompare a b <= 0) sorted
    /\ ForallOrdPairs (fun a b => f_severity a = "error"%string ->
                                  f_severity b <> "warning"%string
                                  /\ f_severity b <> "info"%string) sorted.
Proof.
  intros localeCompare items Hc Hp sorted.
  assert (Hplain : Forall (fun x => inherited_name (f_severity x) = false) items).
  { apply Forall_forall. intros x Hx. unfold plain_severities in Hp.
    rewrite forallb_forall in Hp. apply negb_true_iff. apply Hp. exact Hx. }
  destruct (sort_loop localeCompare Hc items [] Hplain (Forall_nil _)
              (FOP_nil _)) as [H1 [H2 H3]].
  cbv zeta in H1, H2, H3. fold (sortErrorsByPriority localeCompare items) in H1, H2, H3.
  fold sorted in H1, H2, H3.
  split; [exact H1|]. split; [exact H2|].
  eapply ForallOrdPairs_weaken; [|exact H2].
  intros a b Ha Hb Hab Ea. cbv beta in Hab.
  pose proof (proj1 (Forall_forall _ _) H3 a Ha) as Pa.
  pose proof (proj1 (Forall_forall _ _) H3 b Hb) as Pb.
  cbv beta in Pa, Pb.
  rewrite (compare_plain localeCompare a b Pa Pb) in Hab.
  assert (Ra : priority a = 3) by (unfold priority; rewrite Ea; reflexivity).
  split; intros Eb.
  - assert (Rb : priority b = 1) by (unfold priority; rewrite Eb; reflexivity).
    rewrite Ra, Rb in Hab. cbn in Hab. lia.
  - assert (Rb : priority b = 2) by (unfold priority; rewrite Eb; reflexivity).
    rewrite Ra, Rb in Hab. cbn in Hab. lia.
Qed.

Lemma X21_sortErrorsByPriority_witness :
  collation ordinal_compare
  /\ plain_severities four_issues = true
  /\ sortErrorsByPriority ordinal_compare four_issues
     = [issue "warning" "clients" "c"; issue "warning" "workers" "b";
        issue "info" "tasks" "a"; issue "error" "tasks" "a"]%string
  /\ (let sorted := sortErrorsByPriority ordinal_compare four_issues in
      Permutation four_issues sorted
      /\ ForallOrdPairs (fun a b => compare_errors ordinal_compare a b <= 0) sorted
      /\ ForallOrdPairs (fun a b => f_severity a = "error"%string ->
                                    f_severity b <> "warning"%string
                                    /\ f_severity b <> "info"%string) sorted).
Proof.
  split; [exact ordinal_collation|]. split; [reflexivity|].
  split; [vm_compute; reflexivity|].
  exact (X21_sortErrorsByPriority_puts_errors_last
           ordinal_compare four_issues ordinal_collation eq_refl).
Defined.

End SortFacts.
